(** * Mastering of exam documents: a shallow embedding of
      [packages/mastering/src/mastering/index.ts] and proofs about it.

    The mastering transformation takes a parsed exam document (an XML DOM
    tree handled through libxmljs2) and runs a fixed sequence of in-place
    passes over it.  The embedding keeps that shape: the document is a rose
    tree whose nodes carry a stable identity ([uid], the address of the DOM
    node), element handles are uids, and every pass is a program of a small
    state-and-error monad over the document. *)

From Stdlib Require Import String Ascii List ZArith Lia Bool Arith PeanoNat.
From Stdlib Require Import Permutation Sorted DecimalString DecimalNat DecimalZ.
Import ListNotations.

Set Implicit Arguments.
Set Warnings "-register-all".

(* ================================================================== *)
(** * SHA-256 ([crypto.createHash('sha256')], FIPS 180-4) *)
(* ================================================================== *)

Module Sha256.
Local Open Scope Z_scope.

Definition mask32 : Z := 4294967295.
Definition add32 (a b : Z) : Z := Z.land (a + b) mask32.
Definition rotr (n x : Z) : Z :=
  Z.lor (Z.shiftr x n) (Z.land (Z.shiftl x (32 - n)) mask32).
Definition shr (n x : Z) : Z := Z.shiftr x n.
Definition not32 (x : Z) : Z := Z.lxor x mask32.

Definition Ch (x y z : Z) : Z := Z.lxor (Z.land x y) (Z.land (not32 x) z).
Definition Maj (x y z : Z) : Z :=
  Z.lxor (Z.lxor (Z.land x y) (Z.land x z)) (Z.land y z).
Definition bsig0 (x : Z) : Z := Z.lxor (Z.lxor (rotr 2 x) (rotr 13 x)) (rotr 22 x).
Definition bsig1 (x : Z) : Z := Z.lxor (Z.lxor (rotr 6 x) (rotr 11 x)) (rotr 25 x).
Definition ssig0 (x : Z) : Z := Z.lxor (Z.lxor (rotr 7 x) (rotr 18 x)) (shr 3 x).
Definition ssig1 (x : Z) : Z := Z.lxor (Z.lxor (rotr 17 x) (rotr 19 x)) (shr 10 x).

(** The round constants (the first 32 bits of the fractional parts of
    the cube roots of the first 64 primes), in decimal. *)
Definition K : list Z :=
  [
    1116352408; 1899447441; 3049323471; 3921009573;
    961987163; 1508970993; 2453635748; 2870763221;
    3624381080; 310598401; 607225278; 1426881987;
    1925078388; 2162078206; 2614888103; 3248222580;
    3835390401; 4022224774; 264347078; 604807628;
    770255983; 1249150122; 1555081692; 1996064986;
    2554220882; 2821834349; 2952996808; 3210313671;
    3336571891; 3584528711; 113926993; 338241895;
    666307205; 773529912; 1294757372; 1396182291;
    1695183700; 1986661051; 2177026350; 2456956037;
    2730485921; 2820302411; 3259730800; 3345764771;
    3516065817; 3600352804; 4094571909; 275423344;
    430227734; 506948616; 659060556; 883997877;
    958139571; 1322822218; 1537002063; 1747873779;
    1955562222; 2024104815; 2227730452; 2361852424;
    2428436474; 2756734187; 3204031479; 3329325298 ].

(** Big-endian encoding of [x] on [n] bytes. *)
Fixpoint be_bytes (n : nat) (x : Z) : list Z :=
  match n with
  | O => []
  | S n' => Z.land (Z.shiftr x (8 * Z.of_nat n')) 255 :: be_bytes n' x
  end.

Definition pad (msg : list Z) : list Z :=
  let len := Z.of_nat (length msg) in
  msg ++ [128] ++ repeat 0 (Z.to_nat ((55 - len) mod 64)) ++ be_bytes 8 (8 * len).

Fixpoint words (fuel : nat) (bs : list Z) : list Z :=
  match fuel, bs with
  | S f, b0 :: b1 :: b2 :: b3 :: r =>
      (Z.shiftl b0 24 + Z.shiftl b1 16 + Z.shiftl b2 8 + b3) :: words f r
  | _, _ => []
  end.

Fixpoint schedule (n : nat) (w : list Z) : list Z :=
  match n with
  | O => w
  | S n' =>
      let t := length w in
      let get i := nth (t - i) w 0 in
      schedule n' (w ++ [add32 (add32 (ssig1 (get 2%nat)) (get 7%nat))
                                (add32 (ssig0 (get 15%nat)) (get 16%nat))])
  end.

Record regs := Regs { ra : Z; rb : Z; rc : Z; rd : Z; re : Z; rf : Z; rg : Z; rh : Z }.

Definition round (s : regs) (kw : Z * Z) : regs :=
  let t1 := add32 (add32 (add32 (rh s) (bsig1 (re s))) (Ch (re s) (rf s) (rg s)))
                  (add32 (fst kw) (snd kw)) in
  let t2 := add32 (bsig0 (ra s)) (Maj (ra s) (rb s) (rc s)) in
  Regs (add32 t1 t2) (ra s) (rb s) (rc s) (add32 (rd s) t1) (re s) (rf s) (rg s).

Definition compress (h : regs) (block : list Z) : regs :=
  let w := schedule 48 (words 16 block) in
  let s := fold_left round (combine K w) h in
  Regs (add32 (ra h) (ra s)) (add32 (rb h) (rb s)) (add32 (rc h) (rc s))
       (add32 (rd h) (rd s)) (add32 (re h) (re s)) (add32 (rf h) (rf s))
       (add32 (rg h) (rg s)) (add32 (rh h) (rh s)).

Fixpoint blocks (fuel : nat) (h : regs) (bs : list Z) : regs :=
  match fuel with
  | O => h
  | S f =>
      match bs with
      | [] => h
      | _ => blocks f (compress h (firstn 64 bs)) (skipn 64 bs)
      end
  end.

(** The initial hash value, in decimal. *)
Definition init : regs :=
  Regs 1779033703 3144134277 1013904242 2773480762
       1359893119 2600822924 528734635 1541459225.

Definition hex_digit (d : Z) : ascii :=
  ascii_of_nat (Z.to_nat (if d <? 10 then 48 + d else 87 + d)).

Fixpoint hex_word (n : nat) (x : Z) : string :=
  match n with
  | O => EmptyString
  | S n' => String (hex_digit (Z.land (Z.shiftr x (4 * Z.of_nat n')) 15)) (hex_word n' x)
  end.

Definition bytes_of_string (s : string) : list Z :=
  map (fun c => Z.of_nat (nat_of_ascii c)) (list_ascii_of_string s).

(** [hash.update(value); hash.digest('hex')]: 64 lower-case hex digits. *)
Definition digest_hex (s : string) : string :=
  let p := pad (bytes_of_string s) in
  let r := blocks (length p) init p in
  (hex_word 8 (ra r) ++ hex_word 8 (rb r) ++ hex_word 8 (rc r) ++ hex_word 8 (rd r)
   ++ hex_word 8 (re r) ++ hex_word 8 (rf r) ++ hex_word 8 (rg r) ++ hex_word 8 (rh r))%string.

End Sha256.


(* ================================================================== *)
(** * JavaScript values used by the passes *)
(* ================================================================== *)

Module Js.
Local Open Scope string_scope.

(** [String(n)] for the integers the passes print. *)
Definition String_nat (n : nat) : string := NilZero.string_of_uint (Nat.to_uint n).
Definition String_Z (z : Z) : string := NilZero.string_of_int (Z.to_int z).

(** [String(x)] where [x] may be [undefined] (what [_.max] gives on an
    empty array). *)
Definition String_opt (o : option Z) : string :=
  match o with
  | Some z => String_Z z
  | None => "undefined"
  end.

(** [Number(s)] on the integer literals of the schema's numeric
    attributes; [None] stands for every other outcome ([NaN], fractions),
    which the embedding does not follow further. *)
Definition Number (s : string) : option Z := option_map Z.of_int (NilZero.int_of_string s).

(** [s.includes(sub)] and XPath [contains(s, sub)]. *)
Fixpoint includes (sub s : string) : bool :=
  prefix sub s
  || match s with
     | EmptyString => false
     | String _ r => includes sub r
     end.

Definition isSpace (c : ascii) : bool :=
  let n := nat_of_ascii c in
  (n =? 32)%nat || ((9 <=? n)%nat && (n <=? 13)%nat).

(** [s.trim() === ''] (on ASCII white space). *)
Fixpoint isBlank (s : string) : bool :=
  match s with
  | EmptyString => true
  | String c r => isSpace c && isBlank r
  end.

Fixpoint trimStart (s : string) : string :=
  match s with
  | EmptyString => EmptyString
  | String c r => if isSpace c then trimStart r else s
  end.

Fixpoint trimEnd (s : string) : string :=
  match s with
  | EmptyString => EmptyString
  | String c r =>
      let r' := trimEnd r in
      if (r' =? "") && isSpace c then EmptyString else String c r'
  end.

(** [s.trim()] (on ASCII white space). *)
Definition trim (s : string) : string := trimEnd (trimStart s).

(** Truthiness of a [string | undefined]. *)
Definition truthy (o : option string) : bool :=
  match o with
  | Some s => negb (s =? "")
  | None => false
  end.

Definition inList (x : string) (l : list string) : bool := existsb (String.eqb x) l.

End Js.

(* ================================================================== *)
(** * lodash functions used by the passes *)
(* ================================================================== *)

Module Lodash.

Section Sorting.
Variable A : Type.
Variable le : A -> A -> bool.

(** Stable insertion of [x], an element that stood before all of [l]:
    it goes in front of the first element it is not above, so equal
    keys keep their original relative order (lodash breaks ties by
    index). *)
Fixpoint insert (x : A) (l : list A) : list A :=
  match l with
  | [] => [x]
  | y :: r => if le x y then x :: y :: r else y :: insert x r
  end.

Fixpoint sortWith (l : list A) : list A :=
  match l with
  | [] => []
  | x :: r => insert x (sortWith r)
  end.
End Sorting.

(** [_.sortBy(xs, key)] with string keys, ascending. *)
Definition sortBy (A : Type) (key : A -> string) (xs : list A) : list A :=
  sortWith (fun a b => String.leb (key a) (key b)) xs.

(** [_.orderBy(xs, key, 'desc')] with numeric keys. *)
Definition orderByDesc (A : Type) (key : A -> Z) (xs : list A) : list A :=
  sortWith (fun a b => (key b <=? key a)%Z) xs.

(** [_.take(xs, n)]: nothing for [n <= 0]. *)
Definition take (A : Type) (xs : list A) (n : Z) : list A := firstn (Z.to_nat n) xs.

Definition sum (xs : list Z) : Z := fold_right Z.add 0%Z xs.

(** [_.max(xs)]: [undefined] on the empty array. *)
Definition max (xs : list Z) : option Z :=
  match xs with
  | [] => None
  | x :: r => Some (fold_left Z.max r x)
  end.

(** [_.clamp(n, lower, upper)]. *)
Definition clamp (n lower upper : Z) : Z :=
  let n1 := if (n <=? upper)%Z then n else upper in
  if (lower <=? n1)%Z then n1 else lower.

End Lodash.

(* ================================================================== *)
(** * The document: libxmljs2 nodes and the XPath queries of the passes *)
(* ================================================================== *)

Module Dom.
Local Open Scope string_scope.

(** [ns.e] (the exam vocabulary), [ns.xhtml], anything else or none. *)
Inductive namespace := NsE | NsXhtml | NsOther.

Definition ns_eqb (a b : namespace) : bool :=
  match a, b with
  | NsE, NsE | NsXhtml, NsXhtml | NsOther, NsOther => true
  | _, _ => false
  end.

(** A DOM node.  [uid] is the identity of the node (what [===] on two
    handles compares); it never changes while the passes run. *)
Inductive node :=
| Element (uid : nat) (ns : namespace) (name : string)
          (attrs : list (string * string)) (children : list node)
| Text (uid : nat) (text : string)
| Comment (uid : nat) (text : string).

Definition uid (n : node) : nat :=
  match n with
  | Element u _ _ _ _ | Text u _ | Comment u _ => u
  end.

Definition children (n : node) : list node :=
  match n with
  | Element _ _ _ _ ch => ch
  | _ => []
  end.

Definition attrs (n : node) : list (string * string) :=
  match n with
  | Element _ _ _ a _ => a
  | _ => []
  end.

(** [node.name()]. *)
Definition name (n : node) : string :=
  match n with
  | Element _ _ nm _ _ => nm
  | Text _ _ => "text"
  | Comment _ _ => "comment"
  end.

Definition namespaceOf (n : node) : namespace :=
  match n with
  | Element _ s _ _ _ => s
  | _ => NsOther
  end.

Definition isElement (n : node) : bool :=
  match n with
  | Element _ _ _ _ _ => true
  | _ => false
  end.

Definition isComment (n : node) : bool :=
  match n with
  | Comment _ _ => true
  | _ => false
  end.

(** [c instanceof Text && c.text().trim().length === 0]. *)
Definition isBlankText (n : node) : bool :=
  match n with
  | Text _ s => Js.isBlank s
  | _ => false
  end.

(** ** Attribute lists *)

Fixpoint lookupAttr (k : string) (l : list (string * string)) : option string :=
  match l with
  | [] => None
  | (k', v) :: r => if k' =? k then Some v else lookupAttr k r
  end.

(** [element.attr(k, v)]: overwrite in place, or add at the end. *)
Fixpoint putAttr (k v : string) (l : list (string * string)) : list (string * string) :=
  match l with
  | [] => [(k, v)]
  | (k', v') :: r => if k' =? k then (k, v) :: r else (k', v') :: putAttr k v r
  end.

(** [element.attr(k)?.remove()]. *)
Definition dropAttr (k : string) (l : list (string * string)) : list (string * string) :=
  filter (fun kv => negb (fst kv =? k)) l.

(** [element.attr(k)?.value()]. *)
Definition attr (k : string) (n : node) : option string := lookupAttr k (attrs n).

Definition hasAttr (k : string) (n : node) : bool :=
  match attr k n with
  | Some _ => true
  | None => false
  end.

(** Change the attribute list of an element. *)
Definition mapAttrs (h : list (string * string) -> list (string * string)) (n : node) : node :=
  match n with
  | Element u s nm a ch => Element u s nm (h a) ch
  | _ => n
  end.

Definition withAttr (k v : string) (n : node) : node := mapAttrs (putAttr k v) n.

Definition withoutAttr (k : string) (n : node) : node := mapAttrs (dropAttr k) n.

Definition withChildren (ch : list node) (n : node) : node :=
  match n with
  | Element u s nm a _ => Element u s nm a ch
  | _ => n
  end.

(** [element.name(nm).namespace(s)]. *)
Definition renamed (s : namespace) (nm : string) (n : node) : node :=
  match n with
  | Element u _ _ a ch => Element u s nm a ch
  | _ => n
  end.

(** ** Axes *)

(** The descendants of a node, in document order. *)
Fixpoint descendants (n : node) : list node :=
  match n with
  | Element _ _ _ _ ch => flat_map (fun c => c :: descendants c) ch
  | _ => []
  end.

Definition descendantsOrSelf (n : node) : list node := n :: descendants n.

(** The descendants of a node, each with its ancestors, nearest first;
    [anc] are the ancestors of [n] itself. *)
Fixpoint descendantsCtx (anc : list node) (n : node) : list (list node * node) :=
  match n with
  | Element _ _ _ _ ch =>
      flat_map (fun c => (n :: anc, c) :: descendantsCtx (n :: anc) c) ch
  | _ => []
  end.

Definition descendantsOrSelfCtx (n : node) : list (list node * node) :=
  ([], n) :: descendantsCtx [] n.

(** [node.text()]: the text of the node and of everything below it. *)
Fixpoint textContent (n : node) : string :=
  match n with
  | Element _ _ _ _ ch => String.concat "" (map textContent ch)
  | Text _ s => s
  | Comment _ _ => ""
  end.

(** ** Node tests *)

(** [e:nm]. *)
Definition isE (nm : string) (n : node) : bool :=
  isElement n && ns_eqb (namespaceOf n) NsE && (name n =? nm).

(** [e:n1 | e:n2 | ...]. *)
Definition isEAny (names : list string) (n : node) : bool :=
  isElement n && ns_eqb (namespaceOf n) NsE && Js.inList (name n) names.

Definition isXhtmlAny (names : list string) (n : node) : bool :=
  isElement n && ns_eqb (namespaceOf n) NsXhtml && Js.inList (name n) names.

(** ** Queries relative to a node *)

(** [n.find('./e:a | ./e:b')]. *)
Definition childrenNamed (names : list string) (n : node) : list node :=
  filter (isEAny names) (children n).

(** [n.find('.//e:a | .//e:b')], in document order. *)
Definition descendantsNamed (names : list string) (n : node) : list node :=
  filter (isEAny names) (descendants n).

(** [n.find('./e:a/e:b')]. *)
Definition grandChildrenNamed (a b : string) (n : node) : list node :=
  flat_map (childrenNamed [b]) (childrenNamed [a] n).

(** The first node with identity [u] at or below [n]. *)
Definition lookup (u : nat) (n : node) : option node :=
  find (fun m => uid m =? u)%nat (descendantsOrSelf n).

(** The ancestors, nearest first, of the first node with identity [u]. *)
Definition ancestorsOf (u : nat) (n : node) : list node :=
  match find (fun p => uid (snd p) =? u)%nat (descendantsOrSelfCtx n) with
  | Some p => fst p
  | None => []
  end.

(** ** Updates below a node *)

(** Replace every node with identity [u] strictly below [n] by the
    nodes [f] makes of it: none to unlink it, one to change it. *)
Fixpoint substIn (u : nat) (f : node -> list node) (n : node) : node :=
  match n with
  | Element u' s nm a ch =>
      Element u' s nm a
        (flat_map (fun c => if (uid c =? u)%nat then f c else [substIn u f c]) ch)
  | _ => n
  end.

(** The tree without its attributes: what the queries by name and
    the identities depend on. *)
Fixpoint skel (n : node) : node :=
  match n with
  | Element u s nm _ ch => Element u s nm [] (map skel ch)
  | _ => n
  end.

(** Induction on nodes, with the hypothesis for every child. *)
Fixpoint node_ind' (P : node -> Prop)
    (HE : forall u s nm a ch, Forall P ch -> P (Element u s nm a ch))
    (HT : forall u t, P (Text u t))
    (HC : forall u t, P (Comment u t))
    (n : node) : P n :=
  match n with
  | Element u s nm a ch =>
      HE u s nm a ch
         ((fix go (l : list node) : Forall P l :=
             match l with
             | [] => Forall_nil P
             | c :: r => Forall_cons c (node_ind' HE HT HC c) (go r)
             end) ch)
  | Text u t => HT u t
  | Comment u t => HC u t
  end.

(** The largest identity in use at or below [n]. *)
Definition maxUid (n : node) : nat :=
  fold_right Nat.max 0%nat (map uid (descendantsOrSelf n)).

End Dom.

(* ================================================================== *)
(** * Mastering: data, state and collaborators *)
(* ================================================================== *)

Module Mastering.
Import Dom.
Local Open Scope string_scope.

(** A thrown error (its message), or a value. *)
Inductive Result (A : Type) :=
| Ok (a : A)
| Err (msg : string).
Arguments Ok {A} a.
Arguments Err {A} msg.

(** ** The parsed structure ([Exam], [Section], [Question], [Answer] of
    [schema.ts]); elements are held by identity. *)

Record Answer := mkAnswer { a_element : nat; a_question : nat }.

Inductive Question :=
| mkQuestion (q_element : nat) (q_childQuestions : list Question) (q_answers : list Answer).

Definition q_element (q : Question) : nat :=
  match q with mkQuestion e _ _ => e end.
Definition q_childQuestions (q : Question) : list Question :=
  match q with mkQuestion _ c _ => c end.
Definition q_answers (q : Question) : list Answer :=
  match q with mkQuestion _ _ a => a end.

(** Induction on questions, with the hypothesis for every child
    question. *)
Fixpoint Question_ind' (P : Question -> Prop)
    (H : forall element childQuestions answers,
        Forall P childQuestions -> P (mkQuestion element childQuestions answers))
    (q : Question) : P q :=
  match q with
  | mkQuestion element childQuestions answers =>
      H element childQuestions answers
        ((fix go (l : list Question) : Forall P l :=
            match l with
            | [] => Forall_nil P
            | c :: r => Forall_cons c (Question_ind' H c) (go r)
            end) childQuestions)
  end.

Record Section := mkSection { s_element : nat; s_questions : list Question }.

Record Exam := mkExam {
  e_element : nat;
  e_sections : list Section;
  e_questions : list Question;
  e_topLevelQuestions : list Question;
  e_answers : list Answer
}.

(** ** Options *)

(** A property of an options object: not there, there with the value
    [undefined], or there with a value. *)
Inductive Field (A : Type) :=
| Absent
| Undefined
| Value (a : A).
Arguments Absent {A}.
Arguments Undefined {A}.
Arguments Value {A} a.

(** [MasteringOptions] as a caller writes it. *)
Record MasteringOptions := mkMasteringOptions {
  mo_multiChoiceShuffleSecret : Field string;
  mo_removeCorrectAnswers : Field bool;
  mo_throwOnLatexError : Field bool;
  mo_groupChoiceAnswers : Field bool
}.

(** [MasteringOptions] as [masterExamVersion] reads it: every property
    read is a value or [undefined]. *)
Record Options := mkOptions {
  o_multiChoiceShuffleSecret : option string;
  o_removeCorrectAnswers : option bool;
  o_throwOnLatexError : option bool;
  o_groupChoiceAnswers : option bool
}.

Definition defaultOptions : Options :=
  {| o_multiChoiceShuffleSecret :=
       Some "tJXjzAhY3dT4B26aikG2tPmPRlWRTKXF5eVpOR2eDFz3Aj4a3FHF1jB3tswVWPhc";
     o_removeCorrectAnswers := Some true;
     o_throwOnLatexError := Some true;
     o_groupChoiceAnswers := None |}.

(** One property of [{ ...defaults, ...options }]. *)
Definition spreadField (A : Type) (default : option A) (f : Field A) : option A :=
  match f with
  | Absent => default
  | Undefined => None
  | Value a => Some a
  end.

(** [{ ...defaultOptions, ...options }]. *)
Definition optionsWithDefaults (options : option MasteringOptions) : Options :=
  match options with
  | None => defaultOptions
  | Some o =>
      {| o_multiChoiceShuffleSecret :=
           spreadField (o_multiChoiceShuffleSecret defaultOptions) (mo_multiChoiceShuffleSecret o);
         o_removeCorrectAnswers :=
           spreadField (o_removeCorrectAnswers defaultOptions) (mo_removeCorrectAnswers o);
         o_throwOnLatexError :=
           spreadField (o_throwOnLatexError defaultOptions) (mo_throwOnLatexError o);
         o_groupChoiceAnswers :=
           spreadField (o_groupChoiceAnswers defaultOptions) (mo_groupChoiceAnswers o) |}
  end.

(** ** Collaborators *)

(** The argument of [generateUuid]. *)
Record UuidMetadata := mkUuidMetadata {
  m_examCode : string;
  m_date : string;
  m_language : string;
  m_type : string
}.

(** What [getMediaMetadata] resolves to, each number already printed by
    [String]. *)
Record MediaMetadata := mkMediaMetadata {
  mm_duration : string;
  mm_width : string;
  mm_height : string
}.

(** How [render-formula] ends: an SVG, a rejection with a list of error
    strings, or any other rejection. *)
Inductive FormulaOutcome :=
| Svg (svg : string)
| FormulaErrors (errors : list string)
| OtherRejection.

(** An attachment of the result. *)
Record Attachment := mkAttachment {
  filename : string;
  restricted : bool;
  visibleInGradingInstructions : bool;
  withinGradingInstruction : bool
}.

(** Everything mastering calls and this file does not define: the
    schema validation of libxml ([schemaError] is the first error of
    level above 1, if any), the caller's [generateUuid] and
    [getMediaMetadata], [createTranslationFile],
    [createGradingStructure], the i18n lookup [i18n.t] per language,
    name space and keys, and [render-formula]. *)
Class Collaborators := {
  GradingStructure : Type;
  schemaError : node -> option string;
  generateUuid : option UuidMetadata -> string;
  createTranslationFile : node -> string;
  createGradingStructure : node -> Exam -> option bool -> GradingStructure;
  translate : string -> string -> list string -> option string;
  renderFormula : string -> option string -> option bool -> FormulaOutcome;
  getMediaMetadata : string -> string -> Result MediaMetadata
}.

(** ** The state of one [masterExamVersion] run *)

(** [root] is the tree under the exam element the run holds; [attached]
    tells whether that element is still the root of its document;
    [current] is the counter of [mkGenerateId]; [nextUid] is the
    identity the next created node gets; [uuidCalls] are the arguments
    [generateUuid] was called with, latest first. *)
Record State := mkState {
  root : node;
  attached : bool;
  current : nat;
  nextUid : nat;
  uuidCalls : list (option UuidMetadata)
}.

Definition withRoot (r : node) (s : State) : State :=
  mkState r (attached s) (current s) (nextUid s) (uuidCalls s).

Definition detach (s : State) : State :=
  mkState (root s) false (current s) (nextUid s) (uuidCalls s).

Definition M (A : Type) : Type := State -> Result A * State.

Definition ret (A : Type) (a : A) : M A := fun s => (Ok a, s).

Definition bind (A B : Type) (m : M A) (k : A -> M B) : M B :=
  fun s =>
    match m s with
    | (Ok a, s') => k a s'
    | (Err e, s') => (Err e, s')
    end.

Definition throw (A : Type) (msg : string) : M A := fun s => (Err msg, s).
Arguments throw {A} msg.

Definition gets (A : Type) (f : State -> A) : M A := fun s => (Ok (f s), s).

Definition modify (f : State -> State) : M unit := fun s => (Ok tt, f s).

Notation "x <- m ;; k" := (bind m (fun x => k))
  (at level 61, m at next level, right associativity).
Notation "m ;; k" := (bind m (fun _ => k))
  (at level 61, right associativity).

Definition forEach (A : Type) (f : A -> M unit) : list A -> M unit :=
  fix go (l : list A) : M unit :=
    match l with
    | [] => ret tt
    | x :: r => f x ;; go r
    end.

(** [xs.forEach((x, i) => ...)], counting from [i]. *)
Definition forEachFrom (A : Type) (f : A -> nat -> M unit) : list A -> nat -> M unit :=
  fix go (l : list A) (i : nat) : M unit :=
    match l with
    | [] => ret tt
    | x :: r => f x i ;; go r (S i)
    end.

Definition forEachIndexed (A : Type) (f : A -> nat -> M unit) (l : list A) : M unit :=
  forEachFrom f l 0.

Definition mapM (A B : Type) (f : A -> M B) : list A -> M (list B) :=
  fix go (l : list A) : M (list B) :=
    match l with
    | [] => ret []
    | x :: r => y <- f x ;; ys <- go r ;; ret (y :: ys)
    end.

(** ** Handles *)

(** The element a handle stands for, looked up in the tree the run
    holds. *)
Definition elementOf (u : nat) (s : State) : option node := lookup u (root s).

Definition modifyNode (u : nat) (g : node -> node) (s : State) : State :=
  if (uid (root s) =? u)%nat then withRoot (g (root s)) s
  else withRoot (substIn u (fun c => [g c]) (root s)) s.

(** [node.remove()]: unlinking the exam element itself leaves the
    document without a root. *)
Definition removeNode (u : nat) (s : State) : State :=
  if (uid (root s) =? u)%nat then detach s
  else withRoot (substIn u (fun _ => []) (root s)) s.

(** [parent.addChild(child)] for a [child] already in the tree: it is
    unlinked and becomes the last child of [parent]. *)
Definition addChild (parent child : nat) (s : State) : State :=
  match elementOf child s with
  | Some c => modifyNode parent (fun p => withChildren (children p ++ [c]) p) (removeNode child s)
  | None => s
  end.

(** [element.find('//...')]: an absolute path starts at the document,
    which is empty once the exam element is unlinked. *)
Definition findAll (p : node -> bool) (s : State) : list node :=
  if attached s then filter p (descendantsOrSelf (root s)) else [].

Definition findAllCtx (p : list node -> node -> bool) (s : State) : list (list node * node) :=
  if attached s then filter (fun x => p (fst x) (snd x)) (descendantsOrSelfCtx (root s)) else [].

(** ** [utils.ts] *)

(** Modelled from the spec: [getAttribute] of [utils.ts], which is not
    among the sources.  From its call sites: the value of the attribute,
    else the default when one is given ([null] included), else an
    error. *)
Definition getAttributeOpt (k : string) (u : nat) : M (option string) :=
  gets (fun s => match elementOf u s with Some n => attr k n | None => None end).

Definition getAttributeOr (k : string) (u : nat) (default : string) : M string :=
  v <- getAttributeOpt k u ;;
  ret (match v with Some x => x | None => default end).

Definition getAttribute (k : string) (u : nat) : M string :=
  v <- getAttributeOpt k u ;;
  match v with
  | Some x => ret x
  | None => throw ("Attribute " ++ k ++ " not found")
  end.

(** Modelled from the spec: [getNumericAttribute] of [utils.ts]:
    [getAttribute] followed by [Number]. *)
Definition toNumber (k v : string) : M Z :=
  match Js.Number v with
  | Some z => ret z
  | None => throw ("Attribute " ++ k ++ " is not an integer: " ++ v)
  end.

Definition getNumericAttributeOpt (k : string) (u : nat) : M (option Z) :=
  v <- getAttributeOpt k u ;;
  match v with
  | Some x => z <- toNumber k x ;; ret (Some z)
  | None => ret None
  end.

Definition getNumericAttributeOr (k : string) (u : nat) (default : Z) : M Z :=
  v <- getNumericAttributeOpt k u ;;
  ret (match v with Some z => z | None => default end).

Definition getNumericAttribute (k : string) (u : nat) : M Z :=
  v <- getAttribute k u ;;
  toNumber k v.

(** [element.attr(k, v)]. *)
Definition setAttribute (u : nat) (k v : string) : M unit := modify (modifyNode u (withAttr k v)).

(** [element.attr(k)?.remove()]. *)
Definition removeAttribute (u : nat) (k : string) : M unit := modify (modifyNode u (withoutAttr k)).

(** [mkGenerateId]: the counter starts at 1; each call returns it and
    steps it. *)
Definition initialId : nat := 1.

Definition generateId : M nat :=
  fun s => (Ok (current s), mkState (root s) (attached s) (S (current s)) (nextUid s) (uuidCalls s)).

(** A fresh identity for a node the run creates. *)
Definition freshUid : M nat :=
  fun s => (Ok (nextUid s), mkState (root s) (attached s) (current s) (S (nextUid s)) (uuidCalls s)).

(** ** [schema.ts] *)

(** Modelled from the spec: the element-name tables of [schema.ts],
    which is not among the sources ("Answer: tagged by kind (choice,
    dropdown, scored-text, others)"). *)
Definition choiceAnswerTypes : list string := ["choice-answer"; "dropdown-answer"].
Definition choiceAnswerOptionTypes : list string :=
  ["choice-answer-option"; "dropdown-answer-option"].
Definition answerTypes : list string :=
  ["choice-answer"; "dropdown-answer"; "text-answer"; "scored-text-answer"].
Definition attachmentTypes : list string :=
  ["attachment"; "audio"; "audio-test"; "file"; "image"; "video"].

(** Modelled from the spec: [xpathOr] of [utils.ts]; from its call
    sites, [xpathOr(names)] is the union of the paths [.//e:name]: the
    elements of these names below the context node, in document order. *)
Definition xpathOr (names : list string) (n : node) : list node := descendantsNamed names n.

(** Modelled from the spec: [queryAncestors] of [utils.ts]: the nearest
    ancestor the predicate holds of ("nearest ... ancestor"). *)
Definition queryAncestors (ancestors : list node) (p : node -> bool) : option node :=
  find p ancestors.

(** Queries through a handle; a handle that is no longer in the tree
    finds nothing. *)
Definition findBelow (names : list string) (u : nat) (s : State) : list node :=
  match elementOf u s with
  | Some n => xpathOr names n
  | None => []
  end.

Definition findChildren (names : list string) (u : nat) (s : State) : list node :=
  match elementOf u s with
  | Some n => childrenNamed names n
  | None => []
  end.

Definition findGrandChildren (a b : string) (u : nat) (s : State) : list node :=
  match elementOf u s with
  | Some n => grandChildrenNamed a b n
  | None => []
  end.

Definition nameOf (u : nat) (s : State) : string :=
  match elementOf u s with
  | Some n => name n
  | None => ""
  end.

(** ** [parseExamStructure] *)

Definition parseAnswer (element question : nat) : Answer := mkAnswer element question.

Definition nonEmpty (A : Type) (l : list A) : bool :=
  match l with
  | [] => false
  | _ => true
  end.

(** [parseQuestion] asks for the [e:question] descendants of a question
    whose nearest [e:question] ancestor is that question, and parses
    each.  [questionsIn n] is that search started at any node: the
    questions at or below [n] that have no [e:question] between
    themselves and the parent of [n], parsed. *)
Fixpoint questionsIn (n : node) : list Question :=
  match n with
  | Element u _ _ _ ch =>
      let inner := flat_map questionsIn ch in
      if isE "question" n then
        [ if nonEmpty inner then mkQuestion u inner []
          else mkQuestion u [] (map (fun a => parseAnswer (uid a) u) (xpathOr answerTypes n)) ]
      else inner
  | _ => []
  end.

Definition parseQuestion (question : node) : Question :=
  let childQuestions := flat_map questionsIn (children question) in
  if nonEmpty childQuestions then mkQuestion (uid question) childQuestions []
  else
    mkQuestion (uid question) []
      (map (fun a => parseAnswer (uid a) (uid question)) (xpathOr answerTypes question)).

Definition parseSection (element : node) : Section :=
  mkSection (uid element) (map parseQuestion (childrenNamed ["question"] element)).

(** [collect], split by the array it fills. *)
Fixpoint collectQuestions (question : Question) : list Question :=
  match question with
  | mkQuestion _ childQuestions answers =>
      question :: (if nonEmpty answers then [] else flat_map collectQuestions childQuestions)
  end.

Fixpoint collectAnswers (question : Question) : list Answer :=
  match question with
  | mkQuestion _ childQuestions answers =>
      if nonEmpty answers then answers else flat_map collectAnswers childQuestions
  end.

Definition parseExamStructure (s : State) : Exam :=
  let sections := map parseSection (findAll (isE "section") s) in
  let topLevelQuestions := flat_map s_questions sections in
  mkExam (uid (root s)) sections
         (flat_map collectQuestions topLevelQuestions)
         topLevelQuestions
         (flat_map collectAnswers topLevelQuestions).

(** ** [assertExamIsValid] *)

Definition htmlLikeExamElements : list string :=
  ["hints"; "scored-text-answers"; "localization"; "attachment"; "audio-group"].

Definition examCodesRequiringDayCode : list string := ["A"; "O"].

Definition nodeNumericAttributeOpt (k : string) (n : node) : M (option Z) :=
  match attr k n with
  | Some v => z <- toNumber k v ;; ret (Some z)
  | None => ret None
  end.

Definition nodeNumericAttribute (k : string) (n : node) : M Z :=
  match attr k n with
  | Some v => toNumber k v
  | None => throw ("Attribute " ++ k ++ " not found")
  end.

(** [xs.some(x => f(x))], stopping at the first hit. *)
Definition someM (A : Type) (f : A -> M bool) : list A -> M bool :=
  fix go (l : list A) : M bool :=
    match l with
    | [] => ret false
    | x :: r => b <- f x ;; if b then ret true else go r
    end.

Definition assertAnswerIsValid (ctx : list node * node) : M unit :=
  let (ancestors, answer) := ctx in
  let maybeParentQuestion :=
    queryAncestors ancestors
      (fun e => ns_eqb (namespaceOf e) NsE && negb (Js.inList (name e) htmlLikeExamElements)) in
  match maybeParentQuestion with
  | None => throw "All answers must be within a question."
  | Some parentQuestion =>
      if negb (name parentQuestion =? "question") then
        throw "All answers must be within a question."
      else
        match descendantsNamed ["question"] parentQuestion with
        | _ :: _ => throw "A question may not contain both answer elements and child questions"
        | [] =>
            if name answer =? "scored-text-answer" then
              maxScore <- nodeNumericAttributeOpt "max-score" answer ;;
              let acceptedAnswers := childrenNamed ["accepted-answer"] answer in
              match maxScore with
              | None =>
                  if nonEmpty acceptedAnswers then ret tt
                  else throw "A scored-text-answer element must contain either a max-score attribute or contain accepted-answers"
              | Some m =>
                  tooBig <- someM (fun acceptedAnswer =>
                                     sc <- nodeNumericAttribute "score" acceptedAnswer ;;
                                     ret (m <? sc)%Z) acceptedAnswers ;;
                  if tooBig then
                    throw "The max-score of a scored-text-answer cannot be smaller than the score of some of its accepted-answers"
                  else ret tt
              end
            else ret tt
        end
  end.

Section WithCollaborators.
Context {ext : Collaborators}.

Definition assertExamIsValid : M unit :=
doc <- gets root ;;
match schemaError doc with
| Some message => throw message
| None =>
    forEach assertAnswerIsValid
            (filter (fun x => isEAny answerTypes (snd x)) (descendantsCtx [] doc)) ;;
    let examCode := match attr "exam-code" doc with Some c => c | None => "" end in
    let dayCode := match attr "day-code" doc with Some c => c | None => "" end in
    (if negb (dayCode =? "") then
       if negb (Js.inList examCode examCodesRequiringDayCode) then
         throw ("Invalid exam-code " ++ examCode ++ " for day-code " ++ dayCode)
       else ret tt
     else
       if Js.inList examCode examCodesRequiringDayCode then
         throw ("Invalid empty day-code for exam-code " ++ examCode)
       else ret tt) ;;
    audiosInExternalMaterialWithTimes <-
      gets (findAllCtx (fun ancestors e =>
                          isE "audio" e && hasAttr "times" e
                          && existsb (isE "external-material") ancestors)) ;;
    if nonEmpty audiosInExternalMaterialWithTimes then
      throw "External material must not contain audio with times attribute"
    else ret tt
end.

(** ** Metadata and identifiers *)

Definition callGenerateUuid (metadata : option UuidMetadata) : M string :=
fun s =>
  (Ok (generateUuid metadata),
   mkState (root s) (attached s) (current s) (nextUid s) (metadata :: uuidCalls s)).

Definition addExamMetadata (exam : nat) (language type : string) : M unit :=
examCode <- getAttributeOpt "exam-code" exam ;;
date <- getAttributeOpt "date" exam ;;
let metadata :=
  match examCode, date with
  | Some c, Some d => Some (mkUuidMetadata c d language type)
  | _, _ => None
  end in
examUuid <- callGenerateUuid metadata ;;
setAttribute exam "exam-uuid" examUuid ;;
setAttribute exam "exam-lang" language ;;
setAttribute exam "exam-type" type ;;
setAttribute exam "exam-schema-version" "0.1".

Definition addQuestionIds : M unit :=
exam <- gets parseExamStructure ;;
forEach (fun answer => id <- generateId ;;
                       setAttribute (a_element answer) "question-id" (Js.String_nat id))
        (e_answers exam).

(** ** [applyLocalizations] *)

(** The test of the last query of [applyLocalizations]:
  [(@lang and @lang != language) or
   (@exam-type and not(contains(@exam-type, type)))] on an [e:]
  element. *)
Definition isForOtherVersion (language type : string) (e : node) : bool :=
isElement e && ns_eqb (namespaceOf e) NsE
&& (match attr "lang" e with Some l => negb (l =? language) | None => false end
    || match attr "exam-type" e with Some t => negb (Js.includes type t) | None => false end).

Definition applyLocalization (language type : string) (localization : nat) : M unit :=
el <- gets (elementOf localization) ;;
match el with
| None => ret tt (* unlinked with an enclosing localization: nothing left to do in the document *)
| Some l =>
    let lang := match attr "lang" l with Some x => x | None => language end in
    let examType := match attr "exam-type" l with Some x => x | None => type end in
    if negb (lang =? language) || negb (Js.includes type examType)
       || forallb isBlankText (children l)
    then modify (removeNode localization)
    else
      modify (modifyNode localization (renamed NsXhtml "span")) ;;
      removeAttribute localization "exam-type"
end.

Definition applyLocalizations (exam : nat) (language type : string) : M unit :=
examVersions <- gets (findChildren ["exam-versions"] exam) ;;
match examVersions with
| v :: _ => modify (removeNode (uid v))
| [] => ret tt
end ;;
localizations <- gets (findAll (isE "localization")) ;;
forEach (applyLocalization language type) (map uid localizations) ;;
others <- gets (findAll (isForOtherVersion language type)) ;;
forEach (fun e => modify (removeNode e)) (map uid others).

(** ** [addYoCustomizations] *)

Definition subjectLanguages : list (string * string) :=
[ ("BA", "sv-FI"); ("BB", "sv_FI"); ("CA", "fi-FI"); ("CB", "fi-FI");
  ("EA", "en-GB"); ("EC", "en-GB"); ("FA", "fr-FR"); ("FC", "fr-FR");
  ("GC", "pt-PT"); ("L1", "la"); ("L7", "la"); ("PA", "es-ES");
  ("PC", "es-ES"); ("SA", "de-DE"); ("SC", "de-DE"); ("TC", "it-IT");
  ("IC", "smn-FI"); ("DC", "sme-FI"); ("QC", "sms-FI"); ("VA", "ru-RU");
  ("VC", "ru-RU") ].

Definition orEmpty (o : option string) : string :=
match o with
| Some x => x
| None => ""
end.

(** [exam.node(name, content)]: the text child an element is created
  with. *)
Definition textChild (u : nat) (content : string) : list node :=
if content =? "" then [] else [Text u content].

(** The exam element with the title in front of its children:
  [exam.node('exam-title')] holding the [span] of the full title. *)
Definition withExamTitle (t sp tx : nat) (language fullTitle : string) (e : node) : node :=
withChildren
  (Element t NsE "exam-title" []
     [Element sp NsXhtml "span" [("lang", language)] (textChild tx fullTitle)]
   :: children e) e.

(** The exam element with the footer after its children:
  [exam.node('exam-footer')] holding its [p]. *)
Definition withExamFooter (f para tx : nat) (language footerText : string) (e : node) : node :=
withChildren
  (children e ++
   [Element f NsE "exam-footer" []
      [Element para NsOther "p"
         [("lang", language); ("class", "e-text-center e-semibold")]
         (textChild tx footerText)]]) e.

(** [firstChild.addPrevSibling(...)]: the title goes in front of the
  first child of the exam element, which has to exist. *)
Definition addExamTitle (exam : nat) (language fullTitle : string) : M unit :=
firstChild <- gets (fun s => match elementOf exam s with
                             | Some e => hd_error (children e)
                             | None => None
                             end) ;;
match firstChild with
| None => throw "TypeError: Cannot read property 'addPrevSibling' of null"
| Some _ =>
    t <- freshUid ;;
    sp <- freshUid ;;
    tx <- freshUid ;;
    modify (modifyNode exam (withExamTitle t sp tx language fullTitle))
end.

Definition addExamFooter (exam : nat) (language footerText : string) : M unit :=
f <- freshUid ;;
para <- freshUid ;;
tx <- freshUid ;;
modify (modifyNode exam (withExamFooter f para tx language footerText)).

Definition addYoCustomizations (exam : nat) (language type : string) : M unit :=
maybeExamCode <- getAttributeOpt "exam-code" exam ;;
if negb (Js.truthy maybeExamCode) then ret tt
else
  let examCode := orEmpty maybeExamCode in
  dayCode <- getAttributeOpt "day-code" exam ;;
  let key := if Js.truthy dayCode then examCode ++ "_" ++ orEmpty dayCode else examCode in
  examLang <- getAttributeOpt "lang" exam ;;
  (if negb (Js.truthy examLang) then
     let maybeLang := lookupAttr key subjectLanguages in
     if Js.truthy maybeLang then setAttribute exam "lang" (orEmpty maybeLang) else ret tt
   else ret tt) ;;
  examTitle <- gets (findChildren ["exam-title"] exam) ;;
  (if nonEmpty examTitle then ret tt
   else
     let title := translate language "exam-title" [key] in
     if Js.truthy title then
       let suffix := orEmpty (translate language "exam-title" [type]) in
       let fullTitle := orEmpty title ++ (if suffix =? "" then "" else " " ++ suffix) in
       addExamTitle exam language fullTitle
     else throw ("No exam title defined for " ++ examCode)) ;;
  examFooter <- gets (findChildren ["exam-footer"] exam) ;;
  if nonEmpty examFooter then ret tt
  else addExamFooter exam language (orEmpty (translate language "exam-footer" [key; "default"])).

(** ** Numbering *)

Definition alphabet : list string :=
[ "A"; "B"; "C"; "D"; "E"; "F"; "G"; "H"; "I"; "J"; "K"; "L"; "M"; "N";
  "O"; "P"; "Q"; "R"; "S"; "T"; "U"; "V"; "W"; "X"; "Y"; "Z"; "Å"; "Ä"; "Ö" ].

(** [alphabet[i]] as the passes print it; past the end it is
  [undefined]. *)
Definition alphabetAt (i : nat) : string := nth i alphabet "undefined".

Definition addSectionNumbers (exam : Exam) : M unit :=
forEachIndexed
  (fun section i => setAttribute (s_element section) "display-number" (Js.String_nat (i + 1)))
  (e_sections exam).

Fixpoint addQuestionNumber (prefix : string) (question : Question) (index : nat) : M unit :=
match question with
| mkQuestion element childQuestions _ =>
    let displayNumber :=
      (if prefix =? "" then "" else prefix ++ ".") ++ Js.String_nat (index + 1) in
    setAttribute element "display-number" displayNumber ;;
    forEachIndexed (addQuestionNumber displayNumber) childQuestions
end.

Definition addQuestionNumbers (exam : Exam) : M unit :=
forEachIndexed (addQuestionNumber "") (e_topLevelQuestions exam).

Fixpoint addAnswerNumber (question : Question) : M unit :=
match question with
| mkQuestion element childQuestions answers =>
    questionNumber <- getAttribute "display-number" element ;;
    forEachIndexed
      (fun answer i =>
         setAttribute (a_element answer) "display-number"
           (if (length answers =? 1)%nat then questionNumber
            else questionNumber ++ "." ++ Js.String_nat (i + 1)))
      answers ;;
    forEach addAnswerNumber childQuestions
end.

Definition addAnswerNumbers (exam : Exam) : M unit :=
forEach addAnswerNumber (e_topLevelQuestions exam).

Definition addAttachmentNumbers (exam : Exam) : M unit :=
examAttachments <- gets (findGrandChildren "external-material" "attachment" (e_element exam)) ;;
forEachIndexed
  (fun attachment i => setAttribute (uid attachment) "display-number" (alphabetAt i))
  examAttachments ;;
forEach
  (fun question =>
     questionDisplayNumber <- getAttribute "display-number" (q_element question) ;;
     attachments <- gets (findGrandChildren "external-material" "attachment"
                                            (q_element question)) ;;
     forEachIndexed
       (fun attachment i =>
          setAttribute (uid attachment) "display-number"
                       (questionDisplayNumber ++ "." ++ alphabetAt i))
       attachments)
  (e_questions exam).

(** ** Shuffling and option ids *)

Definition createHash (value : string) : string := Sha256.digest_hex value.

(** [options.indexOf(option)]: by identity, [-1] when absent. *)
Fixpoint indexFrom (u : nat) (l : list node) (i : Z) : Z :=
match l with
| [] => (-1)%Z
| x :: r => if (uid x =? u)%nat then i else indexFrom u r (i + 1)%Z
end.

Definition indexOf (options : list node) (option : node) : Z := indexFrom (uid option) options 0.

Definition isNoAnswer (option : node) : bool :=
match attr "type" option with
| Some t => t =? "no-answer"
| None => false
end.

Definition shuffleAnswer (multichoiceShuffleSecret : string) (answer : nat) : M unit :=
options <- gets (findChildren choiceAnswerOptionTypes answer) ;;
questionId <- getAttribute "question-id" answer ;;
let answerKey := Js.String_nat (length options) ++ questionId in
let sortedOptions :=
  Lodash.sortBy
    (fun option =>
       createHash (answerKey ++ Js.String_Z (indexOf options option) ++ multichoiceShuffleSecret))
    options in
forEach (fun option => modify (addChild answer (uid option))) sortedOptions ;;
match find isNoAnswer options with
| Some noAnswerOption => modify (addChild answer (uid noAnswerOption))
| None => ret tt
end.

(** The answers [shuffleAnswerOptions] works on: choice and dropdown
  answers ([byName]) not marked [ordering="fixed"]
  ([_.negate(byAttribute('ordering', 'fixed'))]). *)
Definition isShuffled (s : State) (answer : nat) : bool :=
match elementOf answer s with
| Some e =>
    Js.inList (name e) choiceAnswerTypes
    && negb (match attr "ordering" e with Some v => v =? "fixed" | None => false end)
| None => false
end.

Definition shuffleAnswerOptions (exam : Exam) (multichoiceShuffleSecret : string) : M unit :=
answers <- gets (fun s => filter (isShuffled s) (map a_element (e_answers exam))) ;;
forEach (shuffleAnswer multichoiceShuffleSecret) answers.

Definition addAnswerOptionIds (exam : Exam) : M unit :=
forEach
  (fun answer =>
     let element := a_element answer in
     nm <- gets (nameOf element) ;;
     if Js.inList nm choiceAnswerTypes then
       answerOptions <- gets (findBelow choiceAnswerOptionTypes element) ;;
       forEach (fun answerOption =>
                  id <- generateId ;;
                  setAttribute (uid answerOption) "option-id" (Js.String_nat id))
               answerOptions
     else ret tt)
  (e_answers exam).

(** ** Scores *)

Definition updateMaxScoresToAnswer (element : nat) : M unit :=
nm <- gets (nameOf element) ;;
if Js.inList nm ["choice-answer"; "dropdown-answer"; "scored-text-answer"] then
  declared <- getAttributeOpt "max-score" element ;;
  match declared with
  | Some _ => ret tt
  | None =>
      options <- gets (findChildren ["choice-answer-option"; "dropdown-answer-option";
                                     "accepted-answer"] element) ;;
      scores <- mapM (fun option =>
                        sc <- nodeNumericAttributeOpt "score" option ;;
                        ret (match sc with Some z => z | None => 0%Z end))
                     options ;;
      let maxScore := Lodash.max scores in
      setAttribute element "max-score" (Js.String_opt maxScore)
  end
else ret tt.

Definition updateMaxScoresToAnswers (exam : Exam) : M unit :=
forEach (fun answer => updateMaxScoresToAnswer (a_element answer)) (e_answers exam).

(** [xs.filter(x => x !== xs[i])] on an array of distinct objects. *)
Fixpoint others (A : Type) (i : nat) (l : list A) : list A :=
match l, i with
| [], _ => []
| _ :: r, O => r
| x :: r, S j => x :: others j r
end.

Definition countSectionMaxAndMinAnswers (exam : Exam) : M unit :=
examMaxAnswers <- getNumericAttributeOpt "max-answers" (e_element exam) ;;
match examMaxAnswers with
| None => ret tt
| Some 0%Z => ret tt
| Some examMaxAnswers =>
    forEach
      (fun section =>
         declared <- getNumericAttributeOpt "max-answers" (s_element section) ;;
         match declared with
         | None =>
             setAttribute (s_element section) "max-answers"
               (Js.String_Z (Z.min (Z.of_nat (length (s_questions section))) examMaxAnswers))
         | Some _ => ret tt
         end)
      (e_sections exam) ;;
    forEachIndexed
      (fun section i =>
         maxAnswers <- getNumericAttribute "max-answers" (s_element section) ;;
         otherMaxAnswers <-
           mapM (fun otherSection => getNumericAttribute "max-answers" (s_element otherSection))
                (others i (e_sections exam)) ;;
         let otherSectionMaxAnswers := Lodash.sum otherMaxAnswers in
         let minAnswers :=
           Lodash.clamp maxAnswers 0 (examMaxAnswers - otherSectionMaxAnswers) in
         setAttribute (s_element section) "min-answers" (Js.String_Z minAnswers))
      (e_sections exam)
end.

(** The sum [countMaxScore] takes once the max-scores are read. *)
Definition bestOf (maxScores : list Z) (maxAnswers : option Z) : Z :=
Lodash.sum
  (Lodash.take (Lodash.orderByDesc (fun x => x) maxScores)
     (match maxAnswers with
      | Some k => k
      | None => Z.of_nat (length maxScores)
      end)).

Definition countMaxScore (answerables : list nat) (maxAnswers : option Z) : M Z :=
maxScores <- mapM (getNumericAttribute "max-score") answerables ;;
ret (bestOf maxScores maxAnswers).

Definition answerables (question : Question) : list nat :=
if nonEmpty (q_childQuestions question) then map q_element (q_childQuestions question)
else map a_element (q_answers question).

Fixpoint countQuestionMaxScores (question : Question) : M unit :=
match question with
| mkQuestion element childQuestions answers =>
    forEach countQuestionMaxScores childQuestions ;;
    maxAnswers <- getNumericAttributeOpt "max-answers" element ;;
    maxScore <- countMaxScore (answerables question) maxAnswers ;;
    setAttribute element "max-score" (Js.String_Z maxScore)
end.

Definition countSectionMaxScores (exam : Exam) : M unit :=
forEach
  (fun section =>
     forEach countQuestionMaxScores (s_questions section) ;;
     maxAnswers <- getNumericAttributeOpt "max-answers" (s_element section) ;;
     maxScore <- countMaxScore (map q_element (s_questions section)) maxAnswers ;;
     setAttribute (s_element section) "max-score" (Js.String_Z maxScore))
  (e_sections exam).

Definition questionsWithHighestMaxScores (section : Section) : M (list Question) :=
sectionMaxAnswers <- getNumericAttributeOpt "max-answers" (s_element section) ;;
let questions := s_questions section in
keyed <- mapM (fun question =>
                 sc <- getNumericAttribute "max-score" (q_element question) ;;
                 ret (question, sc))
              questions ;;
ret (map fst
       (Lodash.take (Lodash.orderByDesc snd keyed)
          (match sectionMaxAnswers with
           | Some k => k
           | None => Z.of_nat (length questions)
           end))).

Definition countExamMaxScore (exam : Exam) : M unit :=
examMaxAnswers <- getNumericAttributeOpt "max-answers" (e_element exam) ;;
perSection <- mapM questionsWithHighestMaxScores (e_sections exam) ;;
let questionsWithHighestMaxScoresPerSection := concat perSection in
maxScore <- countMaxScore (map q_element questionsWithHighestMaxScoresPerSection)
                          examMaxAnswers ;;
setAttribute (e_element exam) "max-score" (Js.String_Z maxScore).

Definition countMaxScores (exam : Exam) : M unit :=
countSectionMaxScores exam ;;
countExamMaxScore exam.

(** ** Redaction and clean-up *)

Definition removeAll (nodes : list node) : M unit :=
forEach (fun e => modify (removeNode e)) (map uid nodes).

Definition removeComments : M unit :=
comments <- gets (findAll isComment) ;;
removeAll comments.

Definition removeHiddenElements : M unit :=
hidden <- gets (findAll (fun e => isElement e && ns_eqb (namespaceOf e) NsE
                                  && hasAttr "hidden" e)) ;;
removeAll hidden.

Definition hvpMetadataTypes : list string :=
[ "exam-grading-instruction"; "question-grading-instruction";
  "answer-grading-instruction"; "audio-transcription" ].

Definition removeHvpMetadata (exam : nat) : M unit :=
elements <- gets (findBelow hvpMetadataTypes exam) ;;
removeAll elements.

Definition removeCorrectAnswer (element : nat) : M unit :=
nm <- gets (nameOf element) ;;
if Js.inList nm ["choice-answer"; "dropdown-answer"] then
  options <- gets (findAll (isEAny ["choice-answer-option"; "dropdown-answer-option"])) ;;
  forEach (fun option => removeAttribute (uid option) "score") options
else if nm =? "scored-text-answer" then
  accepted <- gets (findBelow ["accepted-answer"] element) ;;
  removeAll accepted
else ret tt.

Definition removeCorrectAnswers (exam : Exam) : M unit :=
forEach (fun answer => removeCorrectAnswer (a_element answer)) (e_answers exam).

Definition isTextNode (n : node) : bool :=
match n with
| Text _ _ => true
| _ => false
end.

Definition removeTableWhitespaceNodes : M unit :=
textNodes <- gets (findAllCtx (fun ancestors n =>
                     isTextNode n
                     && match ancestors with
                        | parent :: _ => isXhtmlAny ["table"; "thead"; "tbody"; "tr"] parent
                        | [] => false
                        end)) ;;
forEach (fun textNode => if isBlankText textNode then modify (removeNode (uid textNode))
                         else ret tt)
        (map snd textNodes).

(** ** Attachments, formulas, media *)

Definition addRestrictedAudioMetadata (attachments : list nat) : M unit :=
audios <- gets (fun s => filter (fun a => match elementOf a s with
                                          | Some e => (name e =? "audio") && hasAttr "times" e
                                          | None => false
                                          end) attachments) ;;
forEachIndexed (fun audio i => setAttribute audio "restricted-audio-id" (Js.String_nat i)) audios.

Definition renderFormulas (throwOnLatexError : option bool) : M unit :=
formulas <- gets (findAll (isE "formula")) ;;
forEach
  (fun formula =>
     el <- gets (elementOf formula) ;;
     match el with
     | None => ret tt
     | Some f =>
         match renderFormula (textContent f) (attr "mode" f) throwOnLatexError with
         | Svg svg => setAttribute formula "svg" svg
         | FormulaErrors errors => throw (String.concat ", " errors)
         | OtherRejection => ret tt
         end
     end)
  (map uid formulas).

Definition addMediaMetadata (attachments : list nat) : M unit :=
forEach
  (fun attachment =>
     nm <- gets (nameOf attachment) ;;
     if Js.inList nm ["audio"; "video"; "image"; "audio-test"] then
       let type := if nm =? "audio-test" then "audio" else nm in
       src <- getAttribute "src" attachment ;;
       match getMediaMetadata src type with
       | Err e => throw e
       | Ok metadata =>
           if type =? "audio" then setAttribute attachment "duration" (mm_duration metadata)
           else
             setAttribute attachment "width" (mm_width metadata) ;;
             setAttribute attachment "height" (mm_height metadata)
       end
     else ret tt)
  attachments.

Definition visibleInGradingInstructionsTypes : list string :=
[ "answer-grading-instruction"; "choice-answer-option"; "dropdown-answer-option";
  "exam-grading-instruction"; "question-grading-instruction"; "hint";
  "question-title"; "question-instruction" ].

Definition gradingInstructionTypes : list string :=
[ "exam-grading-instruction"; "question-grading-instruction"; "answer-grading-instruction" ].

Definition hasAncestorNamed (names : list string) (attachment : nat) (s : State) : bool :=
match queryAncestors (ancestorsOf attachment (root s)) (fun e => Js.inList (name e) names) with
| Some _ => true
| None => false
end.

Definition isVisibleInGradingInstructions (attachment : nat) (s : State) : bool :=
hasAncestorNamed visibleInGradingInstructionsTypes attachment s.

Definition isWithinGradingInstructions (attachment : nat) (s : State) : bool :=
hasAncestorNamed gradingInstructionTypes attachment s.

Definition attachment_eqb (a b : Attachment) : bool :=
(filename a =? filename b) && Bool.eqb (restricted a) (restricted b)
&& Bool.eqb (visibleInGradingInstructions a) (visibleInGradingInstructions b)
&& Bool.eqb (withinGradingInstruction a) (withinGradingInstruction b).

(** [_.uniqWith(xs, _.isEqual)]: the first of each class of equal
  values. *)
Fixpoint uniqWith (A : Type) (eqb : A -> A -> bool) (seen : list A) (xs : list A) : list A :=
match xs with
| [] => []
| x :: r =>
    if existsb (eqb x) seen then uniqWith eqb seen r
    else x :: uniqWith eqb (x :: seen) r
end.

Definition collectAttachments (exam : nat) (attachments : list nat) : M (list Attachment) :=
fromElements <-
  mapM (fun a =>
          src <- getAttribute "src" a ;;
          times <- getAttributeOpt "times" a ;;
          visible <- gets (isVisibleInGradingInstructions a) ;;
          within <- gets (isWithinGradingInstructions a) ;;
          ret (mkAttachment src (match times with Some _ => true | None => false end)
                            visible within))
       attachments ;;
maybeCustomStylesheet <- getAttributeOpt "exam-stylesheet" exam ;;
ret (uniqWith attachment_eqb []
       (fromElements ++
        (if Js.truthy maybeCustomStylesheet
         then [mkAttachment (orEmpty maybeCustomStylesheet) false false false]
         else []))).

(** ** [masterExamVersion] and [masterExam] *)

Record MasteringResult := mkMasteringResult {
r_attachments : list Attachment;
r_date : option string;
r_dayCode : option string;
r_examCode : option string;
r_examUuid : string;
r_gradingStructure : GradingStructure;
r_translation : string;
r_language : string;
r_title : option string;
r_type : string;
(** The mastered document: the tree that [doc.toString] prints, none
    when the exam element was unlinked from it. *)
r_xml : option node
}.

Definition masterExamVersion (language type : string) (options : Options) : M MasteringResult :=
exam_root <- gets (fun s => uid (root s)) ;;
translation <- gets (fun s => createTranslationFile (root s)) ;;
addExamMetadata exam_root language type ;;
addQuestionIds ;;
applyLocalizations exam_root language type ;;
exam <- gets parseExamStructure ;;
addYoCustomizations exam_root language type ;;
addSectionNumbers exam ;;
addQuestionNumbers exam ;;
addAnswerNumbers exam ;;
addAttachmentNumbers exam ;;
(if Js.truthy (o_multiChoiceShuffleSecret options)
 then shuffleAnswerOptions exam (orEmpty (o_multiChoiceShuffleSecret options))
 else ret tt) ;;
addAnswerOptionIds exam ;;
updateMaxScoresToAnswers exam ;;
countSectionMaxAndMinAnswers exam ;;
gradingStructure <-
  gets (fun s => createGradingStructure (root s) exam (o_groupChoiceAnswers options)) ;;
countMaxScores exam ;;
removeComments ;;
removeTableWhitespaceNodes ;;
(match o_removeCorrectAnswers options with
 | Some true =>
     removeCorrectAnswers exam ;;
     removeHiddenElements ;;
     removeHvpMetadata exam_root
 | _ => ret tt
 end) ;;
attachments <- gets (fun s => map uid (findBelow attachmentTypes exam_root s)) ;;
addRestrictedAudioMetadata attachments ;;
renderFormulas (o_throwOnLatexError options) ;;
addMediaMetadata attachments ;;
collected <- collectAttachments exam_root attachments ;;
date <- getAttributeOpt "date" exam_root ;;
dayCode <- getAttributeOpt "day-code" exam_root ;;
examCode <- getAttributeOpt "exam-code" exam_root ;;
examUuid <- getAttribute "exam-uuid" exam_root ;;
titles <- gets (findAll (isE "exam-title")) ;;
xml <- gets (fun s => if attached s then Some (root s) else None) ;;
ret (mkMasteringResult collected date dayCode examCode examUuid gradingStructure translation
       language
       (match titles with
        | t :: _ => Some (Js.trim (textContent t))
        | [] => None
        end)
       type xml).

(** The state a version starts from: the freshly parsed document, the
  id counter at 1, no [generateUuid] call yet. *)
Definition initialState (doc : node) : State :=
mkState doc true initialId (S (maxUid doc)) [].

(** [doc.find('./e:exam-versions/e:exam-version')] mapped to language
  and type. *)
Definition examVersionsOf (doc : node) : M (list (string * string)) :=
mapM (fun examVersion =>
        match attr "lang" examVersion with
        | None => throw "Attribute lang not found"
        | Some language =>
            ret (language,
                 match attr "exam-type" examVersion with
                 | Some t => t
                 | None => "normal"
                 end)
        end)
     (grandChildrenNamed "exam-versions" "exam-version" doc).

(** [Promise.all]: every result, or a rejection (here the one of the
  first version in the list that fails). *)
Fixpoint allOk (A : Type) (l : list (Result A)) : Result (list A) :=
match l with
| [] => Ok []
| Ok a :: r =>
    match allOk r with
    | Ok rs => Ok (a :: rs)
    | Err e => Err e
    end
| Err e :: _ => Err e
end.

(** What a call of [masterExam] does: its result, and the calls of
  [generateUuid] it made, in order.  Every version runs on its own
  parse of the source and makes its call before it first suspends, so
  the calls follow the order of the versions. *)
Record MasterExamRun := mkMasterExamRun {
run_result : Result (list MasteringResult);
run_uuidCalls : list (option UuidMetadata)
}.

Definition masterExam (doc : node) (options : option MasteringOptions) : MasterExamRun :=
match assertExamIsValid (initialState doc) with
| (Err e, _) => mkMasterExamRun (Err e) []
| (Ok _, _) =>
    match examVersionsOf doc (initialState doc) with
    | (Err e, _) => mkMasterExamRun (Err e) []
    | (Ok examVersions, _) =>
        let optionsWithDefaults := optionsWithDefaults options in
        let runs :=
          map (fun v => masterExamVersion (fst v) (snd v) optionsWithDefaults (initialState doc))
              examVersions in
        mkMasterExamRun (allOk (map fst runs))
                        (flat_map (fun r => rev (uuidCalls (snd r))) runs)
    end
end.

End WithCollaborators.

End Mastering.

(* ================================================================== *)
(** * Facts about the helper functions *)
(* ================================================================== *)

Import Dom Mastering.
Local Open Scope string_scope.
Local Open Scope list_scope.

Example sha256_abc :
  Sha256.digest_hex "abc"
  = "ba7816bf8f01cfea414140de5dae2223b00361a396177a9cb410ff61f20015ad".
Proof. vm_compute. reflexivity. Qed.

Example sha256_two_blocks :
  Sha256.digest_hex "abcdbcdecdefdefgefghfghighijhijkijkljklmklmnlmnomnopnopq"
  = "248d6a61d20638b8e5c026930c3e6039a33ce45964ff2167f6ecedd419db06c1".
Proof. vm_compute. reflexivity. Qed.

(** ** Printing and reading integers *)

Lemma Number_String_Z (z : Z) : Js.Number (Js.String_Z z) = Some z.
Proof.
  unfold Js.Number, Js.String_Z.
  destruct (Z.eq_dec z 0) as [-> | Hz]; [reflexivity |].
  rewrite NilZero.isi.
  - simpl. now rewrite DecimalZ.of_to.
  - intro H. apply Hz. rewrite <- (DecimalZ.of_to z), H. reflexivity.
  - intro H. apply Hz. rewrite <- (DecimalZ.of_to z), H. reflexivity.
Qed.

(** ** Lists *)

Lemma find_app_ (A : Type) (p : A -> bool) (l1 l2 : list A) :
  find p (l1 ++ l2) = match find p l1 with Some x => Some x | None => find p l2 end.
Proof.
  induction l1 as [| x l1 IH]; simpl; [reflexivity |].
  destruct (p x); [reflexivity | exact IH].
Qed.

Lemma find_map_ (A B : Type) (f : A -> B) (p : B -> bool) (l : list A) :
  find p (map f l) = option_map f (find (fun x => p (f x)) l).
Proof.
  induction l as [| x l IH]; simpl; [reflexivity |].
  destruct (p (f x)); [reflexivity | exact IH].
Qed.

Lemma find_ext_ (A : Type) (p q : A -> bool) (l : list A) :
  (forall x, p x = q x) -> find p l = find q l.
Proof.
  intros H. induction l as [| x l IH]; simpl; [reflexivity |].
  now rewrite H, IH.
Qed.

Lemma flat_map_flat_map (A B C : Type) (f : A -> list B) (g : B -> list C) (l : list A) :
  flat_map g (flat_map f l) = flat_map (fun x => flat_map g (f x)) l.
Proof.
  induction l as [| x l IH]; simpl; [reflexivity |].
  now rewrite flat_map_app, IH.
Qed.

Lemma flat_map_ext_Forall (A B : Type) (f g : A -> list B) (l : list A) :
  Forall (fun x => f x = g x) l -> flat_map f l = flat_map g l.
Proof.
  induction 1 as [| x l Hx _ IH]; simpl; [reflexivity |].
  now rewrite Hx, IH.
Qed.

Lemma map_flat_map (A B C : Type) (f : A -> list B) (g : B -> C) (l : list A) :
  map g (flat_map f l) = flat_map (fun x => map g (f x)) l.
Proof.
  induction l as [| x l IH]; simpl; [reflexivity |].
  now rewrite map_app, IH.
Qed.

Lemma flat_map_map (A B C : Type) (f : A -> B) (g : B -> list C) (l : list A) :
  flat_map g (map f l) = flat_map (fun x => g (f x)) l.
Proof.
  induction l as [| x l IH]; simpl; [reflexivity |].
  now rewrite IH.
Qed.

(** ** The skeleton of a tree *)

Lemma uid_skel (n : node) : uid (skel n) = uid n.
Proof. destruct n; reflexivity. Qed.

Lemma name_skel (n : node) : name (skel n) = name n.
Proof. destruct n; reflexivity. Qed.

Lemma namespaceOf_skel (n : node) : namespaceOf (skel n) = namespaceOf n.
Proof. destruct n; reflexivity. Qed.

Lemma isElement_skel (n : node) : isElement (skel n) = isElement n.
Proof. destruct n; reflexivity. Qed.

Lemma children_skel (n : node) : children (skel n) = map skel (children n).
Proof. destruct n; reflexivity. Qed.

Lemma isEAny_skel (names : list string) (n : node) : isEAny names (skel n) = isEAny names n.
Proof. unfold isEAny. now rewrite isElement_skel, namespaceOf_skel, name_skel. Qed.


Lemma descendants_skel (n : node) : descendants (skel n) = map skel (descendants n).
Proof.
  induction n as [u s nm a ch IH | |] using node_ind'; simpl; try reflexivity.
  rewrite flat_map_map, map_flat_map.
  apply flat_map_ext_Forall.
  eapply Forall_impl; [| exact IH]. simpl. intros c Hc. now rewrite Hc.
Qed.

Lemma lookup_skel (u : nat) (n : node) : lookup u (skel n) = option_map skel (lookup u n).
Proof.
  unfold lookup, descendantsOrSelf.
  rewrite descendants_skel.
  change (skel n :: map skel (descendants n)) with (map skel (n :: descendants n)).
  rewrite find_map_. f_equal.
  apply find_ext_. intros x. now rewrite uid_skel.
Qed.

Lemma filter_map_skel (p : node -> bool) (l : list node) :
  (forall x, p (skel x) = p x) -> filter p (map skel l) = map skel (filter p l).
Proof.
  intros Hp. induction l as [| x l IH]; simpl; [reflexivity |].
  rewrite Hp. destruct (p x); simpl; now rewrite IH.
Qed.

Lemma childrenNamed_skel (names : list string) (n : node) :
  childrenNamed names (skel n) = map skel (childrenNamed names n).
Proof.
  unfold childrenNamed. rewrite children_skel.
  apply filter_map_skel. intros x. apply isEAny_skel.
Qed.

Lemma descendantsNamed_skel (names : list string) (n : node) :
  descendantsNamed names (skel n) = map skel (descendantsNamed names n).
Proof.
  unfold descendantsNamed. rewrite descendants_skel.
  apply filter_map_skel. intros x. apply isEAny_skel.
Qed.

Lemma grandChildrenNamed_skel (a b : string) (n : node) :
  grandChildrenNamed a b (skel n) = map skel (grandChildrenNamed a b n).
Proof.
  unfold grandChildrenNamed. rewrite childrenNamed_skel, flat_map_map, map_flat_map.
  apply flat_map_ext. intros x. apply childrenNamed_skel.
Qed.

Lemma map_uid_skel (l : list node) : map uid (map skel l) = map uid l.
Proof. rewrite map_map. apply map_ext. intros x. apply uid_skel. Qed.

(** ** Changing attributes in a tree *)

(** The tree [modifyNode] leaves. *)
Definition modifyTree (u : nat) (g : node -> node) (n : node) : node :=
  if (uid n =? u)%nat then g n else substIn u (fun c => [g c]) n.

Lemma root_modifyNode (u : nat) (g : node -> node) (s : State) :
  root (modifyNode u g s) = modifyTree u g (root s).
Proof. unfold modifyNode, modifyTree. now destruct (uid (root s) =? u)%nat. Qed.

Lemma uid_mapAttrs h (n : node) : uid (mapAttrs h n) = uid n.
Proof. destruct n; reflexivity. Qed.

Lemma children_mapAttrs h (n : node) : children (mapAttrs h n) = children n.
Proof. destruct n; reflexivity. Qed.

Lemma descendants_mapAttrs h (n : node) : descendants (mapAttrs h n) = descendants n.
Proof. destruct n; reflexivity. Qed.

Lemma skel_mapAttrs h (n : node) : skel (mapAttrs h n) = skel n.
Proof. destruct n; reflexivity. Qed.

Lemma uid_substIn u f (n : node) : uid (substIn u f n) = uid n.
Proof. destruct n; reflexivity. Qed.

Lemma attrs_substIn u f (n : node) : attrs (substIn u f n) = attrs n.
Proof. destruct n; reflexivity. Qed.

Lemma name_substIn u f (n : node) : name (substIn u f n) = name n.
Proof. destruct n; reflexivity. Qed.

Lemma namespaceOf_substIn u f (n : node) : namespaceOf (substIn u f n) = namespaceOf n.
Proof. destruct n; reflexivity. Qed.

Lemma isElement_substIn u f (n : node) : isElement (substIn u f n) = isElement n.
Proof. destruct n; reflexivity. Qed.

Lemma skel_substIn_mapAttrs u h (n : node) :
  skel (substIn u (fun c => [mapAttrs h c]) n) = skel n.
Proof.
  induction n as [u' s nm a ch IH | |] using node_ind'; simpl; try reflexivity.
  f_equal. rewrite map_flat_map.
  induction IH as [| c ch Hc _ IHl]; simpl; [reflexivity |].
  rewrite IHl. destruct (uid c =? u)%nat; simpl; f_equal.
  - apply skel_mapAttrs.
  - exact Hc.
Qed.

Lemma skel_modifyTree_mapAttrs u h (n : node) : skel (modifyTree u (mapAttrs h) n) = skel n.
Proof.
  unfold modifyTree. destruct (uid n =? u)%nat.
  - apply skel_mapAttrs.
  - apply skel_substIn_mapAttrs.
Qed.

(** The attributes seen through a handle after a change of attributes
    at [u]. *)
Definition attrsAfter (u : nat) h (x : node) : list (string * string) :=
  if (uid x =? u)%nat then attrs (mapAttrs h x) else attrs x.

Lemma find_uid_some (u : nat) (l : list node) (x : node) :
  find (fun m => (uid m =? u)%nat) l = Some x -> uid x = u.
Proof. intros H. apply find_some in H. now apply Nat.eqb_eq. Qed.

Lemma attrs_find_substIn_mapAttrs u h u' (n : node) :
  option_map attrs
    (find (fun m => (uid m =? u')%nat) (descendants (substIn u (fun c => [mapAttrs h c]) n)))
  = option_map (attrsAfter u h) (find (fun m => (uid m =? u')%nat) (descendants n)).
Proof.
  induction n as [u0 s nm a ch IH | |] using node_ind'; simpl; try reflexivity.
  rewrite flat_map_flat_map.
  induction IH as [| c ch Hc _ IHl]; simpl; [reflexivity |].
  destruct (uid c =? u)%nat eqn:Ecu; simpl.
  - rewrite uid_mapAttrs, descendants_mapAttrs.
    destruct (uid c =? u')%nat eqn:Ecu'; simpl.
    + unfold attrsAfter. now rewrite Ecu.
    + rewrite app_nil_r, !find_app_.
      destruct (find (fun m => (uid m =? u')%nat) (descendants c)) as [x |] eqn:Ex; simpl.
      * unfold attrsAfter. apply find_uid_some in Ex.
        apply Nat.eqb_eq in Ecu. apply Nat.eqb_neq in Ecu'.
        assert (Hx : (uid x =? u)%nat = false) by (apply Nat.eqb_neq; congruence).
        now rewrite Hx.
      * exact IHl.
  - rewrite uid_substIn.
    destruct (uid c =? u')%nat eqn:Ecu'; simpl.
    + unfold attrsAfter. now rewrite Ecu, attrs_substIn.
    + rewrite app_nil_r, !find_app_.
      destruct (find (fun m => (uid m =? u')%nat)
                     (descendants (substIn u (fun c0 => [mapAttrs h c0]) c))) as [y |] eqn:Ey;
        destruct (find (fun m => (uid m =? u')%nat) (descendants c)) as [x |] eqn:Ex;
        simpl in Hc; try discriminate Hc.
      * simpl. exact Hc.
      * exact IHl.
Qed.

Lemma attrs_lookup_modifyTree u h u' (n : node) :
  option_map attrs (lookup u' (modifyTree u (mapAttrs h) n))
  = option_map (attrsAfter u h) (lookup u' n).
Proof.
  unfold lookup, descendantsOrSelf, modifyTree.
  destruct (uid n =? u)%nat eqn:Enu; simpl.
  - rewrite uid_mapAttrs, descendants_mapAttrs.
    destruct (uid n =? u')%nat eqn:Enu'; simpl.
    + unfold attrsAfter. now rewrite Enu.
    + destruct (find (fun m => (uid m =? u')%nat) (descendants n)) as [x |] eqn:Ex; simpl;
        [| reflexivity].
      unfold attrsAfter. apply find_uid_some in Ex.
      apply Nat.eqb_eq in Enu. apply Nat.eqb_neq in Enu'.
      assert (Hx : (uid x =? u)%nat = false) by (apply Nat.eqb_neq; congruence).
      now rewrite Hx.
  - rewrite uid_substIn.
    destruct (uid n =? u')%nat eqn:Enu'; simpl.
    + unfold attrsAfter. now rewrite Enu, attrs_substIn.
    + apply attrs_find_substIn_mapAttrs.
Qed.

(** ** The attributes seen through handles *)

(** What [getAttribute(k, u, null)] reads in state [s]. *)
Definition attrAt (s : State) (u : nat) (k : string) : option string :=
  match elementOf u s with
  | Some n => attr k n
  | None => None
  end.

(** The handle [u] denotes an element of the tree. *)
Definition isElementAt (s : State) (u : nat) : bool :=
  match elementOf u s with
  | Some n => isElement n
  | None => false
  end.

(** What the queries by name see of a state. *)
Definition shape (s : State) : node := skel (root s).

Lemma lookupAttr_putAttr k v k' (l : list (string * string)) :
  lookupAttr k' (putAttr k v l) = if k' =? k then Some v else lookupAttr k' l.
Proof.
  induction l as [| [k0 v0] l IH]; simpl.
  - rewrite String.eqb_sym. destruct (k' =? k); reflexivity.
  - destruct (k0 =? k) eqn:E0; simpl.
    + apply String.eqb_eq in E0. subst k0.
      rewrite (String.eqb_sym k k'). destruct (k' =? k); reflexivity.
    + destruct (k0 =? k') eqn:E1.
      * apply String.eqb_eq in E1. subst k0. now rewrite E0.
      * exact IH.
Qed.

Lemma lookupAttr_dropAttr k k' (l : list (string * string)) :
  lookupAttr k' (dropAttr k l) = if k' =? k then None else lookupAttr k' l.
Proof.
  induction l as [| [k0 v0] l IH]; simpl.
  - destruct (k' =? k); reflexivity.
  - destruct (k0 =? k) eqn:E0; simpl.
    + rewrite IH. apply String.eqb_eq in E0. subst k0.
      rewrite (String.eqb_sym k k'). destruct (k' =? k); reflexivity.
    + rewrite IH. destruct (k0 =? k') eqn:E1; [| reflexivity].
      apply String.eqb_eq in E1. subst k0. now rewrite E0.
Qed.

Lemma isElementAt_shape (s : State) (u : nat) :
  isElementAt s u = match lookup u (shape s) with Some n => isElement n | None => false end.
Proof.
  unfold isElementAt, elementOf, shape. rewrite lookup_skel.
  destruct (lookup u (root s)) as [n |]; simpl; [| reflexivity].
  now rewrite isElement_skel.
Qed.

Lemma shape_modifyNode_mapAttrs u h (s : State) :
  shape (modifyNode u (mapAttrs h) s) = shape s.
Proof. unfold shape. rewrite root_modifyNode. apply skel_modifyTree_mapAttrs. Qed.

Lemma elementOf_uid (s : State) (u : nat) (n : node) : elementOf u s = Some n -> uid n = u.
Proof. unfold elementOf, lookup. apply find_uid_some. Qed.

Lemma attrAt_modifyNode_mapAttrs u h (s : State) u' k' :
  attrAt (modifyNode u (mapAttrs h) s) u' k'
  = match elementOf u' s with
    | Some n => lookupAttr k' (if (u' =? u)%nat then attrs (mapAttrs h n) else attrs n)
    | None => None
    end.
Proof.
  unfold attrAt, elementOf. rewrite root_modifyNode.
  pose proof (attrs_lookup_modifyTree u h u' (root s)) as H.
  destruct (lookup u' (modifyTree u (mapAttrs h) (root s))) as [y |] eqn:Ey;
    destruct (lookup u' (root s)) as [x |] eqn:Ex; simpl in H; try discriminate H;
    [| reflexivity].
  injection H as H. unfold attr. rewrite H. unfold attrsAfter.
  apply find_uid_some in Ex. now rewrite Ex.
Qed.

Lemma attrAt_setAttr_other u k v (s : State) u' k' :
  u' <> u \/ k' <> k ->
  attrAt (modifyNode u (withAttr k v) s) u' k' = attrAt s u' k'.
Proof.
  intros H. unfold withAttr. rewrite attrAt_modifyNode_mapAttrs. unfold attrAt.
  destruct (elementOf u' s) as [n |]; [| reflexivity].
  destruct (u' =? u)%nat eqn:E; [| reflexivity].
  apply Nat.eqb_eq in E. destruct H as [H | H]; [contradiction |].
  destruct n; simpl; try reflexivity.
  rewrite lookupAttr_putAttr. apply String.eqb_neq in H. now rewrite H.
Qed.

Lemma attrAt_setAttr_same u k v (s : State) :
  isElementAt s u = true ->
  attrAt (modifyNode u (withAttr k v) s) u k = Some v.
Proof.
  intros H. unfold withAttr. rewrite attrAt_modifyNode_mapAttrs.
  unfold isElementAt in H.
  destruct (elementOf u s) as [n |]; [| discriminate H].
  rewrite Nat.eqb_refl. destruct n; simpl in *; try discriminate H.
  rewrite lookupAttr_putAttr. now rewrite String.eqb_refl.
Qed.

Lemma isElementAt_modifyNode_mapAttrs u h (s : State) u' :
  isElementAt (modifyNode u (mapAttrs h) s) u' = isElementAt s u'.
Proof. now rewrite !isElementAt_shape, shape_modifyNode_mapAttrs. Qed.

(** ** Running programs *)

(** Total correctness: from a state of [P], [m] returns a value and a
    state of [Q]. *)
Definition hoare (A : Type) (P : State -> Prop) (m : M A) (Q : A -> State -> Prop) : Prop :=
  forall s, P s -> exists a s', m s = (Ok a, s') /\ Q a s'.

Lemma hoare_ret (A : Type) (P : State -> Prop) (a : A) (Q : A -> State -> Prop) :
  (forall s, P s -> Q a s) -> hoare P (ret a) Q.
Proof. intros H s Hs. exists a, s. split; [reflexivity | auto]. Qed.

Lemma hoare_bind (A B : Type) (P : State -> Prop) (m : M A) (R : A -> State -> Prop)
      (k : A -> M B) (Q : B -> State -> Prop) :
  hoare P m R -> (forall a, hoare (R a) (k a) Q) -> hoare P (bind m k) Q.
Proof.
  intros Hm Hk s Hs. destruct (Hm s Hs) as (a & s1 & E1 & HR).
  destruct (Hk a s1 HR) as (b & s2 & E2 & HQ).
  exists b, s2. split; [| exact HQ]. unfold bind. now rewrite E1.
Qed.

Lemma hoare_gets (A : Type) (P : State -> Prop) (f : State -> A) (Q : A -> State -> Prop) :
  (forall s, P s -> Q (f s) s) -> hoare P (gets f) Q.
Proof. intros H s Hs. exists (f s), s. split; [reflexivity | auto]. Qed.

Lemma hoare_modify (P : State -> Prop) (f : State -> State) (Q : unit -> State -> Prop) :
  (forall s, P s -> Q tt (f s)) -> hoare P (modify f) Q.
Proof. intros H s Hs. exists tt, (f s). split; [reflexivity | auto]. Qed.

Lemma hoare_conseq (A : Type) (P P' : State -> Prop) (m : M A) (Q Q' : A -> State -> Prop) :
  hoare P' m Q' -> (forall s, P s -> P' s) -> (forall a s, Q' a s -> Q a s) -> hoare P m Q.
Proof.
  intros H HP HQ s Hs. destruct (H s (HP s Hs)) as (a & s' & E & Hq).
  exists a, s'. split; [exact E | now apply HQ].
Qed.

(** A loop with an invariant over the part of the list already
    done. *)
Lemma hoare_forEachFrom (A : Type) (f : A -> nat -> M unit) (I : list A -> State -> Prop)
      (l : list A) :
  (forall done x rest, l = done ++ x :: rest ->
     hoare (I done) (f x (length done)) (fun _ => I (done ++ [x]))) ->
  hoare (I []) (forEachFrom f l 0) (fun _ => I l).
Proof.
  intros Hstep.
  assert (G : forall rest done, l = done ++ rest ->
              hoare (I done) (forEachFrom f rest (length done)) (fun _ => I l)).
  { induction rest as [| x rest IH]; intros done E.
    - rewrite app_nil_r in E. rewrite E. apply hoare_ret. auto.
    - simpl. eapply hoare_bind.
      + apply (Hstep done x rest E).
      + intros []. specialize (IH (done ++ [x])).
        rewrite length_app in IH. simpl in IH. rewrite Nat.add_1_r in IH.
        apply IH. rewrite <- app_assoc. exact E. }
  apply (G l []). reflexivity.
Qed.

Lemma hoare_forEachIndexed (A : Type) (f : A -> nat -> M unit) (I : list A -> State -> Prop)
      (l : list A) :
  (forall done x rest, l = done ++ x :: rest ->
     hoare (I done) (f x (length done)) (fun _ => I (done ++ [x]))) ->
  hoare (I []) (forEachIndexed f l) (fun _ => I l).
Proof. apply hoare_forEachFrom. Qed.

Lemma hoare_forEach (A : Type) (f : A -> M unit) (I : list A -> State -> Prop) (l : list A) :
  (forall done x rest, l = done ++ x :: rest ->
     hoare (I done) (f x) (fun _ => I (done ++ [x]))) ->
  hoare (I []) (forEach f l) (fun _ => I l).
Proof.
  intros Hstep.
  assert (G : forall rest done, l = done ++ rest ->
              hoare (I done) (forEach f rest) (fun _ => I l)).
  { induction rest as [| x rest IH]; intros done E.
    - rewrite app_nil_r in E. rewrite E. apply hoare_ret. auto.
    - simpl. eapply hoare_bind.
      + apply (Hstep done x rest E).
      + intros []. apply IH. rewrite <- app_assoc. exact E. }
  apply (G l []). reflexivity.
Qed.

(** Reading a list of values without changing the state. *)
Lemma hoare_mapM_pure (A B : Type) (f : A -> M B) (g : A -> B) (P : State -> Prop)
      (l : list A) :
  (forall x, In x l -> hoare P (f x) (fun b s' => b = g x /\ P s')) ->
  hoare P (mapM f l) (fun bs s' => bs = map g l /\ P s').
Proof.
  induction l as [| x l IH]; intros H; simpl.
  - apply hoare_ret. auto.
  - eapply hoare_bind; [apply H; now left |].
    intros b. simpl. intros s [-> Hs].
    destruct (IH (fun y Hy => H y (or_intror Hy)) s Hs) as (bs & s' & E & -> & Hs').
    exists (g x :: map g l), s'. split; [| auto].
    unfold bind. now rewrite E.
Qed.

(* ================================================================== *)
(** * Relations every pass keeps *)
(* ================================================================== *)

(** [keeps I m]: whatever [m] does, and whether it returns or throws,
    the state it leaves is related by [I] to the state it started
    from. *)
Definition keeps (I : State -> State -> Prop) (A : Type) (m : M A) : Prop :=
  forall s, I s (snd (m s)).

(** A relation between states with what the primitive steps do to it:
    [keys] are the attributes that may be written or removed, [moves]
    tells whether children may be reordered ([addChild]), [uuids]
    whether [generateUuid] may be called. *)
Class Kept (I : State -> State -> Prop) (keys : list string) (moves uuids : Prop) := {
  kept_refl : forall s, I s s;
  kept_trans : forall s1 s2 s3, I s1 s2 -> I s2 s3 -> I s1 s3;
  kept_setAttr : forall u k v s, In k keys -> I s (modifyNode u (withAttr k v) s);
  kept_removeAttr : forall u k s, In k keys -> I s (modifyNode u (withoutAttr k) s);
  kept_rename : forall u s, I s (modifyNode u (renamed NsXhtml "span") s);
  kept_remove : forall u s, I s (removeNode u s);
  kept_addExamTitle : forall exam language fullTitle,
      keeps I (addExamTitle exam language fullTitle);
  kept_addExamFooter : forall exam language footerText,
      keeps I (addExamFooter exam language footerText);
  kept_addChild : moves -> forall p c s, I s (addChild p c s);
  kept_generateId : forall s, I s (snd (generateId s));
  kept_generateUuid : uuids -> forall (ext : Collaborators) metadata s,
      I s (snd (callGenerateUuid metadata s))
}.

Section Keeps.
Context {ext : Collaborators}.
Context {I : State -> State -> Prop} {keys : list string} {moves uuids : Prop}.
Context {K : Kept I keys moves uuids}.

Let I_refl := kept_refl (Kept := K).
Let I_trans := kept_trans (Kept := K).

Lemma keeps_ret (A : Type) (a : A) : keeps I (ret a).
Proof. intros s. apply I_refl. Qed.

Lemma keeps_throw (A : Type) (msg : string) : keeps I (@throw A msg).
Proof. intros s. apply I_refl. Qed.

Lemma keeps_gets (A : Type) (f : State -> A) : keeps I (gets f).
Proof. intros s. apply I_refl. Qed.

Lemma keeps_bind (A B : Type) (m : M A) (k : A -> M B) :
  keeps I m -> (forall a, keeps I (k a)) -> keeps I (bind m k).
Proof.
  intros Hm Hk s. unfold bind. specialize (Hm s).
  destruct (m s) as [[a | e] s1]; simpl in *.
  - eapply I_trans; [exact Hm | apply Hk].
  - exact Hm.
Qed.

Lemma keeps_modify (f : State -> State) : (forall s, I s (f s)) -> keeps I (modify f).
Proof. intros H s. apply H. Qed.

Lemma keeps_forEach (A : Type) (f : A -> M unit) (l : list A) :
  (forall x, In x l -> keeps I (f x)) -> keeps I (forEach f l).
Proof.
  induction l as [| x l IH]; intros H; simpl.
  - apply keeps_ret.
  - apply keeps_bind; [apply H; now left |].
    intros _. apply IH. intros y Hy. apply H. now right.
Qed.

Lemma keeps_forEachFrom (A : Type) (f : A -> nat -> M unit) (l : list A) (i : nat) :
  (forall x j, In x l -> keeps I (f x j)) -> keeps I (forEachFrom f l i).
Proof.
  revert i. induction l as [| x l IH]; intros i H; simpl.
  - apply keeps_ret.
  - apply keeps_bind; [apply H; now left |].
    intros _. apply IH. intros y j Hy. apply H. now right.
Qed.

Lemma keeps_forEachIndexed (A : Type) (f : A -> nat -> M unit) (l : list A) :
  (forall x j, In x l -> keeps I (f x j)) -> keeps I (forEachIndexed f l).
Proof. apply keeps_forEachFrom. Qed.

Lemma keeps_mapM (A B : Type) (f : A -> M B) (l : list A) :
  (forall x, In x l -> keeps I (f x)) -> keeps I (mapM f l).
Proof.
  induction l as [| x l IH]; intros H; simpl.
  - apply keeps_ret.
  - apply keeps_bind; [apply H; now left |].
    intros b. apply keeps_bind; [apply IH; intros y Hy; apply H; now right |].
    intros bs. apply keeps_ret.
Qed.

Lemma keeps_someM (A : Type) (f : A -> M bool) (l : list A) :
  (forall x, keeps I (f x)) -> keeps I (someM f l).
Proof.
  intros H. induction l as [| x l IH]; simpl.
  - apply keeps_ret.
  - apply keeps_bind; [apply H |].
    intros [|]; [apply keeps_ret | exact IH].
Qed.

Lemma keeps_setAttribute u k v : In k keys -> keeps I (setAttribute u k v).
Proof. intros H s. now apply kept_setAttr. Qed.

Lemma keeps_removeAttribute u k : In k keys -> keeps I (removeAttribute u k).
Proof. intros H s. now apply kept_removeAttr. Qed.

Lemma keeps_getAttributeOpt k u : keeps I (getAttributeOpt k u).
Proof. apply keeps_gets. Qed.

Lemma keeps_toNumber k v : keeps I (toNumber k v).
Proof. unfold toNumber. destruct (Js.Number v); [apply keeps_ret | apply keeps_throw]. Qed.

Lemma keeps_getAttribute k u : keeps I (getAttribute k u).
Proof.
  unfold getAttribute. apply keeps_bind; [apply keeps_getAttributeOpt |].
  intros [x |]; [apply keeps_ret | apply keeps_throw].
Qed.

Lemma keeps_getAttributeOr k u d : keeps I (getAttributeOr k u d).
Proof.
  unfold getAttributeOr. apply keeps_bind; [apply keeps_getAttributeOpt |].
  intros a. apply keeps_ret.
Qed.

Lemma keeps_getNumericAttributeOpt k u : keeps I (getNumericAttributeOpt k u).
Proof.
  unfold getNumericAttributeOpt. apply keeps_bind; [apply keeps_getAttributeOpt |].
  intros [x |]; [| apply keeps_ret].
  apply keeps_bind; [apply keeps_toNumber | intros z; apply keeps_ret].
Qed.

Lemma keeps_getNumericAttribute k u : keeps I (getNumericAttribute k u).
Proof.
  unfold getNumericAttribute. apply keeps_bind; [apply keeps_getAttribute |].
  intros v. apply keeps_toNumber.
Qed.

Lemma keeps_nodeNumericAttributeOpt k n : keeps I (nodeNumericAttributeOpt k n).
Proof.
  unfold nodeNumericAttributeOpt. destruct (attr k n); [| apply keeps_ret].
  apply keeps_bind; [apply keeps_toNumber | intros z; apply keeps_ret].
Qed.

Lemma keeps_nodeNumericAttribute k n : keeps I (nodeNumericAttribute k n).
Proof.
  unfold nodeNumericAttribute. destruct (attr k n); [apply keeps_toNumber | apply keeps_throw].
Qed.

Lemma keeps_generateId : keeps I generateId.
Proof. intros s. apply kept_generateId. Qed.

Lemma keeps_removeAll (nodes : list node) : keeps I (removeAll nodes).
Proof.
  unfold removeAll. apply keeps_forEach. intros u _. apply keeps_modify. apply kept_remove.
Qed.

End Keeps.

(** ** Every pass keeps the relation *)

Lemma inList_In (k : string) (ks : list string) : Js.inList k ks = true -> In k ks.
Proof.
  unfold Js.inList. rewrite existsb_exists. intros (x & Hx & E).
  apply String.eqb_eq in E. now subst.
Qed.

Lemma incl_inList (ks keys : list string) :
  forallb (fun k => Js.inList k keys) ks = true -> incl ks keys.
Proof.
  rewrite forallb_forall. intros H k Hk. apply inList_In. now apply H.
Qed.

Ltac key_tac :=
  lazymatch goal with
  | |- In _ ?ks =>
      first
        [ match goal with
          | H : incl _ ks |- _ => apply H; simpl; tauto
          end
        | apply inList_In; reflexivity ]
  | |- incl _ ?ks =>
      first
        [ assumption
        | apply incl_inList; reflexivity
        | match goal with
          | H : incl _ ks |- _ =>
              let k := fresh "k" in
              let Hk := fresh "Hk" in
              intros k Hk; apply H; simpl in *; tauto
          end ]
  end.

Ltac flag_tac := first [assumption | exact Logic.I].

Ltac keeps_step sub :=
  lazymatch goal with
  | |- keeps _ (ret _) => apply keeps_ret
  | |- keeps _ (throw _) => apply keeps_throw
  | |- keeps _ (gets _) => apply keeps_gets
  | |- keeps _ (getAttributeOpt _ _) => apply keeps_getAttributeOpt
  | |- keeps _ (getAttribute _ _) => apply keeps_getAttribute
  | |- keeps _ (getAttributeOr _ _ _) => apply keeps_getAttributeOr
  | |- keeps _ (getNumericAttributeOpt _ _) => apply keeps_getNumericAttributeOpt
  | |- keeps _ (getNumericAttribute _ _) => apply keeps_getNumericAttribute
  | |- keeps _ (nodeNumericAttributeOpt _ _) => apply keeps_nodeNumericAttributeOpt
  | |- keeps _ (nodeNumericAttribute _ _) => apply keeps_nodeNumericAttribute
  | |- keeps _ (toNumber _ _) => apply keeps_toNumber
  | |- keeps _ generateId => apply keeps_generateId
  | |- keeps _ (removeAll _) => apply keeps_removeAll
  | |- keeps _ (setAttribute _ _ _) => apply keeps_setAttribute; key_tac
  | |- keeps _ (removeAttribute _ _) => apply keeps_removeAttribute; key_tac
  | |- keeps _ (modify (removeNode _)) => apply keeps_modify; intros ?; apply kept_remove
  | |- keeps _ (modify (modifyNode _ (renamed _ _))) =>
      apply keeps_modify; intros ?; apply kept_rename
  | |- keeps _ (modify (addChild _ _)) =>
      apply keeps_modify; intros ?; apply kept_addChild; flag_tac
  | |- keeps _ (addExamTitle _ _ _) => apply kept_addExamTitle
  | |- keeps _ (addExamFooter _ _ _) => apply kept_addExamFooter
  | |- keeps _ (callGenerateUuid _) => intros ?; apply kept_generateUuid; flag_tac
  | |- keeps _ (bind _ _) => apply keeps_bind; [| intros ?]
  | |- keeps _ (forEach _ _) => apply keeps_forEach; intros ? ?
  | |- keeps _ (forEachIndexed _ _) => apply keeps_forEachIndexed; intros ? ? ?
  | |- keeps _ (mapM _ _) => apply keeps_mapM; intros ? ?
  | |- keeps _ (someM _ _) => apply keeps_someM; intros ?
  | |- keeps _ (match ?x with _ => _ end) => destruct x
  | |- keeps _ (let (_, _) := ?x in _) => destruct x
  | |- _ => sub
  end.

Ltac keeps_with sub := repeat (keeps_step sub).
Ltac keeps_tac := keeps_with fail.

Section KeepsPasses.
Context {ext : Collaborators}.
Context {I : State -> State -> Prop} {keys : list string} {moves uuids : Prop}.
Context {K : Kept I keys moves uuids}.

Lemma keeps_assertAnswerIsValid ctx : keeps I (assertAnswerIsValid ctx).
Proof. unfold assertAnswerIsValid. destruct ctx as [ancestors answer]. keeps_tac. Qed.

Lemma keeps_assertExamIsValid : keeps I assertExamIsValid.
Proof.
  unfold assertExamIsValid. keeps_with ltac:(apply keeps_assertAnswerIsValid).
Qed.

Lemma keeps_addExamMetadata exam language type :
  uuids ->
  incl ["exam-uuid"; "exam-lang"; "exam-type"; "exam-schema-version"] keys ->
  keeps I (addExamMetadata exam language type).
Proof. intros Hu Hk. unfold addExamMetadata. keeps_tac. Qed.

Lemma keeps_addQuestionIds : incl ["question-id"] keys -> keeps I addQuestionIds.
Proof. intros Hk. unfold addQuestionIds. keeps_tac. Qed.

Lemma keeps_applyLocalization language type localization :
  incl ["exam-type"] keys -> keeps I (applyLocalization language type localization).
Proof. intros Hk. unfold applyLocalization. keeps_tac. Qed.

Lemma keeps_applyLocalizations exam language type :
  incl ["exam-type"] keys -> keeps I (applyLocalizations exam language type).
Proof.
  intros Hk. unfold applyLocalizations.
  keeps_with ltac:(now apply keeps_applyLocalization).
Qed.

Lemma keeps_addYoCustomizations exam language type :
  incl ["lang"] keys -> keeps I (addYoCustomizations exam language type).
Proof. intros Hk. unfold addYoCustomizations. keeps_tac. Qed.

Lemma keeps_addSectionNumbers exam :
  incl ["display-number"] keys -> keeps I (addSectionNumbers exam).
Proof. intros Hk. unfold addSectionNumbers. keeps_tac. Qed.

Lemma keeps_addQuestionNumber question :
  incl ["display-number"] keys ->
  forall prefix index, keeps I (addQuestionNumber prefix question index).
Proof.
  intros Hk. induction question as [element childQuestions answers IH] using Question_ind'.
  intros prefix index. simpl.
  keeps_with ltac:(
    idtac;
    match goal with
    | Hin : In ?q childQuestions |- keeps _ (addQuestionNumber _ ?q _) =>
        rewrite Forall_forall in IH; now apply IH
    end).
Qed.

Lemma keeps_addQuestionNumbers exam :
  incl ["display-number"] keys -> keeps I (addQuestionNumbers exam).
Proof.
  intros Hk. unfold addQuestionNumbers.
  keeps_with ltac:(now apply keeps_addQuestionNumber).
Qed.

Lemma keeps_addAnswerNumber question :
  incl ["display-number"] keys -> keeps I (addAnswerNumber question).
Proof.
  intros Hk. induction question as [element childQuestions answers IH] using Question_ind'.
  simpl.
  keeps_with ltac:(
    idtac;
    match goal with
    | Hin : In ?q childQuestions |- keeps _ (addAnswerNumber ?q) =>
        rewrite Forall_forall in IH; now apply IH
    end).
Qed.

Lemma keeps_addAnswerNumbers exam :
  incl ["display-number"] keys -> keeps I (addAnswerNumbers exam).
Proof.
  intros Hk. unfold addAnswerNumbers.
  keeps_with ltac:(now apply keeps_addAnswerNumber).
Qed.

Lemma keeps_addAttachmentNumbers exam :
  incl ["display-number"] keys -> keeps I (addAttachmentNumbers exam).
Proof. intros Hk. unfold addAttachmentNumbers. keeps_tac. Qed.

Lemma keeps_shuffleAnswer secret answer : moves -> keeps I (shuffleAnswer secret answer).
Proof. intros Hm. unfold shuffleAnswer. keeps_tac. Qed.

Lemma keeps_shuffleAnswerOptions exam secret :
  moves -> keeps I (shuffleAnswerOptions exam secret).
Proof.
  intros Hm. unfold shuffleAnswerOptions. keeps_with ltac:(now apply keeps_shuffleAnswer).
Qed.

Lemma keeps_addAnswerOptionIds exam :
  incl ["option-id"] keys -> keeps I (addAnswerOptionIds exam).
Proof. intros Hk. unfold addAnswerOptionIds. keeps_tac. Qed.

Lemma keeps_updateMaxScoresToAnswer element :
  incl ["max-score"] keys -> keeps I (updateMaxScoresToAnswer element).
Proof. intros Hk. unfold updateMaxScoresToAnswer. keeps_tac. Qed.

Lemma keeps_updateMaxScoresToAnswers exam :
  incl ["max-score"] keys -> keeps I (updateMaxScoresToAnswers exam).
Proof.
  intros Hk. unfold updateMaxScoresToAnswers.
  keeps_with ltac:(now apply keeps_updateMaxScoresToAnswer).
Qed.

Lemma keeps_countSectionMaxAndMinAnswers exam :
  incl ["max-answers"; "min-answers"] keys -> keeps I (countSectionMaxAndMinAnswers exam).
Proof. intros Hk. unfold countSectionMaxAndMinAnswers. keeps_tac. Qed.

Lemma keeps_countMaxScore answerables maxAnswers : keeps I (countMaxScore answerables maxAnswers).
Proof. unfold countMaxScore. keeps_tac. Qed.

Lemma keeps_countQuestionMaxScores question :
  incl ["max-score"] keys -> keeps I (countQuestionMaxScores question).
Proof.
  intros Hk. induction question as [element childQuestions answers IH] using Question_ind'.
  simpl.
  keeps_with ltac:(
    first
      [ apply keeps_countMaxScore
      | idtac; match goal with
        | Hin : In ?q childQuestions |- keeps _ (countQuestionMaxScores ?q) =>
            rewrite Forall_forall in IH; now apply IH
        end ]).
Qed.

Lemma keeps_countMaxScores exam : incl ["max-score"] keys -> keeps I (countMaxScores exam).
Proof.
  intros Hk. unfold countMaxScores, countSectionMaxScores, countExamMaxScore,
    questionsWithHighestMaxScores.
  keeps_with ltac:(first [apply keeps_countMaxScore | now apply keeps_countQuestionMaxScores]).
Qed.

Lemma keeps_removeComments : keeps I removeComments.
Proof. unfold removeComments. keeps_tac. Qed.

Lemma keeps_removeTableWhitespaceNodes : keeps I removeTableWhitespaceNodes.
Proof. unfold removeTableWhitespaceNodes. keeps_tac. Qed.

Lemma keeps_removeHiddenElements : keeps I removeHiddenElements.
Proof. unfold removeHiddenElements. keeps_tac. Qed.

Lemma keeps_removeHvpMetadata exam : keeps I (removeHvpMetadata exam).
Proof. unfold removeHvpMetadata. keeps_tac. Qed.

Lemma keeps_removeCorrectAnswer element :
  incl ["score"] keys -> keeps I (removeCorrectAnswer element).
Proof. intros Hk. unfold removeCorrectAnswer. keeps_tac. Qed.

Lemma keeps_removeCorrectAnswers exam :
  incl ["score"] keys -> keeps I (removeCorrectAnswers exam).
Proof.
  intros Hk. unfold removeCorrectAnswers.
  keeps_with ltac:(now apply keeps_removeCorrectAnswer).
Qed.

Lemma keeps_addRestrictedAudioMetadata attachments :
  incl ["restricted-audio-id"] keys -> keeps I (addRestrictedAudioMetadata attachments).
Proof. intros Hk. unfold addRestrictedAudioMetadata. keeps_tac. Qed.

Lemma keeps_renderFormulas throwOnLatexError :
  incl ["svg"] keys -> keeps I (renderFormulas throwOnLatexError).
Proof. intros Hk. unfold renderFormulas. keeps_tac. Qed.

Lemma keeps_addMediaMetadata attachments :
  incl ["duration"; "width"; "height"] keys -> keeps I (addMediaMetadata attachments).
Proof. intros Hk. unfold addMediaMetadata. keeps_tac. Qed.

Lemma keeps_collectAttachments exam attachments : keeps I (collectAttachments exam attachments).
Proof. unfold collectAttachments. keeps_tac. Qed.



End KeepsPasses.

Ltac keeps_pass :=
  idtac;
  lazymatch goal with
  | |- keeps _ assertExamIsValid => apply keeps_assertExamIsValid
  | |- keeps _ (addExamMetadata _ _ _) => apply keeps_addExamMetadata; [flag_tac | key_tac]
  | |- keeps _ addQuestionIds => apply keeps_addQuestionIds; key_tac
  | |- keeps _ (applyLocalizations _ _ _) => apply keeps_applyLocalizations; key_tac
  | |- keeps _ (addYoCustomizations _ _ _) => apply keeps_addYoCustomizations; key_tac
  | |- keeps _ (addSectionNumbers _) => apply keeps_addSectionNumbers; key_tac
  | |- keeps _ (addQuestionNumbers _) => apply keeps_addQuestionNumbers; key_tac
  | |- keeps _ (addAnswerNumbers _) => apply keeps_addAnswerNumbers; key_tac
  | |- keeps _ (addAttachmentNumbers _) => apply keeps_addAttachmentNumbers; key_tac
  | |- keeps _ (shuffleAnswerOptions _ _) => apply keeps_shuffleAnswerOptions; flag_tac
  | |- keeps _ (addAnswerOptionIds _) => apply keeps_addAnswerOptionIds; key_tac
  | |- keeps _ (updateMaxScoresToAnswers _) => apply keeps_updateMaxScoresToAnswers; key_tac
  | |- keeps _ (countSectionMaxAndMinAnswers _) =>
      apply keeps_countSectionMaxAndMinAnswers; key_tac
  | |- keeps _ (countMaxScores _) => apply keeps_countMaxScores; key_tac
  | |- keeps _ removeComments => apply keeps_removeComments
  | |- keeps _ removeTableWhitespaceNodes => apply keeps_removeTableWhitespaceNodes
  | |- keeps _ (removeCorrectAnswers _) => apply keeps_removeCorrectAnswers; key_tac
  | |- keeps _ removeHiddenElements => apply keeps_removeHiddenElements
  | |- keeps _ (removeHvpMetadata _) => apply keeps_removeHvpMetadata
  | |- keeps _ (addRestrictedAudioMetadata _) =>
      apply keeps_addRestrictedAudioMetadata; key_tac
  | |- keeps _ (renderFormulas _) => apply keeps_renderFormulas; key_tac
  | |- keeps _ (addMediaMetadata _) => apply keeps_addMediaMetadata; key_tac
  | |- keeps _ (collectAttachments _ _) => apply keeps_collectAttachments
  end.

Ltac keeps_auto := keeps_with keeps_pass.

(** Every attribute a pass writes or removes. *)
Definition allKeys : list string :=
  [ "exam-uuid"; "exam-lang"; "exam-type"; "exam-schema-version"; "question-id"; "lang";
    "display-number"; "option-id"; "max-score"; "max-answers"; "min-answers"; "score";
    "restricted-audio-id"; "svg"; "duration"; "width"; "height" ].

Lemma keeps_masterExamVersion {ext : Collaborators} (I : State -> State -> Prop)
      (K : Kept I allKeys True True) language type options :
  keeps I (masterExamVersion language type options).
Proof. unfold masterExamVersion. keeps_auto. Qed.

(** From a run to the relation between its two states. *)
Lemma keeps_run (I : State -> State -> Prop) (A : Type) (m : M A) (s s' : State)
      (r : Result A) :
  keeps I m -> m s = (r, s') -> I s s'.
Proof. intros H E. specialize (H s). now rewrite E in H. Qed.

(** ** Runs that return *)


Lemma gets_ok (A : Type) (f : State -> A) (s s' : State) (a : A) :
  gets f s = (Ok a, s') -> a = f s /\ s' = s.
Proof. unfold gets. intros H. injection H as <- <-. auto. Qed.


(* ================================================================== *)
(** * Collaborators and documents for the examples *)
(* ================================================================== *)

(** The stubs of the mastering tests: a constant uuid, media metadata
    of 999, a schema that accepts the example documents. *)
Definition testCollaborators : Collaborators :=
  {| GradingStructure := unit;
     schemaError := fun _ => None;
     generateUuid := fun _ => "00000000-0000-0000-0000-000000000000";
     createTranslationFile := fun _ => "";
     createGradingStructure := fun _ _ _ => tt;
     translate := fun _ _ _ => Some "Title";
     renderFormula := fun _ _ _ => Svg "<svg/>";
     getMediaMetadata := fun _ _ => Ok (mkMediaMetadata "999" "999" "999") |}.

(* ================================================================== *)
(** * Calls of [generateUuid] (claim C2) *)
(* ================================================================== *)

(** No call of [generateUuid] between two states. *)
Definition sameUuidCalls (s s' : State) : Prop := uuidCalls s' = uuidCalls s.

Lemma uuidCalls_modifyNode u g s : uuidCalls (modifyNode u g s) = uuidCalls s.
Proof. unfold modifyNode. now destruct (uid (root s) =? u)%nat. Qed.

Lemma uuidCalls_removeNode u s : uuidCalls (removeNode u s) = uuidCalls s.
Proof. unfold removeNode. now destruct (uid (root s) =? u)%nat. Qed.

Lemma uuidCalls_addChild p c s : uuidCalls (addChild p c s) = uuidCalls s.
Proof.
  unfold addChild. destruct (elementOf c s); [| reflexivity].
  now rewrite uuidCalls_modifyNode, uuidCalls_removeNode.
Qed.

#[export] Instance Kept_sameUuidCalls : Kept sameUuidCalls allKeys True False.
Proof.
  split; unfold sameUuidCalls.
  - reflexivity.
  - intros s1 s2 s3 H1 H2. congruence.
  - intros. apply uuidCalls_modifyNode.
  - intros. apply uuidCalls_modifyNode.
  - intros. apply uuidCalls_modifyNode.
  - intros. apply uuidCalls_removeNode.
  - intros exam language fullTitle s. unfold addExamTitle, bind, gets.
    destruct (match elementOf exam s with Some e => hd_error (children e) | None => None end);
      simpl; [| reflexivity].
    now rewrite uuidCalls_modifyNode.
  - intros exam language footerText s. unfold addExamFooter, bind. simpl.
    now rewrite uuidCalls_modifyNode.
  - intros _ p c s. apply uuidCalls_addChild.
  - reflexivity.
  - intros [].
Qed.

Section UuidCalls.
Context {ext : Collaborators}.

(** The argument [addExamMetadata] passes to [generateUuid]. *)
Definition uuidMetadataOf (doc : node) (language type : string) : option UuidMetadata :=
  match attr "exam-code" doc, attr "date" doc with
  | Some c, Some d => Some (mkUuidMetadata c d language type)
  | _, _ => None
  end.

Lemma lookup_self (n : node) : lookup (uid n) n = Some n.
Proof. unfold lookup, descendantsOrSelf. simpl. now rewrite Nat.eqb_refl. Qed.

Lemma snd_bind (A B : Type) (m : M A) (k : A -> M B) (s : State) :
  snd (bind m k s)
  = match m s with
    | (Ok a, s1) => snd (k a s1)
    | (Err _, s1) => s1
    end.
Proof. unfold bind. now destruct (m s) as [[a | e] s1]. Qed.

Lemma bind_gets (A B : Type) (f : State -> A) (k : A -> M B) (s : State) :
  bind (gets f) k s = k (f s) s.
Proof. reflexivity. Qed.

Lemma addExamMetadata_run exam language type (s : State) :
  exists s1,
    addExamMetadata exam language type s = (Ok tt, s1)
    /\ uuidCalls s1
       = match attrAt s exam "exam-code", attrAt s exam "date" with
         | Some c, Some d => Some (mkUuidMetadata c d language type)
         | _, _ => None
         end :: uuidCalls s.
Proof.
  unfold addExamMetadata, getAttributeOpt.
  cbv [bind gets callGenerateUuid setAttribute modify].
  eexists. split; [reflexivity |].
  now rewrite !uuidCalls_modifyNode.
Qed.

(** A version calls [generateUuid] once, whatever happens later. *)
Lemma masterExamVersion_uuidCalls (doc : node) language type options :
  uuidCalls (snd (masterExamVersion language type options (initialState doc)))
  = [uuidMetadataOf doc language type].
Proof.
  unfold masterExamVersion.
  rewrite !bind_gets, snd_bind.
  destruct (addExamMetadata_run (uid (root (initialState doc))) language type
                                (initialState doc)) as (s1 & E1 & Hcalls).
  rewrite E1.
  match goal with
  | |- uuidCalls (snd (?rest s1)) = _ =>
      pose proof (@keeps_run sameUuidCalls _ rest s1 (snd (rest s1)) (fst (rest s1))
                    ltac:(keeps_auto) ltac:(now destruct (rest s1))) as Hrest
  end.
  unfold sameUuidCalls in Hrest. rewrite Hrest, Hcalls.
  unfold attrAt, elementOf, uuidMetadataOf. simpl.
  now rewrite lookup_self.
Qed.

End UuidCalls.

(** An exam in the way of the fixture of the mastering tests: exam-code
    [A], date [2020-01-01], versions fi-FI and sv-FI, with the given
    further attributes on the exam element. *)
Definition yoExam (more : list (string * string)) : node :=
  Element 0 NsE "exam" ([("exam-code", "A"); ("date", "2020-01-01")] ++ more)
    [ Element 1 NsE "exam-versions" []
        [ Element 2 NsE "exam-version" [("lang", "fi-FI")] [];
          Element 3 NsE "exam-version" [("lang", "sv-FI")] [] ];
      Element 4 NsE "section" []
        [ Element 5 NsE "question" []
            [ Element 6 NsE "question-title" [] [Text 7 "Q"];
              Element 8 NsE "text-answer" [("max-score", "6")] [] ] ] ].

(** C2, as stated, fails: with exam-code [A] and no day-code
    [assertExamIsValid] throws, so [masterExam] is rejected before any
    version runs and [generateUuid] is never called. *)
Lemma C2_no_day_code_no_call :
  attr "exam-code" (yoExam []) = Some "A"
  /\ attr "date" (yoExam []) = Some "2020-01-01"
  /\ attr "day-code" (yoExam []) = None
  /\ fst (examVersionsOf (yoExam []) (initialState (yoExam [])))
     = Ok [("fi-FI", "normal"); ("sv-FI", "normal")]
  /\ run_result (@masterExam testCollaborators (yoExam []) None)
     = Err "Invalid empty day-code for exam-code A"
  /\ run_uuidCalls (@masterExam testCollaborators (yoExam []) None) = [].
Proof. repeat split; vm_compute; reflexivity. Qed.

(** C2 (amended): for an exam source with exam-code [A], date
    [2020-01-01], a day-code (which exam-code [A] requires: the source
    has to pass [assertExamIsValid]) and the two declared versions
    fi-FI and sv-FI of type normal, [masterExam] calls [generateUuid]
    exactly twice, once per version and in their order, with
    [{examCode: 'A', date: '2020-01-01', type: 'normal'}] and the
    language of the version. *)
Theorem C2_generateUuid_once_per_version {ext : Collaborators}
        (doc : node) (options : option MasteringOptions) (dayCode : string) :
  attr "exam-code" doc = Some "A" ->
  attr "date" doc = Some "2020-01-01" ->
  attr "day-code" doc = Some dayCode ->
  dayCode <> "" ->
  fst (assertExamIsValid (initialState doc)) = Ok tt ->
  fst (examVersionsOf doc (initialState doc)) = Ok [("fi-FI", "normal"); ("sv-FI", "normal")] ->
  run_uuidCalls (masterExam doc options)
  = [ Some (mkUuidMetadata "A" "2020-01-01" "fi-FI" "normal");
      Some (mkUuidMetadata "A" "2020-01-01" "sv-FI" "normal") ].
Proof.
  intros Hcode Hdate _ _ Hvalid Hversions.
  unfold masterExam.
  destruct (assertExamIsValid (initialState doc)) as [[[] | e] s0]; [| discriminate Hvalid].
  destruct (examVersionsOf doc (initialState doc)) as [[vs | e] s1]; [| discriminate Hversions].
  simpl in Hversions. injection Hversions as ->.
  simpl. rewrite !masterExamVersion_uuidCalls.
  unfold uuidMetadataOf. now rewrite Hcode, Hdate.
Qed.

Lemma C2_generateUuid_once_per_version_witness :
  run_uuidCalls (@masterExam testCollaborators (yoExam [("day-code", "X")]) None)
  = [ Some (mkUuidMetadata "A" "2020-01-01" "fi-FI" "normal");
      Some (mkUuidMetadata "A" "2020-01-01" "sv-FI" "normal") ].
Proof.
  apply (@C2_generateUuid_once_per_version testCollaborators
           (yoExam [("day-code", "X")]) None "X").
  - reflexivity.
  - reflexivity.
  - reflexivity.
  - discriminate.
  - vm_compute. reflexivity.
  - vm_compute. reflexivity.
Defined.

(* ================================================================== *)
(** * Reading attributes through handles *)
(* ================================================================== *)

(** The number [getNumericAttribute(k, u, null)] reads, when it reads
    one. *)
Definition numOpt (s : State) (u : nat) (k : string) : option Z :=
  match attrAt s u k with
  | Some v => Js.Number v
  | None => None
  end.

(** The same, as a number ([0] where there is none). *)
Definition numAt (s : State) (u : nat) (k : string) : Z :=
  match numOpt s u k with
  | Some z => z
  | None => 0%Z
  end.

(** The attribute [k] of [u], if present, is an integer. *)
Definition readable (s : State) (u : nat) (k : string) : Prop :=
  forall v, attrAt s u k = Some v -> Js.Number v <> None.

(** Two states that differ at most in the values of attribute [key]. *)
Definition sameExcept (key : string) (s0 s1 : State) : Prop :=
  shape s1 = shape s0
  /\ attached s1 = attached s0
  /\ forall u k, k <> key -> attrAt s1 u k = attrAt s0 u k.

Lemma sameExcept_refl key s : sameExcept key s s.
Proof. repeat split. Qed.

Lemma sameExcept_trans key s0 s1 s2 :
  sameExcept key s0 s1 -> sameExcept key s1 s2 -> sameExcept key s0 s2.
Proof.
  intros (A1 & B1 & C1) (A2 & B2 & C2). repeat split; try congruence.
  intros u k Hk. rewrite C2, C1; auto.
Qed.

Lemma attached_modifyNode u g s : attached (modifyNode u g s) = attached s.
Proof. unfold modifyNode. now destruct (uid (root s) =? u)%nat. Qed.

Lemma sameExcept_setAttr key u v s : sameExcept key s (modifyNode u (withAttr key v) s).
Proof.
  repeat split.
  - apply shape_modifyNode_mapAttrs.
  - apply attached_modifyNode.
  - intros u' k Hk. apply attrAt_setAttr_other. now right.
Qed.

Lemma isElementAt_sameExcept key s0 s1 u :
  sameExcept key s0 s1 -> isElementAt s1 u = isElementAt s0 u.
Proof. intros (A & _). now rewrite !isElementAt_shape, A. Qed.

Lemma getAttributeOpt_run k u s : getAttributeOpt k u s = (Ok (attrAt s u k), s).
Proof. reflexivity. Qed.

Lemma getNumericAttributeOpt_run k u s :
  readable s u k ->
  getNumericAttributeOpt k u s
  = (Ok (numOpt s u k), s).
Proof.
  intros H. unfold getNumericAttributeOpt, bind. rewrite getAttributeOpt_run.
  unfold numOpt, readable in *.
  destruct (attrAt s u k) as [v |]; [| reflexivity].
  unfold toNumber. specialize (H v eq_refl).
  destruct (Js.Number v); [reflexivity | contradiction].
Qed.

Lemma getNumericAttribute_run k u s v z :
  attrAt s u k = Some v -> Js.Number v = Some z ->
  getNumericAttribute k u s = (Ok z, s).
Proof.
  intros E N. unfold getNumericAttribute, getAttribute, bind.
  rewrite getAttributeOpt_run, E. unfold ret, toNumber. now rewrite N.
Qed.

Lemma setAttribute_run u k v s :
  setAttribute u k v s = (Ok tt, modifyNode u (withAttr k v) s).
Proof. reflexivity. Qed.

(** Reading the same numeric attribute from a list of handles. *)
Lemma mapM_getNumericAttribute k (us : list nat) s :
  (forall u, In u us -> exists v z, attrAt s u k = Some v /\ Js.Number v = Some z) ->
  mapM (getNumericAttribute k) us s = (Ok (map (fun u => numAt s u k) us), s).
Proof.
  induction us as [| u us IH]; intros H; simpl; [reflexivity |].
  destruct (H u (or_introl eq_refl)) as (v & z & E & N).
  unfold bind. rewrite (getNumericAttribute_run _ _ _ E N).
  rewrite IH by (intros u' Hu'; apply H; now right).
  unfold ret, numAt, numOpt. now rewrite E, N.
Qed.

(* ================================================================== *)
(** * The max-score of an answer (claim C5) *)
(* ================================================================== *)

(** A choice answer that has no option when the max-score phase runs,
    such as one whose options were all written for another version. *)
Definition emptyChoiceExam : node :=
  Element 0 NsE "exam" []
    [ Element 1 NsE "section" []
        [ Element 2 NsE "question" []
            [ Element 3 NsE "question-title" [] [Text 4 "Q"];
              Element 5 NsE "choice-answer" [] [] ] ] ].

(** C5: on a choice answer without a declared max-score and without
    options, [updateMaxScoresToAnswers] writes the max-score
    ["undefined"] ([String(_.max([]))]), not [0]. *)
Lemma C5_no_options_max_score_undefined :
  let s := initialState emptyChoiceExam in
  let exam := parseExamStructure s in
  map a_element (e_answers exam) = [5]
  /\ nameOf 5 s = "choice-answer"
  /\ attrAt s 5 "max-score" = None
  /\ findChildren ["choice-answer-option"; "dropdown-answer-option"; "accepted-answer"] 5 s = []
  /\ fst (updateMaxScoresToAnswers exam s) = Ok tt
  /\ attrAt (snd (updateMaxScoresToAnswers exam s)) 5 "max-score" = Some "undefined".
Proof. repeat split. Qed.

(** The score an option or accepted answer counts for: its [score]
    attribute, [0] without one. *)
Definition scoreOf (option : node) : Z :=
  match attr "score" option with
  | Some v => match Js.Number v with Some z => z | None => 0%Z end
  | None => 0%Z
  end.

Lemma mapM_pure (A B : Type) (f : A -> M B) (g : A -> B) (l : list A) (s : State) :
  (forall x, In x l -> f x s = (Ok (g x), s)) -> mapM f l s = (Ok (map g l), s).
Proof.
  induction l as [| x l IH]; intros H; simpl; [reflexivity |].
  unfold bind. rewrite (H x (or_introl eq_refl)).
  rewrite IH by (intros y Hy; apply H; now right). reflexivity.
Qed.

Lemma mapM_scores (options : list node) s :
  (forall o v, In o options -> attr "score" o = Some v -> Js.Number v <> None) ->
  mapM (fun option => sc <- nodeNumericAttributeOpt "score" option ;;
                      ret (match sc with Some z => z | None => 0%Z end)) options s
  = (Ok (map scoreOf options), s).
Proof.
  intros H. apply mapM_pure. intros o Ho.
  unfold bind, nodeNumericAttributeOpt, scoreOf.
  destruct (attr "score" o) as [v |] eqn:E; [| reflexivity].
  specialize (H o v Ho E). unfold toNumber.
  destruct (Js.Number v) as [z |]; [reflexivity | contradiction].
Qed.

Lemma fold_left_max_ge (l : list Z) (x : Z) :
  (x <= fold_left Z.max l x)%Z /\ (forall y, In y l -> (y <= fold_left Z.max l x)%Z).
Proof.
  revert x. induction l as [| a l IH]; intros x; simpl.
  - split; [lia | contradiction].
  - destruct (IH (Z.max x a)) as [H1 H2]. split; [lia |].
    intros y [-> | Hy]; [lia | auto].
Qed.

Lemma fold_left_max_In (l : list Z) (x : Z) : In (fold_left Z.max l x) (x :: l).
Proof.
  revert x. induction l as [| a l IH]; intros x; simpl; [now left |].
  destruct (IH (Z.max x a)) as [H | H]; [| now right; right].
  destruct (Z.max_spec x a) as [[_ E] | [_ E]]; rewrite E in *; tauto.
Qed.

(** [_.max] of a non-empty list is its greatest element. *)
Lemma max_spec (l : list Z) (m : Z) :
  Lodash.max l = Some m -> In m l /\ forall y, In y l -> (y <= m)%Z.
Proof.
  destruct l as [| x l]; simpl; [discriminate |].
  intros [= <-]. split.
  - apply fold_left_max_In.
  - destruct (fold_left_max_ge l x) as [H1 H2].
    intros y [<- | Hy]; [exact H1 | now apply H2].
Qed.

(** What the max-score phase does for the answers with options: a
    declared max-score stays; without one, the greatest score among the
    options or accepted answers is written. *)
Lemma updateMaxScoresToAnswer_spec (element : nat) (s : State) :
  Js.inList (nameOf element s) ["choice-answer"; "dropdown-answer"; "scored-text-answer"] = true ->
  let options := findChildren ["choice-answer-option"; "dropdown-answer-option";
                               "accepted-answer"] element s in
  (forall o v, In o options -> attr "score" o = Some v -> Js.Number v <> None) ->
  match attrAt s element "max-score" with
  | Some _ => updateMaxScoresToAnswer element s = (Ok tt, s)
  | None =>
      updateMaxScoresToAnswer element s
      = (Ok tt, modifyNode element
                  (withAttr "max-score" (Js.String_opt (Lodash.max (map scoreOf options)))) s)
  end.
Proof.
  intros Hname options Hscores.
  assert (E : forall declared,
             attrAt s element "max-score" = declared ->
             updateMaxScoresToAnswer element s
             = match declared with
               | Some _ => (Ok tt, s)
               | None =>
                   (Ok tt, modifyNode element
                             (withAttr "max-score"
                                (Js.String_opt (Lodash.max (map scoreOf options)))) s)
               end).
  { intros declared Hd. unfold updateMaxScoresToAnswer. rewrite bind_gets, Hname.
    unfold bind at 1. rewrite getAttributeOpt_run, Hd.
    destruct declared; [reflexivity |].
    rewrite bind_gets. fold options. unfold bind. now rewrite mapM_scores. }
  specialize (E _ eq_refl). now destruct (attrAt s element "max-score").
Qed.

(* ================================================================== *)
(** * Section max- and min-answers (claim C6) *)
(* ================================================================== *)

(** An exam that declares [max-answers="0"], with a section of two
    questions that declares none. *)
Definition zeroMaxAnswersExam : node :=
  Element 0 NsE "exam" [("max-answers", "0")]
    [ Element 1 NsE "section" []
        [ Element 2 NsE "question" []
            [Element 3 NsE "text-answer" [("max-score", "6")] []];
          Element 4 NsE "question" []
            [Element 5 NsE "text-answer" [("max-score", "6")] []] ] ].

(** C6, as stated, fails: the exam declares a max-answers limit ([0]),
    yet the section gets neither a defaulted max-answers nor a
    min-answers: [!examMaxAnswers] holds of [0] as of [null]. *)
Lemma C6_declared_zero_writes_nothing :
  let s := initialState zeroMaxAnswersExam in
  let exam := parseExamStructure s in
  attrAt s (e_element exam) "max-answers" = Some "0"
  /\ map s_element (e_sections exam) = [1]
  /\ countSectionMaxAndMinAnswers exam s = (Ok tt, s)
  /\ attrAt (snd (countSectionMaxAndMinAnswers exam s)) 1 "max-answers" = None
  /\ attrAt (snd (countSectionMaxAndMinAnswers exam s)) 1 "min-answers" = None.
Proof. repeat split. Qed.

Section SectionAnswers.

Variable exam : Exam.
Variable s : State.
(** The exam's own limit. *)
Variable m : Z.

(** The max-answers of a section once the defaults are written. *)
Definition maxAnswersAfter (done : list Section) (u : nat) : option string :=
  match find (fun sec => (s_element sec =? u)%nat) done with
  | Some sec =>
      match attrAt s u "max-answers" with
      | Some d => Some d
      | None => Some (Js.String_Z (Z.min (Z.of_nat (length (s_questions sec))) m))
      end
  | None => attrAt s u "max-answers"
  end.

Hypothesis sections_distinct : NoDup (map s_element (e_sections exam)).
Hypothesis sections_present :
  forall sec, In sec (e_sections exam) -> isElementAt s (s_element sec) = true.
Hypothesis sections_readable :
  forall sec, In sec (e_sections exam) -> readable s (s_element sec) "max-answers".

Definition defaultMaxAnswers (section : Section) : M unit :=
  declared <- getNumericAttributeOpt "max-answers" (s_element section) ;;
  match declared with
  | None =>
      setAttribute (s_element section) "max-answers"
        (Js.String_Z (Z.min (Z.of_nat (length (s_questions section))) m))
  | Some _ => ret tt
  end.

Lemma find_section_app_notin (done : list Section) (x : Section) (u : nat) :
  ~ In (s_element x) (map s_element done) ->
  find (fun sec => (s_element sec =? u)%nat) (done ++ [x])
  = match find (fun sec => (s_element sec =? u)%nat) done with
    | Some sec => Some sec
    | None => if (s_element x =? u)%nat then Some x else None
    end.
Proof. intros _. rewrite find_app_. simpl. reflexivity. Qed.

Lemma find_section_none (done : list Section) (u : nat) :
  ~ In u (map s_element done) -> find (fun sec => (s_element sec =? u)%nat) done = None.
Proof.
  intros H. destruct (find (fun sec => (s_element sec =? u)%nat) done) as [sec |] eqn:E;
    [| reflexivity].
  apply find_some in E. destruct E as [Hin E]. apply Nat.eqb_eq in E.
  exfalso. apply H. rewrite <- E. now apply in_map.
Qed.

Lemma NoDup_app_cons_notin (A : Type) (done rest : list A) (x : A) :
  NoDup (done ++ x :: rest) -> ~ In x done.
Proof.
  intros H Hin. apply NoDup_remove_2 in H. apply H. apply in_or_app. now left.
Qed.

(** The first loop: every section without a declared limit gets the
    default. *)
Lemma defaults_loop :
  hoare (fun s0 => s0 = s)
        (forEach defaultMaxAnswers (e_sections exam))
        (fun _ s1 =>
           sameExcept "max-answers" s s1
           /\ forall u, attrAt s1 u "max-answers" = maxAnswersAfter (e_sections exam) u).
Proof.
  eapply hoare_conseq.
  - apply (hoare_forEach defaultMaxAnswers
             (fun done s1 =>
                sameExcept "max-answers" s s1
                /\ forall u, attrAt s1 u "max-answers" = maxAnswersAfter done u)).
    intros done x rest E s1 [Hsame Hattr].
    assert (Hx : In x (e_sections exam)) by (rewrite E; apply in_or_app; right; now left).
    assert (Hnotin : ~ In (s_element x) (map s_element done)).
    { rewrite E, map_app in sections_distinct. simpl in sections_distinct.
      now apply NoDup_app_cons_notin in sections_distinct. }
    assert (Hcur : attrAt s1 (s_element x) "max-answers" = attrAt s (s_element x) "max-answers").
    { rewrite Hattr. unfold maxAnswersAfter. now rewrite find_section_none. }
    unfold defaultMaxAnswers, bind.
    rewrite getNumericAttributeOpt_run
      by (unfold readable; rewrite Hcur; now apply sections_readable).
    unfold numOpt. rewrite Hcur.
    destruct (attrAt s (s_element x) "max-answers") as [d |] eqn:Ed.
    + pose proof (@sections_readable x Hx d Ed) as Hd.
      destruct (Js.Number d) as [z |]; [| contradiction].
      exists tt, s1. split; [reflexivity |]. split; [exact Hsame |].
      intros u. rewrite Hattr. unfold maxAnswersAfter.
      rewrite find_section_app_notin by exact Hnotin.
      destruct (find (fun sec => (s_element sec =? u)%nat) done); [reflexivity |].
      destruct (s_element x =? u)%nat eqn:Eu; [| reflexivity].
      apply Nat.eqb_eq in Eu. subst u. now rewrite Ed.
    + rewrite setAttribute_run. eexists tt, _. split; [reflexivity |]. split.
      * eapply sameExcept_trans; [exact Hsame | apply sameExcept_setAttr].
      * intros u. unfold maxAnswersAfter.
        rewrite find_section_app_notin by exact Hnotin.
        destruct (Nat.eq_dec u (s_element x)) as [-> | Hne].
        -- rewrite attrAt_setAttr_same
             by (rewrite (isElementAt_sameExcept _ Hsame); now apply sections_present).
           rewrite find_section_none by exact Hnotin.
           now rewrite Nat.eqb_refl, Ed.
        -- rewrite attrAt_setAttr_other by now left.
           rewrite Hattr. unfold maxAnswersAfter.
           destruct (find (fun sec => (s_element sec =? u)%nat) done); [reflexivity |].
           assert (Eu : (s_element x =? u)%nat = false) by (apply Nat.eqb_neq; congruence).
           now rewrite Eu.
  - intros s0 ->. split; [apply sameExcept_refl |]. intros u. reflexivity.
  - intros a s1 H. exact H.
Qed.

(** The second loop starts from a state [s1] the first loop leaves. *)
Variable s1 : State.
Hypothesis s1_same : sameExcept "max-answers" s s1.
Hypothesis s1_max :
  forall u, attrAt s1 u "max-answers" = maxAnswersAfter (e_sections exam) u.

Lemma find_section_in (sec : Section) :
  In sec (e_sections exam) ->
  exists sec', find (fun x => (s_element x =? s_element sec)%nat) (e_sections exam) = Some sec'
               /\ In sec' (e_sections exam) /\ s_element sec' = s_element sec.
Proof.
  intros Hin.
  destruct (find (fun x => (s_element x =? s_element sec)%nat) (e_sections exam))
    as [sec' |] eqn:E.
  - exists sec'. apply find_some in E. destruct E as [H1 H2].
    apply Nat.eqb_eq in H2. auto.
  - exfalso. eapply find_none in E; [| exact Hin]. simpl in E.
    now rewrite Nat.eqb_refl in E.
Qed.

Lemma s1_max_number (sec : Section) :
  In sec (e_sections exam) ->
  exists v z, attrAt s1 (s_element sec) "max-answers" = Some v /\ Js.Number v = Some z.
Proof.
  intros Hin. rewrite s1_max. unfold maxAnswersAfter.
  destruct (find_section_in sec Hin) as (sec' & -> & Hin' & Eel).
  destruct (attrAt s (s_element sec) "max-answers") as [d |] eqn:Ed.
  - pose proof (@sections_readable sec Hin d Ed) as Hd.
    destruct (Js.Number d) as [z |] eqn:Ez; [| contradiction].
    exists d, z. auto.
  - eexists _, _. split; [reflexivity | apply Number_String_Z].
Qed.

(** The min-answers a section gets. *)
Definition minAnswersOf (st : State) (i : nat) (sec : Section) : string :=
  Js.String_Z
    (Lodash.clamp (numAt st (s_element sec) "max-answers") 0
       (m - Lodash.sum (map (fun o => numAt st (s_element o) "max-answers")
                            (others i (e_sections exam))))).

Definition minAnswersStep (section : Section) (i : nat) : M unit :=
  maxAnswers <- getNumericAttribute "max-answers" (s_element section) ;;
  otherMaxAnswers <-
    mapM (fun otherSection => getNumericAttribute "max-answers" (s_element otherSection))
         (others i (e_sections exam)) ;;
  let otherSectionMaxAnswers := Lodash.sum otherMaxAnswers in
  let minAnswers := Lodash.clamp maxAnswers 0 (m - otherSectionMaxAnswers) in
  setAttribute (s_element section) "min-answers" (Js.String_Z minAnswers).

Lemma others_incl (A : Type) (i : nat) (l : list A) (x : A) : In x (others i l) -> In x l.
Proof.
  revert i. induction l as [| y l IH]; intros [| i]; simpl; auto.
  intros [-> | H]; [now left | right; eauto].
Qed.

Lemma numAt_sameExcept key k st st' u :
  sameExcept key st st' -> k <> key -> numAt st' u k = numAt st u k.
Proof. intros (_ & _ & H) Hk. unfold numAt, numOpt. now rewrite H. Qed.

Lemma minAnswers_loop :
  hoare (fun s0 => s0 = s1)
        (forEachIndexed minAnswersStep (e_sections exam))
        (fun _ s2 =>
           sameExcept "min-answers" s1 s2
           /\ forall i sec, nth_error (e_sections exam) i = Some sec ->
                attrAt s2 (s_element sec) "min-answers" = Some (minAnswersOf s1 i sec)).
Proof.
  assert (Hneq : "max-answers" <> "min-answers") by discriminate.
  eapply hoare_conseq.
  - apply (hoare_forEachIndexed minAnswersStep
             (fun done s2 =>
                sameExcept "min-answers" s1 s2
                /\ forall i sec, nth_error done i = Some sec ->
                     attrAt s2 (s_element sec) "min-answers" = Some (minAnswersOf s1 i sec))).
    intros done x rest E s2 [Hsame Hmin].
    assert (Hx : In x (e_sections exam)) by (rewrite E; apply in_or_app; right; now left).
    assert (Hnotin : ~ In (s_element x) (map s_element done)).
    { rewrite E, map_app in sections_distinct. simpl in sections_distinct.
      now apply NoDup_app_cons_notin in sections_distinct. }
    assert (Hnum : forall sec, In sec (e_sections exam) ->
              exists v z, attrAt s2 (s_element sec) "max-answers" = Some v
                          /\ Js.Number v = Some z).
    { intros sec Hsec. destruct Hsame as (_ & _ & Hs). rewrite Hs by exact Hneq.
      now apply s1_max_number. }
    unfold minAnswersStep, bind.
    destruct (Hnum x Hx) as (v & z & Ev & Nv).
    rewrite (getNumericAttribute_run _ _ _ Ev Nv).
    rewrite (mapM_pure _ (fun o => numAt s2 (s_element o) "max-answers")).
    2:{ intros o Ho. apply others_incl in Ho. destruct (Hnum o Ho) as (v' & z' & Ev' & Nv').
        rewrite (getNumericAttribute_run _ _ _ Ev' Nv').
        unfold numAt, numOpt. now rewrite Ev', Nv'. }
    rewrite setAttribute_run. eexists tt, _. split; [reflexivity |]. split.
    + eapply sameExcept_trans; [exact Hsame | apply sameExcept_setAttr].
    + intros i sec Hi.
      assert (Hlen : i < length done \/ i = length done).
      { assert (i < length (done ++ [x])) by (apply nth_error_Some; congruence).
        rewrite length_app in H. simpl in H. lia. }
      destruct Hlen as [Hlt | ->].
      * rewrite nth_error_app1 in Hi by exact Hlt.
        assert (Hne : s_element sec <> s_element x).
        { intros Heq. apply Hnotin. rewrite <- Heq. apply in_map.
          eapply nth_error_In; eauto. }
        rewrite attrAt_setAttr_other by now left. now apply Hmin.
      * rewrite nth_error_app2, Nat.sub_diag in Hi by lia. simpl in Hi.
        injection Hi as <-.
        rewrite attrAt_setAttr_same.
        2:{ rewrite (isElementAt_sameExcept _ Hsame), (isElementAt_sameExcept _ s1_same).
            now apply sections_present. }
        unfold minAnswersOf. do 3 f_equal.
        -- rewrite <- (@numAt_sameExcept _ _ _ _ (s_element x) Hsame Hneq).
           unfold numAt, numOpt. now rewrite Ev, Nv.
        -- do 2 f_equal. apply map_ext. intros o.
           apply (@numAt_sameExcept _ _ _ _ (s_element o) Hsame Hneq).
  - intros s0 ->. split; [apply sameExcept_refl |]. intros [| i] sec H; discriminate H.
  - intros a s2 H. exact H.
Qed.

End SectionAnswers.

Lemma find_section_self (secs : list Section) (sec : Section) :
  NoDup (map s_element secs) -> In sec secs ->
  find (fun x => (s_element x =? s_element sec)%nat) secs = Some sec.
Proof.
  induction secs as [| y secs IH]; intros Hnd Hin; [contradiction |].
  simpl. inversion Hnd as [| ? ? Hnotin Hnd']. subst.
  destruct Hin as [-> | Hin].
  - now rewrite Nat.eqb_refl.
  - destruct (s_element y =? s_element sec)%nat eqn:E.
    + apply Nat.eqb_eq in E. exfalso. apply Hnotin. rewrite E. now apply in_map.
    + now apply IH.
Qed.

(** The two loops of [countSectionMaxAndMinAnswers] under a limit
    [m]. *)
Lemma countSection_loops (exam : Exam) (s : State) (m : Z) :
  NoDup (map s_element (e_sections exam)) ->
  (forall sec, In sec (e_sections exam) -> isElementAt s (s_element sec) = true) ->
  (forall sec, In sec (e_sections exam) -> readable s (s_element sec) "max-answers") ->
  exists s',
    (forEach (defaultMaxAnswers m) (e_sections exam) ;;
     forEachIndexed (minAnswersStep exam m) (e_sections exam)) s = (Ok tt, s')
    /\ (forall sec, In sec (e_sections exam) ->
          attrAt s' (s_element sec) "max-answers"
          = match attrAt s (s_element sec) "max-answers" with
            | Some d => Some d
            | None => Some (Js.String_Z (Z.min (Z.of_nat (length (s_questions sec))) m))
            end)
    /\ (forall i sec, nth_error (e_sections exam) i = Some sec ->
          attrAt s' (s_element sec) "min-answers" = Some (minAnswersOf exam m s' i sec)).
Proof.
  intros Hnd Hpresent Hreadable.
  destruct (@defaults_loop exam s m Hnd Hpresent Hreadable s eq_refl)
    as ([] & s1 & E1 & Hsame1 & Hmax).
  destruct (@minAnswers_loop exam s m Hnd Hpresent Hreadable s1 Hsame1 Hmax s1 eq_refl)
    as ([] & s2 & E2 & Hsame2 & Hmin).
  assert (Hneq : "max-answers" <> "min-answers") by discriminate.
  exists s2. split; [| split].
  - unfold bind. now rewrite E1.
  - intros sec Hin. destruct Hsame2 as (_ & _ & H2). rewrite H2 by exact Hneq.
    rewrite Hmax. unfold maxAnswersAfter. now rewrite find_section_self.
  - intros i sec Hi. rewrite (Hmin i sec Hi). unfold minAnswersOf. do 3 f_equal.
    + symmetry. apply (@numAt_sameExcept _ _ _ _ (s_element sec) Hsame2 Hneq).
    + do 2 f_equal. apply map_ext. intros o.
      symmetry. apply (@numAt_sameExcept _ _ _ _ (s_element o) Hsame2 Hneq).
Qed.

(** The exam's max-answers limit that takes effect: a declared limit
    other than [0]. *)
Definition examLimit (s : State) (exam : Exam) : option Z :=
  match numOpt s (e_element exam) "max-answers" with
  | Some 0%Z => None
  | limit => limit
  end.

(** C6 (amended): if and only if the exam element declares a
    max-answers limit other than 0, every section lacking a declared
    max-answers gets [min(its question count, exam max-answers)], a
    declared one stays, and afterwards every section's min-answers is
    [clamp(that section's max-answers, 0, exam max-answers minus the
    sum of the other sections' max-answers)]; when the exam declares no
    max-answers, or declares 0, the pass writes nothing. *)
Theorem C6_section_max_and_min_answers (exam : Exam) (s : State) :
  NoDup (map s_element (e_sections exam)) ->
  (forall sec, In sec (e_sections exam) -> isElementAt s (s_element sec) = true) ->
  (forall sec, In sec (e_sections exam) -> readable s (s_element sec) "max-answers") ->
  readable s (e_element exam) "max-answers" ->
  exists s',
    countSectionMaxAndMinAnswers exam s = (Ok tt, s')
    /\ match examLimit s exam with
       | None => s' = s
       | Some m =>
           (forall sec, In sec (e_sections exam) ->
              attrAt s' (s_element sec) "max-answers"
              = match attrAt s (s_element sec) "max-answers" with
                | Some d => Some d
                | None => Some (Js.String_Z (Z.min (Z.of_nat (length (s_questions sec))) m))
                end)
           /\ (forall i sec, nth_error (e_sections exam) i = Some sec ->
                 attrAt s' (s_element sec) "min-answers"
                 = Some (Js.String_Z
                           (Lodash.clamp (numAt s' (s_element sec) "max-answers") 0
                              (m - Lodash.sum
                                     (map (fun o => numAt s' (s_element o) "max-answers")
                                          (others i (e_sections exam)))))))
       end.
Proof.
  intros Hnd Hpresent Hreadable Hexam.
  unfold countSectionMaxAndMinAnswers, examLimit.
  unfold bind at 1. rewrite (getNumericAttributeOpt_run Hexam).
  destruct (numOpt s (e_element exam) "max-answers") as [[| p | p] |].
  - exists s. split; reflexivity.
  - exact (@countSection_loops exam s (Z.pos p) Hnd Hpresent Hreadable).
  - exact (@countSection_loops exam s (Z.neg p) Hnd Hpresent Hreadable).
  - exists s. split; reflexivity.
Qed.

(** An exam of two sections under a limit of 3 answers: the first
    section declares [max-answers="1"], the second declares none and
    has three questions. *)
Definition limitedExam : node :=
  Element 0 NsE "exam" [("max-answers", "3")]
    [ Element 1 NsE "section" [("max-answers", "1")]
        [ Element 2 NsE "question" [] [Element 3 NsE "text-answer" [("max-score", "6")] []];
          Element 4 NsE "question" [] [Element 5 NsE "text-answer" [("max-score", "6")] []] ];
      Element 6 NsE "section" []
        [ Element 7 NsE "question" [] [Element 8 NsE "text-answer" [("max-score", "6")] []];
          Element 9 NsE "question" [] [Element 10 NsE "text-answer" [("max-score", "6")] []];
          Element 11 NsE "question" [] [Element 12 NsE "text-answer" [("max-score", "6")] []] ] ].

Lemma readable_dec_true (s : State) (u : nat) (k : string) :
  match attrAt s u k with
  | Some v => match Js.Number v with Some _ => true | None => false end
  | None => true
  end = true ->
  readable s u k.
Proof.
  intros H v E. rewrite E in H. now destruct (Js.Number v).
Qed.

Lemma Forall_In_dec (A : Type) (P : A -> Prop) (l : list A) :
  Forall P l -> forall x, In x l -> P x.
Proof. intros H. now apply Forall_forall. Qed.

Lemma C6_section_max_and_min_answers_witness :
  exists s',
    countSectionMaxAndMinAnswers (parseExamStructure (initialState limitedExam))
                                 (initialState limitedExam) = (Ok tt, s')
    /\ attrAt s' 1 "max-answers" = Some "1"
    /\ attrAt s' 6 "max-answers" = Some "3"
    /\ attrAt s' 1 "min-answers" = Some "0"
    /\ attrAt s' 6 "min-answers" = Some "2".
Proof.
  destruct (@C6_section_max_and_min_answers
              (parseExamStructure (initialState limitedExam)) (initialState limitedExam))
    as (s' & E & H).
  - simpl. repeat constructor; simpl; intuition discriminate.
  - apply Forall_In_dec. repeat constructor.
  - apply Forall_In_dec. repeat constructor; apply readable_dec_true; reflexivity.
  - apply readable_dec_true. reflexivity.
  - exists s'. split; [exact E |].
    vm_compute in E. injection E as <-.
    repeat split; reflexivity.
Defined.

(* ================================================================== *)
(** * Passes as lists of writes *)
(* ================================================================== *)

(** The state after writing attribute [k] of every listed handle, in
    order. *)
Definition applyWrites (k : string) (ws : list (nat * string)) (s : State) : State :=
  fold_left (fun st w => modifyNode (fst w) (withAttr k (snd w)) st) ws s.

Lemma applyWrites_app k ws1 ws2 s :
  applyWrites k (ws1 ++ ws2) s = applyWrites k ws2 (applyWrites k ws1 s).
Proof. apply fold_left_app. Qed.

Lemma applyWrites_sameExcept k ws s : sameExcept k s (applyWrites k ws s).
Proof.
  revert s. induction ws as [| [u v] ws IH]; intros s; simpl.
  - apply sameExcept_refl.
  - eapply sameExcept_trans; [apply sameExcept_setAttr | apply IH].
Qed.

Lemma applyWrites_other k ws s u :
  ~ In u (map fst ws) -> attrAt (applyWrites k ws s) u k = attrAt s u k.
Proof.
  revert s. induction ws as [| [u' v] ws IH]; intros s H; simpl; [reflexivity |].
  simpl in H. rewrite IH by tauto.
  apply attrAt_setAttr_other. left. intros ->. tauto.
Qed.

Lemma applyWrites_key k ws s u k' :
  k' <> k -> attrAt (applyWrites k ws s) u k' = attrAt s u k'.
Proof. intros H. now apply applyWrites_sameExcept. Qed.

Lemma applyWrites_isElementAt k ws s u :
  isElementAt (applyWrites k ws s) u = isElementAt s u.
Proof. apply (isElementAt_sameExcept u (applyWrites_sameExcept k ws s)). Qed.

Lemma applyWrites_written k ws s u v :
  NoDup (map fst ws) -> In (u, v) ws -> isElementAt s u = true ->
  attrAt (applyWrites k ws s) u k = Some v.
Proof.
  revert s. induction ws as [| [u' v'] ws IH]; intros s Hnd Hin Hel; [contradiction |].
  simpl in *. inversion Hnd as [| ? ? Hnotin Hnd']. subst.
  destruct Hin as [[= -> ->] | Hin].
  - rewrite applyWrites_other by exact Hnotin.
    now apply attrAt_setAttr_same.
  - apply IH; auto.
    unfold withAttr. now rewrite isElementAt_modifyNode_mapAttrs.
Qed.

(** [xs.map((x, i) => f(x, i))], counting from [i]. *)
Definition mapFrom (A B : Type) (f : A -> nat -> B) : list A -> nat -> list B :=
  fix go (l : list A) (i : nat) : list B :=
    match l with
    | [] => []
    | x :: r => f x i :: go r (S i)
    end.

Definition flatMapFrom (A B : Type) (f : A -> nat -> list B) : list A -> nat -> list B :=
  fix go (l : list A) (i : nat) : list B :=
    match l with
    | [] => []
    | x :: r => f x i ++ go r (S i)
    end.

Lemma in_mapFrom (A B : Type) (f : A -> nat -> B) (l : list A) (i j : nat) (x : A) :
  nth_error l j = Some x -> In (f x (i + j)) (mapFrom f l i).
Proof.
  revert i j. induction l as [| y l IH]; intros i [| j] H; simpl in *; try discriminate.
  - injection H as ->. rewrite Nat.add_0_r. now left.
  - right. replace (i + S j) with (S i + j) by lia. now apply IH.
Qed.

Lemma in_flatMapFrom (A B : Type) (f : A -> nat -> list B) (l : list A) (i j : nat)
      (x : A) (b : B) :
  nth_error l j = Some x -> In b (f x (i + j)) -> In b (flatMapFrom f l i).
Proof.
  revert i j. induction l as [| y l IH]; intros i [| j] H Hb; simpl in *; try discriminate.
  - injection H as ->. rewrite Nat.add_0_r in Hb. apply in_or_app. now left.
  - apply in_or_app. right. apply (IH (S i) j); [exact H |].
    now replace (S i + j) with (i + S j) by lia.
Qed.

(** A loop of single writes is the list of its writes. *)
Lemma forEachFrom_writes (A : Type) k (h : A -> nat) (v : A -> nat -> string)
      (l : list A) (i : nat) (s : State) :
  forEachFrom (fun x j => setAttribute (h x) k (v x j)) l i s
  = (Ok tt, applyWrites k (mapFrom (fun x j => (h x, v x j)) l i) s).
Proof.
  revert i s. induction l as [| x l IH]; intros i s; simpl; [reflexivity |].
  unfold bind. rewrite setAttribute_run. apply IH.
Qed.

(** A loop whose steps are lists of writes is the list of all of
    them. *)
Lemma forEachFrom_flat (A : Type) k (f : A -> nat -> M unit)
      (w : A -> nat -> list (nat * string)) (l : list A) (i : nat) (s : State) :
  (forall x j st, In x l -> f x j st = (Ok tt, applyWrites k (w x j) st)) ->
  forEachFrom f l i s = (Ok tt, applyWrites k (flatMapFrom w l i) s).
Proof.
  revert i s. induction l as [| x l IH]; intros i s H; simpl; [reflexivity |].
  unfold bind. rewrite H by now left.
  rewrite applyWrites_app. apply IH. intros y j st Hy. apply H. now right.
Qed.

(** The same for steps that read the state: [P] is what they rely on,
    and the writes keep it. *)
Lemma forEachFrom_flat_inv (A : Type) k (P : State -> Prop) (f : A -> nat -> M unit)
      (w : A -> nat -> list (nat * string)) (l : list A) (i : nat) (s : State) :
  (forall x j st, nth_error l j = Some x -> P st ->
     f x (i + j) st = (Ok tt, applyWrites k (w x (i + j)) st)
     /\ P (applyWrites k (w x (i + j)) st)) ->
  P s ->
  forEachFrom f l i s = (Ok tt, applyWrites k (flatMapFrom w l i) s)
  /\ P (applyWrites k (flatMapFrom w l i) s).
Proof.
  revert i s. induction l as [| x l IH]; intros i s H Hs; simpl; [auto |].
  destruct (H x 0 s eq_refl Hs) as [E Hs']. rewrite Nat.add_0_r in E, Hs'.
  unfold bind. rewrite E, applyWrites_app. apply IH; [| exact Hs'].
  intros y j st Hy. replace (S i + j) with (i + S j) by lia. now apply H.
Qed.

Lemma forEach_flat_inv (A : Type) k (P : State -> Prop) (f : A -> M unit)
      (w : A -> list (nat * string)) (l : list A) (s : State) :
  (forall x st, In x l -> P st ->
     f x st = (Ok tt, applyWrites k (w x) st) /\ P (applyWrites k (w x) st)) ->
  P s ->
  forEach f l s = (Ok tt, applyWrites k (flat_map w l) s)
  /\ P (applyWrites k (flat_map w l) s).
Proof.
  revert s. induction l as [| x l IH]; intros s H Hs; simpl; [auto |].
  destruct (H x s (or_introl eq_refl) Hs) as [E Hs'].
  unfold bind. rewrite E, applyWrites_app. apply IH; [| exact Hs'].
  intros y st Hy. apply H. now right.
Qed.

(* ================================================================== *)
(** * Display numbers (claim C8) *)
(* ================================================================== *)

(** The display number of a question: its index plus one, after the
    number of its parent and a dot if it has a parent. *)
Definition displayNumberOf (prefix : string) (index : nat) : string :=
  ((if prefix =? "" then "" else prefix ++ ".") ++ Js.String_nat (index + 1))%string.

(** What [addQuestionNumber] writes. *)
Fixpoint questionNumbers (prefix : string) (question : Question) (index : nat)
  : list (nat * string) :=
  match question with
  | mkQuestion element childQuestions _ =>
      (element, displayNumberOf prefix index)
      :: flatMapFrom (questionNumbers (displayNumberOf prefix index)) childQuestions 0
  end.

Lemma addQuestionNumber_writes (question : Question) :
  forall prefix index s,
    addQuestionNumber prefix question index s
    = (Ok tt, applyWrites "display-number" (questionNumbers prefix question index) s).
Proof.
  induction question as [element childQuestions answers IH] using Question_ind'.
  intros prefix index s. simpl.
  unfold bind. rewrite setAttribute_run.
  fold (displayNumberOf prefix index).
  unfold forEachIndexed.
  rewrite (forEachFrom_flat "display-number" _ (questionNumbers (displayNumberOf prefix index))).
  - reflexivity.
  - intros x j st Hx. rewrite Forall_forall in IH. now apply IH.
Qed.

(** What [addSectionNumbers] writes. *)
Definition sectionNumbers (sections : list Section) : list (nat * string) :=
  mapFrom (fun section i => (s_element section, Js.String_nat (i + 1))) sections 0.

Lemma addSectionNumbers_writes (exam : Exam) (s : State) :
  addSectionNumbers exam s
  = (Ok tt, applyWrites "display-number" (sectionNumbers (e_sections exam)) s).
Proof.
  unfold addSectionNumbers, forEachIndexed, sectionNumbers.
  apply (forEachFrom_writes "display-number" s_element (fun _ i => Js.String_nat (i + 1))).
Qed.

(** What [addQuestionNumbers] writes. *)
Definition topLevelNumbers (topLevelQuestions : list Question) : list (nat * string) :=
  flatMapFrom (questionNumbers "") topLevelQuestions 0.

Lemma addQuestionNumbers_writes (exam : Exam) (s : State) :
  addQuestionNumbers exam s
  = (Ok tt, applyWrites "display-number" (topLevelNumbers (e_topLevelQuestions exam)) s).
Proof.
  unfold addQuestionNumbers, forEachIndexed, topLevelNumbers.
  apply forEachFrom_flat. intros x j st _. apply addQuestionNumber_writes.
Qed.

(** The display number of an answer. *)
Definition answerNumberOf (questionNumber : string) (count index : nat) : string :=
  if (count =? 1)%nat then questionNumber
  else (questionNumber ++ "." ++ Js.String_nat (index + 1))%string.

(** What [addAnswerNumber] writes for a question whose display number
    is [number]. *)
Fixpoint answerNumbers (number : string) (question : Question) : list (nat * string) :=
  match question with
  | mkQuestion element childQuestions answers =>
      mapFrom (fun answer i => (a_element answer, answerNumberOf number (length answers) i))
              answers 0
      ++ flatMapFrom (fun c j => answerNumbers (displayNumberOf number j) c) childQuestions 0
  end.

Lemma forEach_forEachFrom (A : Type) (f : A -> M unit) (l : list A) (i : nat) (s : State) :
  forEach f l s = forEachFrom (fun x _ => f x) l i s.
Proof.
  revert i s. induction l as [| x l IH]; intros i s; simpl; [reflexivity |].
  unfold bind. destruct (f x s) as [[[] | e] s1]; [apply IH | reflexivity].
Qed.

Lemma getAttribute_run k u s v : attrAt s u k = Some v -> getAttribute k u s = (Ok v, s).
Proof.
  intros E. unfold getAttribute, bind. now rewrite getAttributeOpt_run, E.
Qed.

Section AnswerNumbers.

(** The handles of the questions, whose display numbers the pass reads
    and has to leave alone, and the state it starts from. *)
Variable questionHandles : list nat.
Variable s0 : State.

Definition questionsKept (st : State) : Prop :=
  forall u, In u questionHandles ->
            attrAt st u "display-number" = attrAt s0 u "display-number".

Lemma questionsKept_writes (ws : list (nat * string)) (st : State) :
  (forall u, In u (map fst ws) -> ~ In u questionHandles) ->
  questionsKept st -> questionsKept (applyWrites "display-number" ws st).
Proof.
  intros Hdisj Hkept u Hu. rewrite applyWrites_other; [now apply Hkept |].
  intros Hin. now apply (Hdisj u Hin).
Qed.

Lemma displayNumberOf_nonempty prefix index : displayNumberOf prefix index <> "".
Proof.
  unfold displayNumberOf.
  assert (H : Js.String_nat (index + 1) <> "").
  { unfold Js.String_nat, NilZero.string_of_uint.
    destruct (Nat.to_uint (index + 1)); discriminate. }
  destruct (prefix =? ""); simpl.
  - exact H.
  - destruct prefix; simpl; discriminate.
Qed.

Lemma addAnswerNumber_writes (question : Question) :
  forall prefix index st,
    (forall u n, In (u, n) (questionNumbers prefix question index) ->
                 attrAt s0 u "display-number" = Some n /\ In u questionHandles) ->
    (forall u, In u (map fst (answerNumbers (displayNumberOf prefix index) question)) ->
               ~ In u questionHandles) ->
    questionsKept st ->
    addAnswerNumber question st
    = (Ok tt, applyWrites "display-number"
                (answerNumbers (displayNumberOf prefix index) question) st)
    /\ questionsKept (applyWrites "display-number"
                        (answerNumbers (displayNumberOf prefix index) question) st).
Proof.
  induction question as [element childQuestions answers IH] using Question_ind'.
  intros prefix index st Hnum Hdisj Hkept.
  split; [| now apply questionsKept_writes].
  simpl in *.
  destruct (Hnum element (displayNumberOf prefix index) (or_introl eq_refl)) as [Eel Hel].
  unfold bind at 1.
  rewrite (@getAttribute_run "display-number" element st (displayNumberOf prefix index))
    by (rewrite Hkept; assumption).
  unfold bind. unfold forEachIndexed.
  rewrite (forEachFrom_writes "display-number" a_element
             (fun _ i => answerNumberOf (displayNumberOf prefix index) (length answers) i)).
  rewrite applyWrites_app.
  rewrite (forEach_forEachFrom _ _ 0).
  match goal with
  | |- forEachFrom _ _ _ ?st1 = _ =>
      destruct (@forEachFrom_flat_inv Question "display-number" questionsKept
                  (fun x _ => addAnswerNumber x)
                  (fun c j => answerNumbers (displayNumberOf (displayNumberOf prefix index) j) c)
                  childQuestions 0 st1) as [E _]
  end.
  - intros c j st' Hc Hst'. simpl. rewrite Forall_forall in IH.
    apply (IH c (nth_error_In _ _ Hc) (displayNumberOf prefix index) j st').
    + intros u n Hin. apply Hnum. right.
      eapply in_flatMapFrom with (i := 0) (j := j); [exact Hc | exact Hin].
    + intros u Hu. apply Hdisj. rewrite map_app. apply in_or_app. right.
      apply in_map_iff in Hu. destruct Hu as ([u' n] & <- & Hin).
      apply (in_map fst).
      eapply in_flatMapFrom with (i := 0) (j := j); [exact Hc | exact Hin].
    + exact Hst'.
  - apply questionsKept_writes; [| exact Hkept].
    intros u Hu. apply Hdisj. rewrite map_app. apply in_or_app. now left.
  - exact E.
Qed.

(** What [addAnswerNumbers] writes. *)
Definition allAnswerNumbers (topLevelQuestions : list Question) : list (nat * string) :=
  flatMapFrom (fun q i => answerNumbers (displayNumberOf "" i) q) topLevelQuestions 0.

Lemma addAnswerNumbers_writes (exam : Exam) (st : State) :
  (forall u n, In (u, n) (topLevelNumbers (e_topLevelQuestions exam)) ->
               attrAt s0 u "display-number" = Some n /\ In u questionHandles) ->
  (forall u, In u (map fst (allAnswerNumbers (e_topLevelQuestions exam))) ->
             ~ In u questionHandles) ->
  questionsKept st ->
  addAnswerNumbers exam st
  = (Ok tt, applyWrites "display-number" (allAnswerNumbers (e_topLevelQuestions exam)) st)
  /\ questionsKept (applyWrites "display-number"
                      (allAnswerNumbers (e_topLevelQuestions exam)) st).
Proof.
  intros Hnum Hdisj Hkept. unfold addAnswerNumbers, allAnswerNumbers.
  rewrite (forEach_forEachFrom _ _ 0).
  apply (@forEachFrom_flat_inv Question "display-number" questionsKept
           (fun x _ => addAnswerNumber x)
           (fun q i => answerNumbers (displayNumberOf "" i) q)); [| exact Hkept].
  intros q j st' Hq Hst'. simpl.
  apply (@addAnswerNumber_writes q "" j st').
  - intros u n Hin. apply Hnum.
    eapply in_flatMapFrom with (i := 0) (j := j); [exact Hq | exact Hin].
  - intros u Hu. apply Hdisj.
    apply in_map_iff in Hu. destruct Hu as ([u' n] & <- & Hin).
    apply (in_map fst).
    eapply in_flatMapFrom with (i := 0) (j := j); [exact Hq | exact Hin].
  - exact Hst'.
Qed.

End AnswerNumbers.

(** The external-material attachments of an element:
    [element.find('./e:external-material/e:attachment')]. *)
Definition externalAttachments (u : nat) (s : State) : list nat :=
  map uid (findGrandChildren "external-material" "attachment" u s).

Lemma externalAttachments_shape (u : nat) (s : State) :
  externalAttachments u s
  = match lookup u (shape s) with
    | Some n => map uid (grandChildrenNamed "external-material" "attachment" n)
    | None => []
    end.
Proof.
  unfold externalAttachments, findGrandChildren, elementOf, shape.
  rewrite lookup_skel. destruct (lookup u (root s)) as [n |]; simpl; [| reflexivity].
  now rewrite grandChildrenNamed_skel, map_uid_skel.
Qed.

(** The letters of a list of attachments. *)
Definition letters (label : nat -> string) (us : list nat) : list (nat * string) :=
  mapFrom (fun u i => (u, label i)) us 0.

(** The display number a list of writes gives to a handle. *)
Definition numberIn (ws : list (nat * string)) (u : nat) : string :=
  match find (fun w => (fst w =? u)%nat) ws with
  | Some w => snd w
  | None => ""
  end.

Definition questionLetter (number : string) (i : nat) : string :=
  (number ++ "." ++ alphabetAt i)%string.

(** What [addAttachmentNumbers] writes, [qs] being the display numbers
    of the questions. *)
Definition attachmentNumbers (qs : list (nat * string)) (exam : Exam) (s : State)
  : list (nat * string) :=
  letters alphabetAt (externalAttachments (e_element exam) s)
  ++ flat_map (fun q => letters (questionLetter (numberIn qs (q_element q)))
                                (externalAttachments (q_element q) s))
              (e_questions exam).

Lemma mapFrom_map (A B C : Type) (g : A -> B) (f : B -> nat -> C) (l : list A) (i : nat) :
  mapFrom f (map g l) i = mapFrom (fun x j => f (g x) j) l i.
Proof.
  revert i. induction l as [| x l IH]; intros i; simpl; [reflexivity |]. now rewrite IH.
Qed.

Lemma letters_loop (label : nat -> string) (attachments : list node) (st : State) :
  forEachIndexed
    (fun attachment i => setAttribute (uid attachment) "display-number" (label i))
    attachments st
  = (Ok tt, applyWrites "display-number" (letters label (map uid attachments)) st).
Proof.
  unfold forEachIndexed, letters. rewrite mapFrom_map.
  apply (forEachFrom_writes "display-number" uid (fun _ i => label i)).
Qed.

Lemma numberIn_written (ws : list (nat * string)) (u : nat) (n : string) :
  NoDup (map fst ws) -> In (u, n) ws -> numberIn ws u = n.
Proof.
  unfold numberIn. induction ws as [| [u' n'] ws IH]; intros Hnd Hin; [contradiction |].
  simpl in *. inversion Hnd as [| ? ? Hnotin Hnd']. subst.
  destruct Hin as [[= -> ->] | Hin].
  - now rewrite Nat.eqb_refl.
  - destruct (u' =? u)%nat eqn:E.
    + apply Nat.eqb_eq in E. subst u'. exfalso. apply Hnotin.
      apply in_map_iff. now exists (u, n).
    + now apply IH.
Qed.

Section AttachmentNumbers.

Variable exam : Exam.
Variable s : State.
(** The display numbers of the questions, as the passes before wrote
    them in [s0]. *)
Variable qs : list (nat * string).
Variable s0 : State.

Hypothesis qs_distinct : NoDup (map fst qs).
Hypothesis qs_written :
  forall u n, In (u, n) qs -> attrAt s0 u "display-number" = Some n.
Hypothesis questions_numbered :
  forall q, In q (e_questions exam) -> In (q_element q) (map fst qs).
Hypothesis attachments_apart :
  forall u, In u (map fst (attachmentNumbers qs exam s)) -> ~ In u (map fst qs).

Definition numbersKept (st : State) : Prop :=
  shape st = shape s /\ questionsKept (map fst qs) s0 st.

Lemma numbersKept_writes (ws : list (nat * string)) (st : State) :
  (forall u, In u (map fst ws) -> ~ In u (map fst qs)) ->
  numbersKept st -> numbersKept (applyWrites "display-number" ws st).
Proof.
  intros Hdisj [Hshape Hkept]. split.
  - destruct (applyWrites_sameExcept "display-number" ws st) as (E & _). congruence.
  - now apply questionsKept_writes.
Qed.

Lemma addAttachmentNumbers_writes (st : State) :
  numbersKept st ->
  addAttachmentNumbers exam st
  = (Ok tt, applyWrites "display-number" (attachmentNumbers qs exam s) st).
Proof.
  intros Hkept. unfold addAttachmentNumbers, attachmentNumbers.
  rewrite bind_gets. unfold bind at 1. rewrite letters_loop.
  fold (externalAttachments (e_element exam) st).
  assert (Hext : forall u st', numbersKept st' ->
                   externalAttachments u st' = externalAttachments u s).
  { intros u st' [Hshape _]. now rewrite !externalAttachments_shape, Hshape. }
  rewrite (Hext _ _ Hkept), applyWrites_app.
  match goal with
  | |- forEach ?f _ ?st1 = _ =>
      destruct (@forEach_flat_inv Question "display-number" numbersKept f
                  (fun q => letters (questionLetter (numberIn qs (q_element q)))
                                    (externalAttachments (q_element q) s))
                  (e_questions exam) st1) as [E _]
  end.
  - intros q st' Hq Hst'.
    assert (Hw : forall u, In u (map fst (letters (questionLetter (numberIn qs (q_element q)))
                                            (externalAttachments (q_element q) s))) ->
                           ~ In u (map fst qs)).
    { intros u Hu. apply attachments_apart. unfold attachmentNumbers.
      rewrite map_app. apply in_or_app. right.
      apply in_map_iff in Hu. destruct Hu as ([u' n] & <- & Hin).
      apply (in_map fst). apply in_flat_map. now exists q. }
    split; [| now apply numbersKept_writes].
    destruct (proj1 (in_map_iff _ _ _) (questions_numbered q Hq)) as ([u n] & Eu & Hin).
    simpl in Eu. subst u.
    unfold bind at 1.
    rewrite (@getAttribute_run "display-number" (q_element q) st' n).
    2:{ destruct Hst' as [_ Hk]. rewrite Hk by (apply (in_map fst) in Hin; exact Hin).
        now apply qs_written. }
    rewrite bind_gets.
    fold (externalAttachments (q_element q) st').
    rewrite (@numberIn_written qs (q_element q) n qs_distinct Hin).
    rewrite letters_loop. fold (externalAttachments (q_element q) st').
    now rewrite (Hext _ _ Hst').
  - apply numbersKept_writes; [| exact Hkept].
    intros u Hu. apply attachments_apart. unfold attachmentNumbers.
    rewrite map_app. apply in_or_app. now left.
  - exact E.
Qed.

End AttachmentNumbers.

(** A question and the questions nested in it. *)
Fixpoint subQuestions (question : Question) : list Question :=
  match question with
  | mkQuestion _ childQuestions _ => question :: flat_map subQuestions childQuestions
  end.

Lemma subQuestions_numbers (q0 : Question) :
  forall prefix i q,
    In q (subQuestions q0) ->
    exists p' i',
      incl (questionNumbers p' q i') (questionNumbers prefix q0 i)
      /\ incl (answerNumbers (displayNumberOf p' i') q)
              (answerNumbers (displayNumberOf prefix i) q0).
Proof.
  induction q0 as [element childQuestions answers IH] using Question_ind'.
  intros prefix i q Hq. simpl in Hq. destruct Hq as [<- | Hq].
  - exists prefix, i. split; apply incl_refl.
  - apply in_flat_map in Hq. destruct Hq as (c & Hc & Hq).
    destruct (In_nth_error _ _ Hc) as (j & Hj).
    rewrite Forall_forall in IH.
    destruct (IH c Hc (displayNumberOf prefix i) j q Hq) as (p' & i' & H1 & H2).
    exists p', i'. split.
    + intros w Hw. simpl. right.
      eapply in_flatMapFrom with (i := 0) (j := j); [exact Hj | now apply H1].
    + intros w Hw. simpl. apply in_or_app. right.
      eapply in_flatMapFrom with (i := 0) (j := j); [exact Hj | now apply H2].
Qed.

Lemma questionNumbers_head prefix q i :
  In (q_element q, displayNumberOf prefix i) (questionNumbers prefix q i).
Proof. destruct q. simpl. now left. Qed.

Lemma questionNumbers_child prefix q i j c :
  nth_error (q_childQuestions q) j = Some c ->
  In (q_element c, displayNumberOf (displayNumberOf prefix i) j) (questionNumbers prefix q i).
Proof.
  intros Hj. destruct q as [element childQuestions answers]. simpl in *. right.
  eapply in_flatMapFrom with (i := 0) (j := j); [exact Hj | apply questionNumbers_head].
Qed.

Lemma answerNumbers_answer number q i a :
  nth_error (q_answers q) i = Some a ->
  In (a_element a, answerNumberOf number (length (q_answers q)) i) (answerNumbers number q).
Proof.
  intros Hi. destruct q as [element childQuestions answers]. simpl in *.
  apply in_or_app. left.
  apply (in_mapFrom (fun answer i0 => (a_element answer,
                                       answerNumberOf number (length answers) i0))
                    answers 0 i Hi).
Qed.

Lemma displayNumberOf_child number j :
  number <> "" ->
  displayNumberOf number j = (number ++ "." ++ Js.String_nat (j + 1))%string.
Proof.
  intros H. unfold displayNumberOf. apply String.eqb_neq in H. rewrite H.
  induction number as [| c r IH]; simpl; [reflexivity |]. f_equal.
  clear. induction r as [| c r IH]; simpl; [reflexivity |]. now rewrite IH.
Qed.

Lemma collectQuestions_sub (q0 q : Question) :
  In q (collectQuestions q0) -> In q (subQuestions q0).
Proof.
  induction q0 as [element childQuestions answers IH] using Question_ind'.
  simpl. intros [<- | Hq]; [now left | right].
  destruct (nonEmpty answers); [contradiction |].
  apply in_flat_map in Hq. destruct Hq as (c & Hc & Hq).
  apply in_flat_map. exists c. split; [exact Hc |].
  rewrite Forall_forall in IH. now apply IH.
Qed.

Lemma NoDup_app_disjoint (A : Type) (l1 l2 : list A) (x : A) :
  NoDup (l1 ++ l2) -> In x l1 -> ~ In x l2.
Proof.
  induction l1 as [| y l1 IH]; simpl; intros Hnd Hin; [contradiction |].
  inversion Hnd as [| ? ? Hnotin Hnd']. subst.
  destruct Hin as [-> | Hin]; [| now apply IH].
  intros H. apply Hnotin. apply in_or_app. now right.
Qed.

(** Deciding that a list of handles has no duplicates. *)
Fixpoint distinct (l : list nat) : bool :=
  match l with
  | [] => true
  | x :: r => negb (existsb (Nat.eqb x) r) && distinct r
  end.

Lemma distinct_NoDup (l : list nat) : distinct l = true -> NoDup l.
Proof.
  induction l as [| x l IH]; simpl; intros H; [constructor |].
  apply andb_prop in H. destruct H as [H1 H2]. constructor; [| now apply IH].
  intros Hin. apply negb_true_iff in H1.
  assert (E : existsb (Nat.eqb x) l = true).
  { apply existsb_exists. exists x. split; [exact Hin | apply Nat.eqb_refl]. }
  congruence.
Qed.

Lemma forallb_In (A : Type) (p : A -> bool) (l : list A) :
  forallb p l = true -> forall x, In x l -> p x = true.
Proof. intros H. now apply forallb_forall. Qed.

(** The four numbering passes, as [masterExamVersion] runs them. *)
Definition numbering (exam : Exam) : M unit :=
  addSectionNumbers exam ;;
  addQuestionNumbers exam ;;
  addAnswerNumbers exam ;;
  addAttachmentNumbers exam.

(** Every display number the numbering passes write, in order. *)
Definition numberingWrites (exam : Exam) (s : State) : list (nat * string) :=
  sectionNumbers (e_sections exam)
  ++ topLevelNumbers (e_topLevelQuestions exam)
  ++ allAnswerNumbers (e_topLevelQuestions exam)
  ++ attachmentNumbers (topLevelNumbers (e_topLevelQuestions exam)) exam s.

(** The elements the numbering passes number: sections, questions,
    answers, external-material attachments. *)
Definition numbered (exam : Exam) (s : State) : list nat := map fst (numberingWrites exam s).

Lemma numbering_writes (exam : Exam) (s : State) :
  e_questions exam = flat_map collectQuestions (e_topLevelQuestions exam) ->
  NoDup (numbered exam s) ->
  (forall u, In u (numbered exam s) -> isElementAt s u = true) ->
  numbering exam s = (Ok tt, applyWrites "display-number" (numberingWrites exam s) s).
Proof.
  intros Hqs Hnd Hpresent. unfold numbered in *. unfold numbering, numberingWrites in *.
  set (W1 := sectionNumbers (e_sections exam)) in *.
  set (W2 := topLevelNumbers (e_topLevelQuestions exam)) in *.
  set (W3 := allAnswerNumbers (e_topLevelQuestions exam)) in *.
  set (W4 := attachmentNumbers W2 exam s) in *.
  rewrite !map_app in Hnd.
  assert (Hnd2 : NoDup (map fst W2)).
  { apply NoDup_app_remove_l in Hnd. now apply NoDup_app_remove_r in Hnd. }
  assert (Hd23 : forall u, In u (map fst W3) -> ~ In u (map fst W2)).
  { intros u H3 H2. apply NoDup_app_remove_l in Hnd.
    apply (@NoDup_app_disjoint _ _ _ u Hnd H2). apply in_or_app. now left. }
  assert (Hd24 : forall u, In u (map fst W4) -> ~ In u (map fst W2)).
  { intros u H4 H2. apply NoDup_app_remove_l in Hnd.
    apply (@NoDup_app_disjoint _ _ _ u Hnd H2). apply in_or_app. now right. }
  set (s1 := applyWrites "display-number" W1 s).
  set (s2 := applyWrites "display-number" W2 s1).
  set (s3 := applyWrites "display-number" W3 s2).
  assert (Hw2 : forall u n, In (u, n) W2 -> attrAt s2 u "display-number" = Some n).
  { intros u n Hin. apply applyWrites_written; [exact Hnd2 | exact Hin |].
    unfold s1. rewrite applyWrites_isElementAt. apply Hpresent.
    rewrite !map_app. apply in_or_app. right. apply in_or_app. left.
    apply in_map_iff. now exists (u, n). }
  destruct (@addAnswerNumbers_writes (map fst W2) s2 exam s2) as [E3 K3].
  { intros u n Hin. split; [now apply Hw2 |]. apply in_map_iff. now exists (u, n). }
  { exact Hd23. }
  { intros u _. reflexivity. }
  assert (E4 : addAttachmentNumbers exam s3
               = (Ok tt, applyWrites "display-number" W4 s3)).
  { apply (@addAttachmentNumbers_writes exam s W2 s2 Hnd2 Hw2). all: cycle 1.
    - exact Hd24.
    - split; [| exact K3].
      unfold s3, s2, s1.
      destruct (applyWrites_sameExcept "display-number" W3
                  (applyWrites "display-number" W2 (applyWrites "display-number" W1 s)))
        as (E & _).
      destruct (applyWrites_sameExcept "display-number" W2
                  (applyWrites "display-number" W1 s)) as (E' & _).
      destruct (applyWrites_sameExcept "display-number" W1 s) as (E'' & _).
      congruence.
    - intros q Hq. rewrite Hqs in Hq. apply in_flat_map in Hq.
      destruct Hq as (q0 & Hq0 & Hq). apply collectQuestions_sub in Hq.
      destruct (In_nth_error _ _ Hq0) as (j & Hj).
      destruct (subQuestions_numbers q0 "" j q Hq) as (p' & i' & H1 & _).
      apply in_map_iff. exists (q_element q, displayNumberOf p' i'). split; [reflexivity |].
      unfold W2, topLevelNumbers.
      eapply in_flatMapFrom with (i := 0) (j := j); [exact Hj |].
      apply H1. apply questionNumbers_head. }
  unfold s3, s2, s1, W4, W3, W2, W1 in *.
  unfold bind. rewrite addSectionNumbers_writes, addQuestionNumbers_writes, E3, E4.
  now rewrite !applyWrites_app.
Qed.

(** The display number of an element. *)
Definition displayNumber (s : State) (u : nat) : option string := attrAt s u "display-number".

(** Every question of the exam, nested ones included. *)
Definition allQuestions (exam : Exam) : list Question :=
  flat_map subQuestions (e_topLevelQuestions exam).

Lemma allQuestions_numbers (exam : Exam) (s : State) (q : Question) :
  In q (allQuestions exam) ->
  exists n,
    n <> ""
    /\ In (q_element q, n) (topLevelNumbers (e_topLevelQuestions exam))
    /\ (forall j c, nth_error (q_childQuestions q) j = Some c ->
          In (q_element c, (n ++ "." ++ Js.String_nat (j + 1))%string)
             (topLevelNumbers (e_topLevelQuestions exam)))
    /\ (forall i a, nth_error (q_answers q) i = Some a ->
          In (a_element a, answerNumberOf n (length (q_answers q)) i)
             (allAnswerNumbers (e_topLevelQuestions exam))).
Proof.
  intros Hq. unfold allQuestions in Hq. apply in_flat_map in Hq.
  destruct Hq as (q0 & Hq0 & Hq).
  destruct (In_nth_error _ _ Hq0) as (j0 & Hj0).
  destruct (subQuestions_numbers q0 "" j0 q Hq) as (p' & i' & H1 & H2).
  exists (displayNumberOf p' i').
  assert (Hne : displayNumberOf p' i' <> "") by apply displayNumberOf_nonempty.
  split; [exact Hne |]. split; [| split].
  - unfold topLevelNumbers.
    eapply in_flatMapFrom with (i := 0) (j := j0); [exact Hj0 |].
    apply H1. apply questionNumbers_head.
  - intros j c Hj. unfold topLevelNumbers.
    eapply in_flatMapFrom with (i := 0) (j := j0); [exact Hj0 |].
    apply H1. rewrite <- (displayNumberOf_child j Hne).
    now apply questionNumbers_child.
  - intros i a Hi. unfold allAnswerNumbers.
    eapply in_flatMapFrom with (i := 0) (j := j0); [exact Hj0 |].
    apply H2. now apply answerNumbers_answer.
Qed.

(** C8: after the numbering passes, sections are numbered 1..N in
    document order; a top-level question has its index plus one, a
    child question the number of its parent, a dot and its index plus
    one; the only answer of a question has the number of the question,
    otherwise an answer has that number, a dot and its index plus one;
    the external-material attachments of the exam are lettered along
    the alphabet A..Z, Å, Ä, Ö from its start, those of every question
    from its start again, with the number of the question and a dot in
    front; and nothing else gets a display number. *)
Theorem C8_display_numbers (exam : Exam) (s : State) :
  e_questions exam = flat_map collectQuestions (e_topLevelQuestions exam) ->
  NoDup (numbered exam s) ->
  (forall u, In u (numbered exam s) -> isElementAt s u = true) ->
  exists s',
    numbering exam s = (Ok tt, s')
    /\ (forall i sec, nth_error (e_sections exam) i = Some sec ->
          displayNumber s' (s_element sec) = Some (Js.String_nat (i + 1)))
    /\ (forall i q, nth_error (e_topLevelQuestions exam) i = Some q ->
          displayNumber s' (q_element q) = Some (Js.String_nat (i + 1)))
    /\ (forall parent j child,
          In parent (allQuestions exam) ->
          nth_error (q_childQuestions parent) j = Some child ->
          exists n, displayNumber s' (q_element parent) = Some n
                    /\ displayNumber s' (q_element child)
                       = Some (n ++ "." ++ Js.String_nat (j + 1))%string)
    /\ (forall q i a,
          In q (allQuestions exam) ->
          nth_error (q_answers q) i = Some a ->
          exists n, displayNumber s' (q_element q) = Some n
                    /\ displayNumber s' (a_element a)
                       = Some (if (length (q_answers q) =? 1)%nat then n
                               else (n ++ "." ++ Js.String_nat (i + 1))%string))
    /\ (forall i a, i < length alphabet ->
          nth_error (externalAttachments (e_element exam) s) i = Some a ->
          displayNumber s' a = Some (alphabetAt i))
    /\ (forall q i a,
          In q (e_questions exam) ->
          nth_error (externalAttachments (q_element q) s) i = Some a ->
          exists n, displayNumber s' (q_element q) = Some n
                    /\ displayNumber s' a = Some (n ++ "." ++ alphabetAt i)%string)
    /\ map alphabetAt (seq 0 29)
       = [ "A"; "B"; "C"; "D"; "E"; "F"; "G"; "H"; "I"; "J"; "K"; "L"; "M"; "N"; "O"; "P";
           "Q"; "R"; "S"; "T"; "U"; "V"; "W"; "X"; "Y"; "Z"; "Å"; "Ä"; "Ö" ]
    /\ (forall u, ~ In u (numbered exam s) -> displayNumber s' u = displayNumber s u).
Proof.
  intros Hqs Hnd Hpresent.
  exists (applyWrites "display-number" (numberingWrites exam s) s).
  split; [now apply numbering_writes |].
  assert (W : forall u v, In (u, v) (numberingWrites exam s) ->
                displayNumber (applyWrites "display-number" (numberingWrites exam s) s) u
                = Some v).
  { intros u v Hin. apply applyWrites_written; [exact Hnd | exact Hin |].
    apply Hpresent. apply in_map_iff. now exists (u, v). }
  assert (W1 : forall w, In w (sectionNumbers (e_sections exam)) ->
                         In w (numberingWrites exam s)).
  { intros w Hw. unfold numberingWrites. apply in_or_app. now left. }
  assert (W2 : forall w, In w (topLevelNumbers (e_topLevelQuestions exam)) ->
                         In w (numberingWrites exam s)).
  { intros w Hw. unfold numberingWrites. apply in_or_app. right. apply in_or_app. now left. }
  assert (W3 : forall w, In w (allAnswerNumbers (e_topLevelQuestions exam)) ->
                         In w (numberingWrites exam s)).
  { intros w Hw. unfold numberingWrites. apply in_or_app. right. apply in_or_app. right.
    apply in_or_app. now left. }
  assert (W4 : forall w, In w (attachmentNumbers (topLevelNumbers (e_topLevelQuestions exam))
                                                  exam s) ->
                         In w (numberingWrites exam s)).
  { intros w Hw. unfold numberingWrites. apply in_or_app. right. apply in_or_app. right.
    apply in_or_app. now right. }
  assert (Hnd2 : NoDup (map fst (topLevelNumbers (e_topLevelQuestions exam)))).
  { unfold numbered, numberingWrites in Hnd. rewrite !map_app in Hnd.
    apply NoDup_app_remove_l in Hnd. now apply NoDup_app_remove_r in Hnd. }
  repeat split.
  - intros i sec Hi. apply W, W1.
    apply (in_mapFrom (fun section i0 => (s_element section, Js.String_nat (i0 + 1)))
                      (e_sections exam) 0 i Hi).
  - intros i q Hi. apply W, W2. unfold topLevelNumbers.
    eapply in_flatMapFrom with (i := 0) (j := i); [exact Hi |].
    apply (questionNumbers_head "" q i).
  - intros parent j child Hp Hj.
    destruct (allQuestions_numbers exam s parent Hp) as (n & Hne & Hn & Hchild & _).
    exists n. split; [now apply W, W2 |]. apply W, W2. now apply Hchild.
  - intros q i a Hq Hi.
    destruct (allQuestions_numbers exam s q Hq) as (n & Hne & Hn & _ & Hans).
    exists n. split; [now apply W, W2 |]. apply W, W3. now apply Hans.
  - intros i a _ Hi. apply W, W4. unfold attachmentNumbers. apply in_or_app. left.
    apply (in_mapFrom (fun u i0 => (u, alphabetAt i0)) _ 0 i Hi).
  - intros q i a Hq Hi.
    assert (Hsub : In q (allQuestions exam)).
    { rewrite Hqs in Hq. apply in_flat_map in Hq. destruct Hq as (q0 & Hq0 & Hq).
      apply in_flat_map. exists q0. split; [exact Hq0 | now apply collectQuestions_sub]. }
    destruct (allQuestions_numbers exam s q Hsub) as (n & Hne & Hn & _ & _).
    exists n. split; [now apply W, W2 |]. apply W, W4.
    unfold attachmentNumbers. apply in_or_app. right.
    apply in_flat_map. exists q. split; [exact Hq |].
    rewrite (@numberIn_written _ (q_element q) n Hnd2 Hn).
    apply (in_mapFrom (fun u i0 => (u, questionLetter n i0)) _ 0 i Hi).
  - intros u Hu. apply applyWrites_other. exact Hu.
Qed.

(** An exam of one section with a question of two sub-questions, the
    first with two answers and the second with one, and external
    material both on the exam and on the second sub-question. *)
Definition numberedExam : node :=
  Element 0 NsE "exam" []
    [ Element 1 NsE "section" []
        [ Element 2 NsE "question" []
            [ Element 3 NsE "question" []
                [ Element 4 NsE "text-answer" [] []; Element 5 NsE "text-answer" [] [] ];
              Element 6 NsE "question" []
                [ Element 7 NsE "text-answer" [] [];
                  Element 8 NsE "external-material" []
                    [ Element 9 NsE "attachment" [] []; Element 10 NsE "attachment" [] [] ] ] ] ];
      Element 11 NsE "external-material" [] [ Element 12 NsE "attachment" [] [] ] ].

Lemma C8_display_numbers_witness :
  exists s',
    numbering (parseExamStructure (initialState numberedExam)) (initialState numberedExam)
    = (Ok tt, s')
    /\ displayNumber s' 1 = Some "1"
    /\ displayNumber s' 2 = Some "1"
    /\ displayNumber s' 3 = Some "1.1"
    /\ displayNumber s' 6 = Some "1.2"
    /\ displayNumber s' 4 = Some "1.1.1"
    /\ displayNumber s' 5 = Some "1.1.2"
    /\ displayNumber s' 7 = Some "1.2"
    /\ displayNumber s' 12 = Some "A"
    /\ displayNumber s' 9 = Some "1.2.A"
    /\ displayNumber s' 10 = Some "1.2.B"
    /\ displayNumber s' 8 = None.
Proof.
  destruct (@C8_display_numbers
              (parseExamStructure (initialState numberedExam)) (initialState numberedExam))
    as (s' & E & Hsec & Htop & Hchild & Hans & Hexam & Hatt & _ & Hframe).
  - reflexivity.
  - apply distinct_NoDup. vm_compute. reflexivity.
  - apply forallb_In. vm_compute. reflexivity.
  - exists s'. split; [exact E |].
    set (exam := parseExamStructure (initialState numberedExam)) in *.
    pose (q2 := nth 0 (e_topLevelQuestions exam) (mkQuestion 0 [] [])).
    pose (q3 := nth 0 (q_childQuestions q2) (mkQuestion 0 [] [])).
    pose (q6 := nth 1 (q_childQuestions q2) (mkQuestion 0 [] [])).
    assert (I2 : In q2 (allQuestions exam)) by (vm_compute; tauto).
    assert (I3 : In q3 (allQuestions exam)) by (vm_compute; tauto).
    assert (I6 : In q6 (allQuestions exam)) by (vm_compute; tauto).
    assert (J6 : In q6 (e_questions exam)) by (vm_compute; tauto).
    assert (N2 : displayNumber s' 2 = Some "1") by (apply (Htop 0 q2); reflexivity).
    assert (N3 : displayNumber s' 3 = Some "1.1").
    { destruct (Hchild q2 0 q3 I2 eq_refl) as (n & Hn & Hc).
      change (q_element q2) with 2 in Hn. rewrite N2 in Hn. injection Hn as <-. exact Hc. }
    assert (N6 : displayNumber s' 6 = Some "1.2").
    { destruct (Hchild q2 1 q6 I2 eq_refl) as (n & Hn & Hc).
      change (q_element q2) with 2 in Hn. rewrite N2 in Hn. injection Hn as <-. exact Hc. }
    repeat split.
    + apply (Hsec 0 (nth 0 (e_sections exam) (mkSection 0 []))). reflexivity.
    + exact N2.
    + exact N3.
    + exact N6.
    + destruct (Hans q3 0 (nth 0 (q_answers q3) (mkAnswer 0 0)) I3 eq_refl) as (n & Hn & Ha).
      change (q_element q3) with 3 in Hn. rewrite N3 in Hn. injection Hn as <-. exact Ha.
    + destruct (Hans q3 1 (nth 1 (q_answers q3) (mkAnswer 0 0)) I3 eq_refl) as (n & Hn & Ha).
      change (q_element q3) with 3 in Hn. rewrite N3 in Hn. injection Hn as <-. exact Ha.
    + destruct (Hans q6 0 (nth 0 (q_answers q6) (mkAnswer 0 0)) I6 eq_refl) as (n & Hn & Ha).
      change (q_element q6) with 6 in Hn. rewrite N6 in Hn. injection Hn as <-. exact Ha.
    + apply (Hexam 0 12); [vm_compute; lia | reflexivity].
    + destruct (Hatt q6 0 9 J6 eq_refl) as (n & Hn & Ha).
      change (q_element q6) with 6 in Hn. rewrite N6 in Hn. injection Hn as <-. exact Ha.
    + destruct (Hatt q6 1 10 J6 eq_refl) as (n & Hn & Ha).
      change (q_element q6) with 6 in Hn. rewrite N6 in Hn. injection Hn as <-. exact Ha.
    + rewrite Hframe; [reflexivity |]. vm_compute. intuition discriminate.
Defined.

(* ================================================================== *)
(** * Ordering by score *)
(* ================================================================== *)

Section OrderByDesc.

Variable A : Type.
Variable key : A -> Z.

Let above (a b : A) : bool := (key b <=? key a)%Z.

Lemma insert_Permutation (x : A) (l : list A) :
  Permutation (Lodash.insert above x l) (x :: l).
Proof.
  induction l as [| y l IH]; simpl; [reflexivity |].
  destruct (above x y); [reflexivity |].
  rewrite IH. apply perm_swap.
Qed.

(** [_.orderBy] rearranges: nothing is lost or added. *)
Lemma orderByDesc_Permutation (l : list A) : Permutation (Lodash.orderByDesc key l) l.
Proof.
  unfold Lodash.orderByDesc. fold above.
  induction l as [| x l IH]; simpl; [reflexivity |].
  rewrite insert_Permutation. now constructor.
Qed.

Lemma insert_sorted (x : A) (l : list A) :
  StronglySorted (fun a b => (key b <= key a)%Z) l ->
  StronglySorted (fun a b => (key b <= key a)%Z) (Lodash.insert above x l).
Proof.
  induction l as [| y l IH]; intros H; simpl.
  - repeat constructor.
  - inversion H as [| ? ? Hl Hy]. subst. unfold above at 1.
    destruct (key y <=? key x)%Z eqn:E.
    + apply Z.leb_le in E. constructor; [exact H |].
      constructor; [exact E |].
      apply Forall_forall. intros z Hz.
      assert (key z <= key y)%Z by (eapply Forall_forall in Hy; eauto). lia.
    + apply Z.leb_gt in E. constructor; [now apply IH |].
      apply Forall_forall. intros z Hz.
      apply (Permutation_in _ (insert_Permutation x l)) in Hz.
      destruct Hz as [<- | Hz]; [lia |].
      eapply Forall_forall in Hy; eauto.
Qed.

(** The greatest scores come first. *)
Lemma orderByDesc_sorted (l : list A) :
  StronglySorted (fun a b => (key b <= key a)%Z) (Lodash.orderByDesc key l).
Proof.
  unfold Lodash.orderByDesc. fold above.
  induction l as [| x l IH]; simpl; [constructor |].
  now apply insert_sorted.
Qed.

Lemma insert_filter (x : A) (l : list A) (v : Z) :
  StronglySorted (fun a b => (key b <= key a)%Z) l ->
  filter (fun a => (key a =? v)%Z) (Lodash.insert above x l)
  = filter (fun a => (key a =? v)%Z) (x :: l).
Proof.
  induction l as [| y l IH]; intros H; [reflexivity |].
  inversion H as [| ? ? Hl Hy]. subst.
  cbn [Lodash.insert]. unfold above at 1.
  destruct (key y <=? key x)%Z eqn:E; [reflexivity |].
  apply Z.leb_gt in E.
  cbn [filter]. rewrite (IH Hl). cbn [filter].
  destruct (key x =? v)%Z eqn:Ex, (key y =? v)%Z eqn:Ey; try reflexivity.
  apply Z.eqb_eq in Ex, Ey. lia.
Qed.

(** Ties keep their original order: the elements of any one score
    stand in the order they had. *)
Lemma orderByDesc_stable (l : list A) (v : Z) :
  filter (fun a => (key a =? v)%Z) (Lodash.orderByDesc key l)
  = filter (fun a => (key a =? v)%Z) l.
Proof.
  induction l as [| x l IH]; [reflexivity |].
  change (Lodash.orderByDesc key (x :: l))
    with (Lodash.insert above x (Lodash.orderByDesc key l)).
  rewrite insert_filter by apply orderByDesc_sorted.
  cbn [filter]. now rewrite IH.
Qed.

End OrderByDesc.

Lemma insert_map (A B : Type) (f : A -> B) (le : B -> B -> bool) (x : A) (l : list A) :
  map f (Lodash.insert (fun a b => le (f a) (f b)) x l) = Lodash.insert le (f x) (map f l).
Proof.
  induction l as [| y l IH]; simpl; [reflexivity |].
  destruct (le (f x) (f y)); simpl; [reflexivity | now rewrite IH].
Qed.

(** Ordering elements by a key and reading the keys is ordering the
    keys. *)
Lemma orderByDesc_map (A : Type) (key : A -> Z) (l : list A) :
  map key (Lodash.orderByDesc key l) = Lodash.orderByDesc (fun x => x) (map key l).
Proof.
  unfold Lodash.orderByDesc.
  induction l as [| x l IH]; simpl; [reflexivity |].
  rewrite <- IH. apply (insert_map key (fun a b => (b <=? a)%Z)).
Qed.

Lemma insert_keyed (A : Type) (key : A -> Z) (x : A) (l : list (A * Z)) :
  Forall (fun p => snd p = key (fst p)) l ->
  map fst (Lodash.insert (fun a b : A * Z => (snd b <=? snd a)%Z) (x, key x) l)
  = Lodash.insert (fun a b => (key b <=? key a)%Z) x (map fst l).
Proof.
  induction l as [| [y ky] l IH]; intros HF; simpl; [reflexivity |].
  inversion HF as [| ? ? Hy HF']. subst. simpl in Hy. subst ky.
  destruct (key y <=? key x)%Z; simpl; [reflexivity | now rewrite IH].
Qed.

(** Ordering the pairs of elements and keys is ordering the
    elements. *)
Lemma orderByDesc_keyed (A : Type) (key : A -> Z) (l : list A) :
  map fst (Lodash.orderByDesc snd (map (fun x => (x, key x)) l)) = Lodash.orderByDesc key l.
Proof.
  induction l as [| x l IH]; [reflexivity |].
  change (Lodash.orderByDesc key (x :: l))
    with (Lodash.insert (fun a b => (key b <=? key a)%Z) x (Lodash.orderByDesc key l)).
  rewrite <- IH. apply insert_keyed.
  apply Forall_forall. intros p Hp.
  apply (Permutation_in _ (orderByDesc_Permutation snd _)) in Hp.
  apply in_map_iff in Hp. destruct Hp as (y & <- & _). reflexivity.
Qed.

Lemma sum_app (l1 l2 : list Z) : Lodash.sum (l1 ++ l2) = (Lodash.sum l1 + Lodash.sum l2)%Z.
Proof. induction l1 as [| x l1 IH]; simpl; [reflexivity | rewrite IH; lia]. Qed.

Lemma sum_Permutation (l1 l2 : list Z) : Permutation l1 l2 -> Lodash.sum l1 = Lodash.sum l2.
Proof. induction 1; simpl; lia. Qed.

Lemma take_all (A : Type) (l : list A) : Lodash.take l (Z.of_nat (length l)) = l.
Proof. unfold Lodash.take. rewrite Nat2Z.id. apply firstn_all. Qed.

Lemma take_map (A B : Type) (f : A -> B) (l : list A) (n : Z) :
  Lodash.take (map f l) n = map f (Lodash.take l n).
Proof. unfold Lodash.take. apply firstn_map. Qed.

(** Without a limit every score counts. *)
Lemma bestOf_all (l : list Z) : bestOf l None = Lodash.sum l.
Proof.
  unfold bestOf.
  rewrite <- (Permutation_length (orderByDesc_Permutation (fun x => x) l)), take_all.
  apply sum_Permutation, orderByDesc_Permutation.
Qed.

(* ================================================================== *)
(** * Score propagation (claim C4) *)
(* ================================================================== *)

(** A step [m x] that runs and leaves the state [k st]. *)
Lemma bind_run (A B : Type) (m : M A) (k : A -> M B) (s s1 : State) (a : A) :
  m s = (Ok a, s1) -> bind m k s = k a s1.
Proof. intros E. unfold bind. now rewrite E. Qed.

Arguments bind_run {A B m} k {s s1 a} _.

(** Reading a numeric attribute of the handles of a list. *)
Lemma mapM_read (A : Type) (h : A -> nat) (g : A -> Z) k (l : list A) (st : State) :
  (forall x, In x l -> exists v, attrAt st (h x) k = Some v /\ Js.Number v = Some (g x)) ->
  mapM (getNumericAttribute k) (map h l) st = (Ok (map g l), st).
Proof.
  induction l as [| x l IH]; intros H; simpl; [reflexivity |].
  destruct (H x (or_introl eq_refl)) as (v & E & N).
  rewrite (bind_run _ (getNumericAttribute_run _ _ _ E N)).
  rewrite (bind_run _ (IH (fun y Hy => H y (or_intror Hy)))). reflexivity.
Qed.

(** The answers whose max-scores a question adds up: its own when it
    has no child question, those of its child questions otherwise. *)
Fixpoint leafAnswers (question : Question) : list nat :=
  match question with
  | mkQuestion _ childQuestions answers =>
      if nonEmpty childQuestions then flat_map leafAnswers childQuestions
      else map a_element answers
  end.

Section MaxScores.

(** The state in which the score propagation starts. *)
Variable s : State.

Definition maxScoreOf (u : nat) : Z := numAt s u "max-score".
Definition maxAnswersOf (u : nat) : option Z := numOpt s u "max-answers".

(** The max-score [countQuestionMaxScores] computes for a question. *)
Fixpoint questionScore (question : Question) : Z :=
  match question with
  | mkQuestion element childQuestions answers =>
      bestOf (if nonEmpty childQuestions then map questionScore childQuestions
              else map (fun answer => maxScoreOf (a_element answer)) answers)
             (maxAnswersOf element)
  end.

(** What [countQuestionMaxScores] writes: the child questions first. *)
Fixpoint questionScores (question : Question) : list (nat * string) :=
  match question with
  | mkQuestion element childQuestions answers =>
      flat_map questionScores childQuestions
      ++ [(element, Js.String_Z (questionScore question))]
  end.

Definition sectionScore (section : Section) : Z :=
  bestOf (map questionScore (s_questions section)) (maxAnswersOf (s_element section)).

Definition sectionScores (section : Section) : list (nat * string) :=
  flat_map questionScores (s_questions section)
  ++ [(s_element section, Js.String_Z (sectionScore section))].

(** The questions of a section that count for the exam:
    [questionsWithHighestMaxScores]. *)
Definition highest (section : Section) : list Question :=
  Lodash.take (Lodash.orderByDesc questionScore (s_questions section))
              (match maxAnswersOf (s_element section) with
               | Some k => k
               | None => Z.of_nat (length (s_questions section))
               end).

Definition examScore (exam : Exam) : Z :=
  bestOf (map questionScore (concat (map highest (e_sections exam))))
         (maxAnswersOf (e_element exam)).

(** Everything [countMaxScores] writes, in order. *)
Definition maxScores (exam : Exam) : list (nat * string) :=
  flat_map sectionScores (e_sections exam)
  ++ [(e_element exam, Js.String_Z (examScore exam))].

Lemma questionScores_head (q : Question) :
  In (q_element q, Js.String_Z (questionScore q)) (questionScores q).
Proof. destruct q. cbn [questionScores q_element]. apply in_or_app. right. now left. Qed.

(** All the writes of the pass. *)
Variable W : list (nat * string).

Hypothesis W_distinct : NoDup (map fst W).
Hypothesis W_present : forall u, In u (map fst W) -> isElementAt s u = true.
Hypothesis W_readable : forall u, In u (map fst W) -> readable s u "max-answers".

(** An answer with a numeric max-score that the pass leaves alone. *)
Definition scored (a : nat) : Prop :=
  ~ In a (map fst W)
  /\ exists v z, attrAt s a "max-score" = Some v /\ Js.Number v = Some z.

Lemma read_written (pre post : list (nat * string)) (u : nat) (z : Z) :
  W = pre ++ post -> In (u, Js.String_Z z) pre ->
  exists v, attrAt (applyWrites "max-score" pre s) u "max-score" = Some v
            /\ Js.Number v = Some z.
Proof.
  intros E Hin. exists (Js.String_Z z). split; [| apply Number_String_Z].
  assert (Hu : In u (map fst pre)) by (apply in_map_iff; now exists (u, Js.String_Z z)).
  apply applyWrites_written; [| exact Hin |].
  - rewrite E, map_app in W_distinct. now apply NoDup_app_remove_r in W_distinct.
  - apply W_present. rewrite E, map_app. apply in_or_app. now left.
Qed.

Lemma read_scored (pre : list (nat * string)) (a : nat) :
  incl pre W -> scored a ->
  exists v, attrAt (applyWrites "max-score" pre s) a "max-score" = Some v
            /\ Js.Number v = Some (maxScoreOf a).
Proof.
  intros Hincl (Hnot & v & z & E & N). exists v.
  rewrite applyWrites_other.
  - split; [exact E |]. unfold maxScoreOf, numAt, numOpt. now rewrite E, N.
  - intros H. apply Hnot. apply in_map_iff in H. destruct H as (w & <- & Hw).
    apply in_map. now apply Hincl.
Qed.

Lemma read_maxAnswers (pre : list (nat * string)) (u : nat) :
  In u (map fst W) ->
  getNumericAttributeOpt "max-answers" u (applyWrites "max-score" pre s)
  = (Ok (maxAnswersOf u), applyWrites "max-score" pre s).
Proof.
  intros Hu. rewrite getNumericAttributeOpt_run.
  - unfold maxAnswersOf, numOpt. now rewrite applyWrites_key by discriminate.
  - intros v. rewrite applyWrites_key by discriminate. now apply W_readable.
Qed.

(** A loop over steps that each extend the writes made so far. *)
Lemma forEach_prefix (A : Type) (f : A -> M unit) (w : A -> list (nat * string))
      (l : list A) :
  Forall (fun x => forall pre post, W = pre ++ w x ++ post ->
                     f x (applyWrites "max-score" pre s)
                     = (Ok tt, applyWrites "max-score" (pre ++ w x) s)) l ->
  forall pre post, W = pre ++ flat_map w l ++ post ->
    forEach f l (applyWrites "max-score" pre s)
    = (Ok tt, applyWrites "max-score" (pre ++ flat_map w l) s).
Proof.
  induction 1 as [| x l Hx _ IH]; intros pre post E; simpl.
  - now rewrite app_nil_r.
  - simpl in E. rewrite <- app_assoc in E.
    rewrite (bind_run _ (Hx pre _ E)).
    rewrite app_assoc in E. rewrite (IH _ _ E). now rewrite app_assoc.
Qed.

Lemma countQuestionMaxScores_writes (q : Question) :
  (forall a, In a (leafAnswers q) -> scored a) ->
  forall pre post, W = pre ++ questionScores q ++ post ->
    countQuestionMaxScores q (applyWrites "max-score" pre s)
    = (Ok tt, applyWrites "max-score" (pre ++ questionScores q) s).
Proof.
  induction q as [element childQuestions answers IH] using Question_ind'.
  intros Hleaf pre post E.
  cbn [questionScores] in E. rewrite <- app_assoc in E.
  assert (IH' : Forall (fun c => forall pre post, W = pre ++ questionScores c ++ post ->
                          countQuestionMaxScores c (applyWrites "max-score" pre s)
                          = (Ok tt, applyWrites "max-score" (pre ++ questionScores c) s))
                       childQuestions).
  { apply Forall_forall. intros c Hc. rewrite Forall_forall in IH. apply (IH c Hc).
    intros a Ha. apply Hleaf. cbn [leafAnswers].
    destruct childQuestions as [| c0 cs]; [contradiction |]. cbn [nonEmpty].
    apply in_flat_map. now exists c. }
  cbn [countQuestionMaxScores].
  rewrite (bind_run _ (forEach_prefix _ _ IH' _ _ E)).
  rewrite app_assoc in E.
  set (pre2 := pre ++ flat_map questionScores childQuestions) in *.
  assert (Hel : In element (map fst W)).
  { rewrite E, map_app. apply in_or_app. right. now left. }
  rewrite (bind_run _ (read_maxAnswers pre2 element Hel)).
  unfold countMaxScore.
  assert (R : mapM (getNumericAttribute "max-score")
                   (answerables (mkQuestion element childQuestions answers))
                   (applyWrites "max-score" pre2 s)
              = (Ok (if nonEmpty childQuestions then map questionScore childQuestions
                     else map (fun answer => maxScoreOf (a_element answer)) answers),
                 applyWrites "max-score" pre2 s)).
  { unfold answerables. cbn [q_childQuestions q_answers].
    destruct (nonEmpty childQuestions) eqn:Hne.
    - apply mapM_read. intros c Hc. apply (read_written pre2 _ _ (questionScore c) E).
      unfold pre2. apply in_or_app. right. apply in_flat_map. exists c.
      split; [exact Hc | apply questionScores_head].
    - apply (mapM_read a_element (fun answer => maxScoreOf (a_element answer))).
      intros a Ha. apply read_scored.
      + rewrite E. intros w Hw. apply in_or_app. now left.
      + apply Hleaf. cbn [leafAnswers]. rewrite Hne. now apply in_map. }
  rewrite (bind_run _ (bind_run _ R)).
  rewrite setAttribute_run. cbn [questionScores].
  rewrite app_assoc. fold pre2. now rewrite applyWrites_app.
Qed.


Lemma sectionScores_question (section : Section) (q : Question) :
  In q (s_questions section) ->
  In (q_element q, Js.String_Z (questionScore q)) (sectionScores section).
Proof.
  intros Hq. unfold sectionScores. apply in_or_app. left.
  apply in_flat_map. exists q. split; [exact Hq | apply questionScores_head].
Qed.

Lemma highest_incl (section : Section) (q : Question) :
  In q (highest section) -> In q (s_questions section).
Proof.
  unfold highest, Lodash.take. intros H.
  assert (H' : In q (Lodash.orderByDesc questionScore (s_questions section))).
  { match type of H with In _ (firstn ?n ?l) => rewrite <- (firstn_skipn n l) end.
    apply in_or_app. left. exact H. }
  clear H. rename H' into H.
  now apply (Permutation_in _ (orderByDesc_Permutation questionScore _)) in H.
Qed.

Lemma countSectionMaxScores_step (section : Section) :
  (forall q a, In q (s_questions section) -> In a (leafAnswers q) -> scored a) ->
  forall pre post, W = pre ++ sectionScores section ++ post ->
    (forEach countQuestionMaxScores (s_questions section) ;;
     maxAnswers <- getNumericAttributeOpt "max-answers" (s_element section) ;;
     maxScore <- countMaxScore (map q_element (s_questions section)) maxAnswers ;;
     setAttribute (s_element section) "max-score" (Js.String_Z maxScore))
      (applyWrites "max-score" pre s)
    = (Ok tt, applyWrites "max-score" (pre ++ sectionScores section) s).
Proof.
  intros Hleaf pre post E. unfold sectionScores in E. rewrite <- app_assoc in E.
  assert (Q : Forall (fun c => forall pre post, W = pre ++ questionScores c ++ post ->
                        countQuestionMaxScores c (applyWrites "max-score" pre s)
                        = (Ok tt, applyWrites "max-score" (pre ++ questionScores c) s))
                     (s_questions section)).
  { apply Forall_forall. intros q Hq. apply countQuestionMaxScores_writes.
    intros a. now apply Hleaf. }
  rewrite (bind_run _ (forEach_prefix _ _ Q _ _ E)).
  rewrite app_assoc in E.
  set (pre2 := pre ++ flat_map questionScores (s_questions section)) in *.
  assert (Hel : In (s_element section) (map fst W)).
  { rewrite E, map_app. apply in_or_app. right. now left. }
  rewrite (bind_run _ (read_maxAnswers pre2 (s_element section) Hel)).
  unfold countMaxScore.
  assert (R : mapM (getNumericAttribute "max-score") (map q_element (s_questions section))
                   (applyWrites "max-score" pre2 s)
              = (Ok (map questionScore (s_questions section)),
                 applyWrites "max-score" pre2 s)).
  { apply mapM_read. intros c Hc. apply (read_written pre2 _ _ (questionScore c) E).
    unfold pre2. apply in_or_app. right. apply in_flat_map. exists c.
    split; [exact Hc | apply questionScores_head]. }
  rewrite (bind_run _ (bind_run _ R)).
  rewrite setAttribute_run. unfold sectionScores.
  rewrite app_assoc. fold pre2. now rewrite applyWrites_app.
Qed.

Variable exam : Exam.
Hypothesis W_exam : W = maxScores exam.
Hypothesis answers_scored :
  forall section q a,
    In section (e_sections exam) -> In q (s_questions section) -> In a (leafAnswers q) ->
    scored a.

Lemma countSectionMaxScores_writes :
  countSectionMaxScores exam s
  = (Ok tt, applyWrites "max-score" (flat_map sectionScores (e_sections exam)) s).
Proof.
  unfold countSectionMaxScores.
  apply (forEach_prefix _ sectionScores) with (pre := []) (post := [(e_element exam, Js.String_Z (examScore exam))]);
    [| exact W_exam].
  apply Forall_forall. intros section Hsec.
  apply countSectionMaxScores_step. intros q a. now apply answers_scored.
Qed.

Lemma questionsWithHighestMaxScores_run (section : Section) :
  In section (e_sections exam) ->
  let st := applyWrites "max-score" (flat_map sectionScores (e_sections exam)) s in
  questionsWithHighestMaxScores section st = (Ok (highest section), st).
Proof.
  intros Hsec st. unfold questionsWithHighestMaxScores.
  assert (Hel : In (s_element section) (map fst W)).
  { rewrite W_exam. unfold maxScores. rewrite map_app. apply in_or_app. left.
    apply in_map_iff. exists (s_element section, Js.String_Z (sectionScore section)).
    split; [reflexivity |]. apply in_flat_map. exists section. split; [exact Hsec |].
    unfold sectionScores. apply in_or_app. right. now left. }
  unfold st. rewrite (bind_run _ (read_maxAnswers _ (s_element section) Hel)).
  assert (R : mapM (fun question =>
                      sc <- getNumericAttribute "max-score" (q_element question) ;;
                      ret (question, sc))
                   (s_questions section)
                   (applyWrites "max-score" (flat_map sectionScores (e_sections exam)) s)
              = (Ok (map (fun q => (q, questionScore q)) (s_questions section)),
                 applyWrites "max-score" (flat_map sectionScores (e_sections exam)) s)).
  { apply mapM_pure. intros q Hq.
    destruct (@read_written (flat_map sectionScores (e_sections exam))
                [(e_element exam, Js.String_Z (examScore exam))]
                (q_element q) (questionScore q) W_exam) as (v & Ev & Nv).
    { apply in_flat_map. exists section. split; [exact Hsec |].
      now apply sectionScores_question. }
    now rewrite (bind_run _ (getNumericAttribute_run _ _ _ Ev Nv)). }
  rewrite (bind_run _ R). unfold ret. f_equal. f_equal.
  rewrite <- take_map, orderByDesc_keyed. unfold highest.
  reflexivity.
Qed.

Lemma countExamMaxScore_writes :
  let st := applyWrites "max-score" (flat_map sectionScores (e_sections exam)) s in
  countExamMaxScore exam st = (Ok tt, applyWrites "max-score" (maxScores exam) s).
Proof.
  intros st. unfold countExamMaxScore.
  assert (Hel : In (e_element exam) (map fst W)).
  { rewrite W_exam. unfold maxScores. rewrite map_app. apply in_or_app. right. now left. }
  unfold st. rewrite (bind_run _ (read_maxAnswers _ (e_element exam) Hel)).
  rewrite (bind_run _ (@mapM_pure _ _ questionsWithHighestMaxScores highest _ _
                         (fun sec Hsec => questionsWithHighestMaxScores_run sec Hsec))).
  unfold countMaxScore.
  assert (R : mapM (getNumericAttribute "max-score")
                   (map q_element (concat (map highest (e_sections exam))))
                   (applyWrites "max-score" (flat_map sectionScores (e_sections exam)) s)
              = (Ok (map questionScore (concat (map highest (e_sections exam)))),
                 applyWrites "max-score" (flat_map sectionScores (e_sections exam)) s)).
  { apply mapM_read. intros q Hq.
    apply (@read_written (flat_map sectionScores (e_sections exam))
             [(e_element exam, Js.String_Z (examScore exam))]
             (q_element q) (questionScore q) W_exam).
    apply in_concat in Hq. destruct Hq as (l & Hl & Hq).
    apply in_map_iff in Hl. destruct Hl as (section & <- & Hsec).
    apply in_flat_map. exists section. split; [exact Hsec |].
    apply sectionScores_question. now apply highest_incl. }
  rewrite (bind_run _ (bind_run _ R)).
  rewrite setAttribute_run. unfold maxScores. now rewrite applyWrites_app.
Qed.

Lemma countMaxScores_writes :
  countMaxScores exam s = (Ok tt, applyWrites "max-score" (maxScores exam) s).
Proof.
  unfold countMaxScores.
  rewrite (bind_run _ countSectionMaxScores_writes). apply countExamMaxScore_writes.
Qed.

End MaxScores.

(** ** Without limits *)

Lemma sum_concat_map (A : Type) (f : A -> list Z) (l : list A) :
  Lodash.sum (concat (map f l)) = Lodash.sum (map (fun x => Lodash.sum (f x)) l).
Proof.
  induction l as [| x l IH]; simpl; [reflexivity |]. now rewrite sum_app, IH.
Qed.

Lemma sum_map_flat_map (A B : Type) (g : B -> Z) (f : A -> list B) (l : list A) :
  Lodash.sum (map g (flat_map f l)) = Lodash.sum (map (fun x => Lodash.sum (map g (f x))) l).
Proof.
  induction l as [| x l IH]; simpl; [reflexivity |]. now rewrite map_app, sum_app, IH.
Qed.

Lemma sum_map_ext (A : Type) (f g : A -> Z) (l : list A) :
  (forall x, In x l -> f x = g x) -> Lodash.sum (map f l) = Lodash.sum (map g l).
Proof.
  induction l as [| x l IH]; intros H; simpl; [reflexivity |].
  rewrite (H x (or_introl eq_refl)), IH; [reflexivity |].
  intros y Hy. apply H. now right.
Qed.

Lemma sum_map_Permutation (A : Type) (f : A -> Z) (l1 l2 : list A) :
  Permutation l1 l2 -> Lodash.sum (map f l1) = Lodash.sum (map f l2).
Proof. intros H. apply sum_Permutation. now apply Permutation_map. Qed.

(** A question without limits on it or below it is worth all the
    answers it adds up. *)
Lemma questionScore_unlimited (s : State) (q : Question) :
  (forall u, In u (map fst (questionScores s q)) -> maxAnswersOf s u = None) ->
  questionScore s q = Lodash.sum (map (maxScoreOf s) (leafAnswers q)).
Proof.
  induction q as [element childQuestions answers IH] using Question_ind'.
  intros H. cbn [questionScore leafAnswers].
  rewrite H by (cbn [questionScores]; rewrite map_app; apply in_or_app; right; now left).
  rewrite bestOf_all.
  destruct (nonEmpty childQuestions); [| now rewrite map_map].
  rewrite sum_map_flat_map.
  apply sum_map_ext. intros c Hc. rewrite Forall_forall in IH. apply (IH c Hc).
  intros u Hu. apply H. cbn [questionScores]. rewrite map_app. apply in_or_app. left.
  apply in_map_iff in Hu. destruct Hu as (w & <- & Hw).
  apply in_map. apply in_flat_map. now exists c.
Qed.

Lemma highest_unlimited (s : State) (section : Section) :
  maxAnswersOf s (s_element section) = None ->
  highest s section = Lodash.orderByDesc (questionScore s) (s_questions section).
Proof.
  intros H. unfold highest. rewrite H.
  rewrite <- (Permutation_length (orderByDesc_Permutation (questionScore s) _)).
  apply take_all.
Qed.

(** An exam without limits anywhere is worth all its answers. *)
Lemma examScore_unlimited (s : State) (exam : Exam) :
  (forall u, In u (map fst (maxScores s exam)) -> maxAnswersOf s u = None) ->
  examScore s exam
  = Lodash.sum (map (maxScoreOf s)
                    (flat_map leafAnswers (flat_map s_questions (e_sections exam)))).
Proof.
  intros H. unfold examScore.
  rewrite H by (unfold maxScores; rewrite map_app; apply in_or_app; right; now left).
  rewrite bestOf_all.
  rewrite <- flat_map_concat_map, !sum_map_flat_map.
  apply sum_map_ext. intros section Hsec.
  assert (Hin : forall w, In w (sectionScores s section) -> In w (maxScores s exam)).
  { intros w Hw. unfold maxScores. apply in_or_app. left. apply in_flat_map. now exists section. }
  rewrite highest_unlimited.
  2:{ apply H. apply in_map_iff. exists (s_element section, Js.String_Z (sectionScore s section)).
      split; [reflexivity |]. apply Hin. unfold sectionScores. apply in_or_app. right. now left. }
  rewrite (sum_map_Permutation _ (orderByDesc_Permutation (questionScore s) _)).
  apply sum_map_ext. intros q Hq. apply questionScore_unlimited.
  intros u Hu. apply H. apply in_map_iff in Hu. destruct Hu as (w & <- & Hw).
  apply in_map, Hin. unfold sectionScores. apply in_or_app. left.
  apply in_flat_map. now exists q.
Qed.

Lemma insert_ext (A : Type) (le1 le2 : A -> A -> bool) (x : A) (l : list A) :
  (forall y, In y l -> le1 x y = le2 x y) -> Lodash.insert le1 x l = Lodash.insert le2 x l.
Proof.
  induction l as [| y l IH]; intros H; simpl; [reflexivity |].
  rewrite (H y (or_introl eq_refl)). destruct (le2 x y); [reflexivity |].
  now rewrite IH by (intros z Hz; apply H; now right).
Qed.

(** The order depends on the keys of the elements only. *)
Lemma orderByDesc_ext (A : Type) (f g : A -> Z) (l : list A) :
  (forall x, In x l -> f x = g x) -> Lodash.orderByDesc f l = Lodash.orderByDesc g l.
Proof.
  induction l as [| x l IH]; intros H; [reflexivity |].
  change (Lodash.insert (fun a b => (f b <=? f a)%Z) x (Lodash.orderByDesc f l)
          = Lodash.insert (fun a b => (g b <=? g a)%Z) x (Lodash.orderByDesc g l)).
  rewrite <- IH by (intros y Hy; apply H; now right).
  apply insert_ext. intros y Hy.
  apply (Permutation_in _ (orderByDesc_Permutation f l)) in Hy.
  now rewrite (H x (or_introl eq_refl)), (H y (or_intror Hy)).
Qed.

(** The questions below a question have their scores among its
    writes, and their answers among its answers. *)
Lemma subQuestions_scores (s : State) (q0 : Question) :
  forall q, In q (subQuestions q0) ->
    In (q_element q, Js.String_Z (questionScore s q)) (questionScores s q0)
    /\ (forall c, In c (q_childQuestions q) ->
          In (q_element c, Js.String_Z (questionScore s c)) (questionScores s q0))
    /\ incl (leafAnswers q) (leafAnswers q0).
Proof.
  induction q0 as [element childQuestions answers IH] using Question_ind'.
  intros q Hq. cbn [subQuestions] in Hq. destruct Hq as [<- | Hq].
  - split; [apply questionScores_head |]. split; [| apply incl_refl].
    intros c Hc. cbn [q_childQuestions] in Hc. cbn [questionScores].
    apply in_or_app. left. apply in_flat_map. exists c.
    split; [exact Hc | apply questionScores_head].
  - apply in_flat_map in Hq. destruct Hq as (c0 & Hc0 & Hq).
    rewrite Forall_forall in IH. destruct (IH c0 Hc0 q Hq) as (H1 & H2 & H3).
    assert (Hin : forall w, In w (questionScores s c0) ->
                    In w (questionScores s (mkQuestion element childQuestions answers))).
    { intros w Hw. cbn [questionScores]. apply in_or_app. left.
      apply in_flat_map. now exists c0. }
    split; [now apply Hin |]. split; [intros c Hc; now apply Hin, H2 |].
    intros a Ha. cbn [leafAnswers].
    destruct childQuestions as [| c1 cs]; [contradiction |]. cbn [nonEmpty].
    apply in_flat_map. exists c0. split; [exact Hc0 | now apply H3].
Qed.

(** The max-score an element carries. *)
Definition maxScore (s : State) (u : nat) : option Z := numOpt s u "max-score".

(** The limit [maxAnswers ?? answerables.length]. *)
Definition limitOf (A : Type) (maxAnswers : option Z) (answerables : list A) : nat :=
  match maxAnswers with
  | Some k => Z.to_nat k
  | None => length answerables
  end.

(** The score of every question and section after the pass. *)
Lemma countMaxScores_read (exam : Exam) (s : State) :
  NoDup (map fst (maxScores s exam)) ->
  (forall u, In u (map fst (maxScores s exam)) -> isElementAt s u = true) ->
  let s' := applyWrites "max-score" (maxScores s exam) s in
  (forall u z, In (u, Js.String_Z z) (maxScores s exam) ->
     maxScore s' u = Some z /\ numAt s' u "max-score" = z)
  /\ (forall a, scored s (maxScores s exam) a ->
        numAt s' a "max-score" = maxScoreOf s a)
  /\ (forall u, numOpt s' u "max-answers" = maxAnswersOf s u).
Proof.
  intros Hnd Hpresent s'. split; [| split].
  - intros u z Hin.
    assert (E : attrAt s' u "max-score" = Some (Js.String_Z z)).
    { apply applyWrites_written; [exact Hnd | exact Hin |].
      apply Hpresent. apply in_map_iff. now exists (u, Js.String_Z z). }
    unfold maxScore, numAt, numOpt. now rewrite E, Number_String_Z.
  - intros a (Hnot & _). unfold numAt, numOpt, maxScoreOf, numAt, numOpt, s'.
    now rewrite applyWrites_other.
  - intros u. unfold maxAnswersOf, numOpt, s'. now rewrite applyWrites_key by discriminate.
Qed.

(** C4: the score propagation gives every question the sum of the
    greatest max-scores of what it adds up (its child questions if it
    has any, its answers otherwise), as many as its max-answers says
    or all of them; sections add up their questions in the same way;
    the exam adds up the questions that count in each section.  The
    greatest are the first of the scores put in descending order,
    equal ones staying in document order.  So with no max-answers
    anywhere the exam is worth the sum of the max-scores of all
    answers, and a section with max-answers [k] below its number of
    questions is worth its [k] best questions. *)
Theorem C4_max_scores (exam : Exam) (s : State) :
  let writes := maxScores s exam in
  let questions := flat_map s_questions (e_sections exam) in
  NoDup (map fst writes) ->
  Forall (fun u => isElementAt s u = true /\ readable s u "max-answers") (map fst writes) ->
  Forall (scored s writes) (flat_map leafAnswers questions) ->
  exists s',
    countMaxScores exam s = (Ok tt, s')
    /\ (forall q, In q (flat_map subQuestions questions) ->
          maxScore s' (q_element q)
          = Some (bestOf (map (fun u => numAt s' u "max-score") (answerables q))
                         (numOpt s (q_element q) "max-answers")))
    /\ (forall section, In section (e_sections exam) ->
          maxScore s' (s_element section)
          = Some (bestOf (map (fun q => numAt s' (q_element q) "max-score")
                              (s_questions section))
                         (numOpt s (s_element section) "max-answers")))
    /\ maxScore s' (e_element exam)
       = Some (bestOf
                 (map (fun q => numAt s' (q_element q) "max-score")
                      (flat_map
                         (fun section =>
                            firstn (limitOf (numOpt s (s_element section) "max-answers")
                                            (s_questions section))
                                   (Lodash.orderByDesc
                                      (fun q => numAt s' (q_element q) "max-score")
                                      (s_questions section)))
                         (e_sections exam)))
                 (numOpt s (e_element exam) "max-answers"))
    /\ (forall scores limit,
          bestOf scores limit
          = Lodash.sum (firstn (limitOf limit scores)
                               (Lodash.orderByDesc (fun x => x) scores)))
    /\ (forall (A : Type) (key : A -> Z) (l : list A),
          Permutation (Lodash.orderByDesc key l) l
          /\ StronglySorted (fun a b => (key b <= key a)%Z) (Lodash.orderByDesc key l)
          /\ forall v, filter (fun a => (key a =? v)%Z) (Lodash.orderByDesc key l)
                       = filter (fun a => (key a =? v)%Z) l)
    /\ ((forall u, In u (map fst writes) -> attrAt s u "max-answers" = None) ->
          maxScore s' (e_element exam)
          = Some (Lodash.sum (map (fun a => numAt s a "max-score")
                                  (flat_map leafAnswers questions))))
    /\ (forall section k,
          In section (e_sections exam) ->
          numOpt s (s_element section) "max-answers" = Some (Z.of_nat k) ->
          k < length (s_questions section) ->
          maxScore s' (s_element section)
          = Some (Lodash.sum
                    (firstn k (Lodash.orderByDesc
                                 (fun x => x)
                                 (map (fun q => numAt s' (q_element q) "max-score")
                                      (s_questions section))))))
    /\ (forall u, ~ In u (map fst writes) ->
          attrAt s' u "max-score" = attrAt s u "max-score").
Proof.
  intros writes questions Hnd Hok Hscored.
  rewrite Forall_forall in Hok, Hscored.
  assert (Hpresent : forall u, In u (map fst writes) -> isElementAt s u = true)
    by (intros u Hu; now apply Hok).
  assert (Hreadable : forall u, In u (map fst writes) -> readable s u "max-answers")
    by (intros u Hu; now apply Hok).
  assert (Hleaf : forall section q a,
             In section (e_sections exam) -> In q (s_questions section) ->
             In a (leafAnswers q) -> scored s writes a).
  { intros section q a Hsec Hq Ha. apply Hscored. apply in_flat_map. exists q.
    split; [| exact Ha]. apply in_flat_map. now exists section. }
  exists (applyWrites "max-score" writes s).
  split; [exact (@countMaxScores_writes s writes Hnd Hpresent Hreadable exam eq_refl Hleaf) |].
  destruct (@countMaxScores_read exam s Hnd Hpresent) as (Rw & Rs & Rm).
  fold writes in Rw, Rs, Rm.
  set (s' := applyWrites "max-score" writes s) in *.
  assert (Wsec : forall section w, In section (e_sections exam) ->
                   In w (sectionScores s section) -> In w writes).
  { intros section w Hsec Hw. unfold writes, maxScores. apply in_or_app. left.
    apply in_flat_map. now exists section. }
  assert (Wq : forall section q, In section (e_sections exam) -> In q (s_questions section) ->
                 numAt s' (q_element q) "max-score" = questionScore s q).
  { intros section q Hsec Hq. apply Rw. apply (Wsec section _ Hsec).
    now apply sectionScores_question. }
  assert (Ssec : forall section, In section (e_sections exam) ->
                   maxScore s' (s_element section)
                   = Some (bestOf (map (fun q => numAt s' (q_element q) "max-score")
                                       (s_questions section))
                                  (numOpt s (s_element section) "max-answers"))).
  { intros section Hsec.
    rewrite (map_ext_in _ (questionScore s)) by (intros q Hq; now apply (Wq section)).
    apply Rw. apply (Wsec section _ Hsec). unfold sectionScores.
    apply in_or_app. right. now left. }
  assert (Sexam : maxScore s' (e_element exam) = Some (examScore s exam)).
  { apply Rw. unfold writes, maxScores. apply in_or_app. right. now left. }
  repeat match goal with |- _ /\ _ => split end.
  - intros q Hq. apply in_flat_map in Hq. destruct Hq as (q0 & Hq0 & Hq).
    apply in_flat_map in Hq0. destruct Hq0 as (section & Hsec & Hq0).
    destruct (subQuestions_scores s q0 q Hq) as (H1 & H2 & H3).
    assert (Hin : forall w, In w (questionScores s q0) -> In w writes).
    { intros w Hw. apply (Wsec section _ Hsec). unfold sectionScores.
      apply in_or_app. left. apply in_flat_map. now exists q0. }
    replace (bestOf (map (fun u => numAt s' u "max-score") (answerables q))
                    (numOpt s (q_element q) "max-answers"))
      with (questionScore s q); [apply Rw; now apply Hin |].
    destruct q as [element childQuestions answers].
    unfold answerables. cbn [questionScore q_childQuestions q_answers q_element].
    unfold maxAnswersOf. f_equal.
    destruct (nonEmpty childQuestions) eqn:Hne; rewrite map_map; apply map_ext_in.
    + intros c Hc. symmetry. apply Rw. apply Hin. now apply H2.
    + intros a Ha. symmetry. apply Rs. apply (Hleaf section q0 _ Hsec Hq0). apply H3.
      cbn [leafAnswers]. rewrite Hne. now apply in_map.
  - exact Ssec.
  - rewrite Sexam. f_equal. unfold examScore, maxAnswersOf. f_equal.
    rewrite <- flat_map_concat_map.
    assert (Hhigh : Forall (fun section =>
                      firstn (limitOf (numOpt s (s_element section) "max-answers")
                                      (s_questions section))
                             (Lodash.orderByDesc (fun q => numAt s' (q_element q) "max-score")
                                                 (s_questions section))
                      = highest s section) (e_sections exam)).
    { apply Forall_forall. intros section Hsec.
      rewrite (@orderByDesc_ext _ (fun q => numAt s' (q_element q) "max-score")
                                (questionScore s))
        by (intros q Hq; now apply (Wq section)).
      unfold highest, Lodash.take, limitOf, maxAnswersOf.
      destruct (numOpt s (s_element section) "max-answers"); [reflexivity |].
      now rewrite Nat2Z.id. }
    rewrite (@flat_map_ext_Forall _ _ _ _ _ Hhigh).
    apply map_ext_in. intros q Hq. symmetry.
    apply in_flat_map in Hq. destruct Hq as (section & Hsec & Hq).
    apply (Wq section _ Hsec). now apply (highest_incl s section).
  - intros scores limit. unfold bestOf, Lodash.take, limitOf.
    destruct limit; [reflexivity | now rewrite Nat2Z.id].
  - intros A key l. split; [apply orderByDesc_Permutation |].
    split; [apply orderByDesc_sorted | apply orderByDesc_stable].
  - intros Hnone. rewrite Sexam. f_equal. apply examScore_unlimited.
    intros u Hu. unfold maxAnswersOf, numOpt. now rewrite (Hnone u Hu).
  - intros section k Hsec Hk Hlt. rewrite (Ssec section Hsec), Hk.
    unfold bestOf, Lodash.take. now rewrite Nat2Z.id.
  - intros u Hu. now apply applyWrites_other.
Qed.

(** An exam of two sections: the first counts the best two of its
    three questions, the third of which counts the better one of its
    two child questions; the second has one question of two
    answers. *)
Definition scoredExam : node :=
  Element 0 NsE "exam" []
    [ Element 1 NsE "section" [("max-answers", "2")]
        [ Element 2 NsE "question" [] [Element 3 NsE "text-answer" [("max-score", "3")] []];
          Element 4 NsE "question" [] [Element 5 NsE "text-answer" [("max-score", "5")] []];
          Element 6 NsE "question" [("max-answers", "1")]
            [ Element 7 NsE "question" []
                [Element 8 NsE "text-answer" [("max-score", "4")] []];
              Element 9 NsE "question" []
                [Element 10 NsE "text-answer" [("max-score", "5")] []] ] ];
      Element 11 NsE "section" []
        [ Element 12 NsE "question" []
            [ Element 13 NsE "text-answer" [("max-score", "2")] [];
              Element 14 NsE "text-answer" [("max-score", "6")] [] ] ] ].

Lemma C4_max_scores_witness :
  exists s',
    countMaxScores (parseExamStructure (initialState scoredExam)) (initialState scoredExam)
    = (Ok tt, s')
    /\ maxScore s' 6 = Some 5%Z
    /\ maxScore s' 12 = Some 8%Z
    /\ maxScore s' 1 = Some 10%Z
    /\ maxScore s' 11 = Some 8%Z
    /\ maxScore s' 0 = Some 18%Z
    /\ attrAt s' 3 "max-score" = Some "3".
Proof.
  destruct (@C4_max_scores (parseExamStructure (initialState scoredExam))
                           (initialState scoredExam))
    as (s' & E & Hq & Hsec & Hexam & _ & _ & _ & Hk & Hframe).
  - apply distinct_NoDup. vm_compute. reflexivity.
  - repeat constructor; apply readable_dec_true; reflexivity.
  - repeat constructor; try (vm_compute; intuition discriminate);
      eexists _, _; split; reflexivity.
  - exists s'. split; [exact E |].
    set (exam := parseExamStructure (initialState scoredExam)) in *.
    pose (sec1 := nth 0 (e_sections exam) (mkSection 0 [])).
    pose (sec2 := nth 1 (e_sections exam) (mkSection 0 [])).
    pose (q6 := nth 2 (s_questions sec1) (mkQuestion 0 [] [])).
    pose (q7 := nth 0 (q_childQuestions q6) (mkQuestion 0 [] [])).
    pose (q9 := nth 1 (q_childQuestions q6) (mkQuestion 0 [] [])).
    pose (q2 := nth 0 (s_questions sec1) (mkQuestion 0 [] [])).
    pose (q4 := nth 1 (s_questions sec1) (mkQuestion 0 [] [])).
    pose (q12 := nth 0 (s_questions sec2) (mkQuestion 0 [] [])).
    assert (A3 : numAt s' 3 "max-score" = 3%Z).
    { unfold numAt, numOpt. rewrite Hframe; [reflexivity | vm_compute; intuition discriminate]. }
    assert (A5 : numAt s' 5 "max-score" = 5%Z).
    { unfold numAt, numOpt. rewrite Hframe; [reflexivity | vm_compute; intuition discriminate]. }
    assert (A8 : numAt s' 8 "max-score" = 4%Z).
    { unfold numAt, numOpt. rewrite Hframe; [reflexivity | vm_compute; intuition discriminate]. }
    assert (A10 : numAt s' 10 "max-score" = 5%Z).
    { unfold numAt, numOpt. rewrite Hframe; [reflexivity | vm_compute; intuition discriminate]. }
    assert (A13 : numAt s' 13 "max-score" = 2%Z).
    { unfold numAt, numOpt. rewrite Hframe; [reflexivity | vm_compute; intuition discriminate]. }
    assert (A14 : numAt s' 14 "max-score" = 6%Z).
    { unfold numAt, numOpt. rewrite Hframe; [reflexivity | vm_compute; intuition discriminate]. }
    assert (S : forall u z, maxScore s' u = Some z -> numAt s' u "max-score" = z).
    { intros u z H. unfold numAt. unfold maxScore in H. now rewrite H. }
    assert (Q2 : maxScore s' 2 = Some 3%Z).
    { change 2 with (q_element q2) at 1. rewrite Hq by (vm_compute; tauto).
      cbn. rewrite A3. reflexivity. }
    assert (Q4 : maxScore s' 4 = Some 5%Z).
    { change 4 with (q_element q4) at 1. rewrite Hq by (vm_compute; tauto).
      cbn. rewrite A5. reflexivity. }
    assert (Q7 : maxScore s' 7 = Some 4%Z).
    { change 7 with (q_element q7) at 1. rewrite Hq by (vm_compute; tauto).
      cbn. rewrite A8. reflexivity. }
    assert (Q9 : maxScore s' 9 = Some 5%Z).
    { change 9 with (q_element q9) at 1. rewrite Hq by (vm_compute; tauto).
      cbn. rewrite A10. reflexivity. }
    assert (Q6 : maxScore s' 6 = Some 5%Z).
    { change 6 with (q_element q6) at 1. rewrite Hq by (vm_compute; tauto).
      cbn. rewrite (S _ _ Q7), (S _ _ Q9). reflexivity. }
    assert (Q12 : maxScore s' 12 = Some 8%Z).
    { change 12 with (q_element q12) at 1. rewrite Hq by (vm_compute; tauto).
      cbn. rewrite A13, A14. reflexivity. }
    repeat split.
    + exact Q6.
    + exact Q12.
    + change 1 with (s_element sec1) at 1.
      rewrite (Hk sec1 2) by (vm_compute; tauto || reflexivity || lia).
      cbn. rewrite (S _ _ Q2), (S _ _ Q4), (S _ _ Q6). reflexivity.
    + change 11 with (s_element sec2) at 1.
      rewrite (Hsec sec2) by (vm_compute; tauto). cbn. rewrite (S _ _ Q12). reflexivity.
    + change 0 with (e_element exam) at 1.
      rewrite Hexam.
      repeat (progress (cbn; change (Pos.to_nat 2) with 2%nat;
                        rewrite ?(S _ _ Q2), ?(S _ _ Q4), ?(S _ _ Q6), ?(S _ _ Q12))).
      reflexivity.
    + rewrite Hframe; [reflexivity | vm_compute; intuition discriminate].
Defined.

(* ================================================================== *)
(** * Trees whose nodes have distinct identities *)
(* ================================================================== *)

(** The identities in a tree, in document order. *)
Definition uids (n : node) : list nat := map uid (descendantsOrSelf n).

(** Every node of the tree the run holds is a node of its own. *)
Definition distinctNodes (s : State) : Prop := NoDup (uids (root s)).

Lemma descendants_children (n : node) :
  descendants n = flat_map descendantsOrSelf (children n).
Proof. destruct n; reflexivity. Qed.

Lemma uids_children (n : node) : uids n = uid n :: flat_map uids (children n).
Proof.
  unfold uids at 1, descendantsOrSelf. simpl. f_equal.
  rewrite descendants_children, map_flat_map. reflexivity.
Qed.

Lemma NoDup_flat_map_In (A B : Type) (f : A -> list B) (l : list A) (x : A) :
  NoDup (flat_map f l) -> In x l -> NoDup (f x).
Proof.
  induction l as [| y l IH]; simpl; intros Hnd Hin; [contradiction |].
  destruct Hin as [-> | Hin].
  - now apply NoDup_app_remove_r in Hnd.
  - apply IH; [| exact Hin]. now apply NoDup_app_remove_l in Hnd.
Qed.

Lemma NoDup_app_inv (A : Type) (l1 l2 : list A) (x : A) :
  NoDup (l1 ++ l2) -> In x l1 -> In x l2 -> False.
Proof.
  induction l1 as [| y l1 IH]; simpl; intros Hnd H1 H2; [contradiction |].
  inversion Hnd as [| ? ? Hnotin Hnd']. subst.
  destruct H1 as [-> | H1]; [| now apply IH].
  apply Hnotin. apply in_or_app. now right.
Qed.

(** Two different children of a node share no identity. *)
Lemma NoDup_flat_map_apart (A B : Type) (f : A -> list B) (l1 l2 : list A) (x y : A) (b : B) :
  NoDup (flat_map f (l1 ++ x :: l2)) -> In y (l1 ++ l2) -> In b (f x) -> In b (f y) -> False.
Proof.
  rewrite flat_map_app. simpl. intros Hnd Hy Hx Hb.
  apply in_app_or in Hy. destruct Hy as [Hy | Hy].
  - apply (NoDup_app_inv _ _ b Hnd).
    + apply in_flat_map. now exists y.
    + apply in_or_app. now left.
  - apply NoDup_app_remove_l in Hnd. apply (NoDup_app_inv _ _ b Hnd); [exact Hx |].
    apply in_flat_map. now exists y.
Qed.

Lemma distinct_child (n c : node) : NoDup (uids n) -> In c (children n) -> NoDup (uids c).
Proof.
  rewrite uids_children. intros Hnd Hc. inversion Hnd as [| ? ? _ Hnd']. subst.
  now apply (NoDup_flat_map_In uids (children n)).
Qed.

Lemma uid_in_uids (n : node) : In (uid n) (uids n).
Proof. rewrite uids_children. now left. Qed.

Lemma child_in_uids (n c : node) (u : nat) : In c (children n) -> In u (uids c) -> In u (uids n).
Proof.
  intros Hc Hu. rewrite uids_children. right. apply in_flat_map. now exists c.
Qed.

Lemma child_not_parent (n c : node) (u : nat) :
  NoDup (uids n) -> In c (children n) -> In u (uids c) -> u <> uid n.
Proof.
  rewrite uids_children. intros Hnd Hc Hu ->. inversion Hnd as [| ? ? Hnotin _]. subst.
  apply Hnotin. apply in_flat_map. now exists c.
Qed.

(** A node is found through its identity. *)
Lemma find_unique (l : list node) (n : node) :
  NoDup (map uid l) -> In n l -> find (fun m => (uid m =? uid n)%nat) l = Some n.
Proof.
  induction l as [| x l IH]; simpl; intros Hnd Hin; [contradiction |].
  inversion Hnd as [| ? ? Hnotin Hnd']. subst.
  destruct Hin as [-> | Hin]; [now rewrite Nat.eqb_refl |].
  destruct (uid x =? uid n)%nat eqn:E; [| now apply IH].
  apply Nat.eqb_eq in E. exfalso. apply Hnotin. rewrite E. now apply in_map.
Qed.

Lemma lookup_unique (t n : node) :
  NoDup (uids t) -> In n (descendantsOrSelf t) -> lookup (uid n) t = Some n.
Proof. intros Hnd Hin. now apply find_unique. Qed.

Lemma lookup_In (u : nat) (t n : node) :
  lookup u t = Some n -> In n (descendantsOrSelf t) /\ uid n = u.
Proof.
  intros H. apply find_some in H. destruct H as [H1 H2]. now apply Nat.eqb_eq in H2.
Qed.

Lemma lookup_None (u : nat) (t : node) : ~ In u (uids t) -> lookup u t = None.
Proof.
  intros H. unfold lookup.
  destruct (find (fun m => (uid m =? u)%nat) (descendantsOrSelf t)) as [n |] eqn:E;
    [| reflexivity].
  apply find_some in E. destruct E as [E1 E2]. apply Nat.eqb_eq in E2.
  exfalso. apply H. rewrite <- E2. now apply in_map.
Qed.

Lemma lookup_root (t : node) : lookup (uid t) t = Some t.
Proof. unfold lookup, descendantsOrSelf. simpl. now rewrite Nat.eqb_refl. Qed.

(** The descendants of a descendant are descendants. *)
Lemma descendantsOrSelf_trans (t n x : node) :
  In n (descendantsOrSelf t) -> In x (descendantsOrSelf n) -> In x (descendantsOrSelf t).
Proof.
  induction t as [u s nm a ch IH | |] using node_ind'.
  - intros [<- | Hn] Hx; [exact Hx |].
    right. rewrite descendants_children in *. simpl in *.
    apply in_flat_map in Hn. destruct Hn as (c & Hc & Hn).
    apply in_flat_map. exists c. split; [exact Hc |].
    rewrite Forall_forall in IH. now apply (IH c Hc).
  - intros [<- | []] Hx. exact Hx.
  - intros [<- | []] Hx. exact Hx.
Qed.

(** The number of nodes of a tree. *)
Fixpoint size (n : node) : nat :=
  match n with
  | Element _ _ _ _ ch => S (list_sum (map size ch))
  | _ => 1
  end.

Lemma size_child (n c : node) : In c (children n) -> size c < size n.
Proof.
  destruct n as [u s nm a ch | |]; simpl; try tauto.
  induction ch as [| x ch IH]; simpl; intros H; [contradiction |].
  destruct H as [-> | H]; [lia |]. specialize (IH H). lia.
Qed.

Lemma size_descendant (t n : node) : In n (descendantsOrSelf t) -> size n <= size t.
Proof.
  induction t as [u s nm a ch IH | |] using node_ind'.
  - intros [<- | Hn]; [lia |].
    rewrite descendants_children in Hn. apply in_flat_map in Hn.
    destruct Hn as (c & Hc & Hn). rewrite Forall_forall in IH.
    specialize (IH c Hc Hn).
    assert (size c < size (Element u s nm a ch)) by now apply size_child.
    lia.
  - intros [<- | []]. lia.
  - intros [<- | []]. lia.
Qed.

Lemma child_descendant (t n c : node) :
  In n (descendantsOrSelf t) -> In c (children n) -> In c (descendants t).
Proof.
  intros Hn Hc.
  assert (H : In c (descendantsOrSelf t)).
  { apply (@descendantsOrSelf_trans t n c Hn). right.
    rewrite descendants_children. apply in_flat_map. exists c. split; [exact Hc | now left]. }
  destruct H as [<- | H]; [| exact H].
  apply size_descendant in Hn. apply size_child in Hc. lia.
Qed.

(** A node below which [u] does not occur is left as it is. *)
Lemma substIn_absent (u : nat) (f : node -> list node) (n : node) :
  ~ In u (map uid (descendants n)) -> substIn u f n = n.
Proof.
  induction n as [u' s nm a ch IH | |] using node_ind'; simpl; try reflexivity.
  intros H. f_equal.
  induction IH as [| c ch Hc _ IHl]; simpl; [reflexivity |].
  simpl in H. rewrite map_app in H.
  destruct (uid c =? u)%nat eqn:E.
  - apply Nat.eqb_eq in E. exfalso. apply H. now left.
  - simpl. rewrite Hc, IHl; [reflexivity | |].
    + intros Hin. apply H. right. apply in_or_app. now right.
    + intros Hin. apply H. right. apply in_or_app. now left.
Qed.

Lemma Permutation_flat_map_Forall (A B : Type) (f f' : A -> list B) (l : list A) :
  Forall (fun x => Permutation (f x) (f' x)) l -> Permutation (flat_map f l) (flat_map f' l).
Proof.
  induction 1 as [| x l Hx _ IH]; simpl; [constructor | now apply Permutation_app].
Qed.

(** ** Changes that keep the nodes of a tree *)

Section KeepingNodes.

(** A change of one node that keeps its identity and its children, up
    to their order. *)
Variable a : nat.
Variable g : node -> node.
Hypothesis g_uid : forall n, uid (g n) = uid n.
Hypothesis g_children : forall n, Permutation (children (g n)) (children n).

Lemma uid_modifyTree (n : node) : uid (modifyTree a g n) = uid n.
Proof. unfold modifyTree. destruct (uid n =? a)%nat; [apply g_uid | apply uid_substIn]. Qed.

Lemma substIn_children (ch : list node) :
  flat_map (fun c => if (uid c =? a)%nat then [g c] else [substIn a (fun c0 => [g c0]) c]) ch
  = map (modifyTree a g) ch.
Proof.
  induction ch as [| c ch IH]; simpl; [reflexivity |].
  rewrite IH. unfold modifyTree at 2. now destruct (uid c =? a)%nat.
Qed.

Lemma modifyTree_absent (n : node) : ~ In a (uids n) -> modifyTree a g n = n.
Proof.
  intros H. unfold modifyTree.
  destruct (uid n =? a)%nat eqn:E.
  - apply Nat.eqb_eq in E. exfalso. apply H. rewrite <- E. apply uid_in_uids.
  - apply substIn_absent. intros Hin. apply H. unfold uids, descendantsOrSelf. now right.
Qed.

Lemma descendantsOrSelf_hit (t : node) :
  Permutation (descendantsOrSelf (g t)) (g t :: descendants t).
Proof.
  unfold descendantsOrSelf. constructor.
  rewrite !descendants_children. apply Permutation_flat_map, g_children.
Qed.

Lemma modifyTree_below (t : node) :
  NoDup (uids t) -> uid t = a -> map (modifyTree a g) (descendants t) = descendants t.
Proof.
  intros Hnd E. rewrite (map_ext_in _ (fun x => x)); [now rewrite map_id |].
  intros d Hd. apply modifyTree_absent. intros Hin.
  unfold uids, descendantsOrSelf in Hnd. simpl in Hnd.
  inversion Hnd as [| ? ? Hnotin _]. subst. apply Hnotin.
  unfold uids in Hin. apply in_map_iff in Hin. destruct Hin as (x & Ex & Hx).
  rewrite <- Ex. apply in_map.
  assert (H : In x (descendantsOrSelf t))
    by (apply (@descendantsOrSelf_trans t d x); [now right | exact Hx]).
  destruct H as [<- | H]; [| exact H].
  apply size_descendant in Hx.
  assert (size d < size t); [| lia].
  rewrite descendants_children in Hd. apply in_flat_map in Hd.
  destruct Hd as (c & Hc & Hd). apply size_descendant in Hd. apply size_child in Hc. lia.
Qed.

Lemma descendantsOrSelf_modifyTree (t : node) :
  NoDup (uids t) ->
  Permutation (descendantsOrSelf (modifyTree a g t))
              (map (modifyTree a g) (descendantsOrSelf t)).
Proof.
  assert (Hit : forall t, NoDup (uids t) -> (uid t =? a)%nat = true ->
                  Permutation (descendantsOrSelf (modifyTree a g t))
                              (map (modifyTree a g) (descendantsOrSelf t))).
  { intros t0 Hnd E. unfold descendantsOrSelf at 2. cbn [map].
    assert (M : modifyTree a g t0 = g t0) by (unfold modifyTree; now rewrite E).
    rewrite M. apply Nat.eqb_eq in E. rewrite (modifyTree_below Hnd E).
    apply descendantsOrSelf_hit. }
  induction t as [u s nm at_ ch IH | u tx | u tx] using node_ind'; intros Hnd.
  - destruct (uid (Element u s nm at_ ch) =? a)%nat eqn:E; [now apply Hit |].
    assert (M : modifyTree a g (Element u s nm at_ ch)
                = Element u s nm at_ (map (modifyTree a g) ch)).
    { unfold modifyTree. rewrite E. cbn [substIn]. now rewrite substIn_children. }
    rewrite M. unfold descendantsOrSelf. cbn [map]. rewrite M. constructor.
    cbn [descendants]. rewrite flat_map_map, map_flat_map.
    apply Permutation_flat_map_Forall.
    apply Forall_forall. intros c Hc. rewrite Forall_forall in IH.
    apply (IH c Hc). apply (@distinct_child (Element u s nm at_ ch)); assumption.
  - destruct (uid (Text u tx) =? a)%nat eqn:E; [now apply Hit |].
    unfold descendantsOrSelf. cbn [descendants map]. unfold modifyTree. rewrite E. reflexivity.
  - destruct (uid (Comment u tx) =? a)%nat eqn:E; [now apply Hit |].
    unfold descendantsOrSelf. cbn [descendants map]. unfold modifyTree. rewrite E. reflexivity.
Qed.

Lemma uids_modifyTree (t : node) :
  NoDup (uids t) -> Permutation (uids (modifyTree a g t)) (uids t).
Proof.
  intros Hnd. unfold uids.
  rewrite (Permutation_map uid (descendantsOrSelf_modifyTree Hnd)), map_map.
  now rewrite (map_ext _ uid uid_modifyTree).
Qed.

(** The nodes stay distinct. *)
Lemma distinct_modifyTree (t : node) : NoDup (uids t) -> NoDup (uids (modifyTree a g t)).
Proof.
  intros Hnd. apply (Permutation_NoDup (Permutation_sym (uids_modifyTree Hnd)) Hnd).
Qed.

(** A handle finds the node it found, changed. *)
Lemma lookup_modifyTree (t : node) (b : nat) :
  NoDup (uids t) ->
  lookup b (modifyTree a g t) = option_map (modifyTree a g) (lookup b t).
Proof.
  intros Hnd. destruct (lookup b t) as [n |] eqn:E; simpl.
  - apply lookup_In in E. destruct E as [Hin <-].
    rewrite <- (uid_modifyTree n). apply lookup_unique; [now apply distinct_modifyTree |].
    apply (Permutation_in _ (Permutation_sym (descendantsOrSelf_modifyTree Hnd))).
    now apply in_map.
  - apply lookup_None. intros Hin.
    apply (Permutation_in _ (uids_modifyTree Hnd)) in Hin.
    unfold uids in Hin. apply in_map_iff in Hin. destruct Hin as (x & Ex & Hx).
    rewrite <- Ex in E. now rewrite (lookup_unique Hnd Hx) in E.
Qed.

End KeepingNodes.

Lemma node_unique (t y y' : node) :
  NoDup (uids t) -> In y (descendantsOrSelf t) -> In y' (descendantsOrSelf t) ->
  uid y = uid y' -> y = y'.
Proof.
  intros Hnd Hy Hy' E.
  assert (H1 := lookup_unique Hnd Hy). assert (H2 := lookup_unique Hnd Hy').
  rewrite E in H1. congruence.
Qed.

Lemma root_not_below (t x : node) : NoDup (uids t) -> In x (descendants t) -> uid x <> uid t.
Proof.
  unfold uids, descendantsOrSelf. simpl. intros Hnd Hx E.
  inversion Hnd as [| ? ? Hnotin _]. subst. apply Hnotin. rewrite <- E. now apply in_map.
Qed.

Lemma distinct_children (t : node) : NoDup (uids t) -> NoDup (map uid (children t)).
Proof.
  rewrite uids_children. intros Hnd. inversion Hnd as [| ? ? _ Hnd']. subst. clear Hnd.
  induction (children t) as [| c ch IH]; cbn [flat_map map In] in *; [constructor |].
  constructor.
  - intros Hin. apply in_map_iff in Hin. destruct Hin as (x & E & Hx).
    apply (NoDup_app_inv _ _ (uid c) Hnd'); [apply uid_in_uids |].
    apply in_flat_map. exists x. split; [exact Hx |]. rewrite <- E. apply uid_in_uids.
  - apply IH. now apply NoDup_app_remove_l in Hnd'.
Qed.

(** Two children of a node with an identity in common are the same
    child. *)
Lemma children_apart (t x y : node) (b : nat) :
  NoDup (uids t) -> In x (children t) -> In y (children t) ->
  In b (uids x) -> In b (uids y) -> x = y.
Proof.
  rewrite uids_children. intros Hnd Hx Hy Hbx Hby.
  inversion Hnd as [| ? ? _ Hnd']. subst. clear Hnd.
  induction (children t) as [| c ch IH]; cbn [flat_map map In] in *; [contradiction |].
  destruct Hx as [-> | Hx], Hy as [-> | Hy].
  - reflexivity.
  - exfalso. apply (NoDup_app_inv _ _ b Hnd' Hbx). apply in_flat_map. now exists y.
  - exfalso. apply (NoDup_app_inv _ _ b Hnd' Hby). apply in_flat_map. now exists x.
  - apply IH; auto. now apply NoDup_app_remove_l in Hnd'.
Qed.

Lemma in_uids (t x : node) : In x (descendantsOrSelf t) -> In (uid x) (uids t).
Proof. intros H. now apply in_map. Qed.

Lemma uids_In (t : node) (b : nat) :
  In b (uids t) -> exists x, In x (descendantsOrSelf t) /\ uid x = b.
Proof. intros H. apply in_map_iff in H. destruct H as (x & E & Hx). now exists x. Qed.

(** ** Reordering the children of a node *)

Definition rearranged (r : list node -> list node) (n : node) : node :=
  withChildren (r (children n)) n.

Lemma uid_withChildren ch (n : node) : uid (withChildren ch n) = uid n.
Proof. now destruct n. Qed.

Lemma uid_rearranged r (n : node) : uid (rearranged r n) = uid n.
Proof. apply uid_withChildren. Qed.

Lemma children_rearranged r (n : node) :
  (forall l, Permutation (r l) l) -> Permutation (children (rearranged r n)) (children n).
Proof.
  intros H. destruct n; simpl; [apply H | constructor | constructor].
Qed.

(** [c] moved behind its siblings. *)
Definition moveLast (c : nat) (l : list node) : list node :=
  filter (fun x => negb (uid x =? c)%nat) l ++ filter (fun x => (uid x =? c)%nat) l.

Lemma moveLast_Permutation (c : nat) (l : list node) : Permutation (moveLast c l) l.
Proof.
  unfold moveLast. induction l as [| x l IH]; simpl; [constructor |].
  destruct (uid x =? c)%nat; simpl.
  - rewrite <- Permutation_middle. now constructor.
  - now constructor.
Qed.

Lemma modifyNode_withRoot (u : nat) (g : node -> node) (s : State) :
  modifyNode u g s = withRoot (modifyTree u g (root s)) s.
Proof. unfold modifyNode, modifyTree. now destruct (uid (root s) =? u)%nat. Qed.

Lemma modifyTree_hit (a : nat) (g : node -> node) (t : node) :
  uid t = a -> modifyTree a g t = g t.
Proof. intros E. unfold modifyTree. now rewrite E, Nat.eqb_refl. Qed.

Lemma modifyTree_miss (a : nat) (g : node -> node) u s nm at_ ch :
  u <> a ->
  modifyTree a g (Element u s nm at_ ch) = Element u s nm at_ (map (modifyTree a g) ch).
Proof.
  intros E. apply Nat.eqb_neq in E. unfold modifyTree at 1. cbn [uid]. rewrite E.
  cbn [substIn]. now rewrite substIn_children.
Qed.

Lemma modifyTree_leaf (a : nat) (g : node -> node) (t : node) :
  isElement t = false -> uid t <> a -> modifyTree a g t = t.
Proof.
  intros Ht E. apply Nat.eqb_neq in E. unfold modifyTree. rewrite E.
  destruct t; [discriminate | reflexivity | reflexivity].
Qed.

(** Two changes of the same node are one. *)
Lemma modifyTree_compose (a : nat) (g1 g2 : node -> node) (t : node) :
  (forall n, uid (g1 n) = uid n) ->
  modifyTree a g2 (modifyTree a g1 t) = modifyTree a (fun n => g2 (g1 n)) t.
Proof.
  intros Hg.
  assert (Hit : forall t, uid t = a ->
                  modifyTree a g2 (modifyTree a g1 t) = modifyTree a (fun n => g2 (g1 n)) t).
  { intros t0 E. rewrite (@modifyTree_hit a g1 t0 E).
    rewrite (@modifyTree_hit a (fun n => g2 (g1 n)) t0 E).
    apply modifyTree_hit. now rewrite Hg. }
  induction t as [u s nm at_ ch IH | u tx | u tx] using node_ind'.
  - destruct (Nat.eq_dec u a) as [E | E]; [now apply Hit |].
    rewrite !modifyTree_miss by exact E. rewrite map_map. f_equal.
    apply map_ext_in. intros c Hc. rewrite Forall_forall in IH. now apply IH.
  - destruct (Nat.eq_dec (uid (Text u tx)) a) as [E | E]; [now apply Hit |].
    rewrite (@modifyTree_leaf a g1 (Text u tx) eq_refl E).
    rewrite (@modifyTree_leaf a g2 (Text u tx) eq_refl E).
    now rewrite (@modifyTree_leaf a (fun n => g2 (g1 n)) (Text u tx) eq_refl E).
  - destruct (Nat.eq_dec (uid (Comment u tx)) a) as [E | E]; [now apply Hit |].
    rewrite (@modifyTree_leaf a g1 (Comment u tx) eq_refl E).
    rewrite (@modifyTree_leaf a g2 (Comment u tx) eq_refl E).
    now rewrite (@modifyTree_leaf a (fun n => g2 (g1 n)) (Comment u tx) eq_refl E).
Qed.

Lemma filter_none (l : list node) (c : nat) :
  ~ In c (map uid l) -> filter (fun y => (uid y =? c)%nat) l = [].
Proof.
  induction l as [| z l IH]; simpl; intros H; [reflexivity |].
  destruct (uid z =? c)%nat eqn:E.
  - apply Nat.eqb_eq in E. exfalso. apply H. now left.
  - apply IH. intros Hin. apply H. now right.
Qed.

Lemma filter_unique (l : list node) (x : node) :
  NoDup (map uid l) -> In x l -> filter (fun y => (uid y =? uid x)%nat) l = [x].
Proof.
  induction l as [| y l IH]; simpl; intros Hnd Hin; [contradiction |].
  inversion Hnd as [| ? ? Hnotin Hnd']. subst.
  destruct Hin as [-> | Hin].
  - rewrite Nat.eqb_refl. f_equal. now apply filter_none.
  - destruct (uid y =? uid x)%nat eqn:E; [| now apply IH].
    apply Nat.eqb_eq in E. exfalso. apply Hnotin. rewrite E. now apply in_map.
Qed.

Lemma flat_map_dropping (b : node -> bool) (h : node -> node) (l : list node) :
  (forall y, In y l -> b y = false -> h y = y) ->
  flat_map (fun y => if b y then [] else [h y]) l = filter (fun y => negb (b y)) l.
Proof.
  induction l as [| y l IH]; simpl; intros H; [reflexivity |].
  rewrite IH by (intros z Hz; apply H; now right).
  destruct (b y) eqn:E; simpl; [reflexivity |].
  now rewrite (H y (or_introl eq_refl) E).
Qed.

Lemma map_flat_map_keeping (b : node -> bool) (h m1 m2 : node -> node) (l : list node) :
  (forall y, In y l -> b y = false /\ m1 (h y) = m2 y) ->
  map m1 (flat_map (fun y => if b y then [] else [h y]) l) = map m2 l.
Proof.
  induction l as [| y l IH]; simpl; intros H; [reflexivity |].
  destruct (H y (or_introl eq_refl)) as [E1 E2]. rewrite E1. simpl.
  rewrite E2. f_equal. apply IH. intros z Hz. apply H. now right.
Qed.

(** ** [addChild] on a child of the parent *)

Section AddChild.

Variables p c : nat.
Variables P cn : node.
Hypothesis P_uid : uid P = p.
Hypothesis cn_uid : uid cn = c.
Hypothesis cn_child : In cn (children P).

Lemma removed_children (x : node) :
  NoDup (uids x) -> In cn (children x) ->
  flat_map (fun y => if (uid y =? c)%nat then [] else [substIn c (fun _ => []) y])
           (children x)
  = filter (fun y => negb (uid y =? c)%nat) (children x).
Proof.
  intros Hnd Hcn. apply flat_map_dropping. intros y Hy E.
  apply substIn_absent. intros Hin.
  assert (y = cn).
  { apply (@children_apart x y cn c Hnd Hy Hcn).
    - unfold uids, descendantsOrSelf. now right.
    - rewrite <- cn_uid. apply uid_in_uids. }
  subst y. apply Nat.eqb_neq in E. now apply E.
Qed.

Lemma remove_append (t : node) :
  NoDup (uids t) -> In P (descendantsOrSelf t) ->
  modifyTree p (fun n => withChildren (children n ++ [cn]) n)
             (substIn c (fun _ => []) t)
  = modifyTree p (rearranged (moveLast c)) t.
Proof.
  induction t as [u s nm at_ ch IH | u tx | u tx] using node_ind'; intros Hnd HP.
  - destruct (Nat.eq_dec u p) as [E | E].
    + assert (HPt : Element u s nm at_ ch = P).
      { apply (@node_unique (Element u s nm at_ ch)); auto; [now left |].
        now rewrite P_uid. }
      assert (Hcn : In cn ch) by (rewrite <- HPt in cn_child; exact cn_child).
      rewrite modifyTree_hit by (rewrite uid_substIn; exact E).
      rewrite modifyTree_hit by exact E.
      unfold rearranged, moveLast. cbn [substIn children withChildren]. f_equal.
      assert (R := @removed_children (Element u s nm at_ ch) Hnd Hcn).
      cbn [children] in R. rewrite R.
      f_equal. rewrite <- cn_uid. symmetry. apply filter_unique; [| exact Hcn].
      apply (@distinct_children (Element u s nm at_ ch) Hnd).
    + destruct HP as [HP | HP]; [exfalso; apply E; now rewrite <- HP in P_uid |].
      rewrite descendants_children in HP. cbn [children] in HP.
      apply in_flat_map in HP. destruct HP as (x0 & Hx0 & HP).
      cbn [substIn]. rewrite !modifyTree_miss by exact E. f_equal.
      apply (@map_flat_map_keeping (fun y => (uid y =? c)%nat)). intros x Hx.
      assert (Hndx : NoDup (uids x))
        by (apply (@distinct_child (Element u s nm at_ ch)); assumption).
      assert (Hcn0 : In c (uids x0)).
      { rewrite <- cn_uid. apply in_uids. right. now apply (@child_descendant x0 P cn). }
      destruct (in_dec Nat.eq_dec p (uids x)) as [Hp | Hp].
      * apply uids_In in Hp. destruct Hp as (y & Hy & Ey).
        assert (y = P).
        { apply (@node_unique (Element u s nm at_ ch)); auto.
          - right. rewrite descendants_children. apply in_flat_map. now exists x.
          - right. rewrite descendants_children. apply in_flat_map. now exists x0.
          - now rewrite P_uid. }
        subst y. split.
        -- apply Nat.eqb_neq. rewrite <- cn_uid. intros Heq.
           apply (@root_not_below x cn Hndx); [| now symmetry].
           now apply (@child_descendant x P cn).
        -- rewrite Forall_forall in IH. now apply IH.
      * assert (Hc : ~ In c (uids x)).
        { intros Hc. apply Hp.
          rewrite (@children_apart (Element u s nm at_ ch) x x0 c Hnd Hx Hx0 Hc Hcn0).
          rewrite <- P_uid. now apply in_uids. }
        split.
        -- apply Nat.eqb_neq. intros Heq. apply Hc. rewrite <- Heq. apply uid_in_uids.
        -- rewrite substIn_absent
             by (intros Hin; apply Hc; unfold uids, descendantsOrSelf; now right).
           now rewrite !modifyTree_absent by exact Hp.
  - destruct HP as [<- | []]. contradiction.
  - destruct HP as [<- | []]. contradiction.
Qed.

End AddChild.

(** [parent.addChild(child)] for a child of [parent] moves it behind
    its siblings. *)
Lemma addChild_moveLast (p c : nat) (s : State) (P cn : node) :
  distinctNodes s -> elementOf p s = Some P -> In cn (children P) -> uid cn = c ->
  addChild p c s = modifyNode p (rearranged (moveLast c)) s.
Proof.
  intros Hnd HP Hcn Ec. unfold elementOf in HP. apply lookup_In in HP.
  destruct HP as [HP Ep].
  assert (Hbelow : In cn (descendants (root s))) by now apply (@child_descendant _ P cn).
  unfold addChild, elementOf. rewrite <- Ec.
  rewrite (lookup_unique Hnd (or_intror Hbelow)).
  rewrite !modifyNode_withRoot. unfold removeNode.
  assert (Hr : (uid (root s) =? uid cn)%nat = false).
  { apply Nat.eqb_neq. intros E. now apply (@root_not_below (root s) cn Hnd Hbelow). }
  rewrite Hr. unfold withRoot. cbn [root attached current nextUid uuidCalls].
  f_equal. rewrite Ec. now apply (@remove_append p c P cn).
Qed.


Lemma modifyTree_ext (a : nat) (g g' : node -> node) (t : node) :
  (forall n, g n = g' n) -> modifyTree a g t = modifyTree a g' t.
Proof.
  intros H.
  induction t as [u s nm at_ ch IH | u tx | u tx] using node_ind'.
  - destruct (Nat.eq_dec u a) as [E | E].
    + rewrite (@modifyTree_hit a g (Element u s nm at_ ch) E).
      rewrite (@modifyTree_hit a g' (Element u s nm at_ ch) E). apply H.
    + rewrite !modifyTree_miss by exact E. f_equal.
      apply map_ext_in. intros c Hc. rewrite Forall_forall in IH. now apply IH.
  - unfold modifyTree. destruct (uid (Text u tx) =? a)%nat; [apply H | reflexivity].
  - unfold modifyTree. destruct (uid (Comment u tx) =? a)%nat; [apply H | reflexivity].
Qed.

Lemma rearranged_compose (r1 r2 : list node -> list node) (n : node) :
  rearranged r2 (rearranged r1 n) = rearranged (fun l => r2 (r1 l)) n.
Proof. now destruct n. Qed.

(** ** Reordering through a handle *)

Section Rearranging.

Variable a : nat.
Variable r : list node -> list node.
Hypothesis r_Permutation : forall l, Permutation (r l) l.
Variable s : State.
Hypothesis s_distinct : distinctNodes s.

Let s' : State := modifyNode a (rearranged r) s.

Lemma rearranged_distinct : distinctNodes (modifyNode a (rearranged r) s).
Proof.
  unfold distinctNodes. rewrite root_modifyNode.
  apply distinct_modifyTree; [apply uid_rearranged | | exact s_distinct].
  intros n. now apply children_rearranged.
Qed.

Lemma rearranged_elementOf (b : nat) :
  elementOf b (modifyNode a (rearranged r) s)
  = option_map (modifyTree a (rearranged r)) (elementOf b s).
Proof.
  unfold elementOf. rewrite root_modifyNode.
  apply lookup_modifyTree; [apply uid_rearranged | | exact s_distinct].
  intros n. now apply children_rearranged.
Qed.

Lemma rearranged_self (A : node) :
  elementOf a s = Some A ->
  elementOf a (modifyNode a (rearranged r) s) = Some (rearranged r A).
Proof.
  intros H. rewrite rearranged_elementOf, H. simpl. f_equal.
  apply modifyTree_hit. unfold elementOf in H. now apply lookup_In in H.
Qed.

End Rearranging.

(** Moving children behind their siblings, one after the other. *)
Definition moveAll (cs : list nat) (l : list node) : list node :=
  fold_left (fun acc c => moveLast c acc) cs l.

Lemma moveAll_Permutation (cs : list nat) (l : list node) : Permutation (moveAll cs l) l.
Proof.
  revert l. induction cs as [| c cs IH]; intros l; simpl; [reflexivity |].
  unfold moveAll in *. simpl. rewrite IH. apply moveLast_Permutation.
Qed.

Lemma addChildren_run (a : nat) (cs : list node) :
  forall (s : State) (A : node),
    distinctNodes s -> elementOf a s = Some A ->
    (forall c, In c cs -> In (uid c) (map uid (children A))) ->
    forEach (fun option => modify (addChild a (uid option))) cs s
    = (Ok tt, modifyNode a (rearranged (moveAll (map uid cs))) s).
Proof.
  induction cs as [| c cs IH]; intros s A Hnd HA Hin.
  - simpl. unfold ret. f_equal. rewrite modifyNode_withRoot.
    assert (E : modifyTree a (rearranged (moveAll [])) (root s) = root s).
    { rewrite (@modifyTree_ext a _ (fun n => n)).
      - clear. induction (root s) as [u s0 nm at_ ch IH | u tx | u tx] using node_ind'.
        + destruct (Nat.eq_dec u a) as [E | E].
          * now apply (@modifyTree_hit a (fun n => n) (Element u s0 nm at_ ch)).
          * rewrite modifyTree_miss by exact E. f_equal.
            rewrite <- (map_id ch) at 2. apply map_ext_in. intros c Hc.
            rewrite Forall_forall in IH. now apply IH.
        + unfold modifyTree. now destruct (uid (Text u tx) =? a)%nat.
        + unfold modifyTree. now destruct (uid (Comment u tx) =? a)%nat.
      - intros n. now destruct n. }
    rewrite E. now destruct s.
  - cbn [forEach map]. unfold bind, modify.
    assert (Hc := Hin c (or_introl eq_refl)). apply in_map_iff in Hc.
    destruct Hc as (cn & Ecn & Hcn).
    rewrite (@addChild_moveLast a (uid c) s A cn Hnd HA Hcn Ecn).
    rewrite (IH _ (rearranged (moveLast (uid c)) A)).
    + f_equal. rewrite !modifyNode_withRoot. unfold withRoot.
      cbn [root attached current nextUid uuidCalls]. f_equal.
      rewrite modifyTree_compose by apply uid_rearranged.
      apply modifyTree_ext. intros n. rewrite rearranged_compose. reflexivity.
    + apply rearranged_distinct; [apply moveLast_Permutation | exact Hnd].
    + apply rearranged_self; [apply moveLast_Permutation | exact Hnd | exact HA].
    + intros c' Hc'.
      assert (P : Permutation (children (rearranged (moveLast (uid c)) A)) (children A))
        by (apply children_rearranged, moveLast_Permutation).
      apply (Permutation_in _ (Permutation_sym (Permutation_map uid P))).
      apply Hin. now right.
Qed.

(** ** The order [moveAll] leaves *)

Definition among (cs : list nat) (x : node) : bool := existsb (Nat.eqb (uid x)) cs.

Lemma among_In (cs : list nat) (x : node) : among cs x = true <-> In (uid x) cs.
Proof.
  unfold among. rewrite existsb_exists. split.
  - intros (c & Hc & E). apply Nat.eqb_eq in E. now rewrite E.
  - intros H. exists (uid x). split; [exact H | apply Nat.eqb_refl].
Qed.

Lemma filter_ext_in_ (A : Type) (p q : A -> bool) (l : list A) :
  (forall x, In x l -> p x = q x) -> filter p l = filter q l.
Proof.
  induction l as [| x l IH]; simpl; intros H; [reflexivity |].
  rewrite (H x (or_introl eq_refl)), IH; [reflexivity |].
  intros y Hy. apply H. now right.
Qed.

Lemma filter_all (A : Type) (p : A -> bool) (l : list A) :
  (forall x, In x l -> p x = true) -> filter p l = l.
Proof.
  induction l as [| x l IH]; simpl; intros H; [reflexivity |].
  rewrite (H x (or_introl eq_refl)), IH; [reflexivity |].
  intros y Hy. apply H. now right.
Qed.

Lemma filter_filter_ (A : Type) (p q : A -> bool) (l : list A) :
  filter p (filter q l) = filter (fun x => q x && p x) l.
Proof.
  induction l as [| x l IH]; simpl; [reflexivity |].
  destruct (q x); simpl; [destruct (p x); now rewrite IH | exact IH].
Qed.

Lemma moveLast_child (l : list node) (c : node) :
  NoDup (map uid l) -> In c l ->
  moveLast (uid c) l = filter (fun x => negb (uid x =? uid c)%nat) l ++ [c].
Proof. intros Hnd Hc. unfold moveLast. now rewrite filter_unique. Qed.

(** Moving distinct children of a node, one after the other, leaves
    the other children in front and the moved ones behind them, in the
    order in which they were moved. *)
Lemma moveAll_children (cs : list node) :
  forall l, NoDup (map uid l) -> NoDup (map uid cs) -> incl cs l ->
    moveAll (map uid cs) l = filter (fun x => negb (among (map uid cs) x)) l ++ cs.
Proof.
  induction cs as [| c cs IH]; intros l Hl Hcs Hincl.
  - simpl. rewrite app_nil_r. symmetry. now apply filter_all.
  - cbn [map]. change (moveAll (uid c :: map uid cs) l)
      with (moveAll (map uid cs) (moveLast (uid c) l)).
    inversion Hcs as [| ? ? Hnotin Hcs']. subst.
    assert (Hc : In c l) by (apply Hincl; now left).
    rewrite (@moveLast_child l c Hl Hc).
    rewrite IH; [| | exact Hcs' |].
    + rewrite filter_app. cbn [filter].
      assert (E : among (map uid cs) c = false).
      { destruct (among (map uid cs) c) eqn:E; [| reflexivity].
        apply among_In in E. contradiction. }
      rewrite E. cbn [negb]. rewrite <- app_assoc. cbn [app]. f_equal.
      rewrite filter_filter_. apply filter_ext_in_. intros x Hx.
      unfold among. cbn [existsb]. now rewrite negb_orb.
    + rewrite <- (@moveLast_child l c Hl Hc).
      apply (Permutation_NoDup (Permutation_sym
               (Permutation_map uid (moveLast_Permutation (uid c) l))) Hl).
    + intros x Hx. rewrite <- (@moveLast_child l c Hl Hc).
      apply (Permutation_in _ (Permutation_sym (moveLast_Permutation (uid c) l))).
      apply Hincl. now right.
Qed.

(* ================================================================== *)
(** * Shuffling the options of an answer (claim C3) *)
(* ================================================================== *)

(** ** Sorting *)

Lemma sortWith_Permutation (A : Type) (le : A -> A -> bool) (l : list A) :
  Permutation (Lodash.sortWith le l) l.
Proof.
  induction l as [| x l IH]; simpl; [constructor |].
  transitivity (x :: Lodash.sortWith le l); [| now constructor].
  generalize (Lodash.sortWith le l). clear. intros l.
  induction l as [| y l IH]; simpl; [reflexivity |].
  destruct (le x y); [reflexivity |].
  rewrite IH. apply perm_swap.
Qed.

Lemma sortWith_map (A B : Type) (f : A -> B) (le : B -> B -> bool) (l : list A) :
  Lodash.sortWith le (map f l) = map f (Lodash.sortWith (fun a b => le (f a) (f b)) l).
Proof.
  induction l as [| x l IH]; simpl; [reflexivity |].
  now rewrite IH, insert_map.
Qed.

Lemma sortWith_ext_in (A : Type) (le1 le2 : A -> A -> bool) (l : list A) :
  (forall x y, In x l -> In y l -> le1 x y = le2 x y) ->
  Lodash.sortWith le1 l = Lodash.sortWith le2 l.
Proof.
  induction l as [| x l IH]; intros H; simpl; [reflexivity |].
  rewrite <- IH by (intros y z Hy Hz; apply H; now right).
  apply insert_ext. intros y Hy.
  apply (Permutation_in _ (sortWith_Permutation le1 l)) in Hy.
  apply H; [now left | now right].
Qed.

(** [_.sortBy] puts the keys in ascending order. *)
Lemma sortBy_Sorted (A : Type) (key : A -> string) (l : list A) :
  Sorted (fun a b => String.leb (key a) (key b) = true) (Lodash.sortBy key l).
Proof.
  unfold Lodash.sortBy.
  induction l as [| x l IH]; simpl; [constructor |].
  revert IH. generalize (Lodash.sortWith (fun a b => String.leb (key a) (key b)) l).
  clear. intros l. induction l as [| y l IHl]; intros Hs; simpl.
  - repeat constructor.
  - destruct (String.leb (key x) (key y)) eqn:E.
    + constructor; [exact Hs | now constructor].
    + inversion Hs as [| ? ? Hs' Hhd]. subst.
      constructor; [now apply IHl |].
      assert (Hyx : String.leb (key y) (key x) = true).
      { destruct (String.leb_total (key x) (key y)) as [H | H]; [congruence | exact H]. }
      destruct l as [| z l]; simpl; [now constructor |].
      destruct (String.leb (key x) (key z)); constructor; [exact Hyx |].
      now inversion Hhd.
Qed.

Lemma map_nth_seq (A : Type) (d : A) (l : list A) :
  map (fun i => nth i l d) (seq 0 (length l)) = l.
Proof.
  induction l as [| x l IH]; simpl; [reflexivity |].
  f_equal. rewrite <- seq_shift, map_map. exact IH.
Qed.

(** ** The position of an option *)

Lemma indexFrom_nth (options : list node) (d : node) (i : nat) (k : Z) :
  NoDup (map uid options) -> i < length options ->
  indexFrom (uid (nth i options d)) options k = (k + Z.of_nat i)%Z.
Proof.
  revert i k. induction options as [| x options IH]; simpl; intros i k Hnd Hi; [lia |].
  inversion Hnd as [| ? ? Hnotin Hnd']. subst.
  destruct i as [| i].
  - rewrite Nat.eqb_refl. lia.
  - destruct (uid x =? uid (nth i options d))%nat eqn:E.
    + apply Nat.eqb_eq in E. exfalso. apply Hnotin. rewrite E.
      apply in_map, nth_In. lia.
    + rewrite IH by (auto; lia). lia.
Qed.

Lemma indexOf_nth (options : list node) (d : node) (i : nat) :
  NoDup (map uid options) -> i < length options ->
  indexOf options (nth i options d) = Z.of_nat i.
Proof. intros Hnd Hi. unfold indexOf. now rewrite indexFrom_nth. Qed.

(** The first position at which [p] holds. *)
Fixpoint findIndex (A : Type) (p : A -> bool) (l : list A) (i : nat) : option nat :=
  match l with
  | [] => None
  | x :: r => if p x then Some i else findIndex p r (S i)
  end.

Lemma findIndex_find (A : Type) (p : A -> bool) (d : A) (l : list A) (k : nat) :
  match findIndex p l k with
  | Some i => k <= i < k + length l /\ find p l = Some (nth (i - k) l d)
  | None => find p l = None
  end.
Proof.
  revert k. induction l as [| x l IH]; intros k; simpl; [reflexivity |].
  destruct (p x).
  - split; [lia |]. now rewrite Nat.sub_diag.
  - specialize (IH (S k)). destruct (findIndex p l (S k)) as [i |]; [| exact IH].
    destruct IH as [H1 H2]. split; [lia |].
    rewrite H2. f_equal.
    destruct (i - k) as [| j] eqn:E; [lia |].
    now replace (i - S k) with j by lia.
Qed.

(** ** What a handle shows of the tree *)

(** A node without what is below it. *)
Definition label (n : node) : node := withChildren [] n.

(** The node a handle stands for and its children, each without what
    is below it. *)
Definition view (s : State) (u : nat) : option (node * list node) :=
  option_map (fun n => (label n, map label (children n))) (elementOf u s).

Lemma uid_label (n : node) : uid (label n) = uid n.
Proof. now destruct n. Qed.

Lemma attr_label (k : string) (n : node) : attr k (label n) = attr k n.
Proof. now destruct n. Qed.

Lemma isEAny_label (names : list string) (n : node) : isEAny names (label n) = isEAny names n.
Proof. now destruct n. Qed.

Lemma isNoAnswer_label (n : node) : isNoAnswer (label n) = isNoAnswer n.
Proof. unfold isNoAnswer. now rewrite attr_label. Qed.

Lemma name_label (n : node) : name (label n) = name n.
Proof. now destruct n. Qed.

Lemma label_rearranged r (n : node) : label (rearranged r n) = label n.
Proof. now destruct n. Qed.

Lemma label_modifyTree (a : nat) r (n : node) : label (modifyTree a (rearranged r) n) = label n.
Proof.
  unfold modifyTree. destruct (uid n =? a)%nat; [apply label_rearranged |].
  now destruct n.
Qed.

Lemma children_modifyTree_miss (a : nat) r (n : node) :
  uid n <> a ->
  map label (children (modifyTree a (rearranged r) n)) = map label (children n).
Proof.
  intros E. destruct n as [u s nm at_ ch | u tx | u tx].
  - rewrite modifyTree_miss by exact E. cbn [children]. rewrite map_map.
    apply map_ext. intros c. apply label_modifyTree.
  - now rewrite modifyTree_leaf.
  - now rewrite modifyTree_leaf.
Qed.

Lemma children_rearranged_eq r (n : node) :
  (forall l, Permutation (r l) l) -> children (rearranged r n) = r (children n).
Proof.
  intros H. destruct n; simpl; try reflexivity.
  - symmetry. apply Permutation_nil. apply Permutation_sym, H.
  - symmetry. apply Permutation_nil. apply Permutation_sym, H.
Qed.

(** What the handles show after the children of [a] are reordered. *)
Lemma view_rearranged (a : nat) r (s : State) (b : nat) :
  (forall l, Permutation (r l) l) -> distinctNodes s ->
  view (modifyNode a (rearranged r) s) b
  = if (b =? a)%nat
    then option_map (fun n => (label n, map label (r (children n)))) (elementOf a s)
    else view s b.
Proof.
  intros Hr Hnd. unfold view. rewrite (@rearranged_elementOf a r Hr s Hnd b).
  destruct (b =? a)%nat eqn:E.
  - apply Nat.eqb_eq in E. subst b.
    destruct (elementOf a s) as [n |] eqn:En; [| reflexivity]. simpl.
    unfold elementOf in En. apply lookup_In in En. destruct En as [_ En].
    rewrite (@modifyTree_hit a (rearranged r) n En), label_rearranged.
    now rewrite children_rearranged_eq.
  - apply Nat.eqb_neq in E.
    destruct (elementOf b s) as [n |] eqn:En; [| reflexivity]. simpl.
    unfold elementOf in En. apply lookup_In in En. destruct En as [_ En].
    rewrite label_modifyTree, children_modifyTree_miss; [reflexivity | congruence].
Qed.

(** ** One answer *)

Definition isOption (n : node) : bool := isEAny choiceAnswerOptionTypes n.

(** The hash the option at position [i] is sorted by. *)
Definition hashOf (count : nat) (questionId secret : string) (i : nat) : string :=
  createHash ((Js.String_nat count ++ questionId) ++ Js.String_Z (Z.of_nat i) ++ secret).

(** The positions the options had, in their new order: by hash, the
    first no-answer option last. *)
Definition shuffledPositions (count : nat) (questionId secret : string)
           (noAnswer : option nat) : list nat :=
  let sorted := Lodash.sortBy (hashOf count questionId secret) (seq 0 count) in
  match noAnswer with
  | Some i => filter (fun j => negb (j =? i)%nat) sorted ++ [i]
  | None => sorted
  end.

(** The children of an answer after the shuffle: what is not an
    option stays in front. *)
Definition shuffledChildren (secret questionId : string) (ch : list node) : list node :=
  let options := filter isOption ch in
  filter (fun x => negb (isOption x)) ch
  ++ map (fun i => nth i options (Text 0 ""))
         (shuffledPositions (length options) questionId secret
                            (findIndex isNoAnswer options 0)).

(** The moves [shuffleAnswer] makes. *)
Definition shuffleMoves (secret questionId : string) (options : list node)
           (l : list node) : list node :=
  let sortedOptions :=
    Lodash.sortBy
      (fun option =>
         createHash ((Js.String_nat (length options) ++ questionId)
                     ++ Js.String_Z (indexOf options option) ++ secret))
      options in
  let moved := moveAll (map uid sortedOptions) l in
  match find isNoAnswer options with
  | Some noAnswerOption => moveLast (uid noAnswerOption) moved
  | None => moved
  end.

Lemma shuffleMoves_Permutation secret questionId options l :
  Permutation (shuffleMoves secret questionId options l) l.
Proof.
  unfold shuffleMoves. destruct (find isNoAnswer options).
  - rewrite moveLast_Permutation. apply moveAll_Permutation.
  - apply moveAll_Permutation.
Qed.

Lemma NoDup_map_filter (p : node -> bool) (l : list node) :
  NoDup (map uid l) -> NoDup (map uid (filter p l)).
Proof.
  induction l as [| x l IH]; simpl; intros Hnd; [constructor |].
  inversion Hnd as [| ? ? Hnotin Hnd']. subst.
  destruct (p x); simpl; [| now apply IH].
  constructor; [| now apply IH].
  intros Hin. apply Hnotin. apply in_map_iff in Hin. destruct Hin as (y & E & Hy).
  apply filter_In in Hy. rewrite <- E. now apply in_map.
Qed.

(** The options sorted by the hash of their position, for any hash. *)
Lemma sortBy_positions_with (hash : string -> string) (front back : string)
      (options : list node) (d : node) :
  NoDup (map uid options) ->
  Lodash.sortBy
    (fun option => hash (front ++ Js.String_Z (indexOf options option) ++ back)%string)
    options
  = map (fun i => nth i options d)
        (Lodash.sortBy (fun i => hash (front ++ Js.String_Z (Z.of_nat i) ++ back)%string)
                       (seq 0 (length options))).
Proof.
  intros Hnd. unfold Lodash.sortBy.
  match goal with
  | |- Lodash.sortWith ?le options = _ =>
      transitivity (Lodash.sortWith le (map (fun i => nth i options d)
                                            (seq 0 (length options))));
        [now rewrite map_nth_seq |]
  end.
  rewrite sortWith_map. apply f_equal.
  apply sortWith_ext_in. intros i j Hi Hj.
  apply in_seq in Hi, Hj.
  rewrite !indexOf_nth by (auto; lia). reflexivity.
Qed.

Lemma sortBy_positions (secret questionId : string) (options : list node) (d : node) :
  NoDup (map uid options) ->
  Lodash.sortBy
    (fun option =>
       createHash ((Js.String_nat (length options) ++ questionId)
                   ++ Js.String_Z (indexOf options option) ++ secret))
    options
  = map (fun i => nth i options d)
        (Lodash.sortBy (hashOf (length options) questionId secret) (seq 0 (length options))).
Proof.
  intros Hnd.
  exact (@sortBy_positions_with createHash
           (Js.String_nat (length options) ++ questionId)%string secret options d Hnd).
Qed.

Lemma nth_uid_inj (options : list node) (d : node) (i j : nat) :
  NoDup (map uid options) -> i < length options -> j < length options ->
  uid (nth i options d) = uid (nth j options d) -> i = j.
Proof.
  intros Hnd Hi Hj E.
  assert (Hi' := @indexOf_nth options d i Hnd Hi).
  assert (Hj' := @indexOf_nth options d j Hnd Hj).
  unfold indexOf in Hi', Hj'. rewrite E in Hi'. lia.
Qed.

(** The children the moves of [shuffleAnswer] leave. *)
Lemma shuffleMoves_children (secret questionId : string) (ch : list node) :
  NoDup (map uid ch) ->
  shuffleMoves secret questionId (filter isOption ch) ch
  = shuffledChildren secret questionId ch.
Proof.
  intros Hnd. unfold shuffleMoves, shuffledChildren, shuffledPositions.
  set (options := filter isOption ch).
  set (d := Text 0 "").
  assert (Hopt : NoDup (map uid options)) by now apply NoDup_map_filter.
  rewrite (@sortBy_positions secret questionId options d Hopt).
  set (sorted := Lodash.sortBy (hashOf (length options) questionId secret)
                               (seq 0 (length options))).
  assert (Hperm : Permutation sorted (seq 0 (length options)))
    by apply sortWith_Permutation.
  assert (Hsorted : forall i, In i sorted -> i < length options).
  { intros i Hi. apply (Permutation_in _ Hperm) in Hi. apply in_seq in Hi. lia. }
  assert (Hnodes : Permutation (map (fun i => nth i options d) sorted) options).
  { rewrite (Permutation_map _ Hperm). now rewrite map_nth_seq. }
  assert (Hmoved : moveAll (map uid (map (fun i => nth i options d) sorted)) ch
                   = filter (fun x => negb (isOption x)) ch
                     ++ map (fun i => nth i options d) sorted).
  { rewrite moveAll_children; [| exact Hnd | |].
    - f_equal. apply filter_ext_in_. intros x Hx. f_equal.
      apply eq_true_iff_eq. rewrite among_In. split.
      + intros Hin. apply in_map_iff in Hin. destruct Hin as (y & E & Hy).
        apply (Permutation_in _ Hnodes) in Hy. unfold options in Hy.
        apply filter_In in Hy. destruct Hy as [Hy1 Hy2].
        assert (x = y); [| now subst].
        clear - Hnd Hx Hy1 E. 
        assert (F := @filter_unique ch x Hnd Hx). rewrite <- E in F.
        assert (Hin : In y (filter (fun y0 => (uid y0 =? uid y)%nat) ch))
          by (apply filter_In; split; [exact Hy1 | apply Nat.eqb_refl]).
        rewrite F in Hin. destruct Hin as [Hin | []]. exact Hin.
      + intros Hx'. apply in_map.
        apply (Permutation_in _ (Permutation_sym Hnodes)).
        unfold options. apply filter_In. now split.
    - apply (Permutation_NoDup (Permutation_sym (Permutation_map uid Hnodes)) Hopt).
    - intros x Hx. apply (Permutation_in _ Hnodes) in Hx. unfold options in Hx.
      now apply filter_In in Hx. }
  rewrite Hmoved.
  assert (HF := findIndex_find isNoAnswer d options 0).
  destruct (findIndex isNoAnswer options 0) as [i0 |].
  - destruct HF as [Hi0 HF]. rewrite HF, Nat.sub_0_r.
    assert (Hn : In (nth i0 options d) ch).
    { assert (H : In (nth i0 options d) options) by (apply nth_In; lia).
      unfold options in H. now apply filter_In in H. }
    rewrite moveLast_child; [| | ].
    + rewrite filter_app, <- app_assoc. f_equal.
      * apply filter_all. intros x Hx. apply filter_In in Hx. destruct Hx as [Hx1 Hx2].
        apply negb_true_iff. apply Nat.eqb_neq. intros E.
        assert (x = nth i0 options d).
        { assert (F := @filter_unique ch x Hnd Hx1). rewrite E in F.
          assert (Hin : In (nth i0 options d)
                           (filter (fun y0 => (uid y0 =? uid (nth i0 options d))%nat) ch))
            by (apply filter_In; split; [exact Hn | apply Nat.eqb_refl]).
          rewrite F in Hin. destruct Hin as [Hin | []]. exact Hin. }
        subst x.
        assert (H : In (nth i0 options d) options) by (apply nth_In; lia).
        unfold options in H at 2. apply filter_In in H. destruct H as [_ H].
        rewrite H in Hx2. discriminate.
      * rewrite map_app. cbn [map]. f_equal.
        rewrite filter_map_swap. f_equal.
        apply filter_ext_in_. intros j Hj. f_equal.
        destruct (j =? i0)%nat eqn:E.
        -- apply Nat.eqb_eq in E. subst j. apply Nat.eqb_refl.
        -- apply Nat.eqb_neq. intros Heq. apply Nat.eqb_neq in E. apply E.
           apply (@nth_uid_inj options d j i0 Hopt); [now apply Hsorted | lia | exact Heq].
    + rewrite <- Hmoved.
      apply (Permutation_NoDup
               (Permutation_sym (Permutation_map uid (moveAll_Permutation _ ch))) Hnd).
    + rewrite <- Hmoved.
      apply (Permutation_in _ (Permutation_sym (moveAll_Permutation _ ch))). exact Hn.
  - now rewrite HF.
Qed.

Lemma distinct_descendant (t n : node) :
  NoDup (uids t) -> In n (descendantsOrSelf t) -> NoDup (uids n).
Proof.
  induction t as [u s nm at_ ch IH | u tx | u tx] using node_ind'; intros Hnd Hn.
  - destruct Hn as [<- | Hn]; [exact Hnd |].
    rewrite descendants_children in Hn. cbn [children] in Hn.
    apply in_flat_map in Hn. destruct Hn as (c & Hc & Hn).
    rewrite Forall_forall in IH. apply (IH c Hc); [| exact Hn].
    now apply (@distinct_child (Element u s nm at_ ch)).
  - destruct Hn as [<- | []]. exact Hnd.
  - destruct Hn as [<- | []]. exact Hnd.
Qed.

Lemma attrAt_elementOf (s : State) (u : nat) (k : string) (n : node) :
  elementOf u s = Some n -> attrAt s u k = attr k n.
Proof. intros H. unfold attrAt. now rewrite H. Qed.

(** [shuffleAnswer] reorders the children of the answer, and does
    nothing else. *)
Lemma shuffleAnswer_run (secret : string) (a : nat) (s : State) (A : node) (qid : string) :
  distinctNodes s -> elementOf a s = Some A -> attr "question-id" A = Some qid ->
  shuffleAnswer secret a s
  = (Ok tt, modifyNode a (rearranged (shuffleMoves secret qid
                                        (childrenNamed choiceAnswerOptionTypes A))) s).
Proof.
  intros Hnd HA Hq. unfold shuffleAnswer. rewrite bind_gets.
  assert (Eo : findChildren choiceAnswerOptionTypes a s
               = childrenNamed choiceAnswerOptionTypes A)
    by (unfold findChildren; now rewrite HA).
  rewrite Eo. set (options := childrenNamed choiceAnswerOptionTypes A).
  assert (Ea : attrAt s a "question-id" = Some qid)
    by (now rewrite (attrAt_elementOf s a "question-id" HA)).
  rewrite (bind_run _ (getAttribute_run "question-id" a s Ea)).
  set (sortedOptions := Lodash.sortBy _ options).
  assert (Hsorted : forall c, In c sortedOptions -> In c (children A)).
  { intros c Hc. unfold sortedOptions, Lodash.sortBy in Hc.
    apply (Permutation_in _ (sortWith_Permutation _ options)) in Hc.
    unfold options, childrenNamed in Hc. now apply filter_In in Hc. }
  rewrite (bind_run _ (@addChildren_run a sortedOptions s A Hnd HA
                         (fun c Hc => in_map uid _ _ (Hsorted c Hc)))).
  set (moved := moveAll (map uid sortedOptions)).
  assert (Hmoved : forall l, Permutation (moved l) l) by (intros l; apply moveAll_Permutation).
  unfold shuffleMoves. fold sortedOptions. fold moved.
  destruct (find isNoAnswer options) as [noAnswerOption |] eqn:Ef; [| reflexivity].
  unfold modify. f_equal.
  apply find_some in Ef. destruct Ef as [Hn _].
  assert (Hin : In noAnswerOption (children A)).
  { unfold options, childrenNamed in Hn. now apply filter_In in Hn. }
  assert (Hex : exists cn, In cn (children (rearranged moved A))
                           /\ uid cn = uid noAnswerOption).
  { exists noAnswerOption. split; [| reflexivity].
    apply (Permutation_in _ (Permutation_sym (@children_rearranged moved A Hmoved))). exact Hin. }
  destruct Hex as (cn & Hcn & Ecn).
  rewrite (@addChild_moveLast a (uid noAnswerOption) _ (rearranged moved A) cn).
  - rewrite !modifyNode_withRoot. unfold withRoot.
    cbn [root attached current nextUid uuidCalls]. f_equal.
    rewrite modifyTree_compose by apply uid_rearranged.
    apply modifyTree_ext. intros n. now rewrite rearranged_compose.
  - now apply rearranged_distinct.
  - now apply rearranged_self.
  - exact Hcn.
  - exact Ecn.
Qed.

(** What the handles show after one answer is shuffled. *)
Definition shuffledView (secret : string) (v : option (node * list node))
  : option (node * list node) :=
  match v with
  | Some (l, ch) =>
      Some (l, shuffledChildren secret
                 (match attr "question-id" l with Some q => q | None => "" end) ch)
  | None => None
  end.

Lemma filter_map_label (p : node -> bool) (l : list node) :
  (forall x, p (label x) = p x) -> filter p (map label l) = map label (filter p l).
Proof.
  intros Hp. induction l as [| x l IH]; simpl; [reflexivity |].
  rewrite Hp. destruct (p x); simpl; now rewrite IH.
Qed.

Lemma findIndex_map_label (p : node -> bool) (l : list node) (k : nat) :
  (forall x, p (label x) = p x) -> findIndex p (map label l) k = findIndex p l k.
Proof.
  intros Hp. revert k. induction l as [| x l IH]; intros k; simpl; [reflexivity |].
  rewrite Hp. destruct (p x); [reflexivity | apply IH].
Qed.

Lemma map_label_shuffledChildren (secret qid : string) (ch : list node) :
  map label (shuffledChildren secret qid ch) = shuffledChildren secret qid (map label ch).
Proof.
  unfold shuffledChildren.
  assert (Hopt : forall x, isOption (label x) = isOption x)
    by (intros x; apply isEAny_label).
  rewrite (@filter_map_label isOption ch Hopt).
  rewrite (@filter_map_label (fun x => negb (isOption x)) ch)
    by (intros x; now rewrite Hopt).
  rewrite map_app, length_map, map_map.
  rewrite (@findIndex_map_label isNoAnswer (filter isOption ch) 0 isNoAnswer_label).
  apply f_equal. apply map_ext_in. intros i Hi.
  now rewrite <- (map_nth label).
Qed.

Lemma shuffleAnswer_view (secret : string) (a : nat) (s : State) :
  distinctNodes s ->
  (exists l ch qid, view s a = Some (l, ch) /\ attr "question-id" l = Some qid) ->
  exists s',
    shuffleAnswer secret a s = (Ok tt, s')
    /\ distinctNodes s'
    /\ forall b, view s' b = if (b =? a)%nat then shuffledView secret (view s a) else view s b.
Proof.
  intros Hnd (l & ch & qid & Hv & Hq).
  unfold view in Hv. destruct (elementOf a s) as [A |] eqn:HA; [| discriminate].
  simpl in Hv. injection Hv as <- <-. rewrite attr_label in Hq.
  eexists. split; [apply (@shuffleAnswer_run secret a s A qid Hnd HA Hq) |].
  split.
  - apply rearranged_distinct; [| exact Hnd]. intros l. apply shuffleMoves_Permutation.
  - intros b. rewrite view_rearranged; [| | exact Hnd].
    2:{ intros l. apply shuffleMoves_Permutation. }
    destruct (b =? a)%nat; [| reflexivity].
    unfold view. rewrite HA. simpl. rewrite attr_label, Hq. f_equal. f_equal.
    change (childrenNamed choiceAnswerOptionTypes A) with (filter isOption (children A)).
    rewrite shuffleMoves_children.
    + apply map_label_shuffledChildren.
    + apply distinct_children.
      unfold elementOf in HA. apply lookup_In in HA. destruct HA as [HA _].
      now apply (@distinct_descendant (root s) A).
Qed.

(** ** All answers *)

Lemma shuffle_loop (secret : string) (answers : list nat) :
  forall s,
    distinctNodes s -> NoDup answers ->
    (forall a, In a answers ->
       exists l ch qid, view s a = Some (l, ch) /\ attr "question-id" l = Some qid) ->
    exists s',
      forEach (shuffleAnswer secret) answers s = (Ok tt, s')
      /\ distinctNodes s'
      /\ forall b, view s' b = if existsb (Nat.eqb b) answers
                               then shuffledView secret (view s b) else view s b.
Proof.
  induction answers as [| a answers IH]; intros s Hnd Hdistinct Hq.
  - exists s. repeat split; auto.
  - inversion Hdistinct as [| ? ? Hnotin Hdistinct']. subst.
    destruct (@shuffleAnswer_view secret a s Hnd (Hq a (or_introl eq_refl)))
      as (s1 & E1 & Hnd1 & V1).
    assert (Hsame : forall b, In b answers -> view s1 b = view s b).
    { intros b Hb. rewrite V1.
      destruct (b =? a)%nat eqn:E; [| reflexivity].
      apply Nat.eqb_eq in E. subst b. contradiction. }
    destruct (IH s1 Hnd1 Hdistinct') as (s' & E' & Hnd' & V').
    { intros b Hb. rewrite (Hsame b Hb). apply Hq. now right. }
    exists s'. split; [| split; [exact Hnd' |]].
    + cbn [forEach]. now rewrite (bind_run _ E1).
    + intros b. rewrite V'. cbn [existsb].
      destruct (existsb (Nat.eqb b) answers) eqn:Eb.
      * apply existsb_exists in Eb. destruct Eb as (x & Hx & Ex).
        apply Nat.eqb_eq in Ex. subst x. rewrite (Hsame b Hx).
        now rewrite orb_true_r.
      * rewrite orb_false_r, V1.
        destruct (b =? a)%nat eqn:E; [| reflexivity].
        apply Nat.eqb_eq in E. now subst b.
Qed.

(** The children of an element, and its options, by identity. *)
Definition childOrder (s : State) (u : nat) : list nat :=
  match elementOf u s with
  | Some n => map uid (children n)
  | None => []
  end.

Definition optionOrder (s : State) (u : nat) : list nat :=
  map uid (findChildren choiceAnswerOptionTypes u s).

Definition otherChildren (s : State) (u : nat) : list nat :=
  match elementOf u s with
  | Some n => map uid (filter (fun x => negb (isOption x)) (children n))
  | None => []
  end.

(** The position of the first no-answer option of an answer. *)
Definition noAnswerPosition (s : State) (u : nat) : option nat :=
  findIndex isNoAnswer (findChildren choiceAnswerOptionTypes u s) 0.

Lemma map_uid_label (l : list node) : map uid (map label l) = map uid l.
Proof. rewrite map_map. apply map_ext. intros x. apply uid_label. Qed.

Lemma view_childOrder (s : State) (u : nat) l ch :
  view s u = Some (l, ch) -> childOrder s u = map uid ch.
Proof.
  unfold view, childOrder. destruct (elementOf u s) as [n |]; [| discriminate].
  simpl. intros [= <- <-]. now rewrite map_uid_label.
Qed.

Lemma view_optionOrder (s : State) (u : nat) l ch :
  view s u = Some (l, ch) -> optionOrder s u = map uid (filter isOption ch).
Proof.
  unfold view, optionOrder, findChildren. destruct (elementOf u s) as [n |]; [| discriminate].
  simpl. intros [= <- <-].
  rewrite (@filter_map_label isOption (children n)) by (intros x; apply isEAny_label).
  now rewrite map_uid_label.
Qed.

Lemma view_otherChildren (s : State) (u : nat) l ch :
  view s u = Some (l, ch) ->
  otherChildren s u = map uid (filter (fun x => negb (isOption x)) ch).
Proof.
  unfold view, otherChildren. destruct (elementOf u s) as [n |]; [| discriminate].
  simpl. intros [= <- <-].
  rewrite (@filter_map_label (fun x => negb (isOption x)) (children n))
    by (intros x; unfold isOption; now rewrite isEAny_label).
  now rewrite map_uid_label.
Qed.

Lemma view_noAnswerPosition (s : State) (u : nat) l ch :
  view s u = Some (l, ch) -> noAnswerPosition s u = findIndex isNoAnswer (filter isOption ch) 0.
Proof.
  unfold view, noAnswerPosition, findChildren.
  destruct (elementOf u s) as [n |]; [| discriminate].
  simpl. intros [= <- <-].
  rewrite (@filter_map_label isOption (children n)) by (intros x; apply isEAny_label).
  now rewrite (@findIndex_map_label isNoAnswer (filter isOption (children n)) 0
                 isNoAnswer_label).
Qed.

Lemma view_attrAt (s : State) (u : nat) (k : string) :
  attrAt s u k = match view s u with Some (l, _) => attr k l | None => None end.
Proof.
  unfold view, attrAt. destruct (elementOf u s) as [n |]; simpl; [| reflexivity].
  now rewrite attr_label.
Qed.

Lemma view_nameOf (s : State) (u : nat) :
  nameOf u s = match view s u with Some (l, _) => name l | None => "" end.
Proof.
  unfold view, nameOf. destruct (elementOf u s) as [n |]; simpl; [| reflexivity].
  now rewrite name_label.
Qed.

Lemma moved_last_Permutation (i : nat) (l : list nat) :
  NoDup l -> In i l -> Permutation (filter (fun j => negb (j =? i)%nat) l ++ [i]) l.
Proof.
  induction l as [| x l IH]; simpl; intros Hnd Hin; [contradiction |].
  inversion Hnd as [| ? ? Hnotin Hnd']. subst.
  destruct Hin as [-> | Hin].
  - rewrite Nat.eqb_refl. simpl.
    rewrite filter_all.
    + rewrite Permutation_app_comm. reflexivity.
    + intros y Hy. apply negb_true_iff, Nat.eqb_neq. intros ->. contradiction.
  - destruct (x =? i)%nat eqn:E.
    + apply Nat.eqb_eq in E. subst x. contradiction.
    + simpl. constructor. now apply IH.
Qed.

(** The new order is a rearrangement of the positions. *)
Lemma shuffledPositions_Permutation (count : nat) (qid secret : string) (noAnswer : option nat) :
  (forall i, noAnswer = Some i -> i < count) ->
  Permutation (shuffledPositions count qid secret noAnswer) (seq 0 count).
Proof.
  intros H. unfold shuffledPositions.
  assert (P : Permutation (Lodash.sortBy (hashOf count qid secret) (seq 0 count))
                          (seq 0 count)) by apply sortWith_Permutation.
  destruct noAnswer as [i |]; [| exact P].
  rewrite moved_last_Permutation; [exact P | |].
  - apply (Permutation_NoDup (Permutation_sym P)). apply seq_NoDup.
  - apply (Permutation_in _ (Permutation_sym P)). apply in_seq.
    specialize (H i eq_refl). lia.
Qed.

Lemma findIndex_bound (A : Type) (p : A -> bool) (l : list A) (i : nat) :
  findIndex p l 0 = Some i -> i < length l.
Proof.
  intros H. destruct l as [| d l]; [discriminate |].
  assert (F := findIndex_find p d (d :: l) 0). rewrite H in F. lia.
Qed.

Lemma filter_shuffledChildren (secret qid : string) (ch : list node) :
  filter isOption (shuffledChildren secret qid ch)
  = map (fun i => nth i (filter isOption ch) (Text 0 ""))
        (shuffledPositions (length (filter isOption ch)) qid secret
                           (findIndex isNoAnswer (filter isOption ch) 0))
  /\ filter (fun x => negb (isOption x)) (shuffledChildren secret qid ch)
     = filter (fun x => negb (isOption x)) ch.
Proof.
  unfold shuffledChildren.
  set (options := filter isOption ch).
  set (positions := shuffledPositions _ _ _ _).
  assert (Hpos : forall i, In i positions -> isOption (nth i options (Text 0 "")) = true).
  { intros i Hi. unfold positions in Hi.
    apply (Permutation_in _ (@shuffledPositions_Permutation (length options) qid secret
                               (findIndex isNoAnswer options 0)
                               (@findIndex_bound _ isNoAnswer options))) in Hi.
    apply in_seq in Hi.
    assert (H : In (nth i options (Text 0 "")) options) by (apply nth_In; lia).
    unfold options in H at 2. now apply filter_In in H. }
  rewrite !filter_app. split.
  - rewrite filter_filter_.
    rewrite (@filter_ext_in_ _ _ (fun _ => false)), filter_false
      by (intros x _; now destruct (isOption x)).
    cbn [app]. apply filter_all. intros x Hx.
    apply in_map_iff in Hx. destruct Hx as (i & <- & Hi). now apply Hpos.
  - rewrite filter_filter_.
    rewrite (@filter_ext_in_ _ (fun x => negb (isOption x) && negb (isOption x))
                             (fun x => negb (isOption x)))
      by (intros x _; now destruct (isOption x)).
    rewrite <- (app_nil_r (filter (fun x => negb (isOption x)) ch)) at 2. f_equal.
    rewrite (@filter_ext_in_ _ _ (fun _ => false)); [apply filter_false |].
    intros x Hx. apply in_map_iff in Hx. destruct Hx as (i & <- & Hi).
    now rewrite (Hpos i Hi).
Qed.

Lemma isShuffled_view (s : State) (a : nat) :
  isShuffled s a = true -> exists l ch, view s a = Some (l, ch).
Proof.
  unfold isShuffled, view. destruct (elementOf a s) as [e |]; [| discriminate].
  intros _. simpl. eauto.
Qed.

Lemma fixed_not_shuffled (s : State) (a : nat) :
  attrAt s a "ordering" = Some "fixed" -> isShuffled s a = false.
Proof.
  unfold attrAt, isShuffled. destruct (elementOf a s) as [e |]; [| discriminate].
  intros ->. simpl. apply andb_false_r.
Qed.

(** X1: with a secret, the options of every choice or dropdown answer
    that is not marked [ordering="fixed"] are put in the order of the
    SHA-256 hashes of (number of options, question-id, original
    position, secret), concatenated as strings, the smallest hash
    first; the first option marked [type="no-answer"] is then put
    last; what is not an option stays in front of the options; answers
    with fixed ordering, and everything else, keep the order of their
    children, and no attribute changes.  The new order of the
    positions depends on the number of options, the question-id, the
    secret and the position of the first no-answer option only. *)
Theorem shuffleAnswerOptions_order (exam : Exam) (secret : string) (s : State) :
  let answers := filter (isShuffled s) (map a_element (e_answers exam)) in
  distinctNodes s ->
  NoDup answers ->
  (forall a, In a answers -> attrAt s a "question-id" <> None) ->
  exists s',
    shuffleAnswerOptions exam secret s = (Ok tt, s')
    /\ (forall a questionId,
          In a answers -> attrAt s a "question-id" = Some questionId ->
          let positions :=
            shuffledPositions (length (optionOrder s a)) questionId secret
                              (noAnswerPosition s a) in
          Permutation positions (seq 0 (length (optionOrder s a)))
          /\ optionOrder s' a = map (fun i => nth i (optionOrder s a) 0) positions
          /\ childOrder s' a = otherChildren s a ++ optionOrder s' a)
    /\ (forall count questionId,
          let hash := hashOf count questionId secret in
          let sorted := Lodash.sortBy hash (seq 0 count) in
          Permutation sorted (seq 0 count)
          /\ Sorted (fun i j => String.leb (hash i) (hash j) = true) sorted
          /\ shuffledPositions count questionId secret None = sorted
          /\ forall i, shuffledPositions count questionId secret (Some i)
                       = filter (fun j => negb (j =? i)%nat) sorted ++ [i])
    /\ (forall a, attrAt s a "ordering" = Some "fixed" -> childOrder s' a = childOrder s a)
    /\ (forall b, ~ In b answers -> childOrder s' b = childOrder s b)
    /\ (forall b k, attrAt s' b k = attrAt s b k)
    /\ (forall b, nameOf b s' = nameOf b s).
Proof.
  intros answers Hnd Hdistinct Hq.
  assert (Hviews : forall a, In a answers ->
            exists l ch qid, view s a = Some (l, ch) /\ attr "question-id" l = Some qid).
  { intros a Ha. assert (Hs : isShuffled s a = true) by (apply filter_In in Ha; tauto).
    destruct (isShuffled_view s a Hs) as (l & ch & Hv).
    specialize (Hq a Ha). rewrite view_attrAt, Hv in Hq.
    destruct (attr "question-id" l) as [qid |] eqn:E; [| contradiction].
    now exists l, ch, qid. }
  destruct (@shuffle_loop secret answers s Hnd Hdistinct Hviews) as (s' & E & _ & V).
  assert (Vin : forall a, In a answers -> view s' a = shuffledView secret (view s a)).
  { intros a Ha. rewrite V.
    replace (existsb (Nat.eqb a) answers) with true; [reflexivity |].
    symmetry. apply existsb_exists. exists a. split; [exact Ha | apply Nat.eqb_refl]. }
  assert (Vout : forall b, ~ In b answers -> view s' b = view s b).
  { intros b Hb. rewrite V.
    destruct (existsb (Nat.eqb b) answers) eqn:Eb; [| reflexivity].
    apply existsb_exists in Eb. destruct Eb as (x & Hx & Ex).
    apply Nat.eqb_eq in Ex. subst x. contradiction. }
  assert (Vlabel : forall b, match view s' b with Some (l, _) => Some l | None => None end
                             = match view s b with Some (l, _) => Some l | None => None end).
  { intros b. rewrite V. destruct (existsb (Nat.eqb b) answers); [| reflexivity].
    now destruct (view s b) as [[l ch] |]. }
  assert (Cout : forall b, ~ In b answers -> childOrder s' b = childOrder s b).
  { intros b Hb. unfold childOrder.
    assert (Hv := Vout b Hb). unfold view in Hv.
    destruct (elementOf b s') as [n' |], (elementOf b s) as [n |];
      simpl in Hv; try discriminate; [| reflexivity].
    injection Hv as _ Hv. now rewrite <- (map_uid_label (children n')), Hv, map_uid_label. }
  exists s'. split.
  { unfold shuffleAnswerOptions. rewrite bind_gets. exact E. }
  split; [| split; [| split; [| split; [exact Cout | split]]]].
  - intros a questionId Ha Hqid positions.
    destruct (Hviews a Ha) as (l & ch & qid & Hv & Hl).
    rewrite view_attrAt, Hv, Hl in Hqid. injection Hqid as <-.
    assert (Hv' := Vin a Ha). rewrite Hv in Hv'. cbn [shuffledView] in Hv'. rewrite Hl in Hv'.
    destruct (filter_shuffledChildren secret qid ch) as [F1 F2].
    assert (Elen : length (optionOrder s a) = length (filter isOption ch))
      by (rewrite (view_optionOrder s a Hv); apply length_map).
    assert (Epos : positions
                   = shuffledPositions (length (filter isOption ch)) qid secret
                                       (findIndex isNoAnswer (filter isOption ch) 0)).
    { unfold positions. now rewrite Elen, (view_noAnswerPosition s a Hv). }
    assert (Hperm : Permutation positions (seq 0 (length (optionOrder s a)))).
    { rewrite Epos, Elen. apply shuffledPositions_Permutation.
      intros i. apply findIndex_bound. }
    assert (Hopt : optionOrder s' a = map (fun i => nth i (optionOrder s a) 0) positions).
    { rewrite (view_optionOrder s' a Hv'), F1, <- Epos, map_map.
      apply map_ext_in. intros i Hi.
      apply (Permutation_in _ Hperm) in Hi. apply in_seq in Hi.
      rewrite (view_optionOrder s a Hv).
      rewrite (nth_indep _ 0 (uid (Text 0 ""))) by (rewrite length_map; lia).
      now rewrite map_nth. }
    split; [exact Hperm |]. split; [exact Hopt |].
    rewrite (view_childOrder s' a Hv'), (view_otherChildren s a Hv).
    rewrite (view_optionOrder s' a Hv').
    unfold shuffledChildren at 1. rewrite map_app. f_equal.
    now rewrite F1.
  - intros count questionId hash sorted. split; [apply sortWith_Permutation |].
    split; [apply sortBy_Sorted |]. split; reflexivity.
  - intros a Ha. apply Cout. intros Hin. apply filter_In in Hin.
    rewrite (fixed_not_shuffled s a Ha) in Hin. destruct Hin. discriminate.
  - intros b k. rewrite !view_attrAt. specialize (Vlabel b).
    destruct (view s' b) as [[l' ch'] |], (view s b) as [[l ch] |]; congruence.
  - intros b. rewrite !view_nameOf. specialize (Vlabel b).
    destruct (view s' b) as [[l' ch'] |], (view s b) as [[l ch] |]; congruence.
Qed.

(** A choice answer of four options, the third of which is the
    no-answer option, with a text node between them, and a dropdown
    answer with fixed ordering. *)
Definition shuffledExam : node :=
  Element 0 NsE "exam" []
    [ Element 1 NsE "section" []
        [ Element 2 NsE "question" []
            [ Element 3 NsE "choice-answer" [("question-id", "1")]
                [ Element 4 NsE "choice-answer-option" [] [];
                  Text 5 " ";
                  Element 6 NsE "choice-answer-option" [] [];
                  Element 7 NsE "choice-answer-option" [("type", "no-answer")] [];
                  Element 8 NsE "choice-answer-option" [] [] ] ];
          Element 9 NsE "question" []
            [ Element 10 NsE "dropdown-answer" [("question-id", "2"); ("ordering", "fixed")]
                [ Element 11 NsE "dropdown-answer-option" [] [];
                  Element 12 NsE "dropdown-answer-option" [] [] ] ] ] ].

Lemma shuffleAnswerOptions_order_witness :
  exists s',
    shuffleAnswerOptions (parseExamStructure (initialState shuffledExam)) "secret"
                         (initialState shuffledExam) = (Ok tt, s')
    /\ optionOrder s' 3 = [8; 6; 4; 7]
    /\ childOrder s' 3 = [5; 8; 6; 4; 7]
    /\ childOrder s' 10 = [11; 12].
Proof.
  destruct (@shuffleAnswerOptions_order (parseExamStructure (initialState shuffledExam))
              "secret" (initialState shuffledExam))
    as (s' & E & Hshuffled & _ & Hfixed & _).
  - apply distinct_NoDup. vm_compute. reflexivity.
  - apply distinct_NoDup. vm_compute. reflexivity.
  - intros a Ha. vm_compute in Ha. destruct Ha as [<- | []]. discriminate.
  - exists s'. split; [exact E |].
    destruct (Hshuffled 3 "1") as (_ & Hopt & Hch).
    + vm_compute. tauto.
    + reflexivity.
    + assert (Eo : optionOrder s' 3 = [8; 6; 4; 7]) by (rewrite Hopt; vm_compute; reflexivity).
      split; [exact Eo |]. split.
      * rewrite Hch, Eo. reflexivity.
      * rewrite Hfixed; reflexivity.
Defined.

(* ================================================================== *)
(** * Passes that remove what they find *)
(* ================================================================== *)

(** [removeComments], [removeHiddenElements], [removeHvpMetadata] and
    [removeTableWhitespaceNodes] first collect nodes and then unlink
    them one by one.  On a tree of distinct nodes that is the tree
    without the subtrees found. *)

Section Pruning.

(** Whether a child of a node is to go: [q parent child]. *)
Variable q : node -> node -> bool.

(** The tree without the children that are to go, at any depth. *)
Fixpoint pruned (n : node) : node :=
  match n with
  | Element u s nm a ch =>
      Element u s nm a (flat_map (fun c => if q n c then [] else [pruned c]) ch)
  | _ => n
  end.

(** The nodes below [n] that are to go, in document order: those
    inside one that goes are found as well. *)
Fixpoint found (n : node) : list nat :=
  match n with
  | Element _ _ _ _ ch => flat_map (fun c => (if q n c then [uid c] else []) ++ found c) ch
  | _ => []
  end.

(** Unlinking the nodes of these identities, one after the other. *)
Definition unlinkAll (us : list nat) (t : node) : node :=
  fold_left (fun t u => substIn u (fun _ => []) t) us t.

Definition drop (u : nat) (c : node) : list node :=
  if (uid c =? u)%nat then [] else [substIn u (fun _ => []) c].

Definition dropAll (us : list nat) (ch : list node) : list node :=
  fold_left (fun ch u => flat_map (drop u) ch) us ch.

Lemma unlinkAll_Element (us : list nat) u s nm a ch :
  unlinkAll us (Element u s nm a ch) = Element u s nm a (dropAll us ch).
Proof.
  revert ch. induction us as [| x us IH]; intros ch; [reflexivity |].
  unfold unlinkAll, dropAll in *. cbn [fold_left substIn]. apply IH.
Qed.

Lemma unlinkAll_leaf (us : list nat) (t : node) : isElement t = false -> unlinkAll us t = t.
Proof.
  intros H. induction us as [| x us IH]; [reflexivity |].
  unfold unlinkAll in *. cbn [fold_left]. destruct t; [discriminate | exact IH | exact IH].
Qed.

Lemma dropAll_app (us : list nat) (l1 l2 : list node) :
  dropAll us (l1 ++ l2) = dropAll us l1 ++ dropAll us l2.
Proof.
  revert l1 l2. induction us as [| x us IH]; intros l1 l2; [reflexivity |].
  unfold dropAll in *. cbn [fold_left]. rewrite flat_map_app. apply IH.
Qed.

Lemma dropAll_nil (us : list nat) : dropAll us [] = [].
Proof. induction us as [| x us IH]; [reflexivity | exact IH]. Qed.

Lemma dropAll_more (us1 us2 : list nat) (l : list node) :
  dropAll (us1 ++ us2) l = dropAll us2 (dropAll us1 l).
Proof. apply fold_left_app. Qed.

Lemma drop_absent (u : nat) (c : node) : ~ In u (uids c) -> drop u c = [c].
Proof.
  intros H. unfold drop. destruct (uid c =? u)%nat eqn:E.
  - apply Nat.eqb_eq in E. exfalso. apply H. rewrite <- E. apply uid_in_uids.
  - rewrite substIn_absent; [reflexivity |].
    intros Hin. apply H. unfold uids, descendantsOrSelf. now right.
Qed.

(** Nodes in which none of the identities occurs stay. *)
Lemma dropAll_absent (us : list nat) (l : list node) :
  (forall u x, In u us -> In x l -> ~ In u (uids x)) -> dropAll us l = l.
Proof.
  induction us as [| u us IH]; intros H; [reflexivity |].
  unfold dropAll in *. cbn [fold_left].
  assert (E : flat_map (drop u) l = l).
  { clear IH. induction l as [| x l IHl]; [reflexivity |]. cbn [flat_map].
    rewrite drop_absent by (apply H; now left). cbn [app]. f_equal.
    apply IHl. intros u' x' Hu' Hx'. apply H; [exact Hu' | now right]. }
  rewrite E. apply IH. intros u' x Hu' Hx. apply H; [now right | exact Hx].
Qed.

Lemma dropAll_keep (us : list nat) (c : node) :
  ~ In (uid c) us -> dropAll us [c] = [unlinkAll us c].
Proof.
  revert c. induction us as [| u us IH]; intros c H; [reflexivity |].
  change (dropAll (u :: us) [c]) with (dropAll us (flat_map (drop u) [c])).
  change (unlinkAll (u :: us) c) with (unlinkAll us (substIn u (fun _ => []) c)).
  cbn [flat_map]. rewrite app_nil_r.
  assert (E : drop u c = [substIn u (fun _ => []) c]).
  { unfold drop. destruct (uid c =? u)%nat eqn:E; [| reflexivity].
    apply Nat.eqb_eq in E. exfalso. apply H. now left. }
  rewrite E. apply IH. rewrite uid_substIn. intros Hin. apply H. now right.
Qed.

Lemma dropAll_hit (us : list nat) (c : node) : dropAll (uid c :: us) [c] = [].
Proof.
  change (dropAll (uid c :: us) [c]) with (dropAll us (flat_map (drop (uid c)) [c])).
  cbn [flat_map]. unfold drop. rewrite Nat.eqb_refl. apply dropAll_nil.
Qed.

Lemma found_uids (n : node) (u : nat) : In u (found n) -> In u (map uid (descendants n)).
Proof.
  induction n as [u0 s nm a ch IH | |] using node_ind'; simpl; try tauto.
  intros H. apply in_flat_map in H. destruct H as (c & Hc & H).
  rewrite map_flat_map. apply in_flat_map. exists c. split; [exact Hc |].
  rewrite Forall_forall in IH. cbn [map]. apply in_app_or in H. destruct H as [H | H].
  - destruct (q _ c); [| contradiction]. destruct H as [<- | []]. now left.
  - right. now apply IH.
Qed.

Lemma uid_pruned (n : node) : uid (pruned n) = uid n.
Proof. now destruct n. Qed.

(** Pruning brings no node in. *)
Lemma pruned_uids (n : node) (v : nat) : In v (uids (pruned n)) -> In v (uids n).
Proof.
  induction n as [u s nm a ch IH | |] using node_ind'; [| tauto | tauto].
  rewrite !uids_children. cbn [pruned uid children].
  intros [H | H]; [now left | right].
  apply in_flat_map in H. destruct H as (x & Hx & Hv).
  apply in_flat_map in Hx. destruct Hx as (c & Hc & Hx).
  apply in_flat_map. exists c. split; [exact Hc |].
  destruct (q _ c); [contradiction |]. destruct Hx as [<- | []].
  rewrite Forall_forall in IH. now apply IH.
Qed.

(** Unlinking what was found gives the pruned tree. *)
Lemma unlinkAll_found (t : node) : NoDup (uids t) -> unlinkAll (found t) t = pruned t.
Proof.
  induction t as [u s nm a ch IH | u tx | u tx] using node_ind'; intros Hnd;
    [| reflexivity | reflexivity].
  rewrite unlinkAll_Element. cbn [pruned found]. f_equal.
  set (n := Element u s nm a ch). 
  assert (Hch : NoDup (flat_map uids ch)).
  { rewrite uids_children in Hnd. now inversion Hnd. }
  clear Hnd. generalize (q n) as qn. intros qn.
  induction ch as [| c ch IHch]; [reflexivity |].
  inversion IH as [| ? ? Hc IH']. subst.
  cbn [flat_map] in *.
  assert (Hndc : NoDup (uids c)) by now apply NoDup_app_remove_r in Hch.
  assert (Hndch : NoDup (flat_map uids ch)) by now apply NoDup_app_remove_l in Hch.
  assert (Hapart : forall v x, In v (uids c) -> In x ch -> ~ In v (uids x)).
  { intros v x Hv Hx Hin. apply (NoDup_app_inv _ _ v Hch Hv).
    apply in_flat_map. now exists x. }
  set (usc := (if qn c then [uid c] else []) ++ found c).
  assert (Husc : forall v, In v usc -> In v (uids c)).
  { intros v Hv. unfold usc in Hv. apply in_app_or in Hv. destruct Hv as [Hv | Hv].
    - destruct (qn c); [| contradiction]. destruct Hv as [<- | []]. apply uid_in_uids.
    - unfold uids, descendantsOrSelf. right. now apply found_uids. }
  change (c :: ch) with ([c] ++ ch). rewrite dropAll_more, !dropAll_app.
  rewrite (@dropAll_absent usc ch) by (intros v x Hv Hx; apply Hapart; auto).
  rewrite (IHch IH' Hndch).
  assert (Ec : dropAll usc [c] = if qn c then [] else [pruned c]).
  { unfold usc. destruct (qn c).
    - cbn [app]. apply dropAll_hit.
    - cbn [app]. rewrite dropAll_keep.
      + now rewrite (Hc Hndc).
      + intros Hin. apply found_uids in Hin.
        unfold uids, descendantsOrSelf in Hndc. cbn [map] in Hndc.
        inversion Hndc as [| ? ? Hnotin _]. contradiction. }
  rewrite Ec. f_equal.
  apply dropAll_absent. intros v x Hv Hx.
  assert (Hvch : In v (flat_map uids ch)).
  { apply in_flat_map in Hv. destruct Hv as (y & Hy & Hv). apply in_flat_map. exists y.
    split; [exact Hy |]. apply in_app_or in Hv. destruct Hv as [Hv | Hv].
    - destruct (qn y); [| contradiction]. destruct Hv as [<- | []]. apply uid_in_uids.
    - unfold uids, descendantsOrSelf. right. now apply found_uids. }
  destruct (qn c); [contradiction |]. destruct Hx as [<- | []].
  intros Hin. apply pruned_uids in Hin.
  now apply (NoDup_app_inv _ _ v Hch Hin).
Qed.

End Pruning.

(** ** What remains *)

(** The outline of a tree: every node with the identities of its
    ancestors, nearest first, and without what is below it, in document
    order. *)
Definition outlineOf (x : list node * node) : list nat * node :=
  (map uid (fst x), label (snd x)).

Definition outline (n : node) : list (list nat * node) :=
  map outlineOf (descendantsOrSelfCtx n).

Lemma label_pruned q (n : node) : label (pruned q n) = label n.
Proof. now destruct n. Qed.

Lemma descendantsCtx_children (anc : list node) (n : node) :
  descendantsCtx anc n
  = flat_map (fun c => (n :: anc, c) :: descendantsCtx (n :: anc) c) (children n).
Proof. now destruct n. Qed.

Lemma descendantsCtx_incl (n : node) :
  forall anc x, In x (descendantsCtx anc n) -> incl anc (fst x).
Proof.
  induction n as [u s nm a ch IH | |] using node_ind'; intros anc x; simpl; try tauto.
  intros H. apply in_flat_map in H. destruct H as (c & Hc & [<- | H]).
  - intros y Hy. now right.
  - rewrite Forall_forall in IH. intros y Hy. apply (IH c Hc _ _ H). now right.
Qed.

(** The ancestors of what is below [n] start from [n]. *)
Lemma descendantsCtx_ancestors (anc : list node) (n : node) (x : list node * node) :
  In x (descendantsCtx anc n) -> In n (fst x).
Proof.
  rewrite descendantsCtx_children. intros H.
  apply in_flat_map in H. destruct H as (c & Hc & [<- | H]); [now left |].
  apply (descendantsCtx_incl _ _ _ H). now left.
Qed.

Section Remaining.

(** Whether a node is to go, whatever its parent. *)
Variable p : node -> bool.
Hypothesis p_label : forall n, p (label n) = p n.

Let q : node -> node -> bool := fun _ c => p c.

Lemma found_filter (t : node) : found q t = map uid (filter p (descendants t)).
Proof.
  induction t as [u s nm a ch IH | |] using node_ind'; [| reflexivity | reflexivity].
  cbn [found descendants]. unfold q at 1.
  induction IH as [| c ch Hc _ IHl]; [reflexivity |].
  cbn [flat_map]. rewrite filter_app, map_app, IHl, Hc. f_equal.
  cbn [filter]. now destruct (p c).
Qed.

Lemma p_pruned (n : node) : p (pruned q n) = p n.
Proof. now rewrite <- p_label, label_pruned, p_label. Qed.

(** None of the nodes to go is left below the root. *)
Lemma pruned_none (t : node) : filter p (descendants (pruned q t)) = [].
Proof.
  induction t as [u s nm a ch IH | |] using node_ind'; [| reflexivity | reflexivity].
  cbn [pruned descendants]. unfold q at 1. rewrite flat_map_flat_map.
  induction IH as [| c ch Hc _ IHl]; [reflexivity |].
  cbn [flat_map]. rewrite filter_app, IHl, app_nil_r.
  destruct (p c) eqn:E; [reflexivity |].
  cbn [flat_map]. rewrite app_nil_r. cbn [filter]. rewrite p_pruned, E. exact Hc.
Qed.

(** Whether a node stays: it is not to go, and none of its ancestors
    is. *)
Definition stays (x : list node * node) : bool := negb (existsb p (snd x :: fst x)).

(** What is left: the nodes that stay, where they were. *)
Lemma pruned_outline (t : node) :
  forall anc anc',
    map uid anc' = map uid anc -> existsb p (t :: anc) = false ->
    map outlineOf (descendantsCtx anc' (pruned q t))
    = map outlineOf (filter stays (descendantsCtx anc t)).
Proof.
  induction t as [u s nm a ch IH | |] using node_ind'; intros anc anc' Ha Hp;
    [| reflexivity | reflexivity].
  rewrite (descendantsCtx_children anc (Element u s nm a ch)).
  rewrite (descendantsCtx_children anc' (pruned q (Element u s nm a ch))).
  change (children (pruned q (Element u s nm a ch)))
    with (flat_map (fun c => if p c then [] else [pruned q c]) ch).
  change (children (Element u s nm a ch)) with ch.
  rewrite flat_map_flat_map.
  remember (pruned q (Element u s nm a ch)) as t' eqn:Et'.
  assert (Ht' : uid t' = u) by (subst t'; reflexivity). clear Et'.
  remember (Element u s nm a ch) as t eqn:Et.
  assert (Ht : uid t = u) by (subst t; reflexivity). clear Et.
  induction IH as [| c ch' Hc _ IHl]; [reflexivity |].
  cbn [flat_map]. rewrite filter_app, !map_app, IHl. f_equal.
  cbn [filter]. unfold stays at 1. cbn [fst snd existsb].
  cbn [existsb] in Hp. rewrite Hp, orb_false_r.
  destruct (p c) eqn:E; cbn [negb flat_map].
  - rewrite (@filter_ext_in_ _ stays (fun _ => false)), filter_false; [reflexivity |].
    intros x Hx. unfold stays. apply negb_false_iff. apply existsb_exists.
    exists c. split; [| exact E]. right. now apply (@descendantsCtx_ancestors (t :: anc) c).
  - rewrite app_nil_r. cbn [map]. f_equal.
    + unfold outlineOf. cbn [fst snd map]. now rewrite label_pruned, Ht', Ht, Ha.
    + apply Hc.
      * cbn [map]. now rewrite Ht', Ht, Ha.
      * cbn [existsb]. now rewrite E, Hp.
Qed.

End Remaining.

Section RemainingLeaves.

(** Whether a child of a node is to go, for children that have
    nothing below them. *)
Variable q : node -> node -> bool.
Hypothesis q_leaf : forall n c, q n c = true -> children c = [].
Hypothesis q_label : forall n c, q (label n) (label c) = q n c.

(** [q] on a node with its ancestors. *)
Definition goes (x : list node * node) : bool :=
  match fst x with
  | parent :: _ => q parent (snd x)
  | [] => false
  end.




(** What is left: the other nodes, where they were. *)
Lemma pruned_outline_ctx (t : node) :
  forall anc anc',
    map uid anc' = map uid anc ->
    map outlineOf (descendantsCtx anc' (pruned q t))
    = map outlineOf (filter (fun x => negb (goes x)) (descendantsCtx anc t)).
Proof.
  induction t as [u s nm a ch IH | |] using node_ind'; intros anc anc' Ha;
    [| reflexivity | reflexivity].
  rewrite (descendantsCtx_children anc (Element u s nm a ch)).
  rewrite (descendantsCtx_children anc' (pruned q (Element u s nm a ch))).
  change (children (pruned q (Element u s nm a ch)))
    with (flat_map (fun c => if q (Element u s nm a ch) c then [] else [pruned q c]) ch).
  change (children (Element u s nm a ch)) with ch.
  rewrite flat_map_flat_map.
  remember (pruned q (Element u s nm a ch)) as t' eqn:Et'.
  assert (Ht' : uid t' = u) by (subst t'; reflexivity). clear Et'.
  remember (Element u s nm a ch) as t eqn:Et.
  assert (Ht : uid t = u) by (subst t; reflexivity). clear Et.
  induction IH as [| c ch' Hc _ IHl]; [reflexivity |].
  cbn [flat_map]. rewrite filter_app, !map_app, IHl. f_equal.
  cbn [filter]. unfold goes at 1. cbn [fst snd].
  destruct (q t c) eqn:E; cbn [negb flat_map].
  - rewrite descendantsCtx_children, (@q_leaf _ _ E). reflexivity.
  - rewrite app_nil_r. cbn [map]. f_equal.
    + unfold outlineOf. cbn [fst snd map]. now rewrite label_pruned, Ht', Ht, Ha.
    + apply Hc. cbn [map]. now rewrite Ht', Ht, Ha.
Qed.

End RemainingLeaves.

(** ** The runs *)

Lemma withRoot_root (s : State) : withRoot (root s) s = s.
Proof. now destruct s. Qed.

Lemma unlink_run (us : list nat) :
  forall s, (forall u, In u us -> u <> uid (root s)) ->
    forEach (fun e => modify (removeNode e)) us s
    = (Ok tt, withRoot (unlinkAll us (root s)) s).
Proof.
  induction us as [| u us IH]; intros s H.
  - simpl. unfold ret. now rewrite withRoot_root.
  - cbn [forEach]. unfold bind, modify.
    assert (E : removeNode u s = withRoot (substIn u (fun _ => []) (root s)) s).
    { unfold removeNode. destruct (uid (root s) =? u)%nat eqn:Eu; [| reflexivity].
      apply Nat.eqb_eq in Eu. exfalso. apply (H u); [now left | now symmetry]. }
    rewrite E, IH.
    + reflexivity.
    + intros v Hv. cbn [root withRoot]. rewrite uid_substIn. apply H. now right.
Qed.

Lemma below_not_root (s : State) (p : node -> bool) (u : nat) :
  distinctNodes s -> In u (map uid (filter p (descendants (root s)))) -> u <> uid (root s).
Proof.
  intros Hnd Hu. apply in_map_iff in Hu. destruct Hu as (x & <- & Hx).
  apply filter_In in Hx. destruct Hx as [Hx _]. now apply root_not_below.
Qed.

(** Unlinking, from a tree of distinct nodes, the nodes [p] finds below
    the root. *)
Lemma removeAll_below (p : node -> bool) (s : State) :
  distinctNodes s ->
  removeAll (filter p (descendants (root s))) s
  = (Ok tt, withRoot (pruned (fun _ c => p c) (root s)) s).
Proof.
  intros Hnd. unfold removeAll. rewrite unlink_run.
  - rewrite <- found_filter. now rewrite unlinkAll_found.
  - intros u Hu. now apply (@below_not_root s p).
Qed.

Lemma goes_below (q : node -> node -> bool) (p : node -> bool) (t : node) (anc : list node) :
  (forall n c, q n c = p c) ->
  filter (fun x => negb (goes q x)) (descendantsCtx anc t)
  = filter (fun x => negb (p (snd x))) (descendantsCtx anc t).
Proof.
  intros Hq. apply filter_ext_in. intros x Hx.
  apply descendantsCtx_ancestors in Hx. unfold goes.
  destruct (fst x) as [| y l]; [destruct Hx |]. now rewrite Hq.
Qed.

Lemma isComment_leaf (c : node) : isComment c = true -> children c = [].
Proof. now destruct c. Qed.

Lemma isComment_label (c : node) : isComment (label c) = isComment c.
Proof. now destruct c. Qed.

(** ** [removeComments] *)

(** X2: [removeComments] takes every comment out of the document and
    nothing else: no comment is found afterwards, and the nodes of the
    result are the nodes that are not comments, each under the same
    ancestors, with the same name, attributes and text, in the same
    order. *)
Theorem removeComments_outline (s : State) :
  distinctNodes s -> attached s = true -> isComment (root s) = false ->
  exists s',
    removeComments s = (Ok tt, s')
    /\ findAll isComment s' = []
    /\ outline (root s')
       = map outlineOf (filter (fun x => negb (isComment (snd x)))
                               (descendantsOrSelfCtx (root s)))
    /\ attached s' = true /\ current s' = current s
    /\ nextUid s' = nextUid s /\ uuidCalls s' = uuidCalls s.
Proof.
  intros Hnd Hatt Hroot.
  exists (withRoot (pruned (fun _ c => isComment c) (root s)) s).
  split.
  - unfold removeComments, bind, gets, findAll, descendantsOrSelf.
    rewrite Hatt. cbn [filter]. rewrite Hroot.
    apply removeAll_below; exact Hnd.
  - split; [| split; [| now rewrite <- Hatt]].
    + unfold findAll, descendantsOrSelf. cbn [withRoot attached root]. rewrite Hatt.
      cbn [filter].
      rewrite <- isComment_label, label_pruned, isComment_label, Hroot.
      apply pruned_none. exact isComment_label.
    + unfold outline, descendantsOrSelfCtx. cbn [withRoot root map filter snd].
      rewrite Hroot. cbn [negb map]. f_equal.
      * unfold outlineOf. cbn [fst snd]. now rewrite label_pruned.
      * rewrite <- (@goes_below (fun _ c => isComment c) isComment) by reflexivity.
        apply pruned_outline_ctx; [intros n c; apply isComment_leaf | reflexivity].
Qed.

(** A comment before the sections, one within a question and one in a
    paragraph. *)
Definition commentedExam : node :=
  Element 0 NsE "exam" []
    [ Comment 1 " draft ";
      Element 2 NsE "section" []
        [ Element 3 NsE "question" []
            [ Comment 4 "todo";
              Element 5 NsXhtml "p" [] [Text 6 "a"; Comment 7 "b"; Text 8 "c"] ] ] ].

Lemma removeComments_outline_witness :
  exists s',
    removeComments (initialState commentedExam) = (Ok tt, s')
    /\ findAll isComment s' = []
    /\ map (fun x => uid (snd x)) (outline (root s')) = [0; 2; 3; 5; 6; 8].
Proof.
  destruct (@removeComments_outline (initialState commentedExam))
    as (s' & E & Hnone & Hout & _).
  - apply distinct_NoDup. vm_compute. reflexivity.
  - reflexivity.
  - reflexivity.
  - exists s'. split; [exact E |]. split; [exact Hnone |].
    rewrite Hout. vm_compute. reflexivity.
Defined.

(** ** [removeHiddenElements] *)

(** [//e:*[@hidden=true()]]: an element of the exam namespace that has
    a [hidden] attribute, whatever its value. *)
Definition isHidden (e : node) : bool :=
  isElement e && ns_eqb (namespaceOf e) NsE && hasAttr "hidden" e.

Lemma isHidden_label (c : node) : isHidden (label c) = isHidden c.
Proof. now destruct c. Qed.

(** X3: [removeHiddenElements] takes out every exam element that has a
    [hidden] attribute, with all that is below it, and nothing else: no
    such element is found afterwards, and the nodes of the result are
    the nodes that neither are nor lie below such an element, each
    under the same ancestors, with the same content, in the same order.
    If the exam element itself has the attribute, the document is left
    without a root. *)
Theorem removeHiddenElements_outline (s : State) :
  distinctNodes s -> attached s = true ->
  exists s',
    removeHiddenElements s = (Ok tt, s')
    /\ current s' = current s /\ nextUid s' = nextUid s /\ uuidCalls s' = uuidCalls s
    /\ (isHidden (root s) = true -> attached s' = false)
    /\ (isHidden (root s) = false ->
        attached s' = true
        /\ findAll isHidden s' = []
        /\ outline (root s')
           = map outlineOf (filter (stays isHidden) (descendantsOrSelfCtx (root s)))).
Proof.
  intros Hnd Hatt.
  change removeHiddenElements with (bind (gets (findAll isHidden)) removeAll).
  unfold bind, gets, findAll, descendantsOrSelf. rewrite Hatt. cbn [filter].
  destruct (isHidden (root s)) eqn:Hroot.
  - unfold removeAll. cbn [map forEach]. unfold bind at 1, modify at 1.
    assert (E : removeNode (uid (root s)) s = detach s)
      by (unfold removeNode; now rewrite Nat.eqb_refl).
    rewrite E, unlink_run.
    + eexists. split; [reflexivity |]. repeat split; try discriminate.
    + intros u Hu. cbn [detach root]. now apply (@below_not_root s isHidden).
  - rewrite removeAll_below; [| exact Hnd].
    eexists. split; [reflexivity |]. repeat split; try discriminate.
    + now rewrite <- Hatt.
    + cbn [withRoot attached root]. rewrite Hatt. cbn [filter].
      rewrite <- isHidden_label, label_pruned, isHidden_label, Hroot.
      apply pruned_none. exact isHidden_label.
    + unfold outline, descendantsOrSelfCtx. cbn [withRoot root map filter].
      unfold stays at 1. cbn [fst snd existsb]. rewrite Hroot. cbn [orb negb map]. f_equal.
      * unfold outlineOf. cbn [fst snd]. now rewrite label_pruned.
      * apply pruned_outline; [reflexivity | cbn [existsb]; now rewrite Hroot].
Qed.

(** A section hidden with [hidden="false"], with a question below it;
    an XHTML element with the attribute; a hidden question. *)
Definition hiddenExam : node :=
  Element 0 NsE "exam" []
    [ Element 1 NsE "section" [("hidden", "false")]
        [ Element 2 NsE "question" [] [Text 3 "a"] ];
      Element 4 NsE "section" []
        [ Element 5 NsXhtml "p" [("hidden", "true")] [Text 6 "b"];
          Element 7 NsE "question" [("hidden", "true")] [];
          Element 8 NsE "question" [] [] ] ].

Lemma removeHiddenElements_outline_witness :
  exists s',
    removeHiddenElements (initialState hiddenExam) = (Ok tt, s')
    /\ attached s' = true
    /\ map (fun x => uid (snd x)) (outline (root s')) = [0; 4; 5; 6; 8].
Proof.
  destruct (@removeHiddenElements_outline (initialState hiddenExam))
    as (s' & E & _ & _ & _ & _ & H).
  - apply distinct_NoDup. vm_compute. reflexivity.
  - reflexivity.
  - destruct H as (Hatt & _ & Hout); [reflexivity |].
    exists s'. split; [exact E |]. split; [exact Hatt |].
    rewrite Hout. vm_compute. reflexivity.
Defined.

(** ** [removeHvpMetadata] *)

(** X4: [removeHvpMetadata], called on the exam element, takes out the
    grading instructions of the exam, of questions and of answers and
    the audio transcriptions, with all that is below them, and nothing
    else: none is found below the exam element afterwards, and the
    nodes of the result are the nodes that neither are nor lie below
    one, each under the same ancestors, with the same content, in the
    same order. *)
Theorem removeHvpMetadata_outline (s : State) :
  distinctNodes s -> isEAny hvpMetadataTypes (root s) = false ->
  exists s',
    removeHvpMetadata (uid (root s)) s = (Ok tt, s')
    /\ findBelow hvpMetadataTypes (uid (root s')) s' = []
    /\ outline (root s')
       = map outlineOf (filter (stays (isEAny hvpMetadataTypes))
                               (descendantsOrSelfCtx (root s)))
    /\ attached s' = attached s /\ current s' = current s
    /\ nextUid s' = nextUid s /\ uuidCalls s' = uuidCalls s.
Proof.
  intros Hnd Hroot.
  unfold removeHvpMetadata, bind, gets, findBelow, elementOf.
  rewrite lookup_root. unfold xpathOr, descendantsNamed.
  rewrite removeAll_below; [| exact Hnd].
  eexists. split; [reflexivity |]. repeat split.
  - cbn [withRoot root]. rewrite lookup_root. apply pruned_none. apply isEAny_label.
  - unfold outline, descendantsOrSelfCtx. cbn [withRoot root map filter].
    unfold stays at 1. cbn [fst snd existsb]. rewrite Hroot. cbn [orb negb map]. f_equal.
    + unfold outlineOf. cbn [fst snd]. now rewrite label_pruned.
    + apply pruned_outline; [reflexivity | cbn [existsb]; now rewrite Hroot].
Qed.

(** Grading instructions of the exam, of a question and, below the
    latter, of an answer; an audio transcription below an audio. *)
Definition instructedExam : node :=
  Element 0 NsE "exam" []
    [ Element 1 NsE "exam-grading-instruction" [] [Text 2 "a"];
      Element 3 NsE "section" []
        [ Element 4 NsE "question" []
            [ Element 5 NsE "question-grading-instruction" []
                [ Element 6 NsE "answer-grading-instruction" [] [] ];
              Element 7 NsE "audio" []
                [ Element 8 NsE "audio-transcription" [] [Text 9 "b"];
                  Element 10 NsE "audio-title" [] [] ] ] ] ].

Lemma removeHvpMetadata_outline_witness :
  exists s',
    removeHvpMetadata 0 (initialState instructedExam) = (Ok tt, s')
    /\ findBelow hvpMetadataTypes (uid (root s')) s' = []
    /\ map (fun x => uid (snd x)) (outline (root s')) = [0; 3; 4; 7; 10].
Proof.
  destruct (@removeHvpMetadata_outline (initialState instructedExam))
    as (s' & E & Hnone & Hout & _).
  - apply distinct_NoDup. vm_compute. reflexivity.
  - reflexivity.
  - exists s'. split; [exact E |]. split; [exact Hnone |].
    rewrite Hout. vm_compute. reflexivity.
Defined.

(** ** [removeTableWhitespaceNodes] *)










(* ================================================================== *)
(** * Identifiers of answers and of options *)
(* ================================================================== *)

(** ** What [parseExamStructure] collects *)

Lemma descendants_child (n c x : node) :
  In c (children n) -> In x (descendantsOrSelf c) -> In x (descendants n).
Proof.
  intros Hc Hx. rewrite descendants_children. apply in_flat_map. now exists c.
Qed.

(** The answers below the questions found at or below a node are answer
    elements below the node. *)
Lemma questionsIn_answers (n : node) :
  forall q a, In q (questionsIn n) -> In a (collectAnswers q) ->
    exists x, In x (descendants n) /\ uid x = a_element a /\ isEAny answerTypes x = true.
Proof.
  induction n as [u s nm at_ ch IH | |] using node_ind'; [| contradiction | contradiction].
  intros q a Hq Ha.
  assert (Inner : forall q', In q' (flat_map questionsIn ch) -> In a (collectAnswers q') ->
            exists x, In x (descendants (Element u s nm at_ ch))
                      /\ uid x = a_element a /\ isEAny answerTypes x = true).
  { intros q' Hq' Ha'. apply in_flat_map in Hq'. destruct Hq' as (c & Hc & Hq').
    rewrite Forall_forall in IH. destruct (IH c Hc q' a Hq' Ha') as (x & Hx & E & Hn).
    exists x. split; [| now split].
    apply (@descendants_child _ c); [exact Hc | now right]. }
  cbn [questionsIn] in Hq.
  destruct (isE "question" (Element u s nm at_ ch)); [| now apply (Inner q)].
  destruct Hq as [<- | []].
  destruct (nonEmpty (flat_map questionsIn ch)).
  - cbn [collectAnswers nonEmpty] in Ha. apply in_flat_map in Ha.
    destruct Ha as (q' & Hq' & Ha). now apply (Inner q').
  - cbn [collectAnswers] in Ha.
    destruct (nonEmpty _); [| destruct Ha].
    apply in_map_iff in Ha. destruct Ha as (x & <- & Hx).
    unfold xpathOr, descendantsNamed in Hx. apply filter_In in Hx.
    exists x. now split; [| split].
Qed.

Lemma parseQuestion_answers (n : node) (a : Answer) :
  In a (collectAnswers (parseQuestion n)) ->
  exists x, In x (descendants n) /\ uid x = a_element a /\ isEAny answerTypes x = true.
Proof.
  unfold parseQuestion. destruct (nonEmpty (flat_map questionsIn (children n))).
  - cbn [collectAnswers nonEmpty]. intros Ha. apply in_flat_map in Ha.
    destruct Ha as (q & Hq & Ha). apply in_flat_map in Hq. destruct Hq as (c & Hc & Hq).
    destruct (questionsIn_answers c q a Hq Ha) as (x & Hx & E & Hn).
    exists x. split; [| now split]. apply (@descendants_child _ c); [exact Hc | now right].
  - cbn [collectAnswers]. destruct (nonEmpty _); [| contradiction].
    intros Ha. apply in_map_iff in Ha. destruct Ha as (x & <- & Hx).
    unfold xpathOr, descendantsNamed in Hx. apply filter_In in Hx.
    exists x. now split; [| split].
Qed.

(** The answers of the parsed exam are answer elements of the
    document. *)
Lemma parsed_answers (s : State) (a : Answer) :
  In a (e_answers (parseExamStructure s)) ->
  exists x, In x (descendantsOrSelf (root s)) /\ uid x = a_element a
            /\ isEAny answerTypes x = true.
Proof.
  unfold parseExamStructure. cbn [e_answers]. intros Ha.
  apply in_flat_map in Ha. destruct Ha as (q & Hq & Ha).
  apply in_flat_map in Hq. destruct Hq as (sec & Hsec & Hq).
  apply in_map_iff in Hsec. destruct Hsec as (e & <- & He).
  unfold findAll in He. destruct (attached s); [| destruct He].
  apply filter_In in He. destruct He as [He _].
  unfold parseSection in Hq. cbn [s_questions] in Hq.
  apply in_map_iff in Hq. destruct Hq as (c & <- & Hc).
  unfold childrenNamed in Hc. apply filter_In in Hc. destruct Hc as [Hc _].
  destruct (parseQuestion_answers c a Ha) as (x & Hx & E & Hn).
  exists x. split; [| now split].
  apply (@descendantsOrSelf_trans _ e); [exact He |]. right.
  apply (@descendants_child _ c); [exact Hc | now right].
Qed.

Lemma isEAny_isElement (names : list string) (x : node) :
  isEAny names x = true -> isElement x = true.
Proof. unfold isEAny. now destruct (isElement x). Qed.

Lemma node_isElementAt (s : State) (x : node) :
  distinctNodes s -> In x (descendantsOrSelf (root s)) -> isElement x = true ->
  isElementAt s (uid x) = true.
Proof.
  intros Hnd Hx He. unfold isElementAt, elementOf. now rewrite (lookup_unique Hnd Hx).
Qed.

(** ** Numbering by the counter *)

Definition withCurrent (c : nat) (s : State) : State :=
  mkState (root s) (attached s) c (nextUid s) (uuidCalls s).

(** The handles [us] with the numbers from [c] on. *)
Definition numberedFrom (c : nat) (us : list nat) : list (nat * string) :=
  combine us (map Js.String_nat (seq c (length us))).

Lemma modifyNode_withCurrent u g c s :
  modifyNode u g (withCurrent c s) = withCurrent c (modifyNode u g s).
Proof.
  unfold modifyNode. cbn [withCurrent root]. now destruct (uid (root s) =? u)%nat.
Qed.

Lemma applyWrites_withCurrent k ws c :
  forall s, applyWrites k ws (withCurrent c s) = withCurrent c (applyWrites k ws s).
Proof.
  induction ws as [| w ws IH]; intros s; [reflexivity |].
  cbn [applyWrites fold_left]. rewrite modifyNode_withCurrent. apply IH.
Qed.

Lemma withCurrent_twice c c' s : withCurrent c (withCurrent c' s) = withCurrent c s.
Proof. reflexivity. Qed.

Lemma withCurrent_current s : withCurrent (current s) s = s.
Proof. now destruct s. Qed.

Lemma current_modifyNode u g s : current (modifyNode u g s) = current s.
Proof. unfold modifyNode. now destruct (uid (root s) =? u)%nat. Qed.

Lemma current_applyWrites k ws : forall s, current (applyWrites k ws s) = current s.
Proof.
  induction ws as [| w ws IH]; intros s; [reflexivity |].
  cbn [applyWrites fold_left]. change (fold_left _ ws ?x) with (applyWrites k ws x).
  rewrite IH. unfold modifyNode. now destruct (uid (root s) =? fst w)%nat.
Qed.

Lemma nextUid_applyWrites k ws : forall s, nextUid (applyWrites k ws s) = nextUid s.
Proof.
  induction ws as [| w ws IH]; intros s; [reflexivity |].
  cbn [applyWrites fold_left]. change (fold_left _ ws ?x) with (applyWrites k ws x).
  rewrite IH. unfold modifyNode. now destruct (uid (root s) =? fst w)%nat.
Qed.

Lemma uuidCalls_applyWrites k ws : forall s, uuidCalls (applyWrites k ws s) = uuidCalls s.
Proof.
  induction ws as [| w ws IH]; intros s; [reflexivity |].
  cbn [applyWrites fold_left]. change (fold_left _ ws ?x) with (applyWrites k ws x).
  rewrite IH. unfold modifyNode. now destruct (uid (root s) =? fst w)%nat.
Qed.

Lemma numbered_app c us vs :
  numberedFrom c (us ++ vs) = numberedFrom c us ++ numberedFrom (c + length us) vs.
Proof.
  unfold numberedFrom. revert c. induction us as [| u us IH]; intros c.
  - now rewrite Nat.add_0_r.
  - cbn [app length seq map combine]. rewrite IH.
    now replace (S c + length us)%nat with (c + S (length us))%nat by lia.
Qed.

Lemma map_fst_numberedFrom c us : map fst (numberedFrom c us) = us.
Proof.
  unfold numberedFrom. revert c. induction us as [| u us IH]; intros c; [reflexivity |].
  cbn [length seq map combine fst]. now rewrite IH.
Qed.

Lemma nth_numberedFrom c us i a :
  nth_error us i = Some a -> In (a, Js.String_nat (c + i)) (numberedFrom c us).
Proof.
  unfold numberedFrom. revert c i. induction us as [| u us IH]; intros c i H.
  - now destruct i.
  - destruct i as [| i]; cbn [nth_error] in H.
    + injection H as ->. rewrite Nat.add_0_r. now left.
    + right. replace (c + S i)%nat with (S c + i)%nat by lia. now apply IH.
Qed.

(** A loop that takes a number from the counter for each handle. *)
Lemma numbering_loop k (us : list nat) :
  forall s,
    forEach (fun u => id <- generateId ;; setAttribute u k (Js.String_nat id)) us s
    = (Ok tt, withCurrent (current s + length us) (applyWrites k (numberedFrom (current s) us) s)).
Proof.
  induction us as [| u us IH]; intros s.
  - cbn [forEach length numberedFrom combine applyWrites fold_left]. unfold ret.
    now rewrite Nat.add_0_r, withCurrent_current.
  - cbn [forEach]. unfold bind at 1. unfold bind at 1. unfold generateId at 1.
    rewrite setAttribute_run.
    change (mkState (root s) (attached s) (S (current s)) (nextUid s) (uuidCalls s))
      with (withCurrent (S (current s)) s).
    rewrite IH, current_modifyNode. cbn [withCurrent current]. apply f_equal.
    rewrite modifyNode_withCurrent, applyWrites_withCurrent, withCurrent_twice.
    cbn [length numberedFrom seq map combine applyWrites fold_left fst snd].
    now replace (S (current s) + length us)%nat with (current s + S (length us))%nat by lia.
Qed.

Lemma to_little_uint_nonnil (n : nat) :
  forall d, d <> Decimal.Nil -> Nat.to_little_uint n d <> Decimal.Nil.
Proof.
  induction n as [| n IH]; intros d Hd; [exact Hd |].
  cbn [Nat.to_little_uint]. apply IH. now destruct d.
Qed.

Lemma to_uint_nonnil (n : nat) : Nat.to_uint n <> Decimal.Nil.
Proof.
  unfold Nat.to_uint. intros H. apply DecimalFacts.rev_nil_inv in H.
  now apply to_little_uint_nonnil in H.
Qed.

Lemma String_nat_inj (n m : nat) : Js.String_nat n = Js.String_nat m -> n = m.
Proof.
  unfold Js.String_nat. intros H.
  apply (f_equal NilZero.uint_of_string) in H.
  rewrite !NilZero.usu in H by apply to_uint_nonnil.
  injection H as H. now apply DecimalNat.Unsigned.to_uint_inj.
Qed.

Lemma forEach_map (A B : Type) (g : A -> B) (f : B -> M unit) (l : list A) :
  forall s, forEach (fun x => f (g x)) l s = forEach f (map g l) s.
Proof.
  induction l as [| x l IH]; intros s; [reflexivity |].
  cbn [forEach map]. unfold bind. destruct (f (g x) s) as [[[] | e] s1]; [apply IH | reflexivity].
Qed.

(** What numbering leaves: the [i]th handle has the [i]th number from
    [c] on, the numbers differ, and nothing else is touched. *)
Lemma numbered_ids k (us : list nat) (c : nat) (s : State) :
  NoDup us -> (forall u, In u us -> isElementAt s u = true) ->
  let s' := withCurrent (c + length us) (applyWrites k (numberedFrom c us) s) in
  (forall i a, nth_error us i = Some a -> attrAt s' a k = Some (Js.String_nat (c + i)))
  /\ (forall a b, In a us -> In b us -> a <> b -> attrAt s' a k <> attrAt s' b k)
  /\ (forall u, ~ In u us -> attrAt s' u k = attrAt s u k)
  /\ sameExcept k s s'.
Proof.
  intros Hnd Hel s'.
  assert (Hnth : forall i a, nth_error us i = Some a ->
                   attrAt s' a k = Some (Js.String_nat (c + i))).
  { intros i a Hi.
    change (attrAt s' a k) with (attrAt (applyWrites k (numberedFrom c us) s) a k).
    apply applyWrites_written.
    - now rewrite map_fst_numberedFrom.
    - now apply nth_numberedFrom.
    - apply Hel. now apply nth_error_In in Hi. }
  split; [exact Hnth |]. split; [| split].
  - intros a b Ha Hb Hab.
    apply In_nth_error in Ha, Hb. destruct Ha as [i Hi], Hb as [j Hj].
    rewrite (Hnth i a Hi), (Hnth j b Hj). intros [= E]. apply String_nat_inj in E.
    assert (i = j) by lia. subst j. rewrite Hi in Hj. now injection Hj.
  - intros u Hu.
    change (attrAt s' u k) with (attrAt (applyWrites k (numberedFrom c us) s) u k).
    apply applyWrites_other. now rewrite map_fst_numberedFrom.
  - exact (applyWrites_sameExcept k (numberedFrom c us) s).
Qed.

(** ** [addQuestionIds] *)

(** X6: [addQuestionIds] gives the answers of the parsed exam, in their
    order, the next numbers of the counter as [question-id]: the [i]th
    answer gets the counter's value plus [i], so different answers get
    different ids; the counter is advanced by the number of answers;
    the [question-id] of no other node and no other attribute changes,
    nor does the tree. *)
Theorem addQuestionIds_consecutive (s : State) :
  let answers := map a_element (e_answers (parseExamStructure s)) in
  distinctNodes s -> NoDup answers ->
  exists s',
    addQuestionIds s = (Ok tt, s')
    /\ (forall i a, nth_error answers i = Some a ->
          attrAt s' a "question-id" = Some (Js.String_nat (current s + i)))
    /\ (forall a b, In a answers -> In b answers -> a <> b ->
          attrAt s' a "question-id" <> attrAt s' b "question-id")
    /\ current s' = (current s + length answers)%nat
    /\ (forall u, ~ In u answers -> attrAt s' u "question-id" = attrAt s u "question-id")
    /\ sameExcept "question-id" s s'
    /\ nextUid s' = nextUid s /\ uuidCalls s' = uuidCalls s.
Proof.
  intros answers Hnd Hans.
  destruct (@numbered_ids "question-id" answers (current s) s Hans) as (H1 & H2 & H3 & H4).
  { intros u Hu. apply in_map_iff in Hu. destruct Hu as (a & <- & Ha).
    destruct (parsed_answers s a Ha) as (x & Hx & <- & Hn).
    apply node_isElementAt; [exact Hnd | exact Hx |]. now apply isEAny_isElement in Hn. }
  eexists. split.
  - unfold addQuestionIds, bind at 1, gets.
    rewrite (forEach_map a_element
               (fun u => id <- generateId ;; setAttribute u "question-id" (Js.String_nat id))).
    apply numbering_loop.
  - split; [exact H1 |]. split; [exact H2 |]. split; [reflexivity |].
    split; [exact H3 |]. split; [exact H4 |]. split.
    + unfold withCurrent. cbn [nextUid]. apply nextUid_applyWrites.
    + unfold withCurrent. cbn [uuidCalls]. apply uuidCalls_applyWrites.
Qed.

(** A question with two answers, and a question with a child question
    and an answer of its own beside it. *)
Definition answeredExam : node :=
  Element 0 NsE "exam" []
    [ Element 1 NsE "section" []
        [ Element 2 NsE "question" []
            [ Element 3 NsE "text-answer" [] [];
              Element 4 NsE "choice-answer" []
                [ Element 5 NsE "choice-answer-option" [] [];
                  Element 6 NsE "choice-answer-option" [] [] ] ];
          Element 7 NsE "question" []
            [ Element 8 NsE "question" []
                [ Element 9 NsE "dropdown-answer" []
                    [ Element 10 NsE "dropdown-answer-option" [] [] ] ];
              Element 11 NsE "text-answer" [] [] ] ] ].

Lemma addQuestionIds_consecutive_witness :
  exists s',
    addQuestionIds (initialState answeredExam) = (Ok tt, s')
    /\ attrAt s' 3 "question-id" = Some "1"
    /\ attrAt s' 4 "question-id" = Some "2"
    /\ attrAt s' 9 "question-id" = Some "3"
    /\ attrAt s' 11 "question-id" = None
    /\ current s' = 4%nat.
Proof.
  destruct (@addQuestionIds_consecutive (initialState answeredExam))
    as (s' & E & Hid & _ & Hc & Hother & _).
  - apply distinct_NoDup. vm_compute. reflexivity.
  - apply distinct_NoDup. vm_compute. reflexivity.
  - exists s'. split; [exact E |].
    split; [exact (Hid 0%nat 3%nat eq_refl) |].
    split; [exact (Hid 1%nat 4%nat eq_refl) |].
    split; [exact (Hid 2%nat 9%nat eq_refl) |].
    split; [| exact Hc].
    rewrite Hother; [reflexivity |]. vm_compute. intuition discriminate.
Defined.

(** ** [addAnswerOptionIds] *)

(** The options [addAnswerOptionIds] numbers for an answer. *)
Definition optionsOf (s : State) (answer : nat) : list nat :=
  if Js.inList (nameOf answer s) choiceAnswerTypes
  then map uid (findBelow choiceAnswerOptionTypes answer s)
  else [].

Lemma optionsOf_shape (s : State) (answer : nat) :
  optionsOf s answer
  = match lookup answer (shape s) with
    | Some n => if Js.inList (name n) choiceAnswerTypes
                then map uid (descendantsNamed choiceAnswerOptionTypes n)
                else []
    | None => []
    end.
Proof.
  unfold optionsOf, nameOf, findBelow, elementOf, shape, xpathOr. rewrite lookup_skel.
  destruct (lookup answer (root s)) as [n |]; cbn [option_map].
  - now rewrite name_skel, descendantsNamed_skel, map_uid_skel.
  - now destruct (Js.inList "" choiceAnswerTypes).
Qed.

Lemma shape_withCurrent c s : shape (withCurrent c s) = shape s.
Proof. reflexivity. Qed.

Lemma shape_applyWrites k ws s : shape (applyWrites k ws s) = shape s.
Proof. apply (applyWrites_sameExcept k ws s). Qed.

Lemma optionIds_loop (s : State) (answers : list Answer) :
  forall st, shape st = shape s ->
    addAnswerOptionIds (mkExam 0 [] [] [] answers) st
    = (Ok tt,
       withCurrent (current st + length (flat_map (optionsOf s) (map a_element answers)))
         (applyWrites "option-id"
            (numberedFrom (current st) (flat_map (optionsOf s) (map a_element answers))) st)).
Proof.
  unfold addAnswerOptionIds. cbn [e_answers].
  induction answers as [| a answers IH]; intros st Hst.
  - cbn [forEach map flat_map length numberedFrom combine applyWrites fold_left]. unfold ret.
    now rewrite Nat.add_0_r, withCurrent_current.
  - cbn [forEach map flat_map].
    assert (Eo : optionsOf st (a_element a) = optionsOf s (a_element a))
      by (now rewrite !optionsOf_shape, Hst).
    unfold bind at 1.
    assert (Estep :
      (nm <- gets (nameOf (a_element a)) ;;
       if Js.inList nm choiceAnswerTypes then
         answerOptions <- gets (findBelow choiceAnswerOptionTypes (a_element a)) ;;
         forEach (fun answerOption =>
                    id <- generateId ;;
                    setAttribute (uid answerOption) "option-id" (Js.String_nat id))
                 answerOptions
       else ret tt) st
      = (Ok tt, withCurrent (current st + length (optionsOf s (a_element a)))
                  (applyWrites "option-id"
                     (numberedFrom (current st) (optionsOf s (a_element a))) st))).
    { rewrite <- Eo. unfold optionsOf. unfold bind at 1, gets at 1.
      destruct (Js.inList (nameOf (a_element a) st) choiceAnswerTypes).
      - unfold bind at 1, gets at 1.
        rewrite (forEach_map uid
                   (fun u => id <- generateId ;; setAttribute u "option-id" (Js.String_nat id))).
        apply numbering_loop.
      - unfold ret. cbn [length numberedFrom combine applyWrites fold_left].
        now rewrite Nat.add_0_r, withCurrent_current. }
    rewrite Estep, IH.
    + cbn [withCurrent current]. apply f_equal.
      rewrite applyWrites_withCurrent, withCurrent_twice, length_app, numbered_app,
        applyWrites_app.
      now rewrite Nat.add_assoc.
    + now rewrite shape_withCurrent, shape_applyWrites.
Qed.

(** X7: [addAnswerOptionIds] gives the options of the choice and
    dropdown answers of the exam, answer by answer and in document
    order within an answer, the next numbers of the counter as
    [option-id]: the [i]th option gets the counter's value plus [i], so
    different options get different ids; the counter is advanced by
    the number of options; the [option-id] of no other node and no
    other attribute changes, nor does the tree. *)
Theorem addAnswerOptionIds_consecutive (exam : Exam) (s : State) :
  let options := flat_map (optionsOf s) (map a_element (e_answers exam)) in
  distinctNodes s -> NoDup options ->
  exists s',
    addAnswerOptionIds exam s = (Ok tt, s')
    /\ (forall i o, nth_error options i = Some o ->
          attrAt s' o "option-id" = Some (Js.String_nat (current s + i)))
    /\ (forall a b, In a options -> In b options -> a <> b ->
          attrAt s' a "option-id" <> attrAt s' b "option-id")
    /\ current s' = (current s + length options)%nat
    /\ (forall u, ~ In u options -> attrAt s' u "option-id" = attrAt s u "option-id")
    /\ sameExcept "option-id" s s'
    /\ nextUid s' = nextUid s /\ uuidCalls s' = uuidCalls s.
Proof.
  intros options Hnd Hopt.
  destruct (@numbered_ids "option-id" options (current s) s Hopt) as (H1 & H2 & H3 & H4).
  { intros u Hu. apply in_flat_map in Hu. destruct Hu as (a & _ & Hu).
    unfold optionsOf in Hu. destruct (Js.inList _ _); [| destruct Hu].
    apply in_map_iff in Hu. destruct Hu as (x & <- & Hx).
    unfold findBelow in Hx. destruct (elementOf a s) as [n |] eqn:En; [| destruct Hx].
    unfold xpathOr, descendantsNamed in Hx. apply filter_In in Hx. destruct Hx as [Hx Hn].
    apply lookup_In in En. destruct En as [Hin _].
    apply node_isElementAt; [exact Hnd | | now apply isEAny_isElement in Hn].
    apply (@descendantsOrSelf_trans _ n); [exact Hin | now right]. }
  eexists. split.
  - change (addAnswerOptionIds exam) with (addAnswerOptionIds (mkExam 0 [] [] [] (e_answers exam))).
    now apply optionIds_loop.
  - split; [exact H1 |]. split; [exact H2 |]. split; [reflexivity |].
    split; [exact H3 |]. split; [exact H4 |]. split.
    + unfold withCurrent. cbn [nextUid]. apply nextUid_applyWrites.
    + unfold withCurrent. cbn [uuidCalls]. apply uuidCalls_applyWrites.
Qed.

Lemma addAnswerOptionIds_consecutive_witness :
  exists s',
    addAnswerOptionIds (parseExamStructure (initialState answeredExam))
                       (initialState answeredExam) = (Ok tt, s')
    /\ attrAt s' 5 "option-id" = Some "1"
    /\ attrAt s' 6 "option-id" = Some "2"
    /\ attrAt s' 10 "option-id" = Some "3"
    /\ current s' = 4%nat.
Proof.
  destruct (@addAnswerOptionIds_consecutive (parseExamStructure (initialState answeredExam))
              (initialState answeredExam))
    as (s' & E & Hid & _ & Hc & _).
  - apply distinct_NoDup. vm_compute. reflexivity.
  - apply distinct_NoDup. vm_compute. reflexivity.
  - exists s'. split; [exact E |].
    split; [exact (Hid 0%nat 5%nat eq_refl) |].
    split; [exact (Hid 1%nat 6%nat eq_refl) |].
    split; [exact (Hid 2%nat 10%nat eq_refl) |].
    exact Hc.
Defined.

(* ================================================================== *)
(** * The attachments of a version *)
(* ================================================================== *)

Lemma attachment_eqb_eq (a b : Attachment) : attachment_eqb a b = true <-> a = b.
Proof.
  unfold attachment_eqb. destruct a as [f r v w], b as [f' r' v' w']. cbn [filename restricted
    visibleInGradingInstructions withinGradingInstruction].
  rewrite !andb_true_iff, String.eqb_eq, !Bool.eqb_true_iff. split.
  - intros [[[-> ->] ->] ->]. reflexivity.
  - intros [= -> -> -> ->]. auto.
Qed.

Section Uniq.

Variable A : Type.
Variable eqb : A -> A -> bool.
Hypothesis eqb_eq : forall x y, eqb x y = true <-> x = y.

Lemma existsb_eqb (x : A) (l : list A) : existsb (eqb x) l = true <-> In x l.
Proof.
  rewrite existsb_exists. split.
  - intros (y & Hy & E). apply eqb_eq in E. now subst y.
  - intros H. exists x. split; [exact H | now apply eqb_eq].
Qed.

(** [uniqWith] keeps the values that were not seen. *)
Lemma uniqWith_In (xs : list A) :
  forall seen x, In x (uniqWith eqb seen xs) <-> In x xs /\ ~ In x seen.
Proof.
  induction xs as [| y xs IH]; intros seen x; cbn [uniqWith In]; [tauto |].
  destruct (existsb (eqb y) seen) eqn:E.
  - apply existsb_eqb in E. rewrite IH. split; [tauto |].
    intros [[-> | H] Hn]; [contradiction | tauto].
  - assert (Hy : ~ In y seen) by (intros H; apply existsb_eqb in H; congruence).
    cbn [In]. rewrite IH. cbn [In]. split.
    + intros [-> | [H Hn]]; [tauto |]. split; [tauto |]. intros Hs. apply Hn. now right.
    + intros [[-> | H] Hn]; [now left |].
      destruct (existsb (eqb x) [y]) eqn:Exy.
      * apply existsb_eqb in Exy. destruct Exy as [-> | []]. now left.
      * right. split; [exact H |]. intros [-> | Hs]; [| contradiction].
        assert (Hx : existsb (eqb x) [x] = true) by (apply existsb_eqb; now left).
        congruence.
Qed.

(** It keeps each value once. *)
Lemma uniqWith_NoDup (xs : list A) : forall seen, NoDup (uniqWith eqb seen xs).
Proof.
  induction xs as [| y xs IH]; intros seen; cbn [uniqWith]; [constructor |].
  destruct (existsb (eqb y) seen); [apply IH |].
  constructor; [| apply IH].
  rewrite uniqWith_In. intros [_ H]. apply H. now left.
Qed.

Lemma uniqWith_ext (xs : list A) :
  forall seen seen', (forall x, In x seen <-> In x seen') ->
    uniqWith eqb seen xs = uniqWith eqb seen' xs.
Proof.
  induction xs as [| y xs IH]; intros seen seen' H; cbn [uniqWith]; [reflexivity |].
  assert (E : existsb (eqb y) seen = existsb (eqb y) seen').
  { apply eq_true_iff_eq. now rewrite !existsb_eqb. }
  rewrite <- E. destruct (existsb (eqb y) seen).
  - now apply IH.
  - f_equal. apply IH. intros x. cbn [In]. now rewrite H.
Qed.

(** What comes later is kept unless it came before. *)
Lemma uniqWith_app (l1 l2 : list A) :
  forall seen,
    uniqWith eqb seen (l1 ++ l2) = uniqWith eqb seen l1 ++ uniqWith eqb (l1 ++ seen) l2.
Proof.
  induction l1 as [| y l1 IH]; intros seen; cbn [uniqWith app]; [reflexivity |].
  destruct (existsb (eqb y) seen) eqn:E.
  - rewrite IH. f_equal. apply uniqWith_ext. intros x. apply existsb_eqb in E.
    cbn [In]. split; [tauto |].
    intros [-> | H]; [apply in_or_app; now right | exact H].
  - rewrite IH. cbn [app]. do 2 f_equal. apply uniqWith_ext. intros x.
    rewrite !in_app_iff. cbn [In]. rewrite in_app_iff. tauto.
Qed.

End Uniq.

(** ** [collectAttachments] *)

(** The attachment an element stands for. *)
Definition attachmentOf (s : State) (a : nat) : Attachment :=
  mkAttachment (orEmpty (attrAt s a "src"))
               (match attrAt s a "times" with Some _ => true | None => false end)
               (isVisibleInGradingInstructions a s)
               (isWithinGradingInstructions a s).

(** The attachment for the style sheet of an exam. *)
Definition stylesheetOf (s : State) (exam : nat) : list Attachment :=
  match attrAt s exam "exam-stylesheet" with
  | Some sheet => if sheet =? "" then [] else [mkAttachment sheet false false false]
  | None => []
  end.

(** X8: when every attachment element has a [src], [collectAttachments]
    returns, without changing the document, a list in which no
    attachment occurs twice and that holds exactly the attachments of
    the elements (file name, whether it has [times], whether it is
    visible in and within grading instructions) and the one of a
    non-empty [exam-stylesheet]; those of the elements come first, in
    the order of their first occurrences, and the style sheet is last,
    unless an element already gave the same attachment. *)
Theorem collectAttachments_unique (exam : nat) (attachments : list nat) (s : State) :
  (forall a, In a attachments -> attrAt s a "src" <> None) ->
  exists l,
    collectAttachments exam attachments s = (Ok l, s)
    /\ NoDup l
    /\ (forall x, In x l <-> In x (map (attachmentOf s) attachments ++ stylesheetOf s exam))
    /\ l = uniqWith attachment_eqb [] (map (attachmentOf s) attachments)
           ++ filter (fun x => negb (existsb (attachment_eqb x) (map (attachmentOf s) attachments)))
                     (stylesheetOf s exam).
Proof.
  intros Hsrc.
  exists (uniqWith attachment_eqb [] (map (attachmentOf s) attachments ++ stylesheetOf s exam)).
  split; [| split; [| split]].
  - unfold collectAttachments. unfold bind at 1.
    rewrite (@mapM_pure _ _ _ (attachmentOf s)).
    + unfold bind at 1. rewrite getAttributeOpt_run. unfold ret, stylesheetOf, Js.truthy.
      destruct (attrAt s exam "exam-stylesheet") as [sheet |]; [| reflexivity].
      cbn [orEmpty]. now destruct (sheet =? "").
    + intros a Ha. specialize (Hsrc a Ha). unfold attachmentOf.
      destruct (attrAt s a "src") as [src |] eqn:E; [| contradiction].
      unfold bind at 1. rewrite (getAttribute_run _ _ _ E).
      unfold bind at 1. rewrite getAttributeOpt_run.
      unfold bind, gets, ret. reflexivity.
  - apply (@uniqWith_NoDup _ attachment_eqb attachment_eqb_eq).
  - intros x. rewrite (@uniqWith_In _ attachment_eqb attachment_eqb_eq). cbn [In]. tauto.
  - rewrite (@uniqWith_app _ attachment_eqb attachment_eqb_eq). f_equal. rewrite app_nil_r.
    unfold stylesheetOf. destruct (attrAt s exam "exam-stylesheet") as [sheet |]; [| reflexivity].
    destruct (sheet =? ""); [reflexivity |]. cbn [uniqWith filter].
    now destruct (existsb _ _).
Qed.

(** The same file twice, once more with [times], and a style sheet. *)
Definition attachedExam : node :=
  Element 0 NsE "exam" [("exam-stylesheet", "a.css")]
    [ Element 1 NsE "section" []
        [ Element 2 NsE "audio" [("src", "a.ogg")] [];
          Element 3 NsE "audio" [("src", "a.ogg"); ("times", "1")] [];
          Element 4 NsE "audio" [("src", "a.ogg")] [];
          Element 5 NsE "question-title" []
            [ Element 6 NsE "image" [("src", "a.ogg")] [] ] ] ].

Lemma collectAttachments_unique_witness :
  collectAttachments 0 [2; 3; 4; 6] (initialState attachedExam)
  = (Ok [ mkAttachment "a.ogg" false false false;
          mkAttachment "a.ogg" true false false;
          mkAttachment "a.ogg" false true false;
          mkAttachment "a.css" false false false ],
     initialState attachedExam).
Proof.
  destruct (@collectAttachments_unique 0 [2; 3; 4; 6]%nat (initialState attachedExam))
    as (l & E & _ & _ & Hl).
  - intros a Ha. vm_compute in Ha. vm_compute.
    destruct Ha as [<- | [<- | [<- | [<- | []]]]]; discriminate.
  - rewrite E, Hl. vm_compute. reflexivity.
Defined.

(* ================================================================== *)
(** * What [assertExamIsValid] accepts *)
(* ================================================================== *)






Lemma snd_throw (A : Type) (msg : string) (s : State) : snd (@throw A msg s) = s.
Proof. reflexivity. Qed.




















(* ================================================================== *)
(** * What a mastering result carries *)
(* ================================================================== *)

(** ** The exam element through the passes *)








(** ** Runs that return *)






(** ** [addExamMetadata] on the exam element *)






(** ** [masterExamVersion] *)



(** ** [masterExam] *)





(* ================================================================== *)
(** * Restricted audios and formulas *)
(* ================================================================== *)

(** ** [addRestrictedAudioMetadata] *)

(** An attachment that is an audio with [times]. *)
Definition isRestrictedAudio (s : State) (a : nat) : bool :=
  match elementOf a s with
  | Some e => (name e =? "audio") && hasAttr "times" e
  | None => false
  end.

Lemma mapFrom_numberedFrom (us : list nat) :
  forall c, mapFrom (fun u i => (u, Js.String_nat i)) us c = numberedFrom c us.
Proof.
  unfold numberedFrom. induction us as [| u us IH]; intros c; [reflexivity |].
  cbn [mapFrom length seq map combine]. f_equal. apply IH.
Qed.

Lemma hasAttr_isElement (k : string) (e : node) : hasAttr k e = true -> isElement e = true.
Proof. now destruct e. Qed.

(** X12: [addRestrictedAudioMetadata] numbers the audios with a [times]
    attribute among the attachments from 0, in their order: the [i]th
    gets [restricted-audio-id] [i]; no other element gets or loses
    one, and nothing else changes. *)
Theorem addRestrictedAudioMetadata_ids (attachments : list nat) (s : State) :
  let audios := filter (isRestrictedAudio s) attachments in
  NoDup attachments ->
  exists s',
    addRestrictedAudioMetadata attachments s = (Ok tt, s')
    /\ (forall i a, nth_error audios i = Some a ->
          attrAt s' a "restricted-audio-id" = Some (Js.String_nat i))
    /\ (forall u, ~ In u audios ->
          attrAt s' u "restricted-audio-id" = attrAt s u "restricted-audio-id")
    /\ sameExcept "restricted-audio-id" s s'.
Proof.
  intros audios Hnd.
  assert (Hnd' : NoDup audios) by now apply NoDup_filter.
  destruct (@numbered_ids "restricted-audio-id" audios 0 s Hnd') as (H1 & _ & H3 & H4).
  { intros u Hu. apply filter_In in Hu. destruct Hu as [_ Hu].
    unfold isRestrictedAudio in Hu. unfold isElementAt.
    destruct (elementOf u s) as [e |]; [| discriminate Hu].
    apply andb_true_iff in Hu. destruct Hu as [_ Hu]. now apply hasAttr_isElement in Hu. }
  exists (applyWrites "restricted-audio-id" (numberedFrom 0 audios) s). split.
  - unfold addRestrictedAudioMetadata, bind, gets, forEachIndexed.
    fold (isRestrictedAudio s). fold audios.
    change (filter _ attachments) with audios.
    rewrite (forEachFrom_writes "restricted-audio-id" (fun u => u) (fun _ i => Js.String_nat i)).
    now rewrite mapFrom_numberedFrom.
  - split; [exact H1 |]. split; [exact H3 | exact H4].
Qed.

(** An audio with [times], one without, a video with [times] and a
    second audio with [times]. *)
Definition audioExam : node :=
  Element 0 NsE "exam" []
    [ Element 1 NsE "audio" [("src", "a.ogg"); ("times", "1")] [];
      Element 2 NsE "audio" [("src", "b.ogg")] [];
      Element 3 NsE "video" [("src", "c.webm"); ("times", "1")] [];
      Element 4 NsE "audio" [("src", "d.ogg"); ("times", "2")] [] ].

Lemma addRestrictedAudioMetadata_ids_witness :
  exists s',
    addRestrictedAudioMetadata [1; 2; 3; 4] (initialState audioExam) = (Ok tt, s')
    /\ attrAt s' 1 "restricted-audio-id" = Some "0"
    /\ attrAt s' 4 "restricted-audio-id" = Some "1"
    /\ attrAt s' 2 "restricted-audio-id" = None
    /\ attrAt s' 3 "restricted-audio-id" = None.
Proof.
  destruct (@addRestrictedAudioMetadata_ids [1; 2; 3; 4]%nat (initialState audioExam))
    as (s' & E & Hid & Hother & _).
  - apply distinct_NoDup. vm_compute. reflexivity.
  - exists s'. split; [exact E |].
    split; [exact (Hid 0%nat 1%nat eq_refl) |].
    split; [exact (Hid 1%nat 4%nat eq_refl) |].
    split; (rewrite Hother; [reflexivity |]; vm_compute; intuition discriminate).
Defined.

(** ** [renderFormulas] *)

Lemma textContent_skel (n : node) : textContent (skel n) = textContent n.
Proof.
  induction n as [u s nm a ch IH | |] using node_ind'; [| reflexivity | reflexivity].
  cbn [skel textContent]. f_equal. rewrite map_map.
  induction IH as [| c ch Hc _ IHl]; [reflexivity |]. cbn [map]. now rewrite Hc, IHl.
Qed.

Lemma forEach_app (A : Type) (f : A -> M unit) (l1 l2 : list A) (s : State) :
  forEach f (l1 ++ l2) s = (forEach f l1 ;; forEach f l2) s.
Proof.
  revert s. induction l1 as [| x l1 IH]; intros s; [reflexivity |].
  cbn [app forEach]. unfold bind. destruct (f x s) as [[[] | e] s1]; [| reflexivity].
  rewrite IH. reflexivity.
Qed.

(** The element a handle denotes, after writes of another attribute:
    the same text and the same other attributes. *)
Lemma elementOf_sameExcept (key : string) (s st : State) (u : nat) (f : node) :
  sameExcept key s st -> elementOf u s = Some f ->
  exists f', elementOf u st = Some f'
             /\ textContent f' = textContent f
             /\ forall k, k <> key -> attr k f' = attr k f.
Proof.
  intros (Hshape & _ & Hattr) E.
  assert (Hl : option_map skel (elementOf u st) = option_map skel (elementOf u s)).
  { unfold elementOf. rewrite <- !lookup_skel. unfold shape in Hshape. now rewrite Hshape. }
  rewrite E in Hl. destruct (elementOf u st) as [f' |] eqn:E'; [| discriminate Hl].
  exists f'. split; [reflexivity |]. cbn [option_map] in Hl. injection Hl as Hl. split.
  - now rewrite <- (textContent_skel f'), Hl, textContent_skel.
  - intros k Hk. specialize (Hattr u k Hk). unfold attrAt in Hattr. now rewrite E, E' in Hattr.
Qed.

Section Formulas.
Context {ext : Collaborators}.
Variable throwOnLatexError : option bool.

(** How [render-formula] ends on a formula. *)
Definition outcomeOf (formula : node) : FormulaOutcome :=
  renderFormula (textContent formula) (attr "mode" formula) throwOnLatexError.

(** The step of [renderFormulas] for one formula. *)
Definition renderOne (formula : nat) : M unit :=
  el <- gets (elementOf formula) ;;
  match el with
  | None => ret tt
  | Some f =>
      match renderFormula (textContent f) (attr "mode" f) throwOnLatexError with
      | Svg svg => setAttribute formula "svg" svg
      | FormulaErrors errors => throw (String.concat ", " errors)
      | OtherRejection => ret tt
      end
  end.

(** The [svg] a formula of [s] is given, if any. *)
Definition svgOf (s : State) (u : nat) : list (nat * string) :=
  match elementOf u s with
  | Some f => match outcomeOf f with Svg svg => [(u, svg)] | _ => [] end
  | None => []
  end.

Lemma renderOne_run (s st : State) (u : nat) (f : node) :
  sameExcept "svg" s st -> elementOf u s = Some f ->
  renderOne u st
  = match outcomeOf f with
    | FormulaErrors errors => (Err (String.concat ", " errors), st)
    | _ => (Ok tt, applyWrites "svg" (svgOf s u) st)
    end.
Proof.
  intros Hst E. destruct (@elementOf_sameExcept "svg" s st u f Hst E) as (f' & E' & Ht & Ha).
  unfold renderOne, bind, gets, svgOf, outcomeOf. rewrite E', E, Ht, (Ha "mode") by discriminate.
  now destruct (renderFormula _ _ _).
Qed.

Lemma renderAll_run (s : State) (us : list nat) :
  (forall u, In u us -> exists f, elementOf u s = Some f
                                  /\ forall errors, outcomeOf f <> FormulaErrors errors) ->
  forall st, sameExcept "svg" s st ->
    forEach renderOne us st = (Ok tt, applyWrites "svg" (flat_map (svgOf s) us) st)
    /\ sameExcept "svg" s (applyWrites "svg" (flat_map (svgOf s) us) st).
Proof.
  intros H st Hst.
  apply (@forEach_flat_inv _ "svg" (sameExcept "svg" s) renderOne (svgOf s) us st); [| exact Hst].
  intros u st' Hu Hst'. destruct (H u Hu) as (f & E & Hf).
  rewrite (@renderOne_run s st' u f Hst' E). split.
  - destruct (outcomeOf f) as [svg | errors |]; try reflexivity. now destruct (Hf errors).
  - eapply sameExcept_trans; [exact Hst' | apply applyWrites_sameExcept].
Qed.

End Formulas.

Lemma svgOf_fst {ext : Collaborators} t (s : State) (u : nat) (w : nat * string) :
  In w (svgOf t s u) -> fst w = u.
Proof.
  unfold svgOf. destruct (elementOf u s) as [f |]; [| contradiction].
  destruct (outcomeOf t f); try contradiction. now intros [<- | []].
Qed.

Lemma svgWrites_In {ext : Collaborators} t (s : State) (us : list nat) (u : nat) :
  In u (map fst (flat_map (svgOf t s) us)) -> In u us /\ svgOf t s u <> [].
Proof.
  intros H. apply in_map_iff in H. destruct H as (w & <- & Hw).
  apply in_flat_map in Hw. destruct Hw as (v & Hv & Hw).
  rewrite (svgOf_fst _ _ _ _ Hw). split; [exact Hv |]. intros E. now rewrite E in Hw.
Qed.

Lemma svgWrites_NoDup {ext : Collaborators} t (s : State) (us : list nat) :
  NoDup us -> NoDup (map fst (flat_map (svgOf t s) us)).
Proof.
  induction 1 as [| u us Hu Hnd IH]; [constructor |].
  cbn [flat_map]. rewrite map_app. 
  assert (Hone : map fst (svgOf t s u) = [] \/ map fst (svgOf t s u) = [u]).
  { unfold svgOf. destruct (elementOf u s) as [f |]; [| now left].
    destruct (outcomeOf t f); [now right | now left | now left]. }
  destruct Hone as [-> | ->]; [exact IH |].
  constructor; [| exact IH]. intros H. apply svgWrites_In in H. now destruct H.
Qed.

Lemma findAll_elementOf (p : node -> bool) (s : State) (f : node) :
  distinctNodes s -> In f (findAll p s) -> elementOf (uid f) s = Some f /\ p f = true.
Proof.
  intros Hnd Hf. unfold findAll in Hf. destruct (attached s); [| destruct Hf].
  apply filter_In in Hf. destruct Hf as [Hf Hp]. split; [| exact Hp].
  now apply lookup_unique.
Qed.

Lemma findAll_NoDup (p : node -> bool) (s : State) :
  distinctNodes s -> NoDup (map uid (findAll p s)).
Proof.
  intros Hnd. unfold findAll. destruct (attached s); [| constructor].
  now apply NoDup_map_filter.
Qed.

Lemma isE_isElement (nm : string) (x : node) : isE nm x = true -> isElement x = true.
Proof. unfold isE. now destruct (isElement x). Qed.

(** X13: [renderFormulas] renders the formulas of the document in
    document order, each from its text and its [mode].  When no
    rendering is rejected with a list of error strings it returns:
    every formula rendered to an SVG has it as [svg], a formula whose
    rendering is rejected otherwise is left as it was, and nothing
    else changes.  When a rendering is rejected with a list of error
    strings, and none before it was, it fails with these strings
    joined by a comma and a space. *)
Theorem renderFormulas_svg {ext : Collaborators} (throwOnLatexError : option bool)
        (s : State) :
  let formulas := findAll (isE "formula") s in
  distinctNodes s ->
  ((forall f errors, In f formulas -> outcomeOf throwOnLatexError f <> FormulaErrors errors) ->
   exists s',
     renderFormulas throwOnLatexError s = (Ok tt, s')
     /\ (forall f svg, In f formulas -> outcomeOf throwOnLatexError f = Svg svg ->
           attrAt s' (uid f) "svg" = Some svg)
     /\ (forall f, In f formulas -> outcomeOf throwOnLatexError f = OtherRejection ->
           attrAt s' (uid f) "svg" = attrAt s (uid f) "svg")
     /\ (forall u, ~ In u (map uid formulas) -> attrAt s' u "svg" = attrAt s u "svg")
     /\ sameExcept "svg" s s')
  /\ (forall pre f post errors,
        formulas = pre ++ f :: post ->
        (forall g errors', In g pre -> outcomeOf throwOnLatexError g <> FormulaErrors errors') ->
        outcomeOf throwOnLatexError f = FormulaErrors errors ->
        fst (renderFormulas throwOnLatexError s) = Err (String.concat ", " errors)).
Proof.
  intros formulas Hnd.
  assert (Hrun : renderFormulas throwOnLatexError s
                 = forEach (renderOne throwOnLatexError) (map uid formulas) s) by reflexivity.
  assert (Hin : forall l, incl l formulas ->
            forall u, In u (map uid l) ->
              exists f, In f l /\ uid f = u /\ elementOf u s = Some f).
  { intros l Hl u Hu. apply in_map_iff in Hu. destruct Hu as (f & <- & Hf).
    exists f. split; [exact Hf |]. split; [reflexivity |].
    now apply (@findAll_elementOf (isE "formula")); [| apply Hl]. }
  split.
  - intros Hok.
    destruct (@renderAll_run ext throwOnLatexError s (map uid formulas)) with (st := s)
      as [E Hsame].
    + intros u Hu. destruct (Hin formulas (incl_refl _) u Hu) as (f & Hf & _ & Ef).
      exists f. split; [exact Ef |]. intros errors. now apply Hok.
    + apply sameExcept_refl.
    + eexists. split; [rewrite Hrun; exact E |].
      pose proof (findAll_NoDup (isE "formula") Hnd) as Hnd'. fold formulas in Hnd'.
      split; [| split; [| split; [| exact Hsame]]].
      * intros f svg Hf Hsvg.
        destruct (@findAll_elementOf (isE "formula") s f Hnd Hf) as [Ef Hp].
        apply applyWrites_written.
        -- now apply svgWrites_NoDup.
        -- apply in_flat_map. exists (uid f). split; [now apply in_map |].
           unfold svgOf. rewrite Ef, Hsvg. now left.
        -- unfold isElementAt. rewrite Ef. now apply isE_isElement in Hp.
      * intros f Hf Hrej.
        destruct (@findAll_elementOf (isE "formula") s f Hnd Hf) as [Ef _].
        apply applyWrites_other. intros H. apply svgWrites_In in H. destruct H as [_ H].
        apply H. unfold svgOf. now rewrite Ef, Hrej.
      * intros u Hu. apply applyWrites_other. intros H. apply svgWrites_In in H. now destruct H.
  - intros pre f post errors Hsplit Hpre Hf.
    rewrite Hrun, Hsplit, map_app, forEach_app. unfold bind.
    destruct (@renderAll_run ext throwOnLatexError s (map uid pre)) with (st := s)
      as [E Hsame].
    + intros u Hu.
      destruct (Hin pre) with (u := u) as (g & Hg & _ & Eg); [| exact Hu |].
      * intros x Hx. rewrite Hsplit. apply in_or_app. now left.
      * exists g. split; [exact Eg |]. intros errors'. now apply Hpre.
    + apply sameExcept_refl.
    + rewrite E. cbn [map forEach]. unfold bind.
      assert (Ef : elementOf (uid f) s = Some f).
      { apply (@findAll_elementOf (isE "formula")); [exact Hnd |].
        fold formulas. rewrite Hsplit. apply in_or_app. right. now left. }
      rewrite (@renderOne_run ext throwOnLatexError s _ (uid f) f Hsame Ef), Hf. reflexivity.
Qed.

(** A renderer that accepts [x], rejects [\\bad] with two error strings
    and rejects anything else otherwise. *)
Definition formulaCollaborators : Collaborators :=
  {| GradingStructure := unit;
     schemaError := fun _ => None;
     generateUuid := fun _ => "00000000-0000-0000-0000-000000000000";
     createTranslationFile := fun _ => "";
     createGradingStructure := fun _ _ _ => tt;
     translate := fun _ _ _ => Some "Title";
     renderFormula := fun text _ _ =>
       if text =? "x" then Svg "<svg/>"
       else if text =? "\bad" then FormulaErrors ["e1"; "e2"]
       else OtherRejection;
     getMediaMetadata := fun _ _ => Ok (mkMediaMetadata "999" "999" "999") |}.

Definition formulaExam (last : string) : node :=
  Element 0 NsE "exam" []
    [ Element 1 NsE "formula" [] [Text 2 "x"];
      Element 3 NsE "formula" [("svg", "old")] [Text 4 "y"];
      Element 5 NsE "formula" [] [Text 6 last] ].

Lemma renderFormulas_svg_witness :
  (exists s',
      @renderFormulas formulaCollaborators None (initialState (formulaExam "x")) = (Ok tt, s')
      /\ attrAt s' 1 "svg" = Some "<svg/>"
      /\ attrAt s' 3 "svg" = Some "old"
      /\ attrAt s' 5 "svg" = Some "<svg/>")
  /\ fst (@renderFormulas formulaCollaborators None (initialState (formulaExam "\bad")))
     = Err "e1, e2".
Proof.
  split.
  - destruct (@renderFormulas_svg formulaCollaborators None (initialState (formulaExam "x")))
      as [H _]; [apply distinct_NoDup; vm_compute; reflexivity |].
    destruct H as (s' & E & Hsvg & Hrej & _).
    + intros f errors Hf. vm_compute in Hf.
      destruct Hf as [<- | [<- | [<- | []]]]; discriminate.
    + exists s'. split; [exact E |]. split; [| split].
      * apply (Hsvg (Element 1 NsE "formula" [] [Text 2 "x"])); [vm_compute; tauto | reflexivity].
      * transitivity (attrAt (initialState (formulaExam "x")) 3 "svg"); [| reflexivity].
        apply (Hrej (Element 3 NsE "formula" [("svg", "old")] [Text 4 "y"]));
          [vm_compute; tauto | reflexivity].
      * apply (Hsvg (Element 5 NsE "formula" [] [Text 6 "x"])); [vm_compute; tauto | reflexivity].
  - destruct (@renderFormulas_svg formulaCollaborators None
                (initialState (formulaExam "\bad")))
      as [_ H]; [apply distinct_NoDup; vm_compute; reflexivity |].
    apply (H [ Element 1 NsE "formula" [] [Text 2 "x"];
               Element 3 NsE "formula" [("svg", "old")] [Text 4 "y"] ]
             (Element 5 NsE "formula" [] [Text 6 "\bad"]) [] ["e1"; "e2"]).
    + reflexivity.
    + intros g errors' Hg. destruct Hg as [<- | [<- | []]]; discriminate.
    + reflexivity.
Defined.

(* ================================================================== *)
(** * The outline of a document through the passes *)
(* ================================================================== *)

(** An entry of an outline: the identities of the ancestors of a node,
    nearest first, and the node without what is below it. *)
Definition ouid (o : list nat * node) : nat := uid (snd o).

(** The identities on the way from a node to the root, the node's own
    first. *)
Definition chain (o : list nat * node) : list nat := ouid o :: fst o.

Lemma map_snd_descendantsCtx (t : node) :
  forall anc, map snd (descendantsCtx anc t) = descendants t.
Proof.
  induction t as [u s nm a ch IH | |] using node_ind'; intros anc; [| reflexivity | reflexivity].
  cbn [descendantsCtx descendants].
  remember (Element u s nm a ch) as t eqn:Et. clear Et.
  induction IH as [| c ch' Hc _ IHl]; [reflexivity |].
  cbn [flat_map]. rewrite map_app. cbn [map snd]. now rewrite Hc, IHl.
Qed.

Lemma map_snd_entries (t : node) : map snd (descendantsOrSelfCtx t) = descendantsOrSelf t.
Proof.
  unfold descendantsOrSelfCtx, descendantsOrSelf. cbn [map snd].
  now rewrite map_snd_descendantsCtx.
Qed.

Lemma map_snd_outline (t : node) : map snd (outline t) = map label (descendantsOrSelf t).
Proof.
  unfold outline. rewrite map_map. rewrite <- map_snd_entries, map_map. reflexivity.
Qed.

Lemma map_ouid_outline (t : node) : map ouid (outline t) = uids t.
Proof.
  unfold outline, uids. rewrite map_map, <- map_snd_entries, map_map.
  apply map_ext. intros x. unfold ouid, outlineOf. cbn [snd]. apply uid_label.
Qed.

(** The node a handle stands for, read off the outline. *)
Lemma outline_find (u : nat) (t : node) :
  option_map label (lookup u t)
  = option_map snd (find (fun o => (ouid o =? u)%nat) (outline t)).
Proof.
  unfold lookup, outline. rewrite <- map_snd_entries, !find_map_.
  destruct (find _ (descendantsOrSelfCtx t)) as [x |] eqn:E.
  - erewrite find_ext_; [rewrite E |]; [reflexivity |].
    intros y. unfold ouid, outlineOf. cbn [snd]. now rewrite uid_label.
  - erewrite find_ext_; [rewrite E |]; [reflexivity |].
    intros y. unfold ouid, outlineOf. cbn [snd]. now rewrite uid_label.
Qed.

Lemma filter_map_comm (A B : Type) (f : A -> B) (p : B -> bool) (l : list A) :
  filter p (map f l) = map f (filter (fun x => p (f x)) l).
Proof.
  induction l as [| x l IH]; [reflexivity |]. cbn [map filter].
  destruct (p (f x)); cbn [map]; now rewrite IH.
Qed.

(** ** Unlinking a node *)

Lemma substIn_pruned (u : nat) (t : node) :
  substIn u (fun _ => []) t = pruned (fun _ c => (uid c =? u)%nat) t.
Proof.
  induction t as [v s nm a ch IH | |] using node_ind'; [| reflexivity | reflexivity].
  cbn [substIn pruned]. f_equal.
  induction IH as [| c ch' Hc _ IHl]; [reflexivity |].
  cbn [flat_map]. rewrite IHl, Hc. reflexivity.
Qed.

(** The entries that stay when the nodes [us] are unlinked. *)
Definition keepAll (us : list nat) (o : list nat * node) : bool :=
  negb (existsb (fun v => existsb (Nat.eqb v) us) (chain o)).

Lemma existsb_map_ (A B : Type) (f : A -> B) (p : B -> bool) (l : list A) :
  existsb p (map f l) = existsb (fun x => p (f x)) l.
Proof. induction l as [| x l IH]; [reflexivity |]. cbn [map existsb]. now rewrite IH. Qed.

Lemma existsb_ext_ (A : Type) (p q : A -> bool) (l : list A) :
  (forall x, p x = q x) -> existsb p l = existsb q l.
Proof. intros H. induction l as [| x l IH]; [reflexivity |]. cbn [existsb]. now rewrite H, IH. Qed.

Lemma outline_unlink (u : nat) (t : node) :
  uid t <> u ->
  outline (substIn u (fun _ => []) t) = filter (keepAll [u]) (outline t).
Proof.
  intros Hu. rewrite substIn_pruned. unfold outline, descendantsOrSelfCtx.
  cbn [map filter]. unfold keepAll at 1, chain, ouid, outlineOf. cbn [fst snd map existsb].
  rewrite uid_label, orb_false_r. apply Nat.eqb_neq in Hu. rewrite Hu. cbn [orb negb].
  f_equal; [now rewrite label_pruned |].
  assert (Hroot : existsb (fun n => (uid n =? u)%nat) [t] = false)
    by (cbn [existsb]; now rewrite Hu).
  pose proof (@pruned_outline (fun n => (uid n =? u)%nat) t [] [] eq_refl Hroot) as HP.
  cbv beta in HP.
  change (fun x : list node * node => (map uid (fst x), label (snd x))) with outlineOf.
  rewrite HP.
  rewrite filter_map_comm. f_equal. apply filter_ext. intros x.
  unfold stays, keepAll, chain, ouid, outlineOf. cbn [fst snd existsb].
  rewrite uid_label, existsb_map_. f_equal. f_equal; [now rewrite orb_false_r |].
  apply existsb_ext_. intros y. now rewrite orb_false_r.
Qed.

Lemma keepAll_app (us vs : list nat) (o : list nat * node) :
  keepAll (us ++ vs) o = keepAll us o && keepAll vs o.
Proof.
  unfold keepAll. rewrite <- negb_orb. f_equal.
  induction (chain o) as [| v l IH]; [reflexivity |].
  cbn [existsb]. rewrite IH, existsb_app.
  destruct (existsb (Nat.eqb v) us), (existsb (Nat.eqb v) vs),
    (existsb (fun v0 => existsb (Nat.eqb v0) us) l),
    (existsb (fun v0 => existsb (Nat.eqb v0) vs) l); reflexivity.
Qed.

Lemma filter_keepAll (us vs : list nat) (O : list (list nat * node)) :
  filter (keepAll vs) (filter (keepAll us) O) = filter (keepAll (us ++ vs)) O.
Proof.
  induction O as [| o O IH]; [reflexivity |]. cbn [filter]. rewrite keepAll_app.
  destruct (keepAll us o); cbn [filter andb]; [| exact IH].
  destruct (keepAll vs o); now rewrite IH.
Qed.

Lemma uid_unlinkAll (us : list nat) : forall t, uid (unlinkAll us t) = uid t.
Proof.
  induction us as [| u us IH]; intros t; [reflexivity |].
  cbn [unlinkAll fold_left]. change (fold_left _ us ?x) with (unlinkAll us x).
  now rewrite IH, uid_substIn.
Qed.

(** Unlinking nodes below the root leaves the entries that have none
    of them on their way to the root. *)
Lemma outline_unlinkAll (us : list nat) :
  forall t, ~ In (uid t) us -> outline (unlinkAll us t) = filter (keepAll us) (outline t).
Proof.
  induction us as [| u us IH]; intros t Ht.
  - cbn [unlinkAll fold_left]. symmetry. apply filter_all. intros o _. unfold keepAll.
    induction (chain o) as [| v l IHl]; [reflexivity |]. cbn [existsb orb] in *. exact IHl.
  - cbn [unlinkAll fold_left]. change (fold_left _ us ?x) with (unlinkAll us x).
    rewrite IH by (rewrite uid_substIn; intros H; apply Ht; now right).
    rewrite outline_unlink by (intros E; apply Ht; now left).
    apply (filter_keepAll [u] us).
Qed.

(** ** Changing a node in place *)

Lemma outline_chain (t : node) :
  forall anc anc', map uid anc' = map uid anc ->
    map outlineOf (descendantsCtx anc' t) = map outlineOf (descendantsCtx anc t).
Proof.
  induction t as [u s nm a ch IH | |] using node_ind'; intros anc anc' Ha;
    [| reflexivity | reflexivity].
  cbn [descendantsCtx].
  remember (Element u s nm a ch) as t eqn:Et. clear Et.
  induction IH as [| c ch' Hc _ IHl]; [reflexivity |].
  cbn [flat_map]. rewrite !map_app, IHl. f_equal. cbn [map]. f_equal.
  - unfold outlineOf. cbn [fst snd map]. now rewrite Ha.
  - apply Hc. cbn [map]. now rewrite Ha.
Qed.

Section Relabel.

(** A change of a node that keeps its identity and its children. *)
Variable g : node -> node.
Hypothesis g_uid : forall n, uid (g n) = uid n.
Hypothesis g_children : forall n, children (g n) = children n.
Hypothesis g_label : forall n, label (g n) = g (label n).

Definition relabelAt (u : nat) (o : list nat * node) : list nat * node :=
  (fst o, if (ouid o =? u)%nat then g (snd o) else snd o).

Lemma relabelAt_absent (u : nat) (O : list (list nat * node)) :
  ~ In u (map ouid O) -> map (relabelAt u) O = O.
Proof.
  induction O as [| o O IH]; intros H; [reflexivity |]. cbn [map In] in *.
  rewrite IH by tauto. f_equal. unfold relabelAt.
  destruct (ouid o =? u)%nat eqn:E; [| now destruct o].
  apply Nat.eqb_eq in E. tauto.
Qed.

Lemma map_ouid_descendantsCtx (t : node) (anc : list node) :
  map ouid (map outlineOf (descendantsCtx anc t)) = map uid (descendants t).
Proof.
  rewrite <- (map_snd_descendantsCtx t anc), !map_map. apply map_ext.
  intros x. unfold ouid, outlineOf. cbn [snd]. apply uid_label.
Qed.

Lemma entries_modifyTree (u : nat) (t : node) :
  forall anc anc', NoDup (uids t) -> map uid anc' = map uid anc ->
    map outlineOf ((anc', modifyTree u g t) :: descendantsCtx anc' (modifyTree u g t))
    = map (relabelAt u) (map outlineOf ((anc, t) :: descendantsCtx anc t)).
Proof.
  induction t as [v s nm a ch IH | v tx | v tx] using node_ind'; intros anc anc' Hnd Ha.
  - destruct (Nat.eq_dec v u) as [E | E].
    + rewrite modifyTree_hit by exact E. cbn [map]. f_equal.
      * unfold relabelAt, ouid, outlineOf. cbn [fst snd]. rewrite uid_label. cbn [uid].
        apply Nat.eqb_eq in E. now rewrite E, Ha, g_label.
      * rewrite relabelAt_absent.
        -- rewrite (descendantsCtx_children anc' (g (Element v s nm a ch))), g_children.
           rewrite (descendantsCtx_children anc (Element v s nm a ch)).
           assert (Hu : uid (g (Element v s nm a ch)) = uid (Element v s nm a ch))
             by apply g_uid.
           remember (g (Element v s nm a ch)) as t' eqn:Et'. clear Et'.
           remember (Element v s nm a ch) as t eqn:Et. cbn [children]. rewrite Et. cbn [children].
           rewrite <- Et. clear Et IH Hnd.
           induction ch as [| c ch IHc]; [reflexivity |].
           cbn [flat_map]. rewrite !map_app, IHc. f_equal. cbn [map]. f_equal.
           ++ unfold outlineOf. cbn [fst snd map]. now rewrite Hu, Ha.
           ++ apply outline_chain. cbn [map]. now rewrite Hu, Ha.
        -- rewrite map_ouid_descendantsCtx. subst u. intros H.
           unfold uids, descendantsOrSelf in Hnd. cbn [map uid] in Hnd.
           inversion Hnd as [| ? ? Hnotin _]. now apply Hnotin.
    + rewrite modifyTree_miss by exact E. cbn [map]. f_equal.
      * unfold relabelAt, ouid, outlineOf. cbn [fst snd label withChildren uid].
        apply Nat.eqb_neq in E. now rewrite E, Ha.
      * cbn [descendantsCtx]. rewrite flat_map_map.
        assert (Hch : forall c, In c ch -> NoDup (uids c)).
        { intros c Hc. apply (distinct_child (n := Element v s nm a ch)); [exact Hnd | exact Hc]. }
        clear Hnd.
        assert (Hu : uid (Element v s nm a (map (modifyTree u g) ch)) = uid (Element v s nm a ch))
          by reflexivity.
        remember (Element v s nm a (map (modifyTree u g) ch)) as t' eqn:Et'. clear Et'.
        remember (Element v s nm a ch) as t eqn:Et. clear Et.
        induction IH as [| c ch' Hc _ IHl]; [reflexivity |].
        cbn [flat_map]. rewrite !map_app, IHl by (intros x Hx; apply Hch; now right).
        f_equal. apply Hc; [apply Hch; now left |]. cbn [map]. now rewrite Hu, Ha.
  - cbn [map descendantsCtx]. unfold modifyTree. cbn [uid substIn].
    destruct (v =? u)%nat eqn:E.
    + rewrite (descendantsCtx_children anc' (g (Text v tx))), g_children. cbn [children flat_map map].
      f_equal. unfold relabelAt, ouid, outlineOf. cbn [fst snd]. rewrite uid_label. cbn [uid].
      now rewrite E, Ha, g_label.
    + cbn [descendantsCtx map]. f_equal. unfold relabelAt, ouid, outlineOf. cbn [fst snd label withChildren uid].
      now rewrite E, Ha.
  - cbn [map descendantsCtx]. unfold modifyTree. cbn [uid substIn].
    destruct (v =? u)%nat eqn:E.
    + rewrite (descendantsCtx_children anc' (g (Comment v tx))), g_children. cbn [children flat_map map].
      f_equal. unfold relabelAt, ouid, outlineOf. cbn [fst snd]. rewrite uid_label. cbn [uid].
      now rewrite E, Ha, g_label.
    + cbn [descendantsCtx map]. f_equal. unfold relabelAt, ouid, outlineOf. cbn [fst snd label withChildren uid].
      now rewrite E, Ha.
Qed.

(** Changing the node [u] changes its entry. *)
Lemma outline_modifyTree (u : nat) (t : node) :
  NoDup (uids t) -> outline (modifyTree u g t) = map (relabelAt u) (outline t).
Proof. intros Hnd. now apply (@entries_modifyTree u t [] []). Qed.

End Relabel.

(** ** What lies below a node *)

Definition below (o : option node) : list node :=
  match o with
  | Some n => descendants n
  | None => []
  end.

Lemma lookup_children (a : nat) v s nm at_ ch :
  v <> a ->
  lookup a (Element v s nm at_ ch)
  = fold_right (fun c r => match lookup a c with Some n => Some n | None => r end) None ch.
Proof.
  intros Hv. unfold lookup at 1, descendantsOrSelf. cbn [find uid descendants].
  apply Nat.eqb_neq in Hv. rewrite Hv.
  induction ch as [| c ch IH]; [reflexivity |].
  cbn [flat_map fold_right]. rewrite find_app_. fold (descendantsOrSelf c).
  fold (lookup a c). now rewrite IH.
Qed.

Lemma below_children (a : nat) (ch : list node) :
  NoDup (flat_map uids ch) ->
  flat_map (fun c => below (lookup a c)) ch
  = below (fold_right (fun c r => match lookup a c with Some n => Some n | None => r end)
                      None ch).
Proof.
  induction ch as [| c ch IH]; intros Hnd; [reflexivity |].
  cbn [flat_map fold_right] in *.
  destruct (lookup a c) as [n |] eqn:E.
  - assert (Hrest : flat_map (fun c0 => below (lookup a c0)) ch = []).
    { apply lookup_In in E. destruct E as [Hin E]. apply in_uids in Hin. rewrite E in Hin.
      assert (Hno : forall c', In c' ch -> ~ In a (uids c')).
      { intros c' Hc' H. apply (@NoDup_app_inv _ _ _ a Hnd Hin).
        apply in_flat_map. now exists c'. }
      clear IH Hnd. induction ch as [| c' ch IH']; [reflexivity |].
      cbn [flat_map]. rewrite lookup_None by (apply Hno; now left).
      apply IH'. intros x Hx. apply Hno. now right. }
    rewrite Hrest. apply app_nil_r.
  - apply IH. apply NoDup_app_remove_l in Hnd. exact Hnd.
Qed.

Lemma lookup_leaf_below (a : nat) (t : node) : children t = [] -> below (lookup a t) = [].
Proof.
  intros H. unfold lookup, descendantsOrSelf. rewrite descendants_children, H. cbn [flat_map find].
  destruct (uid t =? a)%nat; [| reflexivity]. cbn [below]. now rewrite descendants_children, H.
Qed.

(** The descendants of the node [a] are the nodes that have [a] on
    their way to the root. *)
Lemma below_ctx (a : nat) (t : node) :
  forall anc, NoDup (uids t) -> existsb (fun y => (uid y =? a)%nat) anc = false ->
    map snd (filter (fun x => existsb (fun y => (uid y =? a)%nat) (fst x)) (descendantsCtx anc t))
    = below (lookup a t).
Proof.
  induction t as [v s nm at_ ch IH | |] using node_ind'; intros anc Hnd Hanc.
  - destruct (Nat.eq_dec v a) as [E | E].
    + assert (El : lookup a (Element v s nm at_ ch) = Some (Element v s nm at_ ch))
        by (subst a; apply (lookup_root (Element v s nm at_ ch))).
      rewrite El. cbn [below].
      rewrite filter_all; [apply map_snd_descendantsCtx |].
      intros x Hx. apply descendantsCtx_ancestors in Hx. apply existsb_exists.
      exists (Element v s nm at_ ch). split; [exact Hx | now apply Nat.eqb_eq].
    + rewrite lookup_children by exact E.
      assert (Hch : NoDup (flat_map uids ch)).
      { rewrite uids_children in Hnd. now inversion Hnd. }
      rewrite <- below_children by exact Hch.
      assert (Hc : forall c, In c ch -> NoDup (uids c)).
      { intros c Hin. apply (distinct_child (n := Element v s nm at_ ch)); [exact Hnd | exact Hin]. }
      cbn [descendantsCtx].
      assert (Hanc' : existsb (fun y => (uid y =? a)%nat) (Element v s nm at_ ch :: anc) = false).
      { cbn [existsb uid]. apply Nat.eqb_neq in E. now rewrite E, Hanc. }
      remember (Element v s nm at_ ch) as t eqn:Et. clear Et Hnd Hch.
      induction IH as [| c ch' Hc' _ IHl]; [reflexivity |].
      cbn [flat_map]. rewrite filter_app, map_app. cbn [filter fst]. rewrite Hanc'.
      rewrite Hc' by (try apply Hc; try (now left); exact Hanc').
      f_equal. apply IHl. intros x Hx. apply Hc. now right.
  - symmetry. now apply lookup_leaf_below.
  - symmetry. now apply lookup_leaf_below.
Qed.

Lemma outline_below (a : nat) (t : node) :
  NoDup (uids t) ->
  map snd (filter (fun o => existsb (Nat.eqb a) (fst o)) (outline t))
  = map label (below (lookup a t)).
Proof.
  intros Hnd. unfold outline, descendantsOrSelfCtx. cbn [map filter outlineOf fst existsb].
  rewrite <- (@below_ctx a t [] Hnd eq_refl), filter_map_comm, !map_map.
  cbn [snd]. f_equal. apply filter_ext. intros x. unfold outlineOf. cbn [fst].
  rewrite existsb_map_.
  apply existsb_ext_. intros y. apply Nat.eqb_sym.
Qed.

(** ** The ancestors of a node are nodes of the tree *)

Lemma ctx_ancestors (t : node) :
  forall anc x y,
    In x (descendantsCtx anc t) -> In y (fst x) ->
    In y anc
    \/ exists e, In e ((anc, t) :: descendantsCtx anc t)
                 /\ snd e = y /\ incl (y :: fst e) (fst x).
Proof.
  induction t as [v s nm at_ ch IH | |] using node_ind'; intros anc x y Hx Hy;
    [| destruct Hx | destruct Hx].
  set (t := Element v s nm at_ ch) in *.
  rewrite (descendantsCtx_children anc t) in Hx.
  apply in_flat_map in Hx. destruct Hx as (c & Hc & Hx).
  assert (Hsub : forall e, In e ((t :: anc, c) :: descendantsCtx (t :: anc) c) ->
                           In e ((anc, t) :: descendantsCtx anc t)).
  { intros e He. right. rewrite (descendantsCtx_children anc t).
    apply in_flat_map. now exists c. }
  assert (Htop : forall x' : list node * node, incl (t :: anc) (fst x') -> In y (t :: anc) ->
                   In y anc
                   \/ exists e, In e ((anc, t) :: descendantsCtx anc t)
                                /\ snd e = y /\ incl (y :: fst e) (fst x')).
  { intros x' Hincl [<- | Hin]; [| now left].
    right. exists (anc, t). split; [now left |]. split; [reflexivity | exact Hincl]. }
  destruct Hx as [<- | Hx].
  - apply (Htop (t :: anc, c)); [apply incl_refl | exact Hy].
  - rewrite Forall_forall in IH.
    destruct (IH c Hc (t :: anc) x y Hx Hy) as [Hin | (e & He & E & Hincl)].
    + apply (Htop x); [| exact Hin]. now apply (descendantsCtx_incl c).
    + right. exists e. split; [now apply Hsub | now split].
Qed.

Lemma outline_ancestors (t : node) (o : list nat * node) (u : nat) :
  In o (outline t) -> In u (fst o) ->
  exists o', In o' (outline t) /\ ouid o' = u /\ incl (chain o') (fst o).
Proof.
  unfold outline. intros Ho Hu. apply in_map_iff in Ho. destruct Ho as (x & <- & Hx).
  cbn [outlineOf fst] in Hu. apply in_map_iff in Hu. destruct Hu as (y & <- & Hy).
  unfold descendantsOrSelfCtx in Hx. destruct Hx as [<- | Hx]; [destruct Hy |].
  destruct (ctx_ancestors t [] x y Hx Hy) as [[] | (e & He & E & Hincl)].
  exists (outlineOf e). split; [now apply in_map |]. split.
  - unfold ouid, outlineOf. cbn [snd]. now rewrite uid_label, E.
  - unfold chain, ouid, outlineOf. cbn [fst snd]. rewrite uid_label, E.
    change (uid y :: map uid (fst e)) with (map uid (y :: fst e)).
    now apply incl_map.
Qed.

(** ** Queries read off the outline *)

Lemma nameOf_outline (a : nat) (s : State) :
  nameOf a s
  = match find (fun o => (ouid o =? a)%nat) (outline (root s)) with
    | Some o => name (snd o)
    | None => ""
    end.
Proof.
  unfold nameOf, elementOf. pose proof (outline_find a (root s)) as H.
  destruct (lookup a (root s)) as [n |];
    destruct (find _ (outline (root s))) as [o |]; try discriminate H; [| reflexivity].
  cbn [option_map] in H. injection H as <-. now rewrite name_label.
Qed.

Lemma filter_label_comm (p : node -> bool) (l : list node) :
  (forall n, p (label n) = p n) -> map label (filter p l) = filter p (map label l).
Proof.
  intros Hp. induction l as [| x l IH]; [reflexivity |]. cbn [filter map].
  rewrite Hp. destruct (p x); cbn [map]; now rewrite IH.
Qed.

Lemma filter_map_snd (A B : Type) (p : B -> bool) (l : list (A * B)) :
  filter p (map snd l) = map snd (filter (fun x => p (snd x)) l).
Proof. apply filter_map_comm. Qed.

Lemma filter_andb (A : Type) (p q : A -> bool) (l : list A) :
  filter q (filter p l) = filter (fun x => p x && q x) l.
Proof.
  induction l as [| x l IH]; [reflexivity |]. cbn [filter].
  destruct (p x); cbn [filter andb]; [| exact IH]. destruct (q x); now rewrite IH.
Qed.

Lemma findBelow_outline (names : list string) (a : nat) (s : State) :
  distinctNodes s ->
  map label (findBelow names a s)
  = map snd (filter (fun o => existsb (Nat.eqb a) (fst o) && isEAny names (snd o))
                    (outline (root s))).
Proof.
  intros Hnd. unfold findBelow, xpathOr, descendantsNamed, elementOf.
  rewrite <- filter_andb, <- filter_map_snd, (outline_below a Hnd).
  rewrite <- filter_label_comm by apply isEAny_label.
  now destruct (lookup a (root s)).
Qed.

Lemma findAll_outline (p : node -> bool) (s : State) :
  (forall n, p (label n) = p n) -> attached s = true ->
  map label (findAll p s) = map snd (filter (fun o => p (snd o)) (outline (root s))).
Proof.
  intros Hp Hatt. unfold findAll. rewrite Hatt, <- filter_map_snd, map_snd_outline.
  now apply filter_label_comm.
Qed.

Lemma map_uid_label_ (l : list node) : map uid (map label l) = map uid l.
Proof. rewrite map_map. apply map_ext. intros x. apply uid_label. Qed.

(** ** Runs on the outline *)

Lemma distinct_outline (s : State) : distinctNodes s <-> NoDup (map ouid (outline (root s))).
Proof. unfold distinctNodes. now rewrite map_ouid_outline. Qed.

Lemma removeAll_outline (nodes : list node) (s : State) :
  ~ In (uid (root s)) (map uid nodes) ->
  exists s',
    removeAll nodes s = (Ok tt, s')
    /\ outline (root s') = filter (keepAll (map uid nodes)) (outline (root s))
    /\ attached s' = attached s /\ current s' = current s
    /\ nextUid s' = nextUid s /\ uuidCalls s' = uuidCalls s.
Proof.
  intros H. exists (withRoot (unlinkAll (map uid nodes) (root s)) s). split.
  - unfold removeAll. apply unlink_run. intros u Hu E. apply H. now rewrite <- E.
  - cbn [withRoot root attached current nextUid uuidCalls].
    split; [now apply outline_unlinkAll |]. repeat split.
Qed.

Section Relabelling.

Variable g : node -> node.
Hypothesis g_uid : forall n, uid (g n) = uid n.
Hypothesis g_children : forall n, children (g n) = children n.
Hypothesis g_label : forall n, label (g n) = g (label n).
Hypothesis g_twice : forall n, g (g n) = g n.

(** The entries with the nodes [us] changed. *)
Definition relabelAll (us : list nat) (o : list nat * node) : list nat * node :=
  (fst o, if existsb (Nat.eqb (ouid o)) us then g (snd o) else snd o).

Lemma relabelAll_nil (O : list (list nat * node)) : map (relabelAll []) O = O.
Proof. rewrite <- (map_id O) at 2. apply map_ext. now intros [c l]. Qed.

Lemma relabelAll_cons (u : nat) (us : list nat) (O : list (list nat * node)) :
  map (relabelAll us) (map (relabelAt g u) O) = map (relabelAll (u :: us)) O.
Proof.
  rewrite map_map. apply map_ext. intros [c l].
  unfold relabelAll, relabelAt, ouid. cbn [fst snd existsb].
  rewrite (Nat.eqb_sym (uid l) u).
  destruct (u =? uid l)%nat eqn:E; cbn [orb].
  - rewrite g_uid. destruct (existsb _ us); [now rewrite g_twice | reflexivity].
  - reflexivity.
Qed.

Lemma ouid_relabelAll (us : list nat) (O : list (list nat * node)) :
  map ouid (map (relabelAll us) O) = map ouid O.
Proof.
  rewrite map_map. apply map_ext. intros [c l]. unfold relabelAll, ouid. cbn [fst snd].
  destruct (existsb _ us); [apply g_uid | reflexivity].
Qed.

Lemma modifyAll_outline (us : list nat) :
  forall s, distinctNodes s ->
    exists s',
      forEach (fun u => modify (modifyNode u g)) us s = (Ok tt, s')
      /\ outline (root s') = map (relabelAll us) (outline (root s))
      /\ attached s' = attached s /\ current s' = current s
      /\ nextUid s' = nextUid s /\ uuidCalls s' = uuidCalls s.
Proof.
  induction us as [| u us IH]; intros s Hnd.
  - exists s. split; [reflexivity |]. rewrite relabelAll_nil. repeat split.
  - cbn [forEach]. unfold bind at 1, modify at 1.
    assert (Ho : outline (root (modifyNode u g s)) = map (relabelAt g u) (outline (root s))).
    { rewrite root_modifyNode. now apply outline_modifyTree. }
    destruct (IH (modifyNode u g s)) as (s' & E & Hout & Ha & Hc & Hn & Hu).
    { apply distinct_outline. rewrite Ho. rewrite map_map.
      erewrite map_ext; [apply distinct_outline; exact Hnd |].
      intros [c l]. unfold relabelAt, ouid. cbn [fst snd].
      destruct (uid l =? u)%nat; [apply g_uid | reflexivity]. }
    exists s'. split; [exact E |]. rewrite Hout, Ho, relabelAll_cons.
    split; [reflexivity |].
    rewrite Ha, Hc, Hn, Hu. unfold modifyNode. now destruct (uid (root s) =? u)%nat.
Qed.

End Relabelling.

(* ================================================================== *)
(** * Redaction *)
(* ================================================================== *)

(** ** Outlines of distinct nodes *)

Lemma ounique (O : list (list nat * node)) (o o' : list nat * node) :
  NoDup (map ouid O) -> In o O -> In o' O -> ouid o = ouid o' -> o = o'.
Proof.
  induction O as [| x O IH]; intros Hnd Ho Ho' E; [destruct Ho |].
  cbn [map] in Hnd. inversion Hnd as [| ? ? Hnotin Hnd']. subst.
  destruct Ho as [-> | Ho], Ho' as [-> | Ho'].
  - reflexivity.
  - exfalso. apply Hnotin. rewrite E. now apply in_map.
  - exfalso. apply Hnotin. rewrite <- E. now apply in_map.
  - now apply IH.
Qed.

Lemma ofind_unique (O : list (list nat * node)) (o : list nat * node) :
  NoDup (map ouid O) -> In o O -> find (fun x => (ouid x =? ouid o)%nat) O = Some o.
Proof.
  induction O as [| x O IH]; intros Hnd Ho; [destruct Ho |].
  cbn [map] in Hnd. inversion Hnd as [| ? ? Hnotin Hnd']. subst. cbn [find].
  destruct Ho as [-> | Ho]; [now rewrite Nat.eqb_refl |].
  destruct (ouid x =? ouid o)%nat eqn:E; [| now apply IH].
  apply Nat.eqb_eq in E. exfalso. apply Hnotin. rewrite E. now apply in_map.
Qed.

Lemma ofind_In (O : list (list nat * node)) (a : nat) (o : list nat * node) :
  find (fun x => (ouid x =? a)%nat) O = Some o -> In o O /\ ouid o = a.
Proof. intros H. apply find_some in H. destruct H as [H E]. now apply Nat.eqb_eq in E. Qed.

Lemma ofind_None (O : list (list nat * node)) (a : nat) :
  find (fun x => (ouid x =? a)%nat) O = None -> forall o, In o O -> ouid o <> a.
Proof.
  intros H o Ho E. apply (find_none _ _ H) in Ho. apply Nat.eqb_neq in Ho. contradiction.
Qed.

Lemma keepAll_incl (us : list nat) (o o' : list nat * node) :
  incl (chain o') (chain o) -> keepAll us o = true -> keepAll us o' = true.
Proof.
  unfold keepAll. intros Hincl H. apply negb_true_iff in H. apply negb_true_iff.
  destruct (existsb _ (chain o')) eqn:E; [| reflexivity].
  apply existsb_exists in E. destruct E as (v & Hv & Hin).
  assert (Ht : existsb (fun v0 => existsb (Nat.eqb v0) us) (chain o) = true)
    by (apply existsb_exists; exists v; split; [now apply Hincl | exact Hin]).
  congruence.
Qed.

Lemma keepAll_spec (us : list nat) (o : list nat * node) :
  keepAll us o = true <-> forall u, In u (chain o) -> ~ In u us.
Proof.
  unfold keepAll. rewrite negb_true_iff. split.
  - intros H u Hu Hin.
    assert (Ht : existsb (fun v => existsb (Nat.eqb v) us) (chain o) = true).
    { apply existsb_exists. exists u. split; [exact Hu |].
      apply existsb_exists. exists u. split; [exact Hin | apply Nat.eqb_refl]. }
    congruence.
  - intros H. destruct (existsb _ (chain o)) eqn:E; [| reflexivity].
    apply existsb_exists in E. destruct E as (v & Hv & Hin).
    apply existsb_exists in Hin. destruct Hin as (w & Hw & Ew). apply Nat.eqb_eq in Ew.
    subst w. now destruct (H v Hv).
Qed.

Lemma keepAll_nil (O : list (list nat * node)) : filter (keepAll []) O = O.
Proof. apply filter_all. intros o _. apply keepAll_spec. intros u _ []. Qed.

Section Redacting.

Variable g : node -> node.
Hypothesis g_uid : forall n, uid (g n) = uid n.
Hypothesis g_twice : forall n, g (g n) = g n.

Lemma chain_relabelAll (os : list nat) (o : list nat * node) :
  chain (relabelAll g os o) = chain o.
Proof.
  unfold chain, relabelAll, ouid. cbn [fst snd]. destruct (existsb _ os); [| reflexivity].
  now rewrite g_uid.
Qed.

Lemma ouid_relabelAll_ (os : list nat) (o : list nat * node) :
  ouid (relabelAll g os o) = ouid o.
Proof. pose proof (chain_relabelAll os o) as H. unfold chain in H. now injection H. Qed.

Lemma keepAll_relabelAll (us os : list nat) (o : list nat * node) :
  keepAll us (relabelAll g os o) = keepAll us o.
Proof. unfold keepAll. now rewrite chain_relabelAll. Qed.

Lemma relabelAll_app (os1 os2 : list nat) (O : list (list nat * node)) :
  map (relabelAll g os2) (map (relabelAll g os1) O) = map (relabelAll g (os1 ++ os2)) O.
Proof.
  rewrite map_map. apply map_ext. intros [c l]. unfold relabelAll at 1 3. cbn [fst].
  rewrite ouid_relabelAll_. unfold relabelAll, ouid. cbn [fst snd]. rewrite existsb_app.
  destruct (existsb _ os1), (existsb _ os2); cbn [orb]; try reflexivity. now rewrite g_twice.
Qed.

(** Two rounds of unlinking and changing are one. *)
Lemma rounds_compose (us1 os1 us2 os2 : list nat) (O : list (list nat * node)) :
  map (relabelAll g os2)
      (filter (keepAll us2) (map (relabelAll g os1) (filter (keepAll us1) O)))
  = map (relabelAll g (os1 ++ os2)) (filter (keepAll (us1 ++ us2)) O).
Proof.
  rewrite filter_map_comm.
  rewrite (filter_ext _ (keepAll us2) (fun o => keepAll_relabelAll us2 os1 o)).
  now rewrite filter_keepAll, relabelAll_app.
Qed.

(** The first entry of a handle after a round. *)
Lemma ofind_round (us os : list nat) (a : nat) (O : list (list nat * node)) :
  NoDup (map ouid O) ->
  find (fun x => (ouid x =? a)%nat) (map (relabelAll g os) (filter (keepAll us) O))
  = match find (fun x => (ouid x =? a)%nat) O with
    | Some o => if keepAll us o then Some (relabelAll g os o) else None
    | None => None
    end.
Proof.
  induction O as [| x O IH]; intros Hnd; [reflexivity |].
  cbn [map] in Hnd. inversion Hnd as [| ? ? Hnotin Hnd']. subst. cbn [find filter].
  destruct (ouid x =? a)%nat eqn:E.
  - destruct (keepAll us x); cbn [map find].
    + now rewrite ouid_relabelAll_, E.
    + apply Nat.eqb_eq in E. subst a.
      destruct (find _ (map (relabelAll g os) (filter (keepAll us) O))) as [o |] eqn:F;
        [| reflexivity].
      apply ofind_In in F. destruct F as [Ho Eo]. exfalso. apply Hnotin.
      apply in_map_iff in Ho. destruct Ho as (y & <- & Hy). apply filter_In in Hy.
      rewrite ouid_relabelAll_ in Eo. rewrite <- Eo. apply in_map. tauto.
  - destruct (keepAll us x); cbn [map find]; [rewrite ouid_relabelAll_, E |]; now apply IH.
Qed.

End Redacting.

(** ** [removeCorrectAnswers] *)

Definition isAccepted (n : node) : bool := isEAny ["accepted-answer"] n.

Definition isAnswerOption (n : node) : bool :=
  isEAny ["choice-answer-option"; "dropdown-answer-option"] n.

(** A node without its score. *)
Definition redact (n : node) : node := withoutAttr "score" n.

Lemma uid_redact (n : node) : uid (redact n) = uid n.
Proof. now destruct n. Qed.

Lemma children_redact (n : node) : children (redact n) = children n.
Proof. now destruct n. Qed.

Lemma label_redact (n : node) : label (redact n) = redact (label n).
Proof. now destruct n. Qed.

Lemma dropAttr_twice (k : string) (l : list (string * string)) :
  dropAttr k (dropAttr k l) = dropAttr k l.
Proof.
  unfold dropAttr. induction l as [| x l IH]; [reflexivity |]. cbn [filter].
  destruct (negb (fst x =? k)) eqn:E; cbn [filter]; [rewrite E; now rewrite IH | exact IH].
Qed.

Lemma redact_twice (n : node) : redact (redact n) = redact n.
Proof. destruct n; try reflexivity. unfold redact. cbn [withoutAttr mapAttrs]. now rewrite dropAttr_twice. Qed.

Lemma isEAny_redact (names : list string) (n : node) : isEAny names (redact n) = isEAny names n.
Proof. now destruct n. Qed.

Lemma name_redact (n : node) : name (redact n) = name n.
Proof. now destruct n. Qed.

Lemma score_redact (n : node) : attr "score" (redact n) = None.
Proof.
  destruct n; try reflexivity. unfold attr, redact. cbn [withoutAttr mapAttrs attrs].
  now rewrite lookupAttr_dropAttr, String.eqb_refl.
Qed.

(** The entries with the nodes [os] redacted. *)
Definition redactAll (os : list nat) : list nat * node -> list nat * node :=
  relabelAll redact os.

Lemma snd_redactAll_isEAny (names : list string) (os : list nat) (o : list nat * node) :
  isEAny names (snd (redactAll os o)) = isEAny names (snd o).
Proof.
  unfold redactAll, relabelAll. cbn [snd]. destruct (existsb _ os); [apply isEAny_redact | reflexivity].
Qed.

Lemma snd_redactAll_name (os : list nat) (o : list nat * node) :
  name (snd (redactAll os o)) = name (snd o).
Proof.
  unfold redactAll, relabelAll. cbn [snd]. destruct (existsb _ os); [apply name_redact | reflexivity].
Qed.

Lemma in_outline_node (t x : node) :
  In x (descendantsOrSelf t) -> exists o, In o (outline t) /\ snd o = label x.
Proof.
  intros Hx. assert (H : In (label x) (map snd (outline t))).
  { rewrite map_snd_outline. now apply in_map. }
  apply in_map_iff in H. destruct H as (o & E & Ho). now exists o.
Qed.

(** What one step of the loop does to the outline. *)
Lemma removeCorrectAnswer_outline (a : nat) (st : State) :
  distinctNodes st ->
  exists us os st1,
    removeCorrectAnswer a st = (Ok tt, st1)
    /\ outline (root st1) = map (redactAll os) (filter (keepAll us) (outline (root st)))
    /\ attached st1 = attached st /\ current st1 = current st
    /\ nextUid st1 = nextUid st /\ uuidCalls st1 = uuidCalls st
    /\ (forall u, In u us ->
          exists o, In o (outline (root st)) /\ ouid o = u /\ isAccepted (snd o) = true)
    /\ (forall u, In u os ->
          exists o, In o (outline (root st)) /\ ouid o = u /\ isAnswerOption (snd o) = true)
    /\ (nameOf a st = "scored-text-answer" ->
        forall o, In o (outline (root st)) -> In a (fst o) -> isAccepted (snd o) = true ->
                  In (ouid o) us)
    /\ (attached st = true -> Js.inList (nameOf a st) choiceAnswerTypes = true ->
        forall o, In o (outline (root st)) -> isAnswerOption (snd o) = true -> In (ouid o) os).
Proof.
  intros Hnd. unfold removeCorrectAnswer. unfold bind at 1, gets at 1.
  change ["choice-answer"; "dropdown-answer"] with choiceAnswerTypes.
  destruct (Js.inList (nameOf a st) choiceAnswerTypes) eqn:Echoice.
  - (* the options of the document lose their scores *)
    unfold bind at 1, gets at 1.
    change (isEAny ["choice-answer-option"; "dropdown-answer-option"]) with isAnswerOption.
    set (options := findAll isAnswerOption st).
    destruct (@modifyAll_outline redact uid_redact children_redact label_redact redact_twice
                (map uid options) st Hnd) as (st1 & E & Hout & Ha & Hc & Hn & Hu).
    exists [], (map uid options), st1. split.
    { rewrite <- E. apply (forEach_map uid (fun u => modify (modifyNode u redact))). }
    split; [now rewrite keepAll_nil |].
    split; [exact Ha |]. split; [exact Hc |]. split; [exact Hn |]. split; [exact Hu |].
    split; [intros u [] |]. split; [| split].
    + intros u Hin. apply in_map_iff in Hin. destruct Hin as (x & <- & Hx).
      unfold options, findAll in Hx. destruct (attached st); [| destruct Hx].
      apply filter_In in Hx. destruct Hx as [Hx Hp].
      destruct (in_outline_node Hx) as (o & Ho & Eo). exists o. split; [exact Ho |].
      unfold ouid. rewrite Eo, uid_label. split; [reflexivity |].
      unfold isAnswerOption. now rewrite isEAny_label.
    + intros Hs. rewrite Hs in Echoice. discriminate Echoice.
    + intros Hatt _ o Ho Hp.
      assert (Hin : In (snd o) (map label options)).
      { unfold options. rewrite (@findAll_outline isAnswerOption st); [| intros n; apply isEAny_label | exact Hatt].
        apply in_map. apply filter_In. now split. }
      apply in_map_iff in Hin. destruct Hin as (x & Ex & Hx).
      apply in_map_iff. exists x. split; [| exact Hx]. unfold ouid. now rewrite <- Ex, uid_label.
  - destruct (nameOf a st =? "scored-text-answer") eqn:Escored.
    + (* the accepted answers below the answer go *)
      unfold bind at 1, gets at 1.
      set (accepted := findBelow ["accepted-answer"] a st).
      assert (Hacc : map uid accepted
                     = map ouid (filter (fun o => existsb (Nat.eqb a) (fst o)
                                                  && isAccepted (snd o))
                                        (outline (root st)))).
      { rewrite <- (map_uid_label_ accepted). unfold accepted.
        rewrite (findBelow_outline ["accepted-answer"] a Hnd), map_map. reflexivity. }
      destruct (@removeAll_outline accepted st) as (st1 & E & Hout & Ha & Hc & Hn & Hu).
      { rewrite Hacc. intros Hin. apply in_map_iff in Hin. destruct Hin as (o & Eo & Ho).
        apply filter_In in Ho. destruct Ho as [Ho Hp].
        assert (Hroot : In ([], label (root st)) (outline (root st))) by now left.
        assert (Eq : o = ([], label (root st))).
        { apply (@ounique (outline (root st))); [now apply distinct_outline | exact Ho | exact Hroot |].
          rewrite Eo. unfold ouid. cbn [snd]. now rewrite uid_label. }
        subst o. cbn [fst existsb andb] in Hp. discriminate Hp. }
      exists (map uid accepted), [], st1. split; [exact E |].
      split; [rewrite Hout; symmetry; apply (relabelAll_nil redact) |].
      split; [exact Ha |]. split; [exact Hc |]. split; [exact Hn |]. split; [exact Hu |].
      split; [| split; [intros u [] | split]].
      * intros u Hin. rewrite Hacc in Hin. apply in_map_iff in Hin.
        destruct Hin as (o & Eo & Ho). apply filter_In in Ho. destruct Ho as [Ho Hp].
        apply andb_true_iff in Hp. exists o. tauto.
      * intros _ o Ho Hin Hp. rewrite Hacc. apply in_map. apply filter_In. split; [exact Ho |].
        apply andb_true_iff. split; [| exact Hp]. apply existsb_exists. exists a.
        split; [exact Hin | apply Nat.eqb_refl].
      * intros _ H. discriminate H.
    + exists [], [], st. split; [reflexivity |].
      split; [rewrite keepAll_nil; symmetry; apply (relabelAll_nil redact) |].
      split; [reflexivity |]. split; [reflexivity |]. split; [reflexivity |].
      split; [reflexivity |]. split; [intros u [] |]. split; [intros u [] |]. split.
      * intros Hs. rewrite Hs in Escored. discriminate Escored.
      * intros _ H. discriminate H.
Qed.

(** No node on the way from [a] to the root is an accepted answer. *)
Definition cleanAt (O : list (list nat * node)) (a : nat) : Prop :=
  forall oa, In oa O -> ouid oa = a ->
  forall u, In u (chain oa) ->
  forall ou, In ou O -> ouid ou = u -> isAccepted (snd ou) = false.

Lemma round_NoDup (us os : list nat) (O : list (list nat * node)) :
  NoDup (map ouid O) -> NoDup (map ouid (map (redactAll os) (filter (keepAll us) O))).
Proof.
  intros Hnd. unfold redactAll.
  rewrite (@ouid_relabelAll redact uid_redact os).
  induction O as [| o O IH]; [constructor |].
  cbn [map] in Hnd. inversion Hnd as [| ? ? Hnotin Hnd']. subst. cbn [filter].
  destruct (keepAll us o); [| now apply IH]. cbn [map]. constructor; [| now apply IH].
  intros H. apply Hnotin. apply in_map_iff in H. destruct H as (y & E & Hy).
  apply filter_In in Hy. rewrite <- E. apply in_map. tauto.
Qed.

Lemma round_In (us os : list nat) (O : list (list nat * node)) (o1 : list nat * node) :
  In o1 (map (redactAll os) (filter (keepAll us) O)) ->
  exists o, In o O /\ keepAll us o = true /\ o1 = redactAll os o.
Proof.
  intros H. apply in_map_iff in H. destruct H as (o & <- & Ho).
  apply filter_In in Ho. exists o. tauto.
Qed.

Lemma In_round (us os : list nat) (O : list (list nat * node)) (o : list nat * node) :
  In o O -> keepAll us o = true -> In (redactAll os o) (map (redactAll os) (filter (keepAll us) O)).
Proof. intros Ho K. apply in_map. apply filter_In. now split. Qed.

Lemma nameOf_round (us os : list nat) (a : nat) (st st1 : State) (oa : list nat * node) :
  distinctNodes st ->
  outline (root st1) = map (redactAll os) (filter (keepAll us) (outline (root st))) ->
  In oa (outline (root st)) -> ouid oa = a -> keepAll us oa = true ->
  nameOf a st = name (snd oa) /\ nameOf a st1 = name (snd oa).
Proof.
  intros Hnd Hout Ho <- K. apply distinct_outline in Hnd.
  rewrite !nameOf_outline, Hout. unfold redactAll.
  rewrite (@ofind_round redact uid_redact us os (ouid oa) (outline (root st)) Hnd).
  rewrite (@ofind_unique (outline (root st)) oa Hnd Ho), K. split; [reflexivity |]. apply snd_redactAll_name.
Qed.

Lemma fst_redactAll (os : list nat) (o : list nat * node) : fst (redactAll os o) = fst o.
Proof. reflexivity. Qed.

Lemma ouid_redactAll (os : list nat) (o : list nat * node) : ouid (redactAll os o) = ouid o.
Proof. apply (@ouid_relabelAll_ redact uid_redact). Qed.

Lemma chain_redactAll (os : list nat) (o : list nat * node) : chain (redactAll os o) = chain o.
Proof. apply (@chain_relabelAll redact uid_redact). Qed.

Lemma keepAll_redactAll (us os : list nat) (o : list nat * node) :
  keepAll us (redactAll os o) = keepAll us o.
Proof. apply (@keepAll_relabelAll redact uid_redact). Qed.

Lemma inList_empty_choice : Js.inList "" choiceAnswerTypes = false.
Proof. reflexivity. Qed.

(** What the loop does to the outline. *)
Lemma redact_loop (answers : list Answer) :
  forall st, distinctNodes st ->
  exists us os st',
    forEach (fun answer => removeCorrectAnswer (a_element answer)) answers st = (Ok tt, st')
    /\ outline (root st') = map (redactAll os) (filter (keepAll us) (outline (root st)))
    /\ attached st' = attached st /\ current st' = current st
    /\ nextUid st' = nextUid st /\ uuidCalls st' = uuidCalls st
    /\ (forall u, In u us ->
          exists o, In o (outline (root st)) /\ ouid o = u /\ isAccepted (snd o) = true)
    /\ (forall u, In u os ->
          exists o, In o (outline (root st)) /\ ouid o = u /\ isAnswerOption (snd o) = true)
    /\ (forall a, In a (map a_element answers) -> nameOf a st = "scored-text-answer" ->
        forall o, In o (outline (root st)) -> In a (fst o) -> isAccepted (snd o) = true ->
                  keepAll us o = false)
    /\ (attached st = true ->
        forall a, In a (map a_element answers) ->
          Js.inList (nameOf a st) choiceAnswerTypes = true -> cleanAt (outline (root st)) a ->
          forall o, In o (outline (root st)) -> isAnswerOption (snd o) = true ->
                    keepAll us o = true -> In (ouid o) os).
Proof.
  induction answers as [| a0 rest IH]; intros st Hnd.
  - exists [], [], st. split; [reflexivity |].
    split; [rewrite keepAll_nil; symmetry; apply (relabelAll_nil redact) |].
    split; [reflexivity |]. split; [reflexivity |]. split; [reflexivity |].
    split; [reflexivity |]. split; [intros u [] |]. split; [intros u [] |].
    split; [intros a [] | intros _ a []].
  - destruct (removeCorrectAnswer_outline (a_element a0) Hnd)
      as (us1 & os1 & st1 & E1 & Hout1 & Ha1 & Hc1 & Hn1 & Hu1 & Hus1 & Hos1 & HA1 & HB1).
    assert (Hnd1 : distinctNodes st1).
    { apply distinct_outline. rewrite Hout1. apply round_NoDup. now apply distinct_outline. }
    destruct (IH st1 Hnd1)
      as (us2 & os2 & st' & E2 & Hout2 & Ha2 & Hc2 & Hn2 & Hu2 & Hus2 & Hos2 & HA2 & HB2).
    set (O := outline (root st)) in *.
    exists (us1 ++ us2), (os1 ++ os2), st'.
    split; [cbn [forEach]; unfold bind; now rewrite E1 |].
    split; [rewrite Hout2, Hout1; apply (@rounds_compose redact uid_redact redact_twice) |].
    split; [congruence |]. split; [congruence |]. split; [congruence |]. split; [congruence |].
    split; [| split; [| split]].
    + intros u Hu. apply in_app_or in Hu. destruct Hu as [Hu | Hu]; [now apply Hus1 |].
      destruct (Hus2 u Hu) as (o1 & Ho1 & Eo1 & Hp1). rewrite Hout1 in Ho1.
      apply round_In in Ho1. destruct Ho1 as (o & Ho & _ & ->).
      exists o. split; [exact Ho |]. rewrite ouid_redactAll in Eo1. split; [exact Eo1 |].
      unfold isAccepted in *. now rewrite snd_redactAll_isEAny in Hp1.
    + intros u Hu. apply in_app_or in Hu. destruct Hu as [Hu | Hu]; [now apply Hos1 |].
      destruct (Hos2 u Hu) as (o1 & Ho1 & Eo1 & Hp1). rewrite Hout1 in Ho1.
      apply round_In in Ho1. destruct Ho1 as (o & Ho & _ & ->).
      exists o. split; [exact Ho |]. rewrite ouid_redactAll in Eo1. split; [exact Eo1 |].
      unfold isAnswerOption in *. now rewrite snd_redactAll_isEAny in Hp1.
    + intros a Hin Hname o Ho Hanc Hacc. rewrite keepAll_app.
      destruct (keepAll us1 o) eqn:K1; [| reflexivity]. cbn [andb].
      cbn [map In] in Hin. destruct Hin as [<- | Hin].
      * exfalso. pose proof (HA1 Hname o Ho Hanc Hacc) as Hu1'.
        apply (proj1 (keepAll_spec us1 o) K1 (ouid o)); [now left | exact Hu1'].
      * destruct (@outline_ancestors (root st) o a Ho Hanc) as (oa & Hoa & Eoa & Hincl).
        assert (Ka : keepAll us1 oa = true).
        { apply (keepAll_incl us1 (o := o)); [| exact K1].
          intros v Hv. right. now apply Hincl. }
        destruct (@nameOf_round us1 os1 a st st1 oa Hnd Hout1 Hoa Eoa Ka) as [N0 N1].
        assert (Hname1 : nameOf a st1 = "scored-text-answer") by congruence.
        rewrite <- (keepAll_redactAll us2 os1 o).
        apply (HA2 a Hin Hname1).
        -- rewrite Hout1. now apply In_round.
        -- exact Hanc.
        -- unfold isAccepted in *. now rewrite snd_redactAll_isEAny.
    + intros Hatt a Hin Hname Hclean o Ho Hopt K. rewrite keepAll_app in K.
      apply andb_true_iff in K. destruct K as [K1 K2]. apply in_or_app.
      cbn [map In] in Hin. destruct Hin as [<- | Hin].
      * left. now apply (HB1 Hatt Hname).
      * right. rewrite <- (ouid_redactAll os1 o).
        assert (Hoa : exists oa, In oa O /\ ouid oa = a).
        { rewrite nameOf_outline in Hname. fold O in Hname.
          destruct (find (fun o0 => (ouid o0 =? a)%nat) O) as [oa |] eqn:F;
            [| rewrite inList_empty_choice in Hname; discriminate Hname].
          apply ofind_In in F. now exists oa. }
        destruct Hoa as (oa & Hoa & Eoa).
        assert (Ka : keepAll us1 oa = true).
        { apply keepAll_spec. intros u Hu Hin1.
          destruct (Hus1 u Hin1) as (ou & Hou & Eou & Hp).
          rewrite (Hclean oa Hoa Eoa u Hu ou Hou Eou) in Hp. discriminate Hp. }
        destruct (@nameOf_round us1 os1 a st st1 oa Hnd Hout1 Hoa Eoa Ka) as [N0 N1].
        apply (HB2 (eq_trans Ha1 Hatt) a Hin).
        -- now rewrite N1, <- N0.
        -- intros oa1 Hoa1 Eoa1 u Hu ou1 Hou1 Eou1. rewrite Hout1 in Hoa1, Hou1.
           apply round_In in Hoa1. destruct Hoa1 as (oa' & Hoa' & _ & ->).
           apply round_In in Hou1. destruct Hou1 as (ou & Hou & _ & ->).
           rewrite ouid_redactAll in Eoa1, Eou1. rewrite chain_redactAll in Hu.
           unfold isAccepted. rewrite snd_redactAll_isEAny.
           apply (Hclean oa' Hoa' Eoa1 u Hu ou Hou Eou1).
        -- rewrite Hout1. now apply In_round.
        -- unfold isAnswerOption in *. now rewrite snd_redactAll_isEAny.
        -- now rewrite keepAll_redactAll.
Qed.

(** The node [a] and the nodes above it are no accepted answers. *)
Definition notInAccepted (s : State) (a : nat) : Prop :=
  forall e, In e (descendantsOrSelfCtx (root s)) -> uid (snd e) = a ->
            existsb isAccepted (snd e :: fst e) = false.

Lemma existsb_false_In (A : Type) (p : A -> bool) (l : list A) (x : A) :
  existsb p l = false -> In x l -> p x = false.
Proof.
  intros H Hx. destruct (p x) eqn:E; [| reflexivity].
  assert (Ht : existsb p l = true) by (apply existsb_exists; now exists x). congruence.
Qed.

Lemma filter_nothing (A : Type) (p : A -> bool) (l : list A) :
  (forall x, In x l -> p x = false) -> filter p l = [].
Proof.
  induction l as [| x l IH]; intros H; [reflexivity |]. cbn [filter].
  rewrite (H x (or_introl eq_refl)). apply IH. intros y Hy. apply H. now right.
Qed.

Lemma notInAccepted_clean (s : State) (a : nat) :
  distinctNodes s -> notInAccepted s a -> cleanAt (outline (root s)) a.
Proof.
  intros Hnd H oa Hoa Eoa u Hu ou Hou Eou.
  unfold outline in Hoa, Hou.
  apply in_map_iff in Hoa. destruct Hoa as (ea & <- & Hea).
  apply in_map_iff in Hou. destruct Hou as (eu & <- & Heu).
  unfold ouid, outlineOf in Eoa, Eou. cbn [snd] in Eoa, Eou. rewrite uid_label in Eoa, Eou.
  cbn [outlineOf snd]. unfold isAccepted. rewrite isEAny_label.
  specialize (H ea Hea Eoa).
  assert (Hall : forall e, In e (descendantsOrSelfCtx (root s)) ->
                           In (snd e) (descendantsOrSelf (root s))).
  { intros e He. rewrite <- map_snd_entries. now apply in_map. }
  assert (Hy : exists y, In y (snd ea :: fst ea) /\ uid y = u
                         /\ In y (descendantsOrSelf (root s))).
  { unfold chain, ouid, outlineOf in Hu. cbn [fst snd] in Hu. rewrite uid_label in Hu.
    destruct Hu as [Hu | Hu].
    - exists (snd ea). split; [now left |]. split; [exact Hu | now apply Hall].
    - apply in_map_iff in Hu. destruct Hu as (y & Ey & Hy).
      exists y. split; [now right |]. split; [exact Ey |].
      unfold descendantsOrSelfCtx in Hea. destruct Hea as [<- | Hea]; [destruct Hy |].
      destruct (ctx_ancestors (root s) [] ea y Hea Hy) as [[] | (e & He & E & _)].
      rewrite <- E. now apply Hall. }
  destruct Hy as (y & Hin & Ey & Hyt).
  assert (E : snd eu = y).
  { apply (@node_unique (root s)); [exact Hnd | now apply Hall | exact Hyt | congruence]. }
  rewrite E. now apply (existsb_false_In isAccepted (snd ea :: fst ea)).
Qed.

(** X14: [removeCorrectAnswers] takes out, for every scored text answer
    of the exam, the accepted answers below it, and, when the exam has
    a choice or dropdown answer, the scores of all options of the
    document.  It returns; no accepted answer is left below a scored
    text answer of the exam; when the document is attached and some
    choice or dropdown answer of the exam is not within an accepted
    answer, no option of the document has a score; and the outline of
    the result is the outline of the source without the entries that
    have a node of [us] on their way to the root and with the nodes
    [os] without score, where the nodes [us] are accepted answers and
    the nodes [os] are options: nothing else is removed or changed, and
    what stays keeps its place and its order. *)
Theorem removeCorrectAnswers_redacts (exam : Exam) (s : State) :
  distinctNodes s ->
  exists s',
    removeCorrectAnswers exam s = (Ok tt, s')
    /\ (forall a, In a (map a_element (e_answers exam)) ->
          nameOf a s = "scored-text-answer" ->
          findBelow ["accepted-answer"] a s' = [])
    /\ (attached s = true ->
        (exists a, In a (map a_element (e_answers exam))
                   /\ Js.inList (nameOf a s) choiceAnswerTypes = true
                   /\ notInAccepted s a) ->
        forall x, In x (findAll isAnswerOption s') -> attr "score" x = None)
    /\ (exists us os,
          outline (root s') = map (redactAll os) (filter (keepAll us) (outline (root s)))
          /\ (forall u, In u us ->
                exists o, In o (outline (root s)) /\ ouid o = u /\ isAccepted (snd o) = true)
          /\ (forall u, In u os ->
                exists o, In o (outline (root s)) /\ ouid o = u /\ isAnswerOption (snd o) = true))
    /\ attached s' = attached s /\ current s' = current s
    /\ nextUid s' = nextUid s /\ uuidCalls s' = uuidCalls s.
Proof.
  intros Hnd.
  destruct (redact_loop (e_answers exam) Hnd)
    as (us & os & s' & E & Hout & Ha & Hc & Hn & Hu & Hus & Hos & HA & HB).
  assert (Hnd' : distinctNodes s').
  { apply distinct_outline. rewrite Hout. apply round_NoDup. now apply distinct_outline. }
  exists s'. split; [exact E |]. split; [| split; [| split]].
  - intros a Hin Hname.
    assert (Hl : map label (findBelow ["accepted-answer"] a s') = []).
    { rewrite (findBelow_outline ["accepted-answer"] a Hnd'), Hout.
      rewrite filter_nothing; [reflexivity |].
      intros o1 Ho1. apply round_In in Ho1. destruct Ho1 as (o & Ho & K & ->).
      rewrite fst_redactAll, snd_redactAll_isEAny.
      destruct (existsb (Nat.eqb a) (fst o)) eqn:Ech; [| reflexivity].
      destruct (isEAny ["accepted-answer"] (snd o)) eqn:Eacc; [| reflexivity].
      apply existsb_exists in Ech. destruct Ech as (v & Hv & Ev). apply Nat.eqb_eq in Ev.
      subst v. rewrite (HA a Hin Hname o Ho Hv Eacc) in K. discriminate K. }
    now apply map_eq_nil in Hl.
  - intros Hatt (a & Hin & Hname & Hclean) x Hx.
    rewrite <- attr_label.
    assert (Hlab : In (label x) (map label (findAll isAnswerOption s'))) by now apply in_map.
    rewrite (@findAll_outline isAnswerOption s') in Hlab;
      [| intros n; apply isEAny_label | congruence].
    apply in_map_iff in Hlab. destruct Hlab as (o1 & E1 & Ho1). rewrite <- E1.
    apply filter_In in Ho1. destruct Ho1 as [Ho1 Hp1]. rewrite Hout in Ho1.
    apply round_In in Ho1. destruct Ho1 as (o & Ho & K & ->).
    unfold isAnswerOption in Hp1. rewrite snd_redactAll_isEAny in Hp1.
    pose proof (HB Hatt a Hin Hname (notInAccepted_clean Hnd Hclean) o Ho Hp1 K) as Hin_os.
    unfold redactAll, relabelAll. cbn [snd].
    assert (Hex : existsb (Nat.eqb (ouid o)) os = true)
      by (apply existsb_exists; exists (ouid o); split; [exact Hin_os | apply Nat.eqb_refl]).
    rewrite Hex. apply score_redact.
  - exists us, os. split; [exact Hout |]. split; [exact Hus | exact Hos].
  - repeat split; assumption.
Qed.

(** A scored text answer with an accepted answer and a hint, a choice
    answer with two scored options, and a scored option outside the
    answers of the exam. *)
Definition answerKeyExam : node :=
  Element 0 NsE "exam" []
    [ Element 1 NsE "section" []
        [ Element 2 NsE "question" []
            [ Element 3 NsE "scored-text-answer" [("max-score", "3")]
                [ Element 4 NsE "accepted-answer" [("score", "3")] [Text 5 "a"];
                  Element 6 NsE "hint" [] [] ];
              Element 7 NsE "choice-answer" []
                [ Element 8 NsE "choice-answer-option" [("score", "1")] [Text 9 "x"];
                  Element 10 NsE "choice-answer-option" [("score", "0")] [] ] ] ];
      Element 11 NsE "dropdown-answer-option" [("score", "2")] [] ].

Lemma removeCorrectAnswers_redacts_witness :
  exists s',
    removeCorrectAnswers (parseExamStructure (initialState answerKeyExam))
                         (initialState answerKeyExam) = (Ok tt, s')
    /\ findBelow ["accepted-answer"] 3 s' = []
    /\ (forall x, In x (findAll isAnswerOption s') -> attr "score" x = None)
    /\ map uid (findAll isAnswerOption s') = [8; 10; 11].
Proof.
  destruct (@removeCorrectAnswers_redacts (parseExamStructure (initialState answerKeyExam))
              (initialState answerKeyExam))
    as (s' & E & HA & HB & _).
  - apply distinct_NoDup. vm_compute. reflexivity.
  - exists s'. split; [exact E |]. split; [| split].
    + apply HA; [vm_compute; tauto | reflexivity].
    + apply HB; [reflexivity |]. exists 7%nat. split; [vm_compute; tauto |].
      split; [reflexivity |]. intros e He Ee. vm_compute in He.
      repeat (destruct He as [<- | He]; [try discriminate Ee; try reflexivity |]).
      destruct He.
    + vm_compute in E. injection E as <-. vm_compute. reflexivity.
Defined.

(* ================================================================== *)
(** * Localization *)
(* ================================================================== *)

(** ** Rounds of unlinking and changing, for any change *)

Section Rounds.

Variable g : node -> node.
Hypothesis g_uid : forall n, uid (g n) = uid n.

Lemma rounds_NoDup (us os : list nat) (O : list (list nat * node)) :
  NoDup (map ouid O) -> NoDup (map ouid (map (relabelAll g os) (filter (keepAll us) O))).
Proof.
  intros Hnd. rewrite (@ouid_relabelAll g g_uid os).
  induction O as [| o O IH]; [constructor |].
  cbn [map] in Hnd. inversion Hnd as [| ? ? Hnotin Hnd']. subst. cbn [filter].
  destruct (keepAll us o); [| now apply IH]. cbn [map]. constructor; [| now apply IH].
  intros H. apply Hnotin. apply in_map_iff in H. destruct H as (y & E & Hy).
  apply filter_In in Hy. rewrite <- E. apply in_map. tauto.
Qed.

Lemma rounds_In (us os : list nat) (O : list (list nat * node)) (o1 : list nat * node) :
  In o1 (map (relabelAll g os) (filter (keepAll us) O)) ->
  exists o, In o O /\ keepAll us o = true /\ o1 = relabelAll g os o.
Proof.
  intros H. apply in_map_iff in H. destruct H as (o & <- & Ho).
  apply filter_In in Ho. exists o. tauto.
Qed.

Lemma In_rounds (us os : list nat) (O : list (list nat * node)) (o : list nat * node) :
  In o O -> keepAll us o = true ->
  In (relabelAll g os o) (map (relabelAll g os) (filter (keepAll us) O)).
Proof. intros Ho K. apply in_map. apply filter_In. now split. Qed.

Lemma relabelAll_out (os : list nat) (o : list nat * node) :
  ~ In (ouid o) os -> relabelAll g os o = o.
Proof.
  intros H. unfold relabelAll. destruct (existsb _ os) eqn:E; [| now destruct o].
  apply existsb_exists in E. destruct E as (v & Hv & Ev). apply Nat.eqb_eq in Ev.
  subst v. contradiction.
Qed.

Lemma relabelAll_in (os : list nat) (o : list nat * node) :
  In (ouid o) os -> snd (relabelAll g os o) = g (snd o).
Proof.
  intros H. unfold relabelAll. cbn [snd].
  destruct (existsb _ os) eqn:E; [reflexivity |].
  assert (Ht : existsb (Nat.eqb (ouid o)) os = true)
    by (apply existsb_exists; exists (ouid o); split; [exact H | apply Nat.eqb_refl]).
  congruence.
Qed.

End Rounds.

(** ** [applyLocalizations] *)

(** [localization.name('span').namespace(ns.xhtml).attr('exam-type')?.remove()]. *)
Definition spanify (n : node) : node := withoutAttr "exam-type" (renamed NsXhtml "span" n).

(** The test a localization passes to stay, on its attributes. *)
Definition isForThisVersion (language type : string) (n : node) : bool :=
  (match attr "lang" n with Some x => x | None => language end =? language)
  && Js.includes type (match attr "exam-type" n with Some x => x | None => type end).

Definition isExamVersions (n : node) : bool := isEAny ["exam-versions"] n.

Lemma uid_renamed v nm (n : node) : uid (renamed v nm n) = uid n.
Proof. now destruct n. Qed.

Lemma children_renamed v nm (n : node) : children (renamed v nm n) = children n.
Proof. now destruct n. Qed.

Lemma label_renamed v nm (n : node) : label (renamed v nm n) = renamed v nm (label n).
Proof. now destruct n. Qed.

Lemma label_withoutAttr k (n : node) : label (withoutAttr k n) = withoutAttr k (label n).
Proof. now destruct n. Qed.

Lemma uid_spanify (n : node) : uid (spanify n) = uid n.
Proof. now destruct n. Qed.

Lemma spanify_twice (n : node) : spanify (spanify n) = spanify n.
Proof.
  destruct n; try reflexivity. unfold spanify.
  cbn [renamed withoutAttr mapAttrs]. now rewrite dropAttr_twice.
Qed.

Lemma isE_spanify (nm : string) (n : node) : isE nm (spanify n) = false.
Proof. now destruct n. Qed.

Lemma isForOtherVersion_spanify (language type : string) (n : node) :
  isForOtherVersion language type (spanify n) = false.
Proof. now destruct n. Qed.

Lemma isE_label (nm : string) (n : node) : isE nm (label n) = isE nm n.
Proof. now destruct n. Qed.

Lemma isForOtherVersion_label (language type : string) (n : node) :
  isForOtherVersion language type (label n) = isForOtherVersion language type n.
Proof. now destruct n. Qed.

Lemma isForThisVersion_label (language type : string) (n : node) :
  isForThisVersion language type (label n) = isForThisVersion language type n.
Proof. now destruct n. Qed.

(** The entries with the localizations [os] turned into spans. *)
Definition localize (os : list nat) : list nat * node -> list nat * node :=
  relabelAll spanify os.

Lemma ouid_localize (os : list nat) (o : list nat * node) : ouid (localize os o) = ouid o.
Proof. apply (@ouid_relabelAll_ spanify uid_spanify). Qed.

Lemma keepAll_localize (us os : list nat) (o : list nat * node) :
  keepAll us (localize os o) = keepAll us o.
Proof. apply (@keepAll_relabelAll spanify uid_spanify). Qed.

(** A property of labels that no span has holds of an entry after a
    round only if the entry is unchanged. *)
Lemma localize_same (p : node -> bool) (os : list nat) (o : list nat * node) :
  (forall n, p (spanify n) = false) -> p (snd (localize os o)) = true -> localize os o = o.
Proof.
  intros Hp H. unfold localize, relabelAll in *. cbn [snd] in H.
  destruct (existsb _ os); [| now destruct o]. rewrite Hp in H. discriminate H.
Qed.

(** The entry of a node of the document. *)
Lemma entry_of (l : nat) (n : node) (st : State) (o : list nat * node) :
  distinctNodes st -> elementOf l st = Some n -> In o (outline (root st)) -> ouid o = l ->
  snd o = label n.
Proof.
  intros Hnd El Ho Eo. pose proof (outline_find l (root st)) as H.
  unfold elementOf in El. rewrite El in H. subst l.
  rewrite (@ofind_unique (outline (root st)) o (proj1 (distinct_outline st) Hnd) Ho) in H.
  cbn [option_map] in H. now injection H.
Qed.

Lemma entry_present (l : nat) (st : State) (o : list nat * node) :
  elementOf l st = None -> In o (outline (root st)) -> ouid o <> l.
Proof.
  intros El Ho. pose proof (outline_find l (root st)) as H.
  unfold elementOf in El. rewrite El in H. cbn [option_map] in H.
  destruct (find (fun o0 => (ouid o0 =? l)%nat) (outline (root st))) eqn:F; [discriminate H |].
  now apply (@ofind_None (outline (root st)) l F).
Qed.

Lemma entry_exists (l : nat) (st : State) (n : node) :
  elementOf l st = Some n -> exists o, In o (outline (root st)) /\ ouid o = l.
Proof.
  intros El. pose proof (outline_find l (root st)) as H.
  unfold elementOf in El. rewrite El in H. cbn [option_map] in H.
  destruct (find (fun o0 => (ouid o0 =? l)%nat) (outline (root st))) as [o |] eqn:F;
    [| discriminate H].
  exists o. now apply ofind_In.
Qed.

Lemma relabelAt_twice (g h : node -> node) (u : nat) (O : list (list nat * node)) :
  (forall n, uid (g n) = uid n) ->
  map (relabelAt h u) (map (relabelAt g u) O)
  = map (relabelAll (fun n => h (g n)) [u]) O.
Proof.
  intros g_uid. rewrite map_map. apply map_ext. intros [c n].
  unfold relabelAt, relabelAll, ouid. cbn [fst snd existsb]. rewrite orb_false_r.
  destruct (uid n =? u)%nat eqn:E; [now rewrite g_uid, E | now rewrite E].
Qed.

(** What one step of the loop over the localizations does to the
    outline. *)
Lemma applyLocalization_outline (language type : string) (l : nat) (st : State) :
  distinctNodes st -> uid (root st) <> l ->
  exists us os st1,
    applyLocalization language type l st = (Ok tt, st1)
    /\ outline (root st1) = map (localize os) (filter (keepAll us) (outline (root st)))
    /\ uid (root st1) = uid (root st)
    /\ attached st1 = attached st /\ current st1 = current st
    /\ nextUid st1 = nextUid st /\ uuidCalls st1 = uuidCalls st
    /\ incl us [l] /\ incl os [l]
    /\ (forall o, In o (outline (root st)) -> ouid o = l -> keepAll us o = true -> In l os)
    /\ (forall u, In u os ->
          exists o, In o (outline (root st)) /\ ouid o = u
                    /\ isForThisVersion language type (snd o) = true).
Proof.
  intros Hnd Hroot. unfold applyLocalization. unfold bind at 1, gets at 1.
  destruct (elementOf l st) as [n |] eqn:El.
  - destruct (negb (match attr "lang" n with Some x => x | None => language end =? language)
              || negb (Js.includes type (match attr "exam-type" n with Some x => x | None => type end))
              || forallb isBlankText (children n)) eqn:D.
    + (* the localization goes *)
      exists [l], [], (removeNode l st). split; [reflexivity |].
      unfold removeNode. destruct (uid (root st) =? l)%nat eqn:E;
        [apply Nat.eqb_eq in E; contradiction |].
      cbn [withRoot root attached current nextUid uuidCalls].
      split; [rewrite (@outline_unlink l (root st) Hroot); symmetry; apply (relabelAll_nil spanify) |].
      split; [apply uid_substIn |].
      split; [reflexivity |]. split; [reflexivity |]. split; [reflexivity |].
      split; [reflexivity |]. split; [apply incl_refl |]. split; [intros u [] |].
      split; [| intros u []].
      intros o _ Eo K. exfalso.
      apply (proj1 (keepAll_spec [l] o) K l); [left; exact Eo | now left].
    + (* the localization becomes a span *)
      apply orb_false_iff in D. destruct D as [D _].
      apply orb_false_iff in D. destruct D as [D1 D2].
      apply negb_false_iff in D1, D2.
      exists [], [l], (modifyNode l (withoutAttr "exam-type") (modifyNode l (renamed NsXhtml "span") st)).
      split; [reflexivity |].
      assert (Hnd1 : NoDup (uids (modifyTree l (renamed NsXhtml "span") (root st)))).
      { rewrite <- map_ouid_outline.
        rewrite (@outline_modifyTree (renamed NsXhtml "span") (uid_renamed NsXhtml "span")
                   (children_renamed NsXhtml "span") (label_renamed NsXhtml "span") l (root st) Hnd).
        rewrite map_map.
        rewrite (map_ext (fun x => ouid (relabelAt (renamed NsXhtml "span") l x)) ouid);
          [now apply distinct_outline |].
        intros [c m]. unfold relabelAt, ouid. cbn [fst snd].
        destruct (uid m =? l)%nat; [apply uid_renamed | reflexivity]. }
      split.
      { rewrite !root_modifyNode.
        rewrite (@outline_modifyTree (withoutAttr "exam-type") (uid_mapAttrs _)
                   (children_mapAttrs _) (label_withoutAttr "exam-type") l _ Hnd1).
        rewrite (@outline_modifyTree (renamed NsXhtml "span") (uid_renamed NsXhtml "span")
                   (children_renamed NsXhtml "span") (label_renamed NsXhtml "span") l (root st) Hnd).
        rewrite keepAll_nil.
        apply (@relabelAt_twice (renamed NsXhtml "span") (withoutAttr "exam-type") l
                 (outline (root st)) (uid_renamed NsXhtml "span")). }
      split.
      { rewrite !root_modifyNode.
        rewrite (@uid_modifyTree l (withoutAttr "exam-type") (uid_mapAttrs _)).
        apply (@uid_modifyTree l (renamed NsXhtml "span") (uid_renamed NsXhtml "span")). }
      assert (Hc : forall (g : node -> node) (x : State),
                 attached (modifyNode l g x) = attached x
                 /\ current (modifyNode l g x) = current x
                 /\ nextUid (modifyNode l g x) = nextUid x
                 /\ uuidCalls (modifyNode l g x) = uuidCalls x).
      { intros g x. unfold modifyNode. destruct (uid (root x) =? l)%nat; now cbn. }
      destruct (Hc (withoutAttr "exam-type") (modifyNode l (renamed NsXhtml "span") st))
        as (A1 & A2 & A3 & A4).
      destruct (Hc (renamed NsXhtml "span") st) as (B1 & B2 & B3 & B4).
      split; [congruence |]. split; [congruence |]. split; [congruence |].
      split; [congruence |]. split; [intros u [] |]. split; [apply incl_refl |].
      split; [intros; now left |].
      intros u [<- | []]. destruct (@entry_exists l st n El) as (o & Ho & Eo).
      exists o. split; [exact Ho |]. split; [exact Eo |].
      rewrite (@entry_of l n st o Hnd El Ho Eo), isForThisVersion_label.
      unfold isForThisVersion. now rewrite D1, D2.
  - exists [], [], st. split; [reflexivity |].
    split; [rewrite keepAll_nil; symmetry; apply (relabelAll_nil spanify) |].
    split; [reflexivity |].
    split; [reflexivity |]. split; [reflexivity |]. split; [reflexivity |].
    split; [reflexivity |]. split; [intros u [] |]. split; [intros u [] |].
    split; [| intros u []].
    intros o Ho Eo _. exfalso. now apply (@entry_present l st o El Ho).
Qed.

(** What the loop over the localizations does to the outline. *)
Lemma localize_loop (language type : string) (ls : list nat) :
  forall st, distinctNodes st -> ~ In (uid (root st)) ls ->
  exists us os st',
    forEach (applyLocalization language type) ls st = (Ok tt, st')
    /\ outline (root st') = map (localize os) (filter (keepAll us) (outline (root st)))
    /\ uid (root st') = uid (root st)
    /\ attached st' = attached st /\ current st' = current st
    /\ nextUid st' = nextUid st /\ uuidCalls st' = uuidCalls st
    /\ incl us ls /\ incl os ls
    /\ (forall o, In o (outline (root st)) -> In (ouid o) ls -> keepAll us o = true ->
                  In (ouid o) os)
    /\ (forall u, In u os ->
          exists o, In o (outline (root st)) /\ ouid o = u
                    /\ isForThisVersion language type (snd o) = true).
Proof.
  induction ls as [| l rest IH]; intros st Hnd Hroot.
  - exists [], [], st. split; [reflexivity |].
    split; [rewrite keepAll_nil; symmetry; apply (relabelAll_nil spanify) |].
    split; [reflexivity |].
    split; [reflexivity |]. split; [reflexivity |]. split; [reflexivity |].
    split; [reflexivity |]. split; [apply incl_refl |]. split; [apply incl_refl |].
    split; [intros o _ [] | intros u []].
  - assert (Hl : uid (root st) <> l) by (intros E; apply Hroot; now left).
    destruct (@applyLocalization_outline language type l st Hnd Hl)
      as (us1 & os1 & st1 & E1 & Hout1 & Hr1 & Ha1 & Hc1 & Hn1 & Hu1 & Hus1 & Hos1 & HA1 & HB1).
    assert (Hnd1 : distinctNodes st1).
    { apply distinct_outline. rewrite Hout1. apply (@rounds_NoDup spanify uid_spanify).
      now apply distinct_outline. }
    assert (Hroot1 : ~ In (uid (root st1)) rest)
      by (rewrite Hr1; intros H; apply Hroot; now right).
    destruct (IH st1 Hnd1 Hroot1)
      as (us2 & os2 & st' & E2 & Hout2 & Hr2 & Ha2 & Hc2 & Hn2 & Hu2 & Hus2 & Hos2 & HA2 & HB2).
    exists (us1 ++ us2), (os1 ++ os2), st'.
    split; [cbn [forEach]; unfold bind; now rewrite E1 |].
    split; [rewrite Hout2, Hout1; apply (@rounds_compose spanify uid_spanify spanify_twice) |].
    split; [congruence |].
    split; [congruence |]. split; [congruence |]. split; [congruence |]. split; [congruence |].
    split; [| split; [| split]].
    + intros u Hu. apply in_app_or in Hu. destruct Hu as [Hu | Hu].
      * left. apply Hus1 in Hu. destruct Hu as [Hu | []]. now symmetry.
      * right. now apply Hus2.
    + intros u Hu. apply in_app_or in Hu. destruct Hu as [Hu | Hu].
      * left. apply Hos1 in Hu. destruct Hu as [Hu | []]. now symmetry.
      * right. now apply Hos2.
    + intros o Ho Hin K. rewrite keepAll_app in K. apply andb_true_iff in K.
      destruct K as [K1 K2]. apply in_or_app.
      destruct (Nat.eq_dec (ouid o) l) as [Eo | Eo].
      * left. rewrite Eo. now apply (HA1 o).
      * right. destruct Hin as [Hin | Hin]; [now symmetry in Hin |].
        rewrite <- (ouid_localize os1 o). apply HA2.
        -- rewrite Hout1. now apply In_rounds.
        -- now rewrite ouid_localize.
        -- now rewrite keepAll_localize.
    + intros u Hu. apply in_app_or in Hu. destruct Hu as [Hu | Hu]; [now apply HB1 |].
      destruct (HB2 u Hu) as (o1 & Ho1 & Eo1 & Hp1). rewrite Hout1 in Ho1.
      apply rounds_In in Ho1. destruct Ho1 as (o & Ho & _ & ->).
      change (relabelAll spanify os1 o) with (localize os1 o) in *.
      rewrite ouid_localize in Eo1.
      destruct (in_dec Nat.eq_dec (ouid o) os1) as [Hin1 | Hout].
      * rewrite <- Eo1. now apply HB1.
      * exists o. split; [exact Ho |]. split; [exact Eo1 |].
        unfold localize in Hp1. now rewrite (@relabelAll_out spanify os1 o Hout) in Hp1.
Qed.

Lemma root_entry (t : node) : In ([], label t) (outline t).
Proof. now left. Qed.

(** The exam element after a round that does not change it. *)
Lemma root_round (us os : list nat) (st st1 : State) :
  distinctNodes st ->
  outline (root st1) = map (localize os) (filter (keepAll us) (outline (root st))) ->
  uid (root st1) = uid (root st) -> ~ In (uid (root st)) os ->
  label (root st1) = label (root st).
Proof.
  intros Hnd Hout Hr Hos.
  pose proof (root_entry (root st1)) as H1. rewrite Hout in H1.
  apply rounds_In in H1. destruct H1 as (o & Ho & _ & E).
  assert (Eo : o = ([], label (root st))).
  { apply (@ounique (outline (root st)));
      [now apply distinct_outline | exact Ho | apply root_entry |].
    rewrite <- (ouid_localize os o). unfold localize. rewrite <- E.
    unfold ouid. cbn [snd]. now rewrite !uid_label. }
  subst o. rewrite (@relabelAll_out spanify os) in E; [now injection E |].
  unfold ouid. cbn [snd]. now rewrite uid_label.
Qed.

Lemma found_root (p : node -> bool) (st : State) :
  distinctNodes st -> In (uid (root st)) (map uid (findAll p st)) -> p (root st) = true.
Proof.
  intros Hnd H. apply in_map_iff in H. destruct H as (x & E & Hx).
  unfold findAll in Hx. destruct (attached st); [| destruct Hx].
  apply filter_In in Hx. destruct Hx as [Hx Hp].
  destruct Hx as [<- | Hx]; [exact Hp |].
  exfalso. now apply (@root_not_below (root st) x Hnd Hx).
Qed.

Lemma found_entry (p : node -> bool) (st : State) (u : nat) :
  (forall n, p (label n) = p n) -> In u (map uid (findAll p st)) ->
  exists o, In o (outline (root st)) /\ ouid o = u /\ p (snd o) = true.
Proof.
  intros Hp H. apply in_map_iff in H. destruct H as (x & <- & Hx).
  unfold findAll in Hx. destruct (attached st); [| destruct Hx].
  apply filter_In in Hx. destruct Hx as [Hx Hpx].
  destruct (in_outline_node Hx) as (o & Ho & Eo). exists o. split; [exact Ho |].
  unfold ouid. rewrite Eo, uid_label, Hp. now split.
Qed.

Lemma entry_found (p : node -> bool) (st : State) (o : list nat * node) :
  (forall n, p (label n) = p n) -> attached st = true ->
  In o (outline (root st)) -> p (snd o) = true -> In (ouid o) (map uid (findAll p st)).
Proof.
  intros Hp Hatt Ho Hpo.
  assert (Hin : In (snd o) (map label (findAll p st))).
  { rewrite (@findAll_outline p st Hp Hatt). apply in_map. apply filter_In. now split. }
  apply in_map_iff in Hin. destruct Hin as (x & Ex & Hx).
  apply in_map_iff. exists x. split; [| exact Hx]. unfold ouid. now rewrite <- Ex, uid_label.
Qed.

Lemma none_found (p : node -> bool) (st : State) :
  (forall n, p (label n) = p n) -> attached st = true ->
  (forall o, In o (outline (root st)) -> p (snd o) = false) -> findAll p st = [].
Proof.
  intros Hp Hatt H.
  assert (E : map label (findAll p st) = []).
  { rewrite (@findAll_outline p st Hp Hatt). rewrite filter_nothing; [reflexivity |].
    exact H. }
  now destruct (findAll p st).
Qed.

(** The first step: the first [e:exam-versions] child of the exam
    element goes. *)
Lemma removeExamVersions_outline (s : State) :
  distinctNodes s ->
  exists us s1,
    (match findChildren ["exam-versions"] (uid (root s)) s with
     | v :: _ => modify (removeNode (uid v))
     | [] => ret tt
     end) s = (Ok tt, s1)
    /\ outline (root s1) = filter (keepAll us) (outline (root s))
    /\ uid (root s1) = uid (root s)
    /\ attached s1 = attached s /\ current s1 = current s
    /\ nextUid s1 = nextUid s /\ uuidCalls s1 = uuidCalls s
    /\ (forall u, In u us ->
          exists o, In o (outline (root s)) /\ ouid o = u /\ isExamVersions (snd o) = true).
Proof.
  intros Hnd. unfold findChildren, elementOf. rewrite lookup_root.
  unfold childrenNamed.
  destruct (filter (isEAny ["exam-versions"]) (children (root s))) as [| v rest] eqn:F.
  - exists [], s. split; [reflexivity |]. split; [now rewrite keepAll_nil |].
    split; [reflexivity |]. split; [reflexivity |]. split; [reflexivity |].
    split; [reflexivity |]. split; [reflexivity |]. intros u [].
  - assert (Hv : In v (filter (isEAny ["exam-versions"]) (children (root s))))
      by (rewrite F; now left).
    apply filter_In in Hv. destruct Hv as [Hv Hp].
    assert (Hd : In v (descendants (root s))).
    { apply (@descendants_child (root s) v v Hv). now left. }
    assert (Hne : uid (root s) <> uid v).
    { intros E. now apply (@root_not_below (root s) v Hnd Hd). }
    exists [uid v], (removeNode (uid v) s). split; [reflexivity |].
    unfold removeNode. destruct (uid (root s) =? uid v)%nat eqn:E;
      [apply Nat.eqb_eq in E; contradiction |].
    cbn [withRoot root attached current nextUid uuidCalls].
    split; [now apply outline_unlink |]. split; [apply uid_substIn |].
    split; [reflexivity |]. split; [reflexivity |]. split; [reflexivity |].
    split; [reflexivity |].
    intros u [<- | []].
    assert (Hx : In v (descendantsOrSelf (root s))) by now right.
    destruct (in_outline_node Hx) as (o & Ho & Eo). exists o. split; [exact Ho |].
    unfold ouid, isExamVersions. rewrite Eo, uid_label, isEAny_label. now split.
Qed.

(** What [applyLocalizations] does to the outline. *)
Lemma applyLocalizations_rounds (language type : string) (s : State) :
  distinctNodes s -> attached s = true ->
  isE "localization" (root s) = false ->
  isForOtherVersion language type (root s) = false ->
  exists s',
    applyLocalizations (uid (root s)) language type s = (Ok tt, s')
    /\ (forall o, In o (outline (root s')) -> isE "localization" (snd o) = false)
    /\ (forall o, In o (outline (root s')) -> isForOtherVersion language type (snd o) = false)
    /\ (exists us os,
          outline (root s') = map (localize os) (filter (keepAll us) (outline (root s)))
          /\ (forall u, In u us ->
                exists o, In o (outline (root s)) /\ ouid o = u
                  /\ (isExamVersions (snd o) = true \/ isE "localization" (snd o) = true
                      \/ isForOtherVersion language type (snd o) = true))
          /\ (forall u, In u os ->
                exists o, In o (outline (root s)) /\ ouid o = u
                  /\ isE "localization" (snd o) = true
                  /\ isForThisVersion language type (snd o) = true))
    /\ attached s' = true /\ current s' = current s
    /\ nextUid s' = nextUid s /\ uuidCalls s' = uuidCalls s.
Proof.
  intros Hnd Hatt Hloc Hother.
  set (O := outline (root s)).
  destruct (removeExamVersions_outline Hnd)
    as (us0 & s1 & E0 & Hout0 & Hr0 & Ha0 & Hc0 & Hn0 & Hu0 & Hus0).
  assert (Hout0' : outline (root s1) = map (localize []) (filter (keepAll us0) O))
    by (rewrite Hout0; symmetry; apply (relabelAll_nil spanify)).
  assert (Hnd1 : distinctNodes s1).
  { apply distinct_outline. rewrite Hout0'. apply (@rounds_NoDup spanify uid_spanify).
    now apply distinct_outline. }
  assert (Hl1 : label (root s1) = label (root s))
    by (apply (@root_round us0 [] s s1 Hnd Hout0' Hr0); intros []).
  assert (Hatt1 : attached s1 = true) by congruence.
  set (ls := map uid (findAll (isE "localization") s1)).
  assert (Hroot1 : ~ In (uid (root s1)) ls).
  { intros H. apply (found_root _ Hnd1) in H.
    rewrite <- (isE_label "localization"), Hl1, isE_label in H. congruence. }
  destruct (@localize_loop language type ls s1 Hnd1 Hroot1)
    as (us2 & os2 & s2 & E2 & Hout2 & Hr2 & Ha2 & Hc2 & Hn2 & Hu2 & Hus2 & Hos2 & HA2 & HB2).
  assert (Hnd2 : distinctNodes s2).
  { apply distinct_outline. rewrite Hout2. apply (@rounds_NoDup spanify uid_spanify).
    now apply distinct_outline. }
  assert (Hatt2 : attached s2 = true) by congruence.
  assert (Hos2' : ~ In (uid (root s1)) os2) by (intros H; apply Hroot1; now apply Hos2).
  assert (Hl2 : label (root s2) = label (root s1))
    by (apply (@root_round us2 os2 s1 s2 Hnd1 Hout2 Hr2 Hos2')).
  set (others := findAll (isForOtherVersion language type) s2).
  assert (Hroot2 : ~ In (uid (root s2)) (map uid others)).
  { intros H. apply (found_root _ Hnd2) in H.
    rewrite <- (isForOtherVersion_label language type), Hl2, Hl1, isForOtherVersion_label in H.
    congruence. }
  destruct (@removeAll_outline others s2 Hroot2)
    as (s3 & E3 & Hout3 & Ha3 & Hc3 & Hn3 & Hu3).
  assert (Hatt3 : attached s3 = true) by congruence.
  assert (HO2 : outline (root s2) = map (localize os2) (filter (keepAll (us0 ++ us2)) O)).
  { rewrite Hout2, Hout0. now rewrite filter_keepAll. }
  assert (HO3 : outline (root s3)
                = map (localize os2) (filter (keepAll ((us0 ++ us2) ++ map uid others)) O)).
  { rewrite Hout3, HO2. unfold localize.
    rewrite <- (relabelAll_nil spanify (filter _ (map _ _))).
    rewrite (@rounds_compose spanify uid_spanify spanify_twice). now rewrite app_nil_r. }
  assert (Hlocs : forall o, In o (outline (root s1)) -> isE "localization" (snd o) = true ->
                            In (ouid o) ls).
  { intros o Ho Hp. apply (@entry_found (isE "localization") s1 o); auto.
    intros n. apply isE_label. }
  exists s3. split; [| split; [| split; [| split]]].
  - unfold applyLocalizations.
    unfold bind at 1, gets at 1. unfold bind at 1. rewrite E0. unfold bind at 1, gets at 1. fold ls. unfold bind at 1. rewrite E2.
    unfold bind at 1, gets at 1. exact E3.
  - (* no localization is left *)
    intros o3 Ho3. destruct (isE "localization" (snd o3)) eqn:Hp; [exfalso | reflexivity].
    rewrite HO3 in Ho3. apply rounds_In in Ho3. destruct Ho3 as (o & Ho & K & ->).
    fold (localize os2 o) in Hp.
    pose proof (@localize_same (isE "localization") os2 o (isE_spanify "localization") Hp)
      as Same.
    rewrite Same in Hp.
    rewrite !keepAll_app in K. apply andb_true_iff in K. destruct K as [K K3].
    apply andb_true_iff in K. destruct K as [K0 K2].
    assert (Ho1 : In o (outline (root s1))) by (rewrite Hout0; apply filter_In; now split).
    pose proof (HA2 o Ho1 (Hlocs o Ho1 Hp) K2) as Hin.
    pose proof (@relabelAll_in spanify os2 o Hin) as Hs. fold (localize os2 o) in Hs.
    rewrite Same in Hs. rewrite Hs, isE_spanify in Hp. discriminate Hp.
  - (* no element of another version is left *)
    intros o3 Ho3.
    destruct (isForOtherVersion language type (snd o3)) eqn:Hp; [exfalso | reflexivity].
    rewrite Hout3 in Ho3. apply filter_In in Ho3. destruct Ho3 as [Ho2 K3].
    apply (proj1 (keepAll_spec (map uid others) o3) K3 (ouid o3)); [now left |].
    apply (@entry_found (isForOtherVersion language type) s2 o3); auto.
    intros n. apply isForOtherVersion_label.
  - exists ((us0 ++ us2) ++ map uid others), os2. split; [exact HO3 |]. split.
    + intros u Hu. apply in_app_or in Hu. destruct Hu as [Hu | Hu];
        [apply in_app_or in Hu; destruct Hu as [Hu | Hu] |].
      * destruct (Hus0 u Hu) as (o & Ho & Eo & Hp). exists o. tauto.
      * apply Hus2 in Hu.
        destruct (@found_entry (isE "localization") s1 u (isE_label "localization") Hu)
          as (o & Ho & Eo & Hp).
        rewrite Hout0 in Ho. apply filter_In in Ho. exists o. tauto.
      * destruct (@found_entry (isForOtherVersion language type) s2 u
                    (isForOtherVersion_label language type) Hu) as (o2 & Ho2 & Eo2 & Hp).
        rewrite HO2 in Ho2. apply rounds_In in Ho2. destruct Ho2 as (o & Ho & _ & ->).
        fold (localize os2 o) in Eo2, Hp.
        pose proof (@localize_same (isForOtherVersion language type) os2 o
                      (isForOtherVersion_spanify language type) Hp) as Same.
        rewrite Same in Eo2, Hp.
        exists o. split; [exact Ho |]. split; [exact Eo2 |]. right. right. exact Hp.
    + intros u Hu. destruct (HB2 u Hu) as (o & Ho & Eo & Hp).
      destruct (@found_entry (isE "localization") s1 u (isE_label "localization")
                  (Hos2 u Hu)) as (o' & Ho' & Eo' & Hp').
      assert (o' = o).
      { apply (@ounique (outline (root s1))); auto; [now apply distinct_outline | congruence]. }
      subst o'. rewrite Hout0 in Ho. apply filter_In in Ho. exists o. tauto.
  - split; [exact Hatt3 |]. split; [congruence |]. split; congruence.
Qed.

(** X15: [applyLocalizations], on a document whose exam element is no
    localization and carries no [lang] or [exam-type] of another
    version, returns.  Afterwards the document has no [e:localization]
    element and no [e:] element whose [lang] is another language or
    whose [exam-type] does not contain the type.  The nodes of the
    result are those of the source that neither are nor lie below an
    unlinked element, each under the same ancestors and in the same
    order; every unlinked element was an [e:exam-versions] element, a
    localization or an element of another version.  The only nodes
    changed are localizations of this language and type, which became
    [xhtml:span] without [exam-type]. *)
Theorem applyLocalizations_outline (language type : string) (s : State) :
  distinctNodes s -> attached s = true ->
  isE "localization" (root s) = false ->
  isForOtherVersion language type (root s) = false ->
  exists s',
    applyLocalizations (uid (root s)) language type s = (Ok tt, s')
    /\ findAll (isE "localization") s' = []
    /\ findAll (isForOtherVersion language type) s' = []
    /\ (exists us os,
          outline (root s') = map (localize os) (filter (keepAll us) (outline (root s)))
          /\ (forall u, In u us ->
                exists o, In o (outline (root s)) /\ ouid o = u
                  /\ (isExamVersions (snd o) = true \/ isE "localization" (snd o) = true
                      \/ isForOtherVersion language type (snd o) = true))
          /\ (forall u, In u os ->
                exists o, In o (outline (root s)) /\ ouid o = u
                  /\ isE "localization" (snd o) = true
                  /\ isForThisVersion language type (snd o) = true))
    /\ attached s' = true /\ current s' = current s
    /\ nextUid s' = nextUid s /\ uuidCalls s' = uuidCalls s.
Proof.
  intros Hnd Hatt Hloc Hother.
  destruct (@applyLocalizations_rounds language type s Hnd Hatt Hloc Hother)
    as (s' & E & H1 & H2 & H3 & Hatt' & Hrest).
  exists s'. split; [exact E |].
  split; [apply none_found; [intros n; apply isE_label | exact Hatt' | exact H1] |].
  split; [apply none_found; [intros n; apply isForOtherVersion_label | exact Hatt' | exact H2] |].
  split; [exact H3 |]. split; [exact Hatt' | exact Hrest].
Qed.

(** An exam in Finnish and Swedish: the versions, a localization of
    each language, a blank one, one for another type with a
    localization below it, a question in Swedish, and a localization
    of this language and type. *)
Definition localizedExam : node :=
  Element 0 NsE "exam" []
    [ Element 1 NsE "exam-versions" []
        [ Element 2 NsE "exam-version" [("lang", "fi-FI")] [] ];
      Element 3 NsE "section" []
        [ Element 4 NsE "localization" [("lang", "fi-FI")] [Text 5 "Kysymys"];
          Element 6 NsE "localization" [("lang", "sv-FI")] [Text 7 "Uppgift"];
          Element 8 NsE "localization" [("lang", "fi-FI")] [Text 9 " "];
          Element 10 NsE "localization" [("exam-type", "visually-impaired")]
            [ Element 11 NsE "localization" [("lang", "fi-FI")] [Text 12 "x"] ];
          Element 13 NsE "question" [("lang", "sv-FI")] [Text 14 "q"];
          Element 15 NsE "localization" [("lang", "fi-FI"); ("exam-type", "normal")]
            [Text 16 "y"] ] ].

Lemma applyLocalizations_outline_witness :
  exists s',
    applyLocalizations 0 "fi-FI" "normal" (initialState localizedExam) = (Ok tt, s')
    /\ findAll (isE "localization") s' = []
    /\ findAll (isForOtherVersion "fi-FI" "normal") s' = []
    /\ attached s' = true.
Proof.
  destruct (@applyLocalizations_outline "fi-FI" "normal" (initialState localizedExam))
    as (s' & E & H1 & H2 & _ & Hatt & _).
  - apply distinct_NoDup. vm_compute. reflexivity.
  - reflexivity.
  - reflexivity.
  - reflexivity.
  - exists s'. split; [exact E |]. split; [exact H1 |]. split; [exact H2 | exact Hatt].
Defined.

(** ** Question ids and versions *)



Lemma attrAt_outline (u : nat) (k : string) (s : State) :
  attrAt s u k
  = match find (fun o => (ouid o =? u)%nat) (outline (root s)) with
    | Some o => attr k (snd o)
    | None => None
    end.
Proof.
  unfold attrAt, elementOf. pose proof (outline_find u (root s)) as H.
  destruct (lookup u (root s)) as [n |];
    destruct (find _ (outline (root s))) as [o |]; try discriminate H; [| reflexivity].
  cbn [option_map] in H. injection H as <-. now rewrite attr_label.
Qed.







(* ================================================================== *)
(** * Media metadata *)
(* ================================================================== *)

Definition mediaTypes : list string := ["audio"; "video"; "image"; "audio-test"].

(** The type [getMediaMetadata] is asked for. *)
Definition mediaTypeOf (nm : string) : string := if nm =? "audio-test" then "audio" else nm.

Lemma putAttr_twice (k v : string) (l : list (string * string)) :
  putAttr k v (putAttr k v l) = putAttr k v l.
Proof.
  induction l as [| [k0 v0] l IH]; cbn [putAttr].
  - now rewrite String.eqb_refl.
  - destruct (k0 =? k) eqn:E; cbn [putAttr].
    + now rewrite String.eqb_refl.
    + now rewrite E, IH.
Qed.

Lemma putAttr_pair_twice (k1 v1 k2 v2 : string) (l : list (string * string)) :
  k1 <> k2 ->
  putAttr k2 v2 (putAttr k1 v1 (putAttr k2 v2 (putAttr k1 v1 l)))
  = putAttr k2 v2 (putAttr k1 v1 l).
Proof.
  intros Hk.
  assert (E12 : (k1 =? k2) = false) by now apply String.eqb_neq.
  assert (E21 : (k2 =? k1) = false) by (apply String.eqb_neq; congruence).
  induction l as [| [k0 v0] l IH].
  - cbn [putAttr]. rewrite E12. cbn [putAttr]. rewrite String.eqb_refl. cbn [putAttr].
    now rewrite E12, String.eqb_refl.
  - cbn [putAttr]. destruct (k0 =? k1) eqn:E1.
    + cbn [putAttr]. rewrite E12. cbn [putAttr]. rewrite String.eqb_refl. cbn [putAttr].
      now rewrite E12, putAttr_twice.
    + cbn [putAttr]. destruct (k0 =? k2) eqn:E2.
      * cbn [putAttr]. rewrite E21. cbn [putAttr]. rewrite String.eqb_refl.
        now rewrite putAttr_twice.
      * cbn [putAttr]. rewrite E1. cbn [putAttr]. rewrite E2. now rewrite IH.
Qed.

Lemma attr_withAttr (k v k' : string) (n : node) :
  isElement n = true -> attr k' (withAttr k v n) = if k' =? k then Some v else attr k' n.
Proof.
  intros He. destruct n; try discriminate He. unfold attr.
  cbn [withAttr mapAttrs attrs]. apply lookupAttr_putAttr.
Qed.

Lemma attr_withAttr_other (k v k' : string) (n : node) :
  k' <> k -> attr k' (withAttr k v n) = attr k' n.
Proof.
  intros Hk. destruct n; try reflexivity. unfold attr.
  cbn [withAttr mapAttrs attrs]. rewrite lookupAttr_putAttr.
  destruct (k' =? k) eqn:E; [apply String.eqb_eq in E; contradiction | reflexivity].
Qed.

Lemma name_withAttr (k v : string) (n : node) : name (withAttr k v n) = name n.
Proof. now destruct n. Qed.

Lemma label_withAttr (k v : string) (n : node) : label (withAttr k v n) = withAttr k v (label n).
Proof. now destruct n. Qed.

Lemma relabelAll_pointwise (g h : node -> node) (os : list nat) (O : list (list nat * node)) :
  (forall o, In o O -> In (ouid o) os -> g (snd o) = h (snd o)) ->
  map (relabelAll g os) O = map (relabelAll h os) O.
Proof.
  intros H. apply map_ext_in. intros o Ho. unfold relabelAll.
  destruct (existsb (Nat.eqb (ouid o)) os) eqn:E; [| reflexivity].
  apply existsb_exists in E. destruct E as (v & Hv & Ev). apply Nat.eqb_eq in Ev. subst v.
  now rewrite (H o Ho Hv).
Qed.

Lemma relabelAll_same (os : list nat) (O : list (list nat * node)) :
  map (relabelAll (fun n => n) os) O = O.
Proof.
  rewrite <- (map_id O) at 2. apply map_ext. intros [c n]. unfold relabelAll. cbn [fst snd].
  now destruct (existsb _ os).
Qed.

Lemma relabelAt_one (g : node -> node) (u : nat) (O : list (list nat * node)) :
  map (relabelAt g u) O = map (relabelAll g [u]) O.
Proof.
  apply map_ext. intros [c n]. unfold relabelAt, relabelAll. cbn [fst snd existsb].
  now rewrite orb_false_r.
Qed.

Lemma media_isElement (n : node) : Js.inList (name n) mediaTypes = true -> isElement n = true.
Proof. destruct n; [reflexivity | |]; intros H; vm_compute in H; discriminate H. Qed.

Lemma counters_modifyNode (u : nat) (g : node -> node) (s : State) :
  attached (modifyNode u g s) = attached s /\ current (modifyNode u g s) = current s
  /\ nextUid (modifyNode u g s) = nextUid s /\ uuidCalls (modifyNode u g s) = uuidCalls s.
Proof. unfold modifyNode. now destruct (uid (root s) =? u)%nat. Qed.

Section Media.
Context {ext : Collaborators}.

(** The metadata of a media element, when [getMediaMetadata] has it. *)
Definition metadataOf (n : node) : option MediaMetadata :=
  if Js.inList (name n) mediaTypes then
    match attr "src" n with
    | Some src =>
        match getMediaMetadata src (mediaTypeOf (name n)) with
        | Ok metadata => Some metadata
        | Err _ => None
        end
    | None => None
    end
  else None.

(** A media element with its metadata written on it. *)
Definition annotate (n : node) : node :=
  match metadataOf n with
  | Some metadata =>
      if mediaTypeOf (name n) =? "audio" then withAttr "duration" (mm_duration metadata) n
      else withAttr "height" (mm_height metadata) (withAttr "width" (mm_width metadata) n)
  | None => n
  end.

(** What the loop needs of a node to go on. *)
Definition mediaOk (n : node) : Prop :=
  Js.inList (name n) mediaTypes = true -> metadataOf n <> None.

Lemma metadataOf_label (n : node) : metadataOf (label n) = metadataOf n.
Proof. unfold metadataOf. now rewrite name_label, attr_label. Qed.

Lemma uid_annotate (n : node) : uid (annotate n) = uid n.
Proof.
  unfold annotate. destruct (metadataOf n); [| reflexivity].
  destruct (mediaTypeOf (name n) =? "audio"); unfold withAttr; now rewrite ?uid_mapAttrs.
Qed.

Lemma name_annotate (n : node) : name (annotate n) = name n.
Proof.
  unfold annotate. destruct (metadataOf n); [| reflexivity].
  destruct (mediaTypeOf (name n) =? "audio"); now rewrite ?name_withAttr.
Qed.

Lemma src_annotate (n : node) : attr "src" (annotate n) = attr "src" n.
Proof.
  unfold annotate. destruct (metadataOf n); [| reflexivity].
  destruct (mediaTypeOf (name n) =? "audio");
    rewrite ?attr_withAttr_other; try reflexivity; discriminate.
Qed.

Lemma metadataOf_annotate (n : node) : metadataOf (annotate n) = metadataOf n.
Proof. unfold metadataOf. now rewrite name_annotate, src_annotate. Qed.

Lemma annotate_twice (n : node) : annotate (annotate n) = annotate n.
Proof.
  unfold annotate at 1. rewrite metadataOf_annotate, name_annotate. unfold annotate.
  destruct (metadataOf n) as [md |]; [| reflexivity].
  destruct (mediaTypeOf (name n) =? "audio"); destruct n; try reflexivity;
    unfold withAttr; cbn [mapAttrs].
  - now rewrite putAttr_twice.
  - rewrite putAttr_pair_twice; [reflexivity | discriminate].
Qed.

Lemma mediaOk_annotate (n : node) : mediaOk n -> mediaOk (annotate n).
Proof. unfold mediaOk. now rewrite name_annotate, metadataOf_annotate. Qed.

(** The step of [addMediaMetadata] for one attachment. *)
Definition annotateOne (attachment : nat) : M unit :=
  nm <- gets (nameOf attachment) ;;
  if Js.inList nm ["audio"; "video"; "image"; "audio-test"] then
    let type := if nm =? "audio-test" then "audio" else nm in
    src <- getAttribute "src" attachment ;;
    match getMediaMetadata src type with
    | Err e => throw e
    | Ok metadata =>
        if type =? "audio" then setAttribute attachment "duration" (mm_duration metadata)
        else
          setAttribute attachment "width" (mm_width metadata) ;;
          setAttribute attachment "height" (mm_height metadata)
    end
  else ret tt.

Lemma addMediaMetadata_steps (attachments : list nat) :
  addMediaMetadata attachments = forEach annotateOne attachments.
Proof. reflexivity. Qed.

Lemma annotateOne_outline (a : nat) (st : State) :
  distinctNodes st ->
  (forall o, In o (outline (root st)) -> ouid o = a -> mediaOk (snd o)) ->
  exists st1,
    annotateOne a st = (Ok tt, st1)
    /\ outline (root st1) = map (relabelAll annotate [a]) (outline (root st))
    /\ attached st1 = attached st /\ current st1 = current st
    /\ nextUid st1 = nextUid st /\ uuidCalls st1 = uuidCalls st.
Proof.
  intros Hnd Hok. unfold annotateOne. unfold bind at 1, gets at 1. unfold nameOf.
  fold mediaTypes.
  destruct (elementOf a st) as [n |] eqn:El.
  - assert (Hsame : forall o, In o (outline (root st)) -> In (ouid o) [a] -> snd o = label n).
    { intros o Ho [Eo | []]. now apply (@entry_of a n st o Hnd El Ho). }
    destruct (Js.inList (name n) mediaTypes) eqn:Hm.
    + destruct (@entry_exists a st n El) as (o & Ho & Eo).
      pose proof (Hok o Ho Eo) as Hmd. unfold mediaOk in Hmd.
      rewrite (Hsame o Ho (or_introl (eq_sym Eo))), name_label, metadataOf_label in Hmd.
      specialize (Hmd Hm).
      destruct (metadataOf n) as [md |] eqn:Emd; [clear Hmd | now destruct Hmd].
      assert (Egen : forall h, (forall m, metadataOf m = Some md -> name m = name n ->
                                          annotate m = h m) ->
                     map (relabelAll h [a]) (outline (root st))
                     = map (relabelAll annotate [a]) (outline (root st))).
      { intros h Hh. symmetry. apply relabelAll_pointwise. intros o' Ho' Hin.
        rewrite (Hsame o' Ho' Hin). apply Hh; [now rewrite metadataOf_label | apply name_label]. }
      unfold metadataOf in Emd. rewrite Hm in Emd.
      destruct (attr "src" n) as [src |] eqn:Esrc; [| discriminate Emd].
      fold (mediaTypeOf (name n)).
      destruct (getMediaMetadata src (mediaTypeOf (name n))) as [md' | e] eqn:Eget;
        [| discriminate Emd].
      injection Emd as ->.
      unfold bind at 1. rewrite (@getAttribute_run "src" a st src);
        [| unfold attrAt; now rewrite El].
      rewrite Eget.
      destruct (mediaTypeOf (name n) =? "audio") eqn:Eaudio.
      * rewrite setAttribute_run. eexists. split; [reflexivity |].
        split; [| apply counters_modifyNode].
        rewrite root_modifyNode.
        rewrite (@outline_modifyTree (withAttr "duration" (mm_duration md)) (uid_mapAttrs _)
                   (children_mapAttrs _) (label_withAttr "duration" (mm_duration md))
                   a (root st) Hnd).
        rewrite relabelAt_one. apply Egen. intros m Hmm Hname.
        unfold annotate. now rewrite Hmm, Hname, Eaudio.
      * unfold bind. rewrite !setAttribute_run. eexists. split; [reflexivity |].
        destruct (counters_modifyNode a (withAttr "height" (mm_height md))
                    (modifyNode a (withAttr "width" (mm_width md)) st)) as (A1 & A2 & A3 & A4).
        destruct (counters_modifyNode a (withAttr "width" (mm_width md)) st)
          as (B1 & B2 & B3 & B4).
        split; [| repeat split; congruence].
        rewrite !root_modifyNode.
        assert (Hnd1 : NoDup (uids (modifyTree a (withAttr "width" (mm_width md)) (root st)))).
        { apply distinct_modifyTree; [apply uid_mapAttrs | | exact Hnd].
          intros n0. unfold withAttr. rewrite children_mapAttrs. apply Permutation_refl. }
        rewrite (@outline_modifyTree (withAttr "height" (mm_height md)) (uid_mapAttrs _)
                   (children_mapAttrs _) (label_withAttr "height" (mm_height md)) a _ Hnd1).
        rewrite (@outline_modifyTree (withAttr "width" (mm_width md)) (uid_mapAttrs _)
                   (children_mapAttrs _) (label_withAttr "width" (mm_width md)) a (root st) Hnd).
        rewrite (@relabelAt_twice (withAttr "width" (mm_width md))
                   (withAttr "height" (mm_height md)) a (outline (root st)) (uid_mapAttrs _)).
        apply Egen. intros m Hmm Hname.
        unfold annotate. now rewrite Hmm, Hname, Eaudio.
    + exists st. split; [reflexivity |]. split; [| repeat split].
      rewrite <- (relabelAll_same [a] (outline (root st))) at 1.
      apply relabelAll_pointwise. intros o Ho Hin. rewrite (Hsame o Ho Hin).
      unfold annotate, metadataOf. now rewrite name_label, Hm.
  - exists st. split; [reflexivity |]. split; [| repeat split].
    rewrite <- (relabelAll_same [a] (outline (root st))) at 1.
    apply relabelAll_pointwise. intros o Ho [Eo | []].
    exfalso. now apply (@entry_present a st o El Ho).
Qed.

Lemma annotate_loop (us : list nat) :
  forall st, distinctNodes st ->
  (forall o, In o (outline (root st)) -> In (ouid o) us -> mediaOk (snd o)) ->
  exists st',
    forEach annotateOne us st = (Ok tt, st')
    /\ outline (root st') = map (relabelAll annotate us) (outline (root st))
    /\ attached st' = attached st /\ current st' = current st
    /\ nextUid st' = nextUid st /\ uuidCalls st' = uuidCalls st.
Proof.
  induction us as [| a rest IH]; intros st Hnd Hok.
  - exists st. split; [reflexivity |]. split; [| repeat split].
    symmetry. apply (relabelAll_nil annotate).
  - destruct (@annotateOne_outline a st Hnd) as (st1 & E1 & Hout1 & A1 & A2 & A3 & A4).
    { intros o Ho Eo. apply Hok; [exact Ho | left; now symmetry]. }
    assert (Hnd1 : distinctNodes st1).
    { apply distinct_outline. rewrite Hout1, (@ouid_relabelAll annotate uid_annotate).
      now apply distinct_outline. }
    destruct (IH st1 Hnd1) as (st' & E2 & Hout2 & B1 & B2 & B3 & B4).
    { intros o1 Ho1 Hin. rewrite Hout1 in Ho1. apply in_map_iff in Ho1.
      destruct Ho1 as (o & <- & Ho).
      rewrite (@ouid_relabelAll_ annotate uid_annotate) in Hin.
      assert (Hm : mediaOk (snd o)) by (apply Hok; [exact Ho | now right]).
      unfold relabelAll. cbn [snd]. destruct (existsb _ [a]); [now apply mediaOk_annotate | exact Hm]. }
    exists st'. split; [cbn [forEach]; unfold bind; now rewrite E1 |].
    split; [| repeat split; congruence].
    rewrite Hout2, Hout1.
    apply (@relabelAll_app annotate uid_annotate annotate_twice [a] rest).
Qed.

End Media.

(** What a changed node of the document shows afterwards. *)
Lemma attrAt_relabelled (g : node -> node) (os : list nat) (s s' : State)
      (a : nat) (n : node) (k : string) :
  (forall m, uid (g m) = uid m) ->
  distinctNodes s ->
  outline (root s') = map (relabelAll g os) (outline (root s)) ->
  elementOf a s = Some n -> In a os ->
  attrAt s' a k = attr k (g (label n)).
Proof.
  intros g_uid Hnd Hout El Hin. rewrite attrAt_outline, Hout.
  rewrite <- (keepAll_nil (outline (root s))).
  rewrite (@ofind_round g g_uid [] os a (outline (root s)) (proj1 (distinct_outline s) Hnd)).
  destruct (@entry_exists a s n El) as (o & Ho & Eo).
  pose proof (@ofind_unique (outline (root s)) o (proj1 (distinct_outline s) Hnd) Ho) as F.
  rewrite Eo in F. rewrite F.
  assert (K : keepAll [] o = true) by (apply keepAll_spec; intros u _ []).
  rewrite K. rewrite (@relabelAll_in g os o) by now rewrite Eo.
  now rewrite (@entry_of a n s o Hnd El Ho Eo).
Qed.

(** X17: [addMediaMetadata], when every listed audio, audio test,
    video and image has a [src] for which [getMediaMetadata] has the
    metadata of its type, an audio test being asked for as an audio,
    returns.  Afterwards an audio or audio test carries the [duration]
    of its metadata, with its [width] and [height] as before; a video
    or image carries the [width] and [height] of its metadata, with its
    [duration] as before.  The tree is the same, node for node, except
    that each listed media element carries its metadata; the counters
    are untouched. *)
Theorem addMediaMetadata_annotates {ext : Collaborators} (attachments : list nat) (s : State) :
  distinctNodes s ->
  (forall a n, In a attachments -> elementOf a s = Some n ->
     Js.inList (name n) mediaTypes = true ->
     exists src metadata,
       attr "src" n = Some src
       /\ getMediaMetadata src (mediaTypeOf (name n)) = Ok metadata) ->
  exists s',
    addMediaMetadata attachments s = (Ok tt, s')
    /\ (forall a n src metadata,
          In a attachments -> elementOf a s = Some n ->
          Js.inList (name n) mediaTypes = true -> attr "src" n = Some src ->
          getMediaMetadata src (mediaTypeOf (name n)) = Ok metadata ->
          if mediaTypeOf (name n) =? "audio"
          then attrAt s' a "duration" = Some (mm_duration metadata)
               /\ attrAt s' a "width" = attr "width" n
               /\ attrAt s' a "height" = attr "height" n
          else attrAt s' a "width" = Some (mm_width metadata)
               /\ attrAt s' a "height" = Some (mm_height metadata)
               /\ attrAt s' a "duration" = attr "duration" n)
    /\ outline (root s') = map (relabelAll annotate attachments) (outline (root s))
    /\ attached s' = attached s /\ current s' = current s
    /\ nextUid s' = nextUid s /\ uuidCalls s' = uuidCalls s.
Proof.
  intros Hnd Hok.
  destruct (@annotate_loop ext attachments s Hnd) as (s' & E & Hout & Hrest).
  { intros o Ho Hin Hm.
    destruct (find (fun x => (ouid x =? ouid o)%nat) (outline (root s))) as [o' |] eqn:F.
    - pose proof (outline_find (ouid o) (root s)) as Hf. rewrite F in Hf.
      destruct (lookup (ouid o) (root s)) as [n |] eqn:El; [| discriminate Hf].
      assert (Eo : snd o = label n) by (now apply (@entry_of (ouid o) n s o Hnd El Ho)).
      rewrite Eo, name_label in Hm. rewrite Eo, metadataOf_label.
      destruct (Hok (ouid o) n Hin El Hm) as (src & md & Esrc & Eget).
      unfold metadataOf. now rewrite Hm, Esrc, Eget.
    - exfalso. now apply (@ofind_None (outline (root s)) (ouid o) F o Ho). }
  exists s'. split; [now rewrite addMediaMetadata_steps |].
  split; [| split; [exact Hout | exact Hrest]].
  intros a n src md Hin El Hm Esrc Eget.
  assert (Emd : metadataOf (label n) = Some md).
  { rewrite metadataOf_label. unfold metadataOf. now rewrite Hm, Esrc, Eget. }
  assert (Hel : isElement (label n) = true).
  { apply media_isElement. now rewrite name_label. }
  assert (Hat : forall k, attrAt s' a k = attr k (annotate (label n))).
  { intros k. apply (@attrAt_relabelled annotate attachments s s' a n k uid_annotate Hnd Hout El Hin). }
  rewrite !Hat. unfold annotate. rewrite Emd, name_label.
  destruct (mediaTypeOf (name n) =? "audio").
  - rewrite (@attr_withAttr "duration" (mm_duration md) "duration" (label n) Hel).
    rewrite !attr_withAttr_other by discriminate. rewrite !attr_label. now repeat split.
  - assert (Hel' : isElement (withAttr "width" (mm_width md) (label n)) = true)
      by (destruct n; try discriminate Hel; reflexivity).
    rewrite (@attr_withAttr "height" (mm_height md) "height" _ Hel').
    rewrite (@attr_withAttr_other "height" (mm_height md) "width") by discriminate.
    rewrite (@attr_withAttr "width" (mm_width md) "width" (label n) Hel).
    rewrite !attr_withAttr_other by discriminate. rewrite !attr_label. now repeat split.
Qed.

(** Metadata for audio and for one image. *)
Definition mediaCollaborators : Collaborators :=
  {| GradingStructure := unit;
     schemaError := fun _ => None;
     generateUuid := fun _ => "00000000-0000-0000-0000-000000000000";
     createTranslationFile := fun _ => "";
     createGradingStructure := fun _ _ _ => tt;
     translate := fun _ _ _ => Some "Title";
     renderFormula := fun _ _ _ => Svg "<svg/>";
     getMediaMetadata := fun src type =>
       if type =? "audio" then Ok (mkMediaMetadata "12" "" "")
       else if src =? "a.png" then Ok (mkMediaMetadata "" "640" "480")
       else Err "no metadata" |}.

Definition mediaExam : node :=
  Element 0 NsE "exam" []
    [ Element 1 NsE "audio" [("src", "a.mp3")] [];
      Element 2 NsE "audio-test" [("src", "t.mp3"); ("width", "1")] [];
      Element 3 NsE "image" [("src", "a.png")] [];
      Element 4 NsE "file" [("src", "f.pdf")] [] ].

Lemma addMediaMetadata_annotates_witness :
  exists s',
    @addMediaMetadata mediaCollaborators [1; 2; 3; 4]%nat (initialState mediaExam) = (Ok tt, s')
    /\ attrAt s' 2 "duration" = Some "12" /\ attrAt s' 2 "width" = Some "1"
    /\ attrAt s' 3 "width" = Some "640" /\ attrAt s' 3 "height" = Some "480".
Proof.
  destruct (@addMediaMetadata_annotates mediaCollaborators [1; 2; 3; 4]%nat
              (initialState mediaExam)) as (s' & E & H & _).
  - apply distinct_NoDup. vm_compute. reflexivity.
  - intros a n [<- | [<- | [<- | [<- | []]]]] El Hm; vm_compute in El; injection El as <-.
    + exists "a.mp3", (mkMediaMetadata "12" "" ""). split; reflexivity.
    + exists "t.mp3", (mkMediaMetadata "12" "" ""). split; reflexivity.
    + exists "a.png", (mkMediaMetadata "" "640" "480"). split; reflexivity.
    + vm_compute in Hm. discriminate Hm.
  - exists s'. split; [exact E |].
    pose proof (H 2%nat _ "t.mp3" (mkMediaMetadata "12" "" "") (or_intror (or_introl eq_refl))
                  eq_refl eq_refl eq_refl eq_refl) as H2.
    pose proof (H 3%nat _ "a.png" (mkMediaMetadata "" "640" "480")
                  (or_intror (or_intror (or_introl eq_refl)))
                  eq_refl eq_refl eq_refl eq_refl) as H3.
    cbv beta iota in H2, H3. vm_compute in H2. vm_compute in H3.
    destruct H2 as (D2 & W2 & _). destruct H3 as (W3 & H3 & _).
    repeat split; assumption.
Defined.

(* ================================================================== *)
(** * The answers of the parsed exam *)
(* ================================================================== *)

(** ** Lists *)

(** Filtering what a list's members give, member by member. *)
Lemma filter_each (A B : Type) (keep : B -> bool) (each : A -> list B) :
  forall xs, filter keep (flat_map each xs) = flat_map (fun x => filter keep (each x)) xs.
Proof.
  induction xs as [| x xs IH]; [reflexivity |]. cbn [flat_map].
  now rewrite filter_app, IH.
Qed.

(** What the kept members of a list give. *)
Lemma each_kept (A B : Type) (keep : A -> bool) (each : A -> list B) :
  forall xs, flat_map each (filter keep xs) = flat_map (fun x => if keep x then each x else []) xs.
Proof.
  induction xs as [| x xs IH]; [reflexivity |]. cbn [filter flat_map].
  destruct (keep x); cbn [flat_map app]; now rewrite IH.
Qed.

Lemma flat_map_ext_in_ (A B : Type) (f g : A -> list B) (l : list A) :
  (forall x, In x l -> f x = g x) -> flat_map f l = flat_map g l.
Proof. intros H. apply flat_map_ext_Forall. now apply Forall_forall. Qed.

Lemma nonEmpty_flat_map (A B : Type) (f : A -> list B) (l : list A) :
  nonEmpty (flat_map f l) = existsb (fun x => nonEmpty (f x)) l.
Proof.
  induction l as [| x l IH]; [reflexivity |]. cbn [flat_map existsb].
  destruct (f x); [exact IH | reflexivity].
Qed.

Lemma existsb_flat_map (A B : Type) (p : B -> bool) (f : A -> list B) (l : list A) :
  existsb p (flat_map f l) = existsb (fun x => existsb p (f x)) l.
Proof.
  induction l as [| x l IH]; [reflexivity |]. cbn [flat_map existsb].
  now rewrite existsb_app, IH.
Qed.

Lemma existsb_ext_in_ (A : Type) (p q : A -> bool) (l : list A) :
  (forall x, In x l -> p x = q x) -> existsb p l = existsb q l.
Proof.
  induction l as [| x l IH]; intros H; [reflexivity |]. cbn [existsb].
  rewrite (H x (or_introl eq_refl)), IH; [reflexivity |]. intros y Hy. apply H. now right.
Qed.

Lemma find_skip (A : Type) (p : A -> bool) (l1 l2 : list A) (x : A) :
  (forall y, In y l1 -> p y = false) -> p x = true -> find p (l1 ++ x :: l2) = Some x.
Proof.
  induction l1 as [| y l1 IH]; intros H Hx; cbn [app find].
  - now rewrite Hx.
  - rewrite (H y (or_introl eq_refl)). apply IH; [| exact Hx]. intros z Hz. apply H. now right.
Qed.

(** ** Questions and their answers, by the place in the document *)

(** A question without a question below it: the kind whose answers
    [parseQuestion] takes. *)
Definition leafQuestion (q : node) : bool :=
  negb (existsb (isE "question") (descendants q)).

(** The nearest question among the ancestors has no question below
    it. *)
Definition nearestLeaf (anc : list node) : bool :=
  match find (isE "question") anc with
  | Some q => leafQuestion q
  | None => false
  end.

(** An answer element directly in a question without child
    questions. *)
Definition answerOf (e : list node * node) : bool :=
  isEAny answerTypes (snd e) && nearestLeaf (fst e).

(** From the exam element the way leads through a section and a
    question that is its child. *)
Definition underSection (anc : list node) : bool :=
  match rev anc with
  | _ :: sec :: q :: _ => isE "section" sec && isE "question" q
  | _ => false
  end.

Definition collected (e : list node * node) : bool :=
  answerOf e && underSection (fst e).

Lemma hasQuestion (n : node) :
  nonEmpty (questionsIn n) = existsb (isE "question") (descendantsOrSelf n).
Proof.
  induction n as [u s nm at_ ch IH | |] using node_ind'; [| reflexivity | reflexivity].
  unfold descendantsOrSelf. cbn [existsb]. cbn [questionsIn].
  destruct (isE "question" (Element u s nm at_ ch)); [reflexivity |]. cbn [orb].
  cbn [descendants]. rewrite nonEmpty_flat_map, existsb_flat_map.
  apply existsb_ext_in_. intros c Hc. rewrite Forall_forall in IH. exact (IH c Hc).
Qed.

Lemma hasChildQuestion (n : node) :
  nonEmpty (flat_map questionsIn (children n)) = existsb (isE "question") (descendants n).
Proof.
  rewrite descendants_children, nonEmpty_flat_map, existsb_flat_map.
  apply existsb_ext_in_. intros c _. apply hasQuestion.
Qed.

(** The ancestors of a node below [n]: nodes below [n], then [n] and
    its ancestors. *)
Lemma ctx_split (n : node) :
  forall anc e, In e (descendantsCtx anc n) ->
    exists inner, fst e = inner ++ n :: anc /\ forall y, In y inner -> In y (descendants n).
Proof.
  induction n as [u s nm at_ ch IH | |] using node_ind'; intros anc e He;
    [| destruct He | destruct He].
  cbn [descendantsCtx] in He. apply in_flat_map in He. destruct He as (c & Hc & [<- | He]).
  - exists []. split; [reflexivity |]. intros y [].
  - rewrite Forall_forall in IH. destruct (IH c Hc _ _ He) as (inner & E & Hin).
    exists (inner ++ [c]). split; [rewrite E, <- app_assoc; reflexivity |].
    intros y Hy. apply in_app_or in Hy. destruct Hy as [Hy | [<- | []]].
    + apply (@descendants_child _ c); [exact Hc | right; now apply Hin].
    + apply (@descendants_child _ c); [exact Hc | now left].
Qed.

Lemma question_no_answer (n : node) : isE "question" n = true -> isEAny answerTypes n = false.
Proof.
  unfold isE, isEAny. destruct (isElement n), (ns_eqb (namespaceOf n) NsE); cbn [andb];
    try discriminate. intros E. apply String.eqb_eq in E. now rewrite E.
Qed.

Lemma section_no_question (n : node) : isE "section" n = true -> isE "question" n = false.
Proof.
  unfold isE. destruct (isElement n), (ns_eqb (namespaceOf n) NsE); cbn [andb];
    try discriminate. intros E. apply String.eqb_eq in E. now rewrite E.
Qed.

Lemma isEAny_question (n : node) : isEAny ["question"] n = isE "question" n.
Proof.
  unfold isE, isEAny. destruct (isElement n), (ns_eqb (namespaceOf n) NsE); cbn [andb];
    try reflexivity. cbn [Js.inList existsb]. now rewrite orb_false_r.
Qed.

(** The answers of the questions found at or below [n]. *)
Definition answersIn (n : node) : list Answer := flat_map collectAnswers (questionsIn n).

(** [parseAnswer] for an answer element, with the nearest question
    above it. *)
Definition answerAt (e : list node * node) : Answer :=
  parseAnswer (uid (snd e))
              (match find (isE "question") (fst e) with Some q => uid q | None => 0%nat end).

Definition entryUid (e : list node * node) : nat := uid (snd e).

(** Entries of distinct nodes stay so when some are left out. *)
Lemma distinct_entries (keep : list node * node -> bool) :
  forall entries, NoDup (map entryUid entries) -> NoDup (map entryUid (filter keep entries)).
Proof.
  induction entries as [| e entries IH]; intros Hnd; [constructor |].
  cbn [map] in Hnd. inversion Hnd as [| ? ? Hnotin Hnd']. subst. cbn [filter].
  destruct (keep e); [| now apply IH]. cbn [map]. constructor; [| now apply IH].
  intros Hin. apply Hnotin. apply in_map_iff in Hin. destruct Hin as (y & Ey & Hy).
  apply filter_In in Hy. rewrite <- Ey. apply in_map. tauto.
Qed.

Lemma answersIn_children (anc : list node) (n : node) :
  (forall c, In c (children n) ->
     answersIn c = map answerAt (filter answerOf ((n :: anc, c) :: descendantsCtx (n :: anc) c))) ->
  flat_map collectAnswers (flat_map questionsIn (children n))
  = map answerAt (filter answerOf (descendantsCtx anc n)).
Proof.
  intros H. rewrite descendantsCtx_children, filter_each.
  rewrite (map_flat_map _ answerAt).
  rewrite (flat_map_flat_map questionsIn collectAnswers).
  apply flat_map_ext_in_. intros c Hc. apply (H c Hc).
Qed.

Lemma questionsIn_outline (n : node) :
  forall anc,
    match find (isE "question") anc with
    | Some q => leafQuestion q = false
    | None => True
    end ->
    answersIn n = map answerAt (filter answerOf ((anc, n) :: descendantsCtx anc n)).
Proof.
  induction n as [u s nm at_ ch IH | |] using node_ind'; intros anc Hanc.
  - set (n := Element u s nm at_ ch) in *.
    assert (Hself : answerOf (anc, n) = false \/ isE "question" n = false).
    { destruct (isE "question" n) eqn:Eq; [left | now right].
      unfold answerOf. cbn [fst snd]. now rewrite (question_no_answer n Eq). }
    rewrite Forall_forall in IH.
    destruct (isE "question" n) eqn:Eq.
    + destruct Hself as [Hself | Hself]; [| discriminate Hself].
      cbn [filter]. rewrite Hself. unfold answersIn.
      assert (Eqs : questionsIn n
                    = [ if nonEmpty (flat_map questionsIn ch) then mkQuestion u (flat_map questionsIn ch) []
                        else mkQuestion u [] (map (fun a => parseAnswer (uid a) u)
                                                  (xpathOr answerTypes n)) ]).
      { unfold n at 1. cbn [questionsIn]. fold n. now rewrite Eq. }
      rewrite Eqs. cbn [flat_map]. rewrite app_nil_r.
      assert (Hq : nonEmpty (flat_map questionsIn ch)
                   = existsb (isE "question") (descendants n))
        by (exact (hasChildQuestion n)).
      destruct (nonEmpty (flat_map questionsIn ch)) eqn:Ene.
      * cbn [collectAnswers nonEmpty].
        change ch with (children n) at 1.
        apply answersIn_children. intros c Hc. apply (IH c Hc (n :: anc)).
        cbn [find]. rewrite Eq. unfold leafQuestion. now rewrite <- Hq.
      * cbn [collectAnswers].
        assert (Eans : (if nonEmpty (map (fun a => parseAnswer (uid a) u) (xpathOr answerTypes n))
                        then map (fun a => parseAnswer (uid a) u) (xpathOr answerTypes n)
                        else flat_map collectAnswers [])
                       = map (fun a => parseAnswer (uid a) u) (xpathOr answerTypes n)).
        { now destruct (map _ (xpathOr answerTypes n)). }
        rewrite Eans. unfold xpathOr, descendantsNamed.
        rewrite <- (map_snd_descendantsCtx n anc), filter_map_snd, map_map.
        assert (Hnear : forall e, In e (descendantsCtx anc n) ->
                          find (isE "question") (fst e) = Some n).
        { intros e He. destruct (@ctx_split n anc e He) as (inner & E & Hin).
          rewrite E. apply find_skip; [| exact Eq].
          intros y Hy. destruct (isE "question" y) eqn:Ey; [| reflexivity].
          assert (Ht : existsb (isE "question") (descendants n) = true)
            by (apply existsb_exists; exists y; split; [now apply Hin | exact Ey]).
          congruence. }
        rewrite (@filter_ext_in_ _ (fun x => isEAny answerTypes (snd x)) answerOf).
        -- apply map_ext_in. intros e He. apply filter_In in He. destruct He as [He _].
           unfold answerAt. now rewrite (Hnear e He).
        -- intros e He. unfold answerOf, nearestLeaf. rewrite (Hnear e He).
           unfold leafQuestion. rewrite <- Hq. cbn [negb]. now rewrite andb_true_r.
    + assert (Hn : answerOf (anc, n) = false).
      { unfold answerOf, nearestLeaf. cbn [fst snd].
        destruct (find (isE "question") anc) as [q |]; [rewrite Hanc |]; apply andb_false_r. }
      cbn [filter]. rewrite Hn. unfold answersIn.
      assert (Eqs : questionsIn n = flat_map questionsIn ch).
      { unfold n at 1. cbn [questionsIn]. fold n. now rewrite Eq. }
      rewrite Eqs. change ch with (children n).
      apply answersIn_children. intros c Hc. apply (IH c Hc (n :: anc)).
      cbn [find]. rewrite Eq. exact Hanc.
  - cbn [descendantsCtx filter]. unfold answerOf. reflexivity.
  - cbn [descendantsCtx filter]. unfold answerOf. reflexivity.
Qed.

Lemma parseQuestion_questionsIn (q : node) :
  isE "question" q = true -> questionsIn q = [parseQuestion q].
Proof.
  intros Eq. destruct q as [u s nm at_ ch | |]; try discriminate Eq.
  cbn [questionsIn]. rewrite Eq. unfold parseQuestion. cbn [children uid].
  now destruct (nonEmpty (flat_map questionsIn ch)).
Qed.

Lemma filter_self (A : Type) (p : A -> bool) (l : list A) :
  flat_map (fun x => if p x then [x] else []) l = filter p l.
Proof.
  induction l as [| x l IH]; [reflexivity |]. cbn [flat_map filter].
  destruct (p x); cbn [app]; now rewrite IH.
Qed.

(** When the sections are children of the exam element, they are found
    among its children. *)
Lemma sections_children (t : node) :
  isE "section" t = false ->
  (forall c x, In c (children t) -> In x (descendants c) -> isE "section" x = false) ->
  filter (isE "section") (descendantsOrSelf t) = filter (isE "section") (children t).
Proof.
  intros Ht H. unfold descendantsOrSelf. cbn [filter]. rewrite Ht.
  rewrite descendants_children, filter_each, <- filter_self.
  apply flat_map_ext_in_. intros c Hc. unfold descendantsOrSelf. cbn [filter].
  rewrite (@filter_nothing _ (isE "section") (descendants c)); [reflexivity |].
  intros x Hx. now apply (H c x).
Qed.

Lemma flat_map_nothing (A B : Type) (l : list A) : flat_map (fun _ : A => @nil B) l = [].
Proof. induction l as [| x l IH]; [reflexivity | exact IH]. Qed.

(** The entries at and below a child [d] of a child [c] of the exam
    element that count. *)
Lemma collected_below (t c d : node) :
  In c (children t) -> In d (children c) ->
  map answerAt (filter collected (([c; t], d) :: descendantsCtx [c; t] d))
  = if isE "section" c && isE "question" d then collectAnswers (parseQuestion d) else [].
Proof.
  intros Hc Hd.
  assert (Hself : collected ([c; t], d) = false) by (unfold collected; apply andb_false_r).
  cbn [filter]. rewrite Hself.
  assert (Hunder : forall e, In e (descendantsCtx [c; t] d) ->
                     underSection (fst e) = isE "section" c && isE "question" d).
  { intros e He. destruct (@ctx_split d [c; t] e He) as (inner & E & _).
    unfold underSection. rewrite E, rev_app_distr. reflexivity. }
  destruct (isE "section" c && isE "question" d) eqn:Eb.
  - apply andb_true_iff in Eb. destruct Eb as [Ec Eq].
    rewrite (@filter_ext_in_ _ collected answerOf).
    + assert (Hd' : answerOf ([c; t], d) = false).
      { unfold answerOf. cbn [fst snd]. now rewrite (question_no_answer d Eq). }
      transitivity (map answerAt (filter answerOf (([c; t], d) :: descendantsCtx [c; t] d)));
        [cbn [filter]; now rewrite Hd' |].
      rewrite <- questionsIn_outline.
      * unfold answersIn. rewrite (parseQuestion_questionsIn d Eq). cbn [flat_map].
        apply app_nil_r.
      * cbn [find]. rewrite (section_no_question c Ec).
        destruct (isE "question" t) eqn:Et; [| exact I].
        unfold leafQuestion. apply negb_false_iff. apply existsb_exists. exists d.
        split; [| exact Eq]. apply (@descendants_child t c d Hc). right.
        apply (@descendants_child c d d Hd). now left.
    + intros e He. unfold collected. rewrite (Hunder e He). apply andb_true_r.
  - rewrite (@filter_nothing _ collected (descendantsCtx [c; t] d)); [reflexivity |].
    intros e He. unfold collected. rewrite (Hunder e He). apply andb_false_r.
Qed.

(** X18: the answers [parseExamStructure] collects, when the sections
    are children of the exam element.  They are the answer elements
    that lie in a question without a question below it, under a
    question that is the child of a section; each is listed once, in
    document order, with the nearest question above it as its
    question.  Answer elements directly in a question that has child
    questions, and those outside the questions of the sections, are not
    collected. *)
Theorem parseExamStructure_answers (s : State) :
  attached s = true ->
  isE "section" (root s) = false ->
  (forall c x, In c (children (root s)) -> In x (descendants c) -> isE "section" x = false) ->
  e_answers (parseExamStructure s)
  = map answerAt (filter collected (descendantsOrSelfCtx (root s)))
  /\ (distinctNodes s -> NoDup (map a_element (e_answers (parseExamStructure s)))).
Proof.
  intros Hatt Hroot Hsec.
  assert (E : e_answers (parseExamStructure s)
              = map answerAt (filter collected (descendantsOrSelfCtx (root s)))).
  { unfold parseExamStructure. cbn [e_answers]. unfold findAll. rewrite Hatt.
    rewrite (sections_children (root s) Hroot Hsec).
    rewrite flat_map_map, flat_map_flat_map, each_kept.
    unfold descendantsOrSelfCtx. cbn [filter].
    assert (H0 : collected ([], root s) = false) by (unfold collected; apply andb_false_r).
    rewrite H0, descendantsCtx_children, filter_each, map_flat_map.
    apply flat_map_ext_in_. intros c Hc.
    assert (Hself : collected ([root s], c) = false) by (unfold collected; apply andb_false_r).
    cbn [filter]. rewrite Hself.
    rewrite descendantsCtx_children, filter_each, map_flat_map.
    rewrite (@flat_map_ext_in_ _ _ _
               (fun d => if isE "section" c && isE "question" d
                         then collectAnswers (parseQuestion d) else []) (children c));
      [| intros d Hd; now apply collected_below].
    destruct (isE "section" c); cbn [andb].
    - unfold parseSection. cbn [s_questions]. rewrite flat_map_map.
      unfold childrenNamed. rewrite each_kept.
      apply flat_map_ext_in_. intros d _. now rewrite isEAny_question.
    - symmetry. apply flat_map_nothing. }
  split; [exact E |].
  intros Hnd. rewrite E, map_map.
  change (fun e => a_element (answerAt e)) with entryUid.
  unfold distinctNodes, uids in Hnd. rewrite <- map_snd_entries, map_map in Hnd.
  change (fun x : list node * node => uid (snd x)) with entryUid in Hnd.
  now apply distinct_entries.
Qed.

(** A question with an answer of its own beside a child question, an
    answer outside the questions, and a question outside the
    sections. *)
Definition nestedExam : node :=
  Element 0 NsE "exam" []
    [ Element 1 NsE "section" []
        [ Element 2 NsE "question" []
            [ Element 3 NsE "text-answer" [] [];
              Element 4 NsE "question" []
                [ Element 5 NsE "text-answer" [] [];
                  Element 6 NsXhtml "p" [] [ Element 7 NsE "choice-answer" [] [] ] ] ];
          Element 8 NsE "text-answer" [] [];
          Element 9 NsE "question" [] [ Element 10 NsE "scored-text-answer" [] [] ] ];
      Element 11 NsE "question" [] [ Element 12 NsE "text-answer" [] [] ] ].

Lemma parseExamStructure_answers_witness :
  e_answers (parseExamStructure (initialState nestedExam))
  = [mkAnswer 5 4; mkAnswer 7 4; mkAnswer 10 9]
  /\ NoDup (map a_element (e_answers (parseExamStructure (initialState nestedExam)))).
Proof.
  destruct (@parseExamStructure_answers (initialState nestedExam)) as [E Hnd].
  - reflexivity.
  - reflexivity.
  - intros c x Hc Hx.
    pose proof (proj1 (forallb_forall _ _)
                  (eq_refl : forallb (fun c => forallb (fun x => negb (isE "section" x))
                                                       (descendants c))
                                     (children (root (initialState nestedExam))) = true)
                  c Hc) as H1.
    pose proof (proj1 (forallb_forall _ _) H1 x Hx) as H2. now apply negb_true_iff in H2.
  - split; [rewrite E; vm_compute; reflexivity |].
    apply Hnd. apply distinct_NoDup. vm_compute. reflexivity.
Defined.
